(** * SeedHammer controller GUI (package gui): a shallow embedding

    The development follows [gui/gui.go].  Every Go function that the
    properties below talk about is transcribed as a Rocq function with the
    same name; methods live in a module named after their receiver type
    ([Context_.Events], [EngraveScreen_.moveStep], ...).

    Conventions of the embedding:
    - [time.Time] and [time.Duration] are integers ([Z]) counting
      nanoseconds; the zero [time.Time] is [0].
    - [float32] values are exact rationals ([Q]).
    - a Go array or slice is a [list]; reading out of range is a panic
      and is modelled by [None] wherever the code can reach it.
    - a [go func() { ... }()] statement records the started goroutine in
      the ghost field [Context.spawned]; what a goroutine does when it is
      scheduled is given separately by [Runtime.run].
    - [Platform.Now()] is the field [Now] of the platform record: the
      clock is read as one instant per evaluated frame.
    - drawing operations ([op], [layout], [widget], [assets]) have no
      influence on the state and are left out. *)

From Stdlib Require Import ZArith QArith List Bool Lia String Ascii.
From stdpp Require Import base option gmap strings list sorting.

Local Open Scope nat_scope.

(* ===================================================================== *)
(** * Part I: the program                                                 *)
(* ===================================================================== *)

(** ** Package [input] *)

Module input.

(** Modelled from the spec: package [input] is not part of the sources at
    hand.  A button is an integer code; the eight physical buttons come
    first and index [Context.Buttons]; [Rune] and [Screenshot] are
    synthetic events without a slot in the button-state array. *)
Abbreviation Button := nat.

Definition Up : Button := 0.
Definition Down : Button := 1.
Definition Left : Button := 2.
Definition Right : Button := 3.
Definition Center : Button := 4.
Definition Button1 : Button := 5.
Definition Button2 : Button := 6.
Definition Button3 : Button := 7.
Definition Rune : Button := 8.
Definition Screenshot : Button := 9.

Record Event := mkEvent {
  Button_ : Button;
  Pressed : bool;
  Rune_ : N
}.

End input.

(** ** Time *)

Definition Time := Z.
Definition Duration := Z.

Definition Millisecond : Duration := 1000000%Z.
Definition Second : Duration := 1000000000%Z.
Definition Minute : Duration := (60 * Second)%Z.

(** [t.IsZero()] *)
Definition IsZero (t : Time) : bool := (t =? 0)%Z.
(** [t.Add(d)] *)
Definition Add (t : Time) (d : Duration) : Time := (t + d)%Z.
(** [t.Sub(u)] *)
Definition Sub (t u : Time) : Duration := (t - u)%Z.
(** [t.Before(u)] *)
Definition Before (t u : Time) : bool := (t <? u)%Z.
(** [d.Seconds()] *)
Definition Seconds (d : Duration) : Q := (d # 1) / (Second # 1).
Arguments Seconds d%_Z.

(** ** Errors and the error dialog *)

Definition Path := list N.

Inductive error :=
| errDuplicateKey (Fingerprint : N)
| errNonstandardDerivation (p : Path)
| ErrDescriptorTooLarge
| errKeyNotInDescriptor
| errorString (msg : string).

Record ErrorScreen := mkErrorScreen {
  Title : string;
  Body : string
}.

(** ** The engraver session state *)

(** An [io.ReadWriteCloser] handed out by [Platform.Engraver()] is
    identified by a number. *)
Definition Device := nat.

(** Channels are made by [moveStep] all at once; a channel field records
    whether it is non-nil. *)
Record engraveState := mkEngraveState {
  dev : option Device;
  cancel_ch : bool;
  progress_ch : bool;
  errs_ch : bool;
  lastProgress : Q;
  warning : option ErrorScreen;
  fatal : bool
}.

(** [engraveState{}] *)
Definition engraveState_zero : engraveState :=
  mkEngraveState None false false false 0 None false.

(** ** Goroutines *)

(** The [go] statements of the package. *)
Inductive Goroutine :=
| GoWakeupAfter (d : Duration)
    (* Context.WakeupAfter *)
| GoWakeupChan
    (* the forwarding goroutine of WakeupChan *)
| GoEngrave (d : option Device) (dryRun : bool) (side : nat)
    (* the worker of moveStep: mjolnir.Engrave; dev.Close(); errs <- err *)
| GoSideEngrave (side : nat)
    (* go s.plate.Sides[ins.Side].Engrave(prog) *)
| GoClose (e : engraveState)
    (* the teardown goroutine of EngraveScreen.close *).

(** ** Context and the event model *)

Definition nbuttons : nat := 8.

Record Event := mkEvent {
  Event_ : input.Event;
  Click : bool
}.

Definition Button (e : Event) : input.Button := input.Button_ (Event_ e).
Definition Pressed (e : Event) : bool := input.Pressed (Event_ e).
Definition Rune (e : Event) : N := input.Rune_ (Event_ e).

(** What the platform answers during one frame. *)
Record Platform := mkPlatform {
  Now : Time;
  Engraver : Device + error
}.

Record Context := mkContext {
  Buttons : list bool;
  Repeats : list Time;
  platform : Platform;
  Calibrated : bool;
  EnableSeedScan : bool;
  NoSDCard : bool;
  events : list Event;
  spawned : list Goroutine
}.

Definition set_Buttons (c : Context) (b : list bool) : Context :=
  mkContext b (Repeats c) (platform c) (Calibrated c) (EnableSeedScan c)
    (NoSDCard c) (events c) (spawned c).
Definition set_Repeats (c : Context) (r : list Time) : Context :=
  mkContext (Buttons c) r (platform c) (Calibrated c) (EnableSeedScan c)
    (NoSDCard c) (events c) (spawned c).
Definition set_platform (c : Context) (p : Platform) : Context :=
  mkContext (Buttons c) (Repeats c) p (Calibrated c) (EnableSeedScan c)
    (NoSDCard c) (events c) (spawned c).
Definition set_Calibrated (c : Context) (b : bool) : Context :=
  mkContext (Buttons c) (Repeats c) (platform c) b (EnableSeedScan c)
    (NoSDCard c) (events c) (spawned c).
Definition set_NoSDCard (c : Context) (b : bool) : Context :=
  mkContext (Buttons c) (Repeats c) (platform c) (Calibrated c)
    (EnableSeedScan c) b (events c) (spawned c).
Definition set_events (c : Context) (l : list Event) : Context :=
  mkContext (Buttons c) (Repeats c) (platform c) (Calibrated c)
    (EnableSeedScan c) (NoSDCard c) l (spawned c).
Definition go (c : Context) (g : Goroutine) : Context :=
  mkContext (Buttons c) (Repeats c) (platform c) (Calibrated c)
    (EnableSeedScan c) (NoSDCard c) (events c) (spawned c ++ [g]).

Definition repeatStartDelay : Duration := (400 * Millisecond)%Z.
Definition repeatDelay : Duration := (100 * Millisecond)%Z.

Definition isRepeatButton (b : input.Button) : bool :=
  (b =? input.Up) || (b =? input.Down) || (b =? input.Right) || (b =? input.Left).

(** [bs[i]] for an index known to be in range. *)
Definition at_ {A} (d : A) (l : list A) (i : nat) : A := default d (l !! i).

Module Context_.

(** [NewContext] *)
Definition NewContext (pl : Platform) : Context :=
  mkContext (replicate nbuttons false) (replicate nbuttons 0%Z) pl
    false true false [] [].

Definition WakeupAfter (c : Context) (d : Duration) : Context :=
  go c (GoWakeupAfter d).

(** One iteration of the loop of [Events]. *)
Definition Events1 (c : Context) (e : input.Event) : Context :=
  let b := input.Button_ e in
  if b <? length (Buttons c) then
    let e2 := mkEvent e (negb (input.Pressed e) && at_ false (Buttons c) b) in
    let c := set_Buttons c (<[b := input.Pressed e]> (Buttons c)) in
    let c :=
      if input.Pressed e && isRepeatButton b then
        WakeupAfter
          (set_Repeats c (<[b := Add (Now (platform c)) repeatStartDelay]> (Repeats c)))
          repeatStartDelay
      else c in
    set_events c (events c ++ [e2])
  else
    set_events c (events c ++ [mkEvent e false]).

Definition Events (c : Context) (evts : list input.Event) : Context :=
  fold_left Events1 evts c.

Definition Next (c : Context) : Context * option Event :=
  match events c with
  | [] => (c, None)
  | evt :: rest => (set_events c rest, Some evt)
  end.

(** One iteration of the loop of [Repeat]; [pressed] is the value the
    [range] clause copied before the loop started. *)
Definition Repeat1 (now : Time) (c : Context) (bp : nat * bool) : Context :=
  let '(btn, pressed) := bp in
  if negb pressed || negb (isRepeatButton btn) then c
  else if Before now (at_ 0%Z (Repeats c) btn) then c
  else
    let c := set_events c
      (events c ++ [mkEvent (input.mkEvent btn true 0%N) false]) in
    let c := set_Repeats c (<[btn := Add (Now (platform c)) repeatDelay]> (Repeats c)) in
    WakeupAfter c repeatDelay.

Definition Repeat (c : Context) : Context :=
  let now := Now (platform c) in
  fold_left (Repeat1 now) (imap (fun i b => (i, b)) (Buttons c)) c.

End Context_.

(** ** The hold-to-confirm timer *)

Record ConfirmDelay := mkConfirmDelay { timeout : Time }.

Definition ConfirmDelay_zero : ConfirmDelay := mkConfirmDelay 0%Z.

Definition confirmDelay : Duration := (1 * Second)%Z.

Module ConfirmDelay_.

Definition Start (c : ConfirmDelay) (ctx : Context) (delay : Duration) : ConfirmDelay :=
  mkConfirmDelay (Add (Now (platform ctx)) delay).

Definition Running (c : ConfirmDelay) : bool := negb (IsZero (timeout c)).

Definition Progress (c : ConfirmDelay) (ctx : Context) : Context * Q :=
  if negb (Running c) then (ctx, 0%Q)
  else
    let now := Now (platform ctx) in
    let d := Sub (timeout c) now in
    if (d <=? 0)%Z then (ctx, 1%Q)
    else (Context_.WakeupAfter ctx 0%Z, (1 - Seconds d / Seconds confirmDelay)%Q).

End ConfirmDelay_.

(** ** Dialogs *)

Module ErrorScreen_.

(** [ErrorScreen.Layout]: drains the queue until a click on [Button3]
    dismisses the dialog.  The queue is the argument [evs]; [events ctx]
    is kept equal to it. *)
Fixpoint Layout_loop (evs : list Event) (ctx : Context) : Context * bool :=
  match evs with
  | [] => (ctx, false)
  | e :: rest =>
      let ctx := set_events ctx rest in
      if (Button e =? input.Button3) && Click e then (ctx, true)
      else Layout_loop rest ctx
  end.

Definition Layout (s : ErrorScreen) (ctx : Context) : Context * bool :=
  Layout_loop (events ctx) ctx.

End ErrorScreen_.

Record ConfirmWarningScreen := mkConfirmWarningScreen {
  cw_Title : string;
  cw_Body : string;
  cw_confirm : ConfirmDelay
}.

Inductive ConfirmResult := ConfirmNone | ConfirmNo | ConfirmYes.

Module ConfirmWarningScreen_.

Definition set_confirm (s : ConfirmWarningScreen) (c : ConfirmDelay) :=
  mkConfirmWarningScreen (cw_Title s) (cw_Body s) c.

(** The body of the [switch e.Button] of [Layout]; [None] stands for
    falling out of the switch. *)
Definition handle (e : Event) (ctx : Context) (s : ConfirmWarningScreen)
  : Context * ConfirmWarningScreen * option ConfirmResult :=
  if Button e =? input.Button1 then
    if Click e then (ctx, s, Some ConfirmNo) else (ctx, s, None)
  else if Button e =? input.Button3 then
    if Pressed e then
      let ctx := set_Buttons ctx (<[input.Button3 := false]> (Buttons ctx)) in
      (ctx, set_confirm s (ConfirmDelay_.Start (cw_confirm s) ctx confirmDelay), None)
    else (ctx, set_confirm s ConfirmDelay_zero, None)
  else (ctx, s, None).

Fixpoint Layout_loop (evs : list Event) (ctx : Context) (s : ConfirmWarningScreen)
  : Context * ConfirmWarningScreen * ConfirmResult :=
  let '(ctx, progress) := ConfirmDelay_.Progress (cw_confirm s) ctx in
  if Qeq_bool progress 1 then (ctx, s, ConfirmYes)
  else
    match evs with
    | [] => (ctx, s, ConfirmNone)
    | e :: rest =>
        let ctx := set_events ctx rest in
        match handle e ctx s with
        | (ctx, s, Some r) => (ctx, s, r)
        | (ctx, s, None) => Layout_loop rest ctx s
        end
    end.

Definition Layout (s : ConfirmWarningScreen) (ctx : Context)
  : Context * ConfirmWarningScreen * ConfirmResult :=
  Layout_loop (events ctx) ctx s.

End ConfirmWarningScreen_.

(** ** Descriptors, plates and the external packages *)

Inductive ScriptType := P2SH | P2SH_P2WSH | P2SH_P2WPKH | P2PKH | P2WSH | P2WPKH | P2TR | UnknownScript.

Record KeyDescriptor := mkKeyDescriptor {
  MasterFingerprint : N;
  DerivationPath : Path;
  KeyData : string
}.

Record OutputDescriptor := mkOutputDescriptor {
  Type_ : ScriptType;
  Threshold : nat;
  Keys : list KeyDescriptor
}.

(** [bip39.Word] is an [int]; [-1] marks an empty slot of a mnemonic. *)
Definition Word := Z.
Definition Mnemonic := list Word.

Inductive PlateSize := SmallPlate | SquarePlate | LargePlate.

(** [backup.Plate]: only the number of sides and the size are looked at. *)
Record Plate := mkPlate {
  Size : PlateSize;
  Sides : nat
}.

(** The functions of the packages [urtypes], [backup], [bip39], [bip32]
    and [hdkeychain] that the code below calls.  Their code is not part
    of the sources at hand; they are taken as given. *)
Class Packages := {
  (* urtypes.KeyDescriptor.String: the canonical xpub text of a key *)
  KeyDescriptor_String : KeyDescriptor -> string;
  (* urtypes.OutputDescriptor.DerivationPath: the standard path of the script type *)
  OutputDescriptor_DerivationPath : OutputDescriptor -> Path;
  (* fmt's rendering of a path (%v) and of a fingerprint (%.8x) *)
  Path_String : Path -> string;
  Fingerprint_String : N -> string;
  (* bip39.Mnemonic.FixChecksum *)
  FixChecksum : Mnemonic -> Mnemonic;
  (* backup.Engrave(mjolnir.StrokeWidth, plateDesc) *)
  backup_Engrave : OutputDescriptor -> nat -> Mnemonic -> Plate + error;
  (* backup.Recoverable *)
  backup_Recoverable : OutputDescriptor -> bool;
  (* hdkeychain.NewMaster(bip39.MnemonicSeed(m, pass), ...) *)
  MasterKey : Type;
  NewMaster : Mnemonic -> string -> option MasterKey;
  (* bip32.Derive followed by xpub.String() *)
  Derive : MasterKey -> Path -> option string
}.

Definition passphrase : string := "".

(** ** Instructions *)

Inductive InstructionType := PrepareInstruction | ConnectInstruction | EngraveInstruction.

Definition InstructionType_eqb (a b : InstructionType) : bool :=
  match a, b with
  | PrepareInstruction, PrepareInstruction
  | ConnectInstruction, ConnectInstruction
  | EngraveInstruction, EngraveInstruction => true
  | _, _ => false
  end.

Record Instruction := mkInstruction {
  ins_Lead : string;
  ins_Type : InstructionType;
  ins_Side : nat
}.

(** The instruction tables.  [Body] and [Image] only feed the drawing
    code and are not kept. *)
Definition prepare (lead : string) := mkInstruction lead PrepareInstruction 0.
Definition connect (lead : string) := mkInstruction lead ConnectInstruction 0.
Definition engrave_ (side : nat) := mkInstruction "Engraving plate" EngraveInstruction side.

Definition EngraveFirstSideA : list Instruction :=
  [ prepare "seedhammer.com/tip#1";
    prepare "seedhammer.com/tip#2";
    prepare "seedhammer.com/tip#3";
    prepare "seedhammer.com/tip#4";
    prepare "seedhammer.com/tip#4";
    prepare "seedhammer.com/tip#5";
    prepare "seedhammer.com/tip#5";
    prepare "seedhammer.com/tip#6";
    prepare "seedhammer.com/tip#7";
    connect "seedhammer.com/tip#8";
    engrave_ 0 ].

Definition EngraveSideA : list Instruction :=
  [ prepare "";
    prepare "";
    prepare "seedhammer.com/tip#4";
    prepare "seedhammer.com/tip#4";
    connect "";
    engrave_ 0 ].

Definition EngraveSideB : list Instruction :=
  [ prepare "";
    prepare "";
    connect "";
    engrave_ 1 ].

Definition EngraveSuccess : list Instruction :=
  [ prepare "" ].

(** ** The engrave screen *)

Record dryRun_t := mkDryRun {
  dr_timeout : Time;
  dr_enabled : bool
}.

Record EngraveScreen := mkEngraveScreen {
  Key : KeyDescriptor;
  instructions : list Instruction;
  plate : Plate;
  cancel : option ConfirmWarningScreen;
  step : nat;
  dryRun : dryRun_t;
  engrave : engraveState;
  confirm : ConfirmDelay
}.

(** What a frame hands to the two receive cases of the [select] at the
    head of [EngraveScreen.Layout]: a progress value, or the worker's
    final result ([None] for a nil error). *)
Inductive WorkerMsg :=
| MsgProgress (p : Q)
| MsgResult (err : option error).

(** The outcome of a function that can index out of range.  [OutOfFuel]
    only marks the cut-off of the loop unrolling. *)
Inductive res (A : Type) :=
| Ok (a : A)
| Panic
| OutOfFuel.
Arguments Ok {A} a.
Arguments Panic {A}.
Arguments OutOfFuel {A}.

#[global] Instance res_bind : MBind res := fun A B k r =>
  match r with
  | Ok a => k a
  | Panic => Panic
  | OutOfFuel => OutOfFuel
  end.

(** [l[i]], panicking out of range. *)
Definition index {A} (l : list A) (i : nat) : res A :=
  match l !! i with
  | Some a => Ok a
  | None => Panic
  end.

Module EngraveScreen_.

Definition set_cancel (s : EngraveScreen) (c : option ConfirmWarningScreen) :=
  mkEngraveScreen (Key s) (instructions s) (plate s) c (step s) (dryRun s)
    (engrave s) (confirm s).
Definition set_step (s : EngraveScreen) (n : nat) :=
  mkEngraveScreen (Key s) (instructions s) (plate s) (cancel s) n (dryRun s)
    (engrave s) (confirm s).
Definition set_dryRun (s : EngraveScreen) (d : dryRun_t) :=
  mkEngraveScreen (Key s) (instructions s) (plate s) (cancel s) (step s) d
    (engrave s) (confirm s).
Definition set_engrave (s : EngraveScreen) (e : engraveState) :=
  mkEngraveScreen (Key s) (instructions s) (plate s) (cancel s) (step s)
    (dryRun s) e (confirm s).
Definition set_confirm (s : EngraveScreen) (c : ConfirmDelay) :=
  mkEngraveScreen (Key s) (instructions s) (plate s) (cancel s) (step s)
    (dryRun s) (engrave s) c.

Definition set_dev (e : engraveState) (d : option Device) :=
  mkEngraveState d (cancel_ch e) (progress_ch e) (errs_ch e) (lastProgress e)
    (warning e) (fatal e).
Definition set_channels (e : engraveState) :=
  mkEngraveState (dev e) true true true (lastProgress e) (warning e) (fatal e).
Definition set_lastProgress (e : engraveState) (p : Q) :=
  mkEngraveState (dev e) (cancel_ch e) (progress_ch e) (errs_ch e) p
    (warning e) (fatal e).
Definition set_warning (e : engraveState) (w : option ErrorScreen) :=
  mkEngraveState (dev e) (cancel_ch e) (progress_ch e) (errs_ch e)
    (lastProgress e) w (fatal e).

(** [NewEngraveScreen] *)
Definition descriptorKeyIdx `{Packages} (desc : OutputDescriptor) (m : Mnemonic)
    (pass : string) : option nat :=
  match NewMaster m pass with
  | None => None
  | Some mk =>
      fst <$> list_find
        (fun k => bool_decide (Derive mk (DerivationPath k) = Some (KeyDescriptor_String k)))
        (Keys desc)
  end.

Definition engravePlate `{Packages} (desc : OutputDescriptor) (keyIdx : nat)
    (m : Mnemonic) : Plate + error :=
  backup_Engrave desc keyIdx m.

Definition NewEngraveScreen `{Packages} (ctx : Context) (desc : OutputDescriptor)
    (m : Mnemonic) (pass : string) : res (EngraveScreen + error) :=
  match descriptorKeyIdx desc m pass with
  | None => Ok (inr errKeyNotInDescriptor)
  | Some keyIdx =>
      match engravePlate desc keyIdx m with
      | inr err => Ok (inr err)
      | inl pl =>
          key ← index (Keys desc) keyIdx;
          let ins := if negb (Calibrated ctx) then EngraveFirstSideA else EngraveSideA in
          let ins := if 1 <? Sides pl then ins ++ EngraveSideB else ins in
          let ins := ins ++ EngraveSuccess in
          Ok (inl (mkEngraveScreen key ins pl None 0 (mkDryRun 0%Z false)
                     engraveState_zero ConfirmDelay_zero))
      end
  end.

(** [close]: the engraver state is reset at once; the rest happens in a
    goroutine of its own, see [Runtime.run]. *)
Definition close (ctx : Context) (s : EngraveScreen) : Context * EngraveScreen :=
  let e := engrave s in
  let s := set_engrave s engraveState_zero in
  (go ctx (GoClose e), s).

Definition connectionError : ErrorScreen :=
  mkErrorScreen "Connection Error" "Failed to establish a connection to the engraver.".

Definition connectionLost : ErrorScreen :=
  mkErrorScreen "Connection Error" "Connection to the engraver failed.".

(** The second half of [moveStep], from [s.step++] on. *)
Definition advance (ctx : Context) (s : EngraveScreen)
  : res (Context * EngraveScreen * bool) :=
  let s := set_step s (step s + 1) in
  if step s =? length (instructions s) then
    let '(ctx, s) := close ctx s in
    Ok (ctx, s, true)
  else
    ins ← index (instructions s) (step s);
    if InstructionType_eqb (ins_Type ins) EngraveInstruction then
      let s := set_engrave s (set_channels (engrave s)) in
      let ctx := go (go ctx GoWakeupChan) GoWakeupChan in
      let ctx := go ctx (GoEngrave (dev (engrave s)) (dr_enabled (dryRun s)) (ins_Side ins)) in
      let ctx := go ctx (GoSideEngrave (ins_Side ins)) in
      Ok (ctx, s, false)
    else Ok (ctx, s, false).

Definition moveStep (ctx : Context) (s : EngraveScreen)
  : res (Context * EngraveScreen * bool) :=
  ins ← index (instructions s) (step s);
  if InstructionType_eqb (ins_Type ins) ConnectInstruction then
    match dev (engrave s) with
    | Some _ => Ok (ctx, s, false)
    | None =>
        let s := set_engrave s engraveState_zero in
        match Engraver (platform ctx) with
        | inr err =>
            let s := set_engrave s (set_warning (engrave s) (Some connectionError)) in
            Ok (ctx, s, false)
        | inl d =>
            let s := set_engrave s (set_dev (engrave s) (Some d)) in
            advance ctx s
        end
    end
  else advance ctx s.

(** The first loop of [Layout]: the non-blocking [select] over the two
    worker channels.  A receive from a nil channel is never ready, so
    the [default] case ends the loop. *)
Fixpoint drain (msgs : list WorkerMsg) (ctx : Context) (s : EngraveScreen)
  : Context * EngraveScreen * bool :=
  match msgs with
  | [] => (ctx, s, false)
  | MsgProgress p :: rest =>
      if progress_ch (engrave s) then
        drain rest ctx (set_engrave s (set_lastProgress (engrave s) p))
      else (ctx, s, false)
  | MsgResult err :: rest =>
      if errs_ch (engrave s) then
        let s := set_engrave s engraveState_zero in
        match err with
        | Some _ =>
            let s := set_engrave s
              (mkEngraveState None false false false 0 (Some connectionLost) true) in
            drain rest ctx s
        | None =>
            let ctx := set_Calibrated ctx true in
            let s := set_step s (step s + 1) in
            if step s =? length (instructions s) then (ctx, s, true)
            else drain rest ctx s
        end
      else (ctx, s, false)
  end.

Definition cancelDialog : ConfirmWarningScreen :=
  mkConfirmWarningScreen "Cancel?"
    "This will cancel the engraving process

Hold button to confirm." ConfirmDelay_zero.

(** The dry-run toggle at the head of each iteration of the second loop. *)
Definition dryRunTick (ctx : Context) (s : EngraveScreen) : Context * EngraveScreen :=
  if negb (IsZero (dr_timeout (dryRun s))) then
    let d := Sub (dr_timeout (dryRun s)) (Now (platform ctx)) in
    if (d <=? 0)%Z then
      (set_Buttons ctx (<[input.Button2 := false]> (Buttons ctx)),
       set_dryRun s (mkDryRun 0%Z (negb (dr_enabled (dryRun s)))))
    else (ctx, s)
  else (ctx, s).

(** The [switch e.Button] of the second loop.  The boolean of the result
    is [true] when the function returns [true] from inside the switch. *)
Definition handle (e : Event) (ins : Instruction) (canPrev : bool)
    (ctx : Context) (s : EngraveScreen) : res (Context * EngraveScreen * bool) :=
  if Button e =? input.Button1 then
    if negb (Click e) then Ok (ctx, s, false)
    else if canPrev then Ok (ctx, set_step s (step s - 1), false)
    else Ok (ctx, set_cancel s (Some cancelDialog), false)
  else if Button e =? input.Button2 then
    if Pressed e then
      let s := set_dryRun s
        (mkDryRun (Add (Now (platform ctx)) confirmDelay) (dr_enabled (dryRun s))) in
      Ok (Context_.WakeupAfter ctx confirmDelay, s, false)
    else
      Ok (ctx, set_dryRun s (mkDryRun 0%Z (dr_enabled (dryRun s))), false)
  else if Button e =? input.Button3 then
    if InstructionType_eqb (ins_Type ins) ConnectInstruction then
      if Pressed e then
        let ctx := set_Buttons ctx (<[input.Button3 := false]> (Buttons ctx)) in
        Ok (ctx, set_confirm s (ConfirmDelay_.Start (confirm s) ctx confirmDelay), false)
      else Ok (ctx, set_confirm s ConfirmDelay_zero, false)
    else if negb (Click e) || InstructionType_eqb (ins_Type ins) EngraveInstruction then
      Ok (ctx, s, false)
    else moveStep ctx s
  else Ok (ctx, s, false).

(** [e, ok := ctx.Next()] and the switch on the event. *)
Definition nextEvent (loop : Context -> EngraveScreen -> res (Context * EngraveScreen * bool))
    (ins : Instruction) (canPrev : bool) (ctx : Context) (s : EngraveScreen)
  : res (Context * EngraveScreen * bool) :=
  match Context_.Next ctx with
  | (ctx, None) => Ok (ctx, s, false)
  | (ctx, Some e) =>
      '(ctx, s, ret) ← handle e ins canPrev ctx s;
      if (ret : bool) then Ok (ctx, s, true) else loop ctx s
  end.

(** One iteration of the second loop of [Layout]; [loop] stands for the
    iterations that follow. *)
Definition iteration
    (loop : Context -> EngraveScreen -> res (Context * EngraveScreen * bool))
    (ctx : Context) (s : EngraveScreen) : res (Context * EngraveScreen * bool) :=
  ins ← index (instructions s) (step s);
  canPrev ←
    (if 0 <? step s then
       prev ← index (instructions s) (step s - 1);
       Ok (InstructionType_eqb (ins_Type prev) PrepareInstruction)
     else Ok false);
  let '(ctx, progress) := ConfirmDelay_.Progress (confirm s) ctx in
  if Qeq_bool progress 1 then
    '(ctx, s, _) ← moveStep ctx s;
    loop ctx (set_confirm s ConfirmDelay_zero)
  else
    let '(ctx, s) := dryRunTick ctx s in
    match cancel s with
    | Some dlg =>
        let '(ctx, dlg, result) := ConfirmWarningScreen_.Layout dlg ctx in
        let s := set_cancel s (Some dlg) in
        match result with
        | ConfirmYes =>
            let '(ctx, s) := close ctx s in
            Ok (ctx, s, true)
        | ConfirmNo => loop ctx (set_cancel s None)
        | ConfirmNone => nextEvent loop ins canPrev ctx s
        end
    | None =>
        match warning (engrave s) with
        | Some w =>
            let '(ctx, dismissed) := ErrorScreen_.Layout w ctx in
            if dismissed then
              let s := set_engrave s (set_warning (engrave s) None) in
              if fatal (engrave s) then
                let '(ctx, s) := close ctx s in
                Ok (ctx, s, true)
              else loop ctx s
            else nextEvent loop ins canPrev ctx s
        | None => nextEvent loop ins canPrev ctx s
        end
    end.

(** The second loop of [Layout], unrolled [fuel] times. *)
Fixpoint loop (fuel : nat) : Context -> EngraveScreen -> res (Context * EngraveScreen * bool) :=
  match fuel with
  | 0 => fun _ _ => OutOfFuel
  | S fuel => iteration (loop fuel)
  end.

(** Enough unrolling for any queue, see [loop_post]. *)
Definition fuel_for (ctx : Context) : nat := 2 * length (events ctx) + 3.

Definition Layout (msgs : list WorkerMsg) (ctx : Context) (s : EngraveScreen)
  : res (Context * EngraveScreen * bool) :=
  let '(ctx, s, done) := drain msgs ctx s in
  if done then Ok (ctx, s, true)
  else loop (fuel_for ctx) ctx s.

End EngraveScreen_.

(** ** What the goroutines do *)

Module Runtime.

(** The observable actions of a goroutine body. *)
Inductive Action :=
| SendWakeup               (* c.Wakeup <- struct{}{} *)
| CloseCancel              (* close(e.cancel) *)
| RecvErrs                 (* <-e.errs *)
| After5s                  (* <-time.After(5 * time.Second) *)
| DevClose (d : Device)    (* dev.Close() *)
| SendErr                  (* errs <- err *)
| NilDeref                 (* a method call on a nil device *).

(** Whether the call [mjolnir.Engrave(dev, prog, progress, cancel)] of
    the worker comes back before the teardown stops waiting, after it,
    or not at all. *)
Inductive Fate := ReturnsInTime | ReturnsLate | NeverReturns.

(** The body of each goroutine, run to its end (or until it blocks for
    good). *)
Definition run (f : Fate) (g : Goroutine) : list Action :=
  match g with
  | GoWakeupAfter _ => [SendWakeup]
  | GoWakeupChan => []
  | GoSideEngrave _ => []
  | GoEngrave d _ _ =>
      match f with
      | NeverReturns => []
      | _ =>
          match d with
          | Some d => [DevClose d; SendErr]
          | None => [NilDeref]
          end
      end
  | GoClose e =>
      (if cancel_ch e then [CloseCancel] else []) ++
      (if errs_ch e then
         match f with
         | ReturnsInTime => [RecvErrs]
         | _ => [After5s]
         end
       else [])
  end.

Definition actions (f : Fate) (gs : list Goroutine) : list Action :=
  concat (map (run f) gs).

Definition is_DevClose (d : Device) (a : Action) : bool :=
  match a with
  | DevClose d' => d =? d'
  | _ => false
  end.

(** The device [d] is closed by one of the goroutines [gs]. *)
Definition closed (f : Fate) (gs : list Goroutine) (d : Device) : bool :=
  existsb (is_DevClose d) (actions f gs).

End Runtime.

(** ** Descriptor validation *)

Definition NewErrorScreen `{Packages} (err : error) : ErrorScreen :=
  match err with
  | errNonstandardDerivation p =>
      mkErrorScreen "Non-standard Derivation"
        ("The derivation path " ++ Path_String p ++ " is not supported.")
  | errDuplicateKey fp =>
      mkErrorScreen "Duplicated Share"
        ("The share " ++ Fingerprint_String fp ++ " is listed more than once in the wallet.")
  | ErrDescriptorTooLarge =>
      mkErrorScreen "Too Large" "The descriptor cannot fit any plate size."
  | errKeyNotInDescriptor =>
      mkErrorScreen "Unknown Share" "The share is not part of the wallet."
  | errorString msg => mkErrorScreen "Error" msg
  end.

Definition errNotRecoverable : error :=
  errorString "Descriptor is not recoverable. That is a bug in the program; please report it.".

(** The [for _, k := range desc.Keys] loop of [validateDescriptor];
    [keys] is the map of the xpubs seen so far. *)
Fixpoint validateKeys `{Packages} (expPath : Path) (keys : gmap string bool)
    (ks : list KeyDescriptor) : option error :=
  match ks with
  | [] => None
  | k :: rest =>
      let xpub := KeyDescriptor_String k in
      if default false (keys !! xpub) then
        Some (errDuplicateKey (MasterFingerprint k))
      else
        let keys := <[xpub := true]> keys in
        if (length expPath =? 0) || negb (bool_decide (DerivationPath k = expPath)) then
          Some (errNonstandardDerivation (DerivationPath k))
        else validateKeys expPath keys rest
  end.

Definition validateDescriptor `{Packages} (desc : OutputDescriptor) : option error :=
  let expPath := OutputDescriptor_DerivationPath desc in
  match validateKeys expPath ∅ (Keys desc) with
  | Some err => Some err
  | None =>
      let m := FixChecksum (replicate 24 0%Z) in
      match EngraveScreen_.engravePlate desc 0 m with
      | inr err => Some err
      | inl _ =>
          if negb (backup_Recoverable desc) then Some errNotRecoverable
          else None
      end
  end.

(** ** The descriptor screen *)

Record ChoiceScreen := mkChoiceScreen {
  ch_Title : string;
  ch_Lead : string;
  Choices : list string;
  choice : nat
}.

Record SeedScreen := mkSeedScreen {
  sd_Mnemonic : Mnemonic;
  method : option ChoiceScreen;
  seedlen : option ChoiceScreen
}.

Definition NewEmptySeedScreen (ctx : Context) (title : string) : SeedScreen :=
  if EnableSeedScan ctx then
    mkSeedScreen [] (Some (mkChoiceScreen title "Choose input method" ["KEYBOARD"; "CAMERA"] 0)) None
  else
    mkSeedScreen [] None (Some (mkChoiceScreen title "Choose number of words" ["12 WORDS"; "24 WORDS"] 0)).

Record CosignersScreen := mkCosignersScreen {
  co_Descriptor : OutputDescriptor;
  page : nat;
  scroll : Z
}.

Record DescriptorScreen := mkDescriptorScreen {
  Descriptor : OutputDescriptor;
  mnemonic : Mnemonic;
  cosigners : option CosignersScreen;
  seed : option SeedScreen;
  ds_warning : option ErrorScreen;
  ds_engrave : option EngraveScreen
}.

Module DescriptorScreen_.

(** How the body of the event switch of [Layout] is left. *)
Inductive exit := ReturnTrue | Continue.

(** The [switch e.Button] of [Layout], reached when no child screen
    took the frame. *)
Definition handle `{Packages} (e : Event) (ctx : Context) (s : DescriptorScreen)
  : DescriptorScreen * exit :=
  if Button e =? input.Button1 then
    if Click e then (s, ReturnTrue) else (s, Continue)
  else if Button e =? input.Button2 then
    if negb (Click e) then (s, Continue)
    else
      (mkDescriptorScreen (Descriptor s) (mnemonic s)
         (Some (mkCosignersScreen (Descriptor s) 0 0%Z))
         (seed s) (ds_warning s) (ds_engrave s), Continue)
  else if Button e =? input.Button3 then
    if negb (Click e) then (s, Continue)
    else
      match validateDescriptor (Descriptor s) with
      | Some err =>
          (mkDescriptorScreen (Descriptor s) (mnemonic s) (cosigners s) (seed s)
             (Some (NewErrorScreen err)) (ds_engrave s), Continue)
      | None =>
          (mkDescriptorScreen (Descriptor s) (mnemonic s) (cosigners s)
             (Some (NewEmptySeedScreen ctx "Input Share"))
             (ds_warning s) (ds_engrave s), Continue)
      end
  else (s, Continue).

End DescriptorScreen_.

(** ** The scan screen *)

(** The multi-part decoder [ur.Decoder], [urtypes.Parse] and
    [strings.ToUpper], as [parseQR] uses them.  [Decoder_Result] is the
    triple [(typ, enc, err)] with [None] for a nil [enc] or [err]. *)
Class URPackage := {
  Decoder : Type;
  Decoder_zero : Decoder;
  Decoder_Add : Decoder -> string -> Decoder * option error;
  Decoder_Result : Decoder -> string * option string * option error;
  Value : Type;
  urtypes_Parse : string -> string -> Value + error;
  ToUpper : string -> string
}.

(** The [any] returned by [parseQR]: the scanned bytes themselves or a
    parsed value. *)
Inductive scanned `{URPackage} :=
| Bytes (qr : string)
| Parsed (v : Value).

Module ScanScreen_.

(** [parseQR], on the [decoder] field of the screen. *)
Definition parseQR `{URPackage} (decoder : Decoder) (qr : string)
  : Decoder * option scanned :=
  let uqr := ToUpper qr in
  if negb (String.prefix "UR:" uqr) then (Decoder_zero, Some (Bytes qr))
  else
    let decoder :=
      match Decoder_Add decoder uqr with
      | (_, Some _) => fst (Decoder_Add Decoder_zero uqr)
      | (d, None) => d
      end in
    match Decoder_Result decoder with
    | (_, _, Some _) => (Decoder_zero, None)
    | (_, None, None) => (decoder, None)
    | (typ, Some enc, None) =>
        match urtypes_Parse typ enc with
        | inr _ => (Decoder_zero, None)
        | inl v => (Decoder_zero, Some (Parsed v))
        end
    end.

End ScanScreen_.

(** ** The frame loop *)

(** [MainScreen.Layout], the root of the screen tree, as far as
    [App.Frame] is concerned: a function of the context and the screen. *)
Class RootScreen := {
  MainScreen : Type;
  MainScreen_Layout : MainScreen -> Context -> option error -> Context * MainScreen
}.

Definition idleTimeout : Duration := (3 * Minute)%Z.

(** What [Frame] does besides updating the [App]. *)
Inductive FrameEffect :=
| SaveScreen                    (* a.saveScreen() *)
| NewIdleTimer (d : Duration)   (* time.NewTimer(idleTimeout) *)
| Draw                          (* a.lcd.Draw *)
| DumpImage (n : nat)           (* dumpImage(..., "screenshot<n>.png", ...) *).

Record App `{RootScreen} := mkApp {
  Debug : bool;
  ctx_ : Context;
  err_ : option error;
  scr : MainScreen;
  idle_eatButton : bool;
  idle_timeout : bool;          (* the timer channel is non-nil *)
  screenshotCounter : nat;
  effects : list FrameEffect    (* ghost: the effects so far *)
}.
Arguments mkApp {_} _ _ _ _ _ _ _ _.

(** Which case the blocking [select] at the head of [Frame] takes. *)
Inductive Wake :=
| WakeSDCard (inserted : bool)
| WakeWakeup
| WakeIdle.

Module App_.

(** The inner loop of [Frame] over the events waiting in [a.btns]. *)
Fixpoint pump (btns : list input.Event) (ctx : Context) (eatButton screenshot : bool)
  : Context * bool * bool :=
  match btns with
  | [] => (ctx, eatButton, screenshot)
  | e :: rest =>
      if input.Button_ e =? input.Screenshot then pump rest ctx eatButton true
      else if eatButton then pump rest ctx false screenshot
      else pump rest (Context_.Events ctx [e]) eatButton screenshot
  end.

(** [Frame] up to the call of [a.scr.Layout]: the context handed to the
    screen, the new idle state and the screenshot flag.  [None] when the
    [select] cannot take the case [w] (a receive from a nil timer
    channel). *)
Definition prepare_ `{RootScreen} (w : Wake) (btns : list input.Event) (a : App)
  : option (App * bool) :=
  let step1 :=
    match w with
    | WakeSDCard inserted =>
        Some (set_NoSDCard (ctx_ a) (negb inserted), idle_eatButton a, effects a)
    | WakeWakeup => Some (ctx_ a, idle_eatButton a, effects a)
    | WakeIdle =>
        if idle_timeout a then Some (ctx_ a, true, effects a ++ [SaveScreen])
        else None
    end in
  match step1 with
  | None => None
  | Some (ctx, eat, eff) =>
      let '(ctx, eat, screenshot) := pump btns ctx eat false in
      let ctx := Context_.Repeat ctx in
      let pressed := existsb id (Buttons ctx) in
      let eff := if negb pressed then eff ++ [NewIdleTimer idleTimeout] else eff in
      Some (mkApp (Debug a) ctx (err_ a) (scr a) eat (negb pressed)
              (screenshotCounter a) eff, screenshot)
  end.

Definition Frame `{RootScreen} (w : Wake) (btns : list input.Event) (a : App)
  : option App :=
  match prepare_ w btns a with
  | None => None
  | Some (a, screenshot) =>
      let '(ctx, s) := MainScreen_Layout (scr a) (ctx_ a) (err_ a) in
      let eff := effects a ++ [Draw] in
      let '(n, eff) :=
        if Debug a && screenshot
        then (screenshotCounter a + 1, eff ++ [DumpImage (screenshotCounter a + 1)])
        else (screenshotCounter a, eff) in
      Some (mkApp (Debug a) ctx (err_ a) s (idle_eatButton a) (idle_timeout a) n eff)
  end.

End App_.

(** ** The word keyboard *)

(** In this part a Go string is the list of its bytes.  The keyboard only
    ever holds ASCII text (see [Keyboard_.rune]), so a rune of the word is
    one byte and [strings.ToLower] and [strings.ToUpper] are the ASCII
    case maps. *)
Definition gostring := list ascii.

Definition lower1 (c : ascii) : ascii :=
  let n := nat_of_ascii c in
  if (65 <=? n) && (n <=? 90) then ascii_of_nat (n + 32) else c.

Definition upper1 (c : ascii) : ascii :=
  let n := nat_of_ascii c in
  if (97 <=? n) && (n <=? 122) then ascii_of_nat (n - 32) else c.

Definition ToLower_ascii (s : gostring) : gostring := map lower1 s.
Definition ToUpper_ascii (s : gostring) : gostring := map upper1 s.

(** [strings.HasPrefix(s, p)] *)
Definition HasPrefix (s p : gostring) : bool := bool_decide (p `prefix_of` s).

(** Package [bip39], as the keyboard uses it: the word list, the lookup
    [ClosestWord] (with [None] for the result [(-1, false)]) and
    [LabelFor]. *)
Class Bip39 := {
  Wordlist : list gostring;
  ClosestWord : gostring -> option nat;
  LabelFor : nat -> gostring
}.

Record Keyboard := mkKeyboard {
  kb_Word : gostring;
  nvalid : nat;
  mask : N
}.

(** ['⌫'] *)
Definition backspace : Z := 9003%Z.

(** [^uint32(0)] *)
Definition allOnes : N := 4294967295%N.

Module Keyboard_.

Definition idxForRune (r : Z) : option nat :=
  let idx := (r - 65)%Z in
  if (idx <? 0)%Z || (32 <=? idx)%Z then None else Some (Z.to_nat idx).

Definition Valid (k : Keyboard) (r : Z) : bool :=
  if (r =? backspace)%Z then 0 <? length (kb_Word k)
  else
    match idxForRune r with
    | Some idx => (N.land (mask k) (N.shiftl 1 (N.of_nat idx)) =? 0)%N
    | None => false
    end.

(** The [for] loop of [updateMask] over the words from [ClosestWord] on. *)
Fixpoint maskLoop (word : gostring) (ws : list gostring) (nvalid : nat) (mask : N)
  : res (nat * N) :=
  match ws with
  | [] => Ok (nvalid, mask)
  | bip39w :: rest =>
      if negb (HasPrefix bip39w word) then Ok (nvalid, mask)
      else
        let nvalid := nvalid + 1 in
        let suffix := drop (length word) bip39w in
        match ToUpper_ascii suffix with
        | [] => maskLoop word rest nvalid mask
        | c :: _ =>
            match idxForRune (Z.of_nat (nat_of_ascii c)) with
            | None => Panic
            | Some idx =>
                maskLoop word rest nvalid (N.ldiff mask (N.shiftl 1 (N.of_nat idx)))
            end
        end
  end.

Definition updateMask `{Bip39} (k : Keyboard) : res Keyboard :=
  let k := mkKeyboard (kb_Word k) (nvalid k) allOnes in
  let word := ToLower_ascii (kb_Word k) in
  match ClosestWord word with
  | None => Ok k
  | Some w =>
      '(n, m) ← maskLoop word (drop w Wordlist) 0 (mask k);
      Ok (mkKeyboard (kb_Word k) n (if n =? 1 then allOnes else m))
  end.

Definition Complete `{Bip39} (k : Keyboard) : Z * bool :=
  let word := ToLower_ascii (kb_Word k) in
  match ClosestWord word with
  | None => ((-1)%Z, false)
  | Some w => (Z.of_nat w, (nvalid k =? 1) || bool_decide (word = LabelFor w))
  end.

(** [Clear]; the cursor, which only tells the highlighted key, is not
    kept. *)
Definition Clear `{Bip39} (k : Keyboard) : res Keyboard :=
  updateMask (mkKeyboard [] (nvalid k) (mask k)).

(** [NewKeyboard]: a zero [Keyboard], cleared. *)
Definition NewKeyboard `{Bip39} : res Keyboard :=
  Clear (mkKeyboard [] 0 0%N).

(** [rune]: a key is typed.  A valid letter is a single byte, and so is
    the rune [utf8.DecodeLastRuneInString] finds at the end of the word. *)
Definition rune `{Bip39} (k : Keyboard) (r : Z) : res Keyboard :=
  if negb (Valid k r) then Ok k
  else if (r =? backspace)%Z then
    updateMask (mkKeyboard (removelast (kb_Word k)) (nvalid k) (mask k))
  else
    updateMask (mkKeyboard (kb_Word k ++ [ascii_of_nat (Z.to_nat r)]) (nvalid k) (mask k)).

(** [Event] for a pressed [input.Rune] event, the way text reaches the
    keyboard; the other cases of [Event] move the cursor. *)
Definition EventRune `{Bip39} (k : Keyboard) (e : Event) : res Keyboard :=
  if negb (Pressed e) then Ok k else rune k (Z.of_N (Rune e)).

(** A string is entered rune by rune. *)
Fixpoint enter `{Bip39} (k : Keyboard) (s : gostring) : res Keyboard :=
  match s with
  | [] => Ok k
  | c :: rest =>
      k ← EventRune k
            (mkEvent (input.mkEvent input.Rune true (N.of_nat (nat_of_ascii c))) false);
      enter k rest
  end.

End Keyboard_.

(** ** Notions used to state the properties *)

(** The linear interpolation between the instants [t0] and [t1],
    evaluated at [now]: 0 at [t0] and 1 at [t1]. *)
Definition interpolate (t0 t1 now : Time) : Q :=
  ((now - t0)%Z # 1) / ((t1 - t0)%Z # 1).
Arguments interpolate (t0 t1 now)%_Z.

(** The instruction lists the cursor walks are shaped like the tables: a
    Connect instruction is never the last one, and an Engrave
    instruction comes right after a Connect instruction and is never the
    last one either. *)
Definition wf_instructions (l : list Instruction) : Prop :=
  forall i ins, l !! i = Some ins ->
    (ins_Type ins = ConnectInstruction -> i + 1 < length l) /\
    (ins_Type ins = EngraveInstruction ->
       i + 1 < length l /\
       exists p, 0 < i /\ l !! (i - 1) = Some p /\ ins_Type p = ConnectInstruction).

(** The state of an engrave screen between two frames: the cursor is in
    range; a running hold timer has a Connect instruction at or after
    the cursor and never sits on an Engrave instruction; a worker only
    runs while the cursor is on an Engrave instruction. *)
Record EngraveInv (s : EngraveScreen) : Prop := mkEngraveInv {
  inv_wf : wf_instructions (instructions s);
  inv_step : step s < length (instructions s);
  inv_ahead :
    ConfirmDelay_.Running (confirm s) = true ->
    exists c ins, step s <= c /\ instructions s !! c = Some ins /\
      ins_Type ins = ConnectInstruction;
  inv_idle :
    ConfirmDelay_.Running (confirm s) = true ->
    forall ins, instructions s !! step s = Some ins ->
      ins_Type ins <> EngraveInstruction;
  inv_worker :
    errs_ch (engrave s) = true ->
    exists ins, instructions s !! step s = Some ins /\
      ins_Type ins = EngraveInstruction
}.

(** [ctx'] comes from [ctx] within one frame: the platform is the same
    and the queue has not grown. *)
Definition within_frame (ctx' ctx : Context) : Prop :=
  platform ctx' = platform ctx /\ length (events ctx') <= length (events ctx).

(** The hold timer of the screen has run out at the instant of [ctx]. *)
Definition expired (s : EngraveScreen) (ctx : Context) : bool :=
  ConfirmDelay_.Running (confirm s) &&
  (timeout (confirm s) <=? Now (platform ctx))%Z.

(** What a frame leaves behind: the session has ended with the cursor
    at most at the end of the list, or the invariant holds again. *)
Definition frame_post (s : EngraveScreen)
    (r : res (Context * EngraveScreen * bool)) : Prop :=
  exists ctx' s' ret,
    r = Ok (ctx', s', ret) /\
    instructions s' = instructions s /\
    (if ret then step s' <= length (instructions s') else EngraveInv s').

(** The engrave screens that can be met: a screen made by
    [NewEngraveScreen], and the screen left by a frame that did not end
    the session. *)
Inductive reachable `{Packages} : EngraveScreen -> Prop :=
| reachable_new ctx desc m pass s :
    EngraveScreen_.NewEngraveScreen ctx desc m pass = Ok (inl s) ->
    reachable s
| reachable_frame msgs ctx s ctx' s' :
    reachable s ->
    EngraveScreen_.Layout msgs ctx s = Ok (ctx', s', false) ->
    reachable s'.

(** The keys [ks] pass the loop of [validateDescriptor]: no two of them
    have the same xpub text, the expected path [expPath] is not empty
    and every key has it. *)
Definition keys_ok `{Packages} (expPath : Path) (ks : list KeyDescriptor) : Prop :=
  NoDup (KeyDescriptor_String <$> ks) /\
  forall k, k ∈ ks -> expPath <> [] /\ DerivationPath k = expPath.

(** The mnemonic of the trial engraving of [validateDescriptor]. *)
Definition dummyMnemonic `{Packages} : Mnemonic := FixChecksum (replicate 24 0%Z).

(** The xpub text [x] is marked in the map of the loop of
    [validateDescriptor]. *)
Definition seen (keys : gmap string bool) (x : string) : Prop := keys !! x = Some true.

(** The map after the loop went through the keys [pre]. *)
Definition mark `{Packages} (keys : gmap string bool) (pre : list KeyDescriptor)
  : gmap string bool :=
  foldl (fun m k => <[KeyDescriptor_String k := true]> m) keys pre.

(** Modelled from the spec: what the multi-part decoder [ur.Decoder]
    holds is not part of the sources at hand.  The accumulator holds the
    fragments [held d]; a fresh decoder holds none; [Add] takes in at
    most the fragment it is given, and it only accepts a fragment that
    belongs to the same multi-part message ([same_message]) as the
    fragments it holds. *)
Class DecoderModel `{URPackage} := {
  held : Decoder -> list string;
  same_message : string -> string -> Prop;
  same_message_refl : forall f, same_message f f;
  same_message_sym : forall f g, same_message f g -> same_message g f;
  held_zero : held Decoder_zero = [];
  Add_held : forall d f d' r,
    Decoder_Add d f = (d', r) -> forall g, g ∈ held d' -> g = f \/ g ∈ held d;
  Add_accepts : forall d f d',
    Decoder_Add d f = (d', None) -> forall g, g ∈ held d -> same_message g f
}.

(** The accumulator holds fragments of one multi-part message only. *)
Definition one_message `{DecoderModel} (d : Decoder) : Prop :=
  forall f g, f ∈ held d -> g ∈ held d -> same_message f g.

(** The input events of a frame that are no screenshot requests. *)
Definition buttonEvents (btns : list input.Event) : list input.Event :=
  filter (fun e => input.Button_ e <> input.Screenshot) btns.

(** Go's order on strings, byte by byte. *)
Fixpoint lex_lt (a b : gostring) : Prop :=
  match a, b with
  | _, [] => False
  | [], _ :: _ => True
  | x :: a', y :: b' =>
      nat_of_ascii x < nat_of_ascii y \/ (x = y /\ lex_lt a' b')
  end.

(** A lower-case letter a..z. *)
Definition lowerLetter (c : ascii) : Prop :=
  97 <= nat_of_ascii c <= 122.

(** The first word of [ws] that starts with [p], with its index. *)
Definition firstWith (ws : list gostring) (p : gostring) : option (nat * gostring) :=
  list_find (fun w => p `prefix_of` w) ws.

(** The first word of the word list that starts with [p], with its
    index. *)
Definition firstCompletion `{Bip39} (p : gostring) : option (nat * gostring) :=
  firstWith Wordlist p.

(** What the keyboard relies on from package [bip39], whose code is not
    part of the sources at hand: the word list is in strictly ascending
    order and made of lower-case letters; [ClosestWord] finds the first
    word that starts with its argument, if there is one; [LabelFor]
    reads the word list. *)
Record Bip39Spec `{Bip39} : Prop := mkBip39Spec {
  Wordlist_sorted : StronglySorted lex_lt Wordlist;
  Wordlist_lower : forall w c, w ∈ Wordlist -> c ∈ w -> lowerLetter c;
  ClosestWord_first : forall p,
    ClosestWord p = fst <$> firstCompletion p;
  LabelFor_word : forall i w, Wordlist !! i = Some w -> LabelFor i = w
}.

(** The words of the word list that start with [p]. *)
Definition completions `{Bip39} (p : gostring) : list gostring :=
  filter (fun w => p `prefix_of` w) Wordlist.

(** The words at the head of [ws] that start with [p]: the words the
    loop of [updateMask] goes through. *)
Fixpoint run (p : gostring) (ws : list gostring) : list gostring :=
  match ws with
  | [] => []
  | w :: rest => if decide (p `prefix_of` w) then w :: run p rest else []
  end.

(** The keyboards that can be met: a new one, and one that was cleared
    or had a key typed. *)
Inductive kb_reachable `{Bip39} : Keyboard -> Prop :=
| kb_new k : Keyboard_.NewKeyboard = Ok k -> kb_reachable k
| kb_clear k k' : kb_reachable k -> Keyboard_.Clear k = Ok k' -> kb_reachable k'
| kb_rune k r k' : kb_reachable k -> Keyboard_.rune k r = Ok k' -> kb_reachable k'.

(** The keyboard [k] is up to date for the typed prefix [p]: it holds
    [p] in upper case and the number of its completions; with a single
    completion every key is masked, and otherwise the key of every
    letter that continues [p] towards a word is free. *)
Definition synced `{Bip39} (k : Keyboard) (p : gostring) : Prop :=
  kb_Word k = ToUpper_ascii p /\
  nvalid k = length (completions p) /\
  (length (completions p) = 1 -> mask k = allOnes) /\
  (length (completions p) <> 1 ->
   forall w c rest, w ∈ Wordlist -> w = p ++ c :: rest ->
     N.testbit (mask k) (N.of_nat (nat_of_ascii c - 97)) = false).

(** The count of the keyboard is that of the completions of what is
    typed, whenever there is a completion. *)
Definition counted `{Bip39} (k : Keyboard) : Prop :=
  forall i, ClosestWord (ToLower_ascii (kb_Word k)) = Some i ->
    nvalid k = length (completions (ToLower_ascii (kb_Word k))).

(* ===================================================================== *)
(** * Part I, continued: the rest of the package                          *)
(* ===================================================================== *)

From Stdlib Require Import DecimalString DecimalN.

(** ** Notions for the event queue *)

(** [n] calls of [Context.Next] in a row: the context that is left and
    the events that were handed out, in the order they came. *)
Fixpoint nextN (n : nat) (c : Context) : Context * list Event :=
  match n with
  | 0 => (c, [])
  | S n =>
      match Context_.Next c with
      | (c, None) => (c, [])
      | (c, Some e) => let '(c, l) := nextN n c in (c, e :: l)
      end
  end.

(** Whether button [b] is down once the events [pre] have been submitted
    to [c]: what the last event of [b] among them says, and the
    button-state array of [c] when there is none. *)
Definition down (c : Context) (pre : list input.Event) (b : input.Button) : bool :=
  match last (filter (fun e => input.Button_ e = b) pre) with
  | Some e => input.Pressed e
  | None => at_ false (Buttons c) b
  end.

(** Button [b] is due for an auto-repeat at the instant of [c]: it is a
    repeat button, it is down, and its deadline is not ahead. *)
Definition due (c : Context) (b : input.Button) : bool :=
  at_ false (Buttons c) b && isRepeatButton b &&
  negb (Before (Now (platform c)) (at_ 0%Z (Repeats c) b)).

(** The event [Repeat] queues for button [b]. *)
Definition repeatEvent (b : input.Button) : Event :=
  mkEvent (input.mkEvent b true 0%N) false.

(** The context at a later instant [t]: only the clock has moved. *)
Definition at_time (c : Context) (t : Time) : Context :=
  set_platform c (mkPlatform t (Engraver (platform c))).

(** ** Notions for the dialogs *)

(** The event [e] is a click of button [b]. *)
Definition isClick (b : input.Button) (e : Event) : bool :=
  (Button e =? b) && Click e.

(** The hold timer of the dialog [dlg] has run out at the instant of
    [ctx]. *)
Definition cw_expired (dlg : ConfirmWarningScreen) (ctx : Context) : bool :=
  ConfirmDelay_.Running (cw_confirm dlg) &&
  (timeout (cw_confirm dlg) <=? Now (platform ctx))%Z.

(** ** The passes of the second loop of [EngraveScreen.Layout] *)

(** [canPrev], as the loop computes it. *)
Definition canPrev_of (s : EngraveScreen) : res bool :=
  if 0 <? step s then
    prev ← index (instructions s) (step s - 1);
    Ok (InstructionType_eqb (ins_Type prev) PrepareInstruction)
  else Ok false.

(** The body of the loop is entered, the hold timer has not run out,
    and the dry-run toggle has been looked at: [ctx2] and [s2] are the
    context and the screen at the [switch] over the dialogs. *)
Definition entered (ctx : Context) (s : EngraveScreen) (ins : Instruction)
    (canPrev : bool) (ctx2 : Context) (s2 : EngraveScreen) : Prop :=
  index (instructions s) (step s) = Ok ins /\
  canPrev_of s = Ok canPrev /\
  Qeq_bool (snd (ConfirmDelay_.Progress (confirm s) ctx)) 1 = false /\
  EngraveScreen_.dryRunTick (fst (ConfirmDelay_.Progress (confirm s) ctx)) s = (ctx2, s2).

(** The [switch] over the dialogs is left undecided, so that the loop
    goes on to [ctx.Next()] with the context [ctx3] and the screen
    [s3]. *)
Inductive waiting (ctx2 : Context) (s2 : EngraveScreen)
  : Context -> EngraveScreen -> Prop :=
| waiting_cancel dlg ctx3 dlg3 :
    cancel s2 = Some dlg ->
    ConfirmWarningScreen_.Layout dlg ctx2 = (ctx3, dlg3, ConfirmNone) ->
    waiting ctx2 s2 ctx3 (EngraveScreen_.set_cancel s2 (Some dlg3))
| waiting_warning w ctx3 :
    cancel s2 = None -> warning (engrave s2) = Some w ->
    ErrorScreen_.Layout w ctx2 = (ctx3, false) ->
    waiting ctx2 s2 ctx3 s2
| waiting_plain :
    cancel s2 = None -> warning (engrave s2) = None ->
    waiting ctx2 s2 ctx2 s2.

(** One pass of the loop that is followed by another pass. *)
Inductive pass : Context * EngraveScreen -> Context * EngraveScreen -> Prop :=
| pass_expiry ctx s ins canPrev ctx2 s2 ret :
    index (instructions s) (step s) = Ok ins ->
    canPrev_of s = Ok canPrev ->
    Qeq_bool (snd (ConfirmDelay_.Progress (confirm s) ctx)) 1 = true ->
    EngraveScreen_.moveStep (fst (ConfirmDelay_.Progress (confirm s) ctx)) s
      = Ok (ctx2, s2, ret) ->
    pass (ctx, s) (ctx2, EngraveScreen_.set_confirm s2 ConfirmDelay_zero)
| pass_cancel_no ctx s ins canPrev ctx2 s2 dlg ctx3 dlg3 :
    entered ctx s ins canPrev ctx2 s2 ->
    cancel s2 = Some dlg ->
    ConfirmWarningScreen_.Layout dlg ctx2 = (ctx3, dlg3, ConfirmNo) ->
    pass (ctx, s) (ctx3, EngraveScreen_.set_cancel s2 None)
| pass_dismissed ctx s ins canPrev ctx2 s2 w ctx3 :
    entered ctx s ins canPrev ctx2 s2 ->
    cancel s2 = None -> warning (engrave s2) = Some w ->
    ErrorScreen_.Layout w ctx2 = (ctx3, true) ->
    fatal (engrave s2) = false ->
    pass (ctx, s)
      (ctx3, EngraveScreen_.set_engrave s2 (EngraveScreen_.set_warning (engrave s2) None))
| pass_event ctx s ins canPrev ctx2 s2 ctx3 s3 e rest ctx4 s4 :
    entered ctx s ins canPrev ctx2 s2 ->
    waiting ctx2 s2 ctx3 s3 ->
    events ctx3 = e :: rest ->
    EngraveScreen_.handle e ins canPrev (set_events ctx3 rest) s3 = Ok (ctx4, s4, false) ->
    pass (ctx, s) (ctx4, s4).

(** The pass of the loop in which [Layout] returns. *)
Inductive last_pass : Context * EngraveScreen -> Context * EngraveScreen * bool -> Prop :=
| last_cancel_yes ctx s ins canPrev ctx2 s2 dlg ctx3 dlg3 :
    entered ctx s ins canPrev ctx2 s2 ->
    cancel s2 = Some dlg ->
    ConfirmWarningScreen_.Layout dlg ctx2 = (ctx3, dlg3, ConfirmYes) ->
    last_pass (ctx, s)
      (EngraveScreen_.close ctx3 (EngraveScreen_.set_cancel s2 (Some dlg3)), true)
| last_fatal ctx s ins canPrev ctx2 s2 w ctx3 :
    entered ctx s ins canPrev ctx2 s2 ->
    cancel s2 = None -> warning (engrave s2) = Some w ->
    ErrorScreen_.Layout w ctx2 = (ctx3, true) ->
    fatal (engrave s2) = true ->
    last_pass (ctx, s)
      (EngraveScreen_.close ctx3
         (EngraveScreen_.set_engrave s2 (EngraveScreen_.set_warning (engrave s2) None)),
       true)
| last_idle ctx s ins canPrev ctx2 s2 ctx3 s3 :
    entered ctx s ins canPrev ctx2 s2 ->
    waiting ctx2 s2 ctx3 s3 ->
    events ctx3 = [] ->
    last_pass (ctx, s) (ctx3, s3, false)
| last_event ctx s ins canPrev ctx2 s2 ctx3 s3 e rest ctx4 s4 :
    entered ctx s ins canPrev ctx2 s2 ->
    waiting ctx2 s2 ctx3 s3 ->
    events ctx3 = e :: rest ->
    EngraveScreen_.handle e ins canPrev (set_events ctx3 rest) s3 = Ok (ctx4, s4, true) ->
    last_pass (ctx, s) (ctx4, s4, true).

(** The passes of a frame, one after the other. *)
Inductive passes : Context * EngraveScreen -> Context * EngraveScreen -> Prop :=
| passes_refl cs : passes cs cs
| passes_step cs1 cs2 cs3 : pass cs1 cs2 -> passes cs2 cs3 -> passes cs1 cs3.

(** What a frame may do to the context: it takes events off the front
    of the queue, starts goroutines, and releases button 2 or button 3
    in the button-state array; the rest it leaves alone. *)
Record footprint (ctx ctx' : Context) : Prop := mkFootprint {
  fp_platform : platform ctx' = platform ctx;
  fp_Calibrated : Calibrated ctx' = Calibrated ctx;
  fp_EnableSeedScan : EnableSeedScan ctx' = EnableSeedScan ctx;
  fp_NoSDCard : NoSDCard ctx' = NoSDCard ctx;
  fp_Repeats : Repeats ctx' = Repeats ctx;
  fp_events : events ctx' `suffix_of` events ctx;
  fp_spawned : spawned ctx `prefix_of` spawned ctx';
  fp_Buttons : forall b,
    Buttons ctx' !! b = Buttons ctx !! b \/
    ((b = input.Button2 \/ b = input.Button3) /\ Buttons ctx' !! b = Some false)
}.

(** What an engrave screen is made for: the share, the instructions and
    the plate. *)
Definition plan (s : EngraveScreen) : KeyDescriptor * list Instruction * Plate :=
  (Key s, instructions s, plate s).

(** The worker message [m] is a progress report. *)
Definition isProgress (m : WorkerMsg) : bool :=
  match m with MsgProgress _ => true | MsgResult _ => false end.

(** The device and the channels of an engraver session. *)
Definition session (e : engraveState) : option Device * bool * bool * bool :=
  (dev e, cancel_ch e, progress_ch e, errs_ch e).

(** The screen [s] is where [s0] was: same instructions, same cursor,
    same hold timer, same engraver session. *)
Definition stays (s0 s : EngraveScreen) : Prop :=
  instructions s = instructions s0 /\ step s = step s0 /\
  confirm s = confirm s0 /\ session (engrave s) = session (engrave s0).

(** The goroutine [g] is not a worker that was handed a nil device. *)
Definition armed (g : Goroutine) : Prop :=
  match g with
  | GoEngrave None _ _ => False
  | _ => True
  end.

(** From [ctx] to [ctx'] goroutines were started, all of them armed. *)
Definition started_armed (ctx ctx' : Context) : Prop :=
  exists gs, spawned ctx' = spawned ctx ++ gs /\ Forall armed gs.

(** ** Machine integers *)

(** Go's [int] is 32 or 64 bits wide, depending on the platform the
    program is built for. *)
Inductive IntSize := Int32 | Int64.
Existing Class IntSize.

Definition intBits `{sz : IntSize} : Z :=
  match sz with Int32 => 32 | Int64 => 64 end.

(** The value of an [int] expression whose mathematical value is [z]:
    two's complement wrap-around. *)
Definition wrap `{IntSize} (z : Z) : Z :=
  ((z + 2 ^ (intBits - 1)) mod 2 ^ intBits - 2 ^ (intBits - 1))%Z.

(** [uint8(n)], [uint16(n)] of an unsigned [n], and [uint16(z)] of an
    [int]: the low bits. *)
Definition uint8 (n : N) : N := (n mod 256)%N.
Definition uint16 (z : Z) : N := Z.to_N (z mod 65536).

(** ** Colors *)

(** [color.NRGBA]: four [uint8]. *)
Record NRGBA := mkNRGBA { cR : N; cG : N; cB : N; cA : N }.

(** [argb], of a [uint32]. *)
Definition argb (c : N) : NRGBA :=
  mkNRGBA (uint8 (N.shiftr c 16)) (uint8 (N.shiftr c 8)) (uint8 c)
          (uint8 (N.shiftr c 24)).

(** [rgb]: [argb(0xff000000 | c)]. *)
Definition rgb (c : N) : NRGBA := argb (N.lor 4278190080 c).

(** ** The scroll mask *)

(** [image.Point] and [image.Rectangle]. *)
Record Point := mkPoint { pX : Z; pY : Z }.
Record Rectangle := mkRectangle { Min : Point; Max : Point }.

(** [color.RGBA64]: four [uint16]. *)
Record RGBA64 := mkRGBA64 { c64R : N; c64G : N; c64B : N; c64A : N }.

Definition scrollFadeDist : Z := 16.

Module scrollMask.

(** [Bounds] *)
Definition Bounds (n : Rectangle) : Rectangle := n.

(** [RGBA64At]; Go's [/] on [int] truncates towards zero. *)
Definition RGBA64At `{IntSize} (n : Rectangle) (x y : Z) : RGBA64 :=
  let b := Bounds n in
  let d := wrap (y - pY (Min b)) in
  let alpha :=
    if (d <? scrollFadeDist)%Z then Z.quot (wrap (65535 * d)) scrollFadeDist
    else
      let d := wrap (pY (Max b) - y) in
      if (d <? scrollFadeDist)%Z then Z.quot (wrap (65535 * d)) scrollFadeDist
      else 65535%Z in
  mkRGBA64 0 0 0 (uint16 alpha).

(** [At] *)
Definition At `{IntSize} (n : Rectangle) (x y : Z) : RGBA64 := RGBA64At n x y.

End scrollMask.

(** ** Derivation paths *)

(** [hdkeychain.HardenedKeyStart], [0x80000000]. *)
Definition HardenedKeyStart : N := 2147483648.

(** [fmt]'s [%d] of an unsigned number. *)
Definition decimal (n : N) : string := NilZero.string_of_uint (N.to_uint n).

(** What the loop of [derivationPath] writes for one element. *)
Definition pathElement (p : N) : string :=
  String.append "/"
    (if (HardenedKeyStart <=? p)%N
     then String.append (decimal (p - HardenedKeyStart)) "'"
     else decimal p).

Definition derivationPath (path : Path) : string :=
  String.append "m" (String.concat "" (map pathElement path)).

(** Notions to tell the elements of a written path apart. *)
Definition isDigit (c : ascii) : bool :=
  (48 <=? nat_of_ascii c)%nat && (nat_of_ascii c <=? 57)%nat.

Fixpoint digits (s : string) : Prop :=
  match s with
  | EmptyString => True
  | String c s => isDigit c = true /\ digits s
  end.

(** The text [t] does not go on with a digit. *)
Definition stops (t : string) : Prop :=
  match t with
  | EmptyString => True
  | String c _ => isDigit c = false
  end.

(** What follows an element: nothing, or the next element. *)
Definition tail_ok (r : string) : Prop :=
  r = ""%string \/ exists r', r = String "/" r'.

(** ** The choice screen *)

Module ChoiceScreen_.

Definition set_choice (s : ChoiceScreen) (n : nat) : ChoiceScreen :=
  mkChoiceScreen (ch_Title s) (ch_Lead s) (Choices s) n.

(** The [switch e.Button] of [Layout]; [Some r] stands for [return r, true]. *)
Definition handle (e : Event) (s : ChoiceScreen) : ChoiceScreen * option Z :=
  if Button e =? input.Button1 then
    if Click e then (s, Some (-1)%Z) else (s, None)
  else if (Button e =? input.Button3) || (Button e =? input.Center) then
    if Click e then (s, Some (Z.of_nat (choice s))) else (s, None)
  else if Button e =? input.Up then
    if Pressed e && (0 <? choice s) then (set_choice s (choice s - 1), None)
    else (s, None)
  else if Button e =? input.Down then
    if Pressed e && (Z.of_nat (choice s) <? Z.of_nat (length (Choices s)) - 1)%Z
    then (set_choice s (choice s + 1), None)
    else (s, None)
  else (s, None).

(** The loop [for active { ... }] once [active] is known to hold; the
    queue is the argument [evs]. *)
Fixpoint Layout_loop (evs : list Event) (ctx : Context) (s : ChoiceScreen)
  : Context * ChoiceScreen * (Z * bool) :=
  match evs with
  | [] => (ctx, s, (0%Z, false))
  | e :: rest =>
      let ctx := set_events ctx rest in
      match handle e s with
      | (s, Some r) => (ctx, s, (r, true))
      | (s, None) => Layout_loop rest ctx s
      end
  end.

Definition Layout (s : ChoiceScreen) (ctx : Context) (active : bool)
  : Context * ChoiceScreen * (Z * bool) :=
  if active then Layout_loop (events ctx) ctx s else (ctx, s, (0%Z, false)).

End ChoiceScreen_.

(** The choice after the events [evs], when none of them ends the
    screen: a press of Down moves it one down, short of the last choice,
    and a press of Up one up, short of the first. *)
Fixpoint walk (n : nat) (c : nat) (evs : list Event) : nat :=
  match evs with
  | [] => c
  | e :: rest =>
      if (Button e =? input.Up) && Pressed e then walk n (c - 1) rest
      else if (Button e =? input.Down) && Pressed e
           then walk n (if c + 1 <? n then c + 1 else c) rest
           else walk n c rest
  end.

(** The event [e] ends the choice screen. *)
Definition decides (e : Event) : bool :=
  ((Button e =? input.Button1) || (Button e =? input.Button3) ||
   (Button e =? input.Center)) && Click e.

(** ** The cosigners screen *)

Definition linesPerPage : Z := 8.
Definition linesPerScroll : Z := linesPerPage - 3.

(** [a % b] on [int]: a panic when [b] is zero, else the remainder of
    the division that truncates towards zero. *)
Definition int_rem (a b : Z) : res Z :=
  if (b =? 0)%Z then Panic else Ok (Z.rem a b).

Module CosignersScreen_.

Definition set_page (s : CosignersScreen) (p : nat) (scroll : Z) : CosignersScreen :=
  mkCosignersScreen (co_Descriptor s) p scroll.


(** The [switch e.Button] of [Layout]; the boolean tells [return true].
    The field [page] is never negative and is kept as a natural number. *)
Definition handle `{IntSize} (e : Event) (s : CosignersScreen)
  : res (CosignersScreen * bool) :=
  let maxPage := Z.of_nat (length (Keys (co_Descriptor s))) in
  if Button e =? input.Button1 then Ok (s, Click e)
  else if Button e =? input.Left then
    if Pressed e then
      p ← int_rem (wrap (wrap (Z.of_nat (page s) - 1) + maxPage)) maxPage;
      Ok (set_page s (Z.to_nat p) 0, false)
    else Ok (s, false)
  else if Button e =? input.Right then
    if Pressed e then
      p ← int_rem (wrap (Z.of_nat (page s) + 1)) maxPage;
      Ok (set_page s (Z.to_nat p) 0, false)
    else Ok (s, false)
  else if Button e =? input.Up then
    if Pressed e then Ok (set_page s (page s) (wrap (scroll s - linesPerScroll)), false)
    else Ok (s, false)
  else if Button e =? input.Down then
    if Pressed e then Ok (set_page s (page s) (wrap (scroll s + linesPerScroll)), false)
    else Ok (s, false)
  else Ok (s, false).

Fixpoint Layout_loop `{IntSize} (evs : list Event) (ctx : Context) (s : CosignersScreen)
  : res (Context * CosignersScreen * bool) :=
  match evs with
  | [] => Ok (ctx, s, false)
  | e :: rest =>
      let ctx := set_events ctx rest in
      '(s, ret) ← handle e s;
      if (ret : bool) then Ok (ctx, s, true) else Layout_loop rest ctx s
  end.

(** [Layout].  Of the drawing code only what decides the state is kept:
    the share [desc.Keys[s.page]] is looked up, its text is laid out in
    [nlines k] lines ([len(bodytxt.Lines)], found by the text layout),
    the scroll position is clamped, and the line [bodytxt.Lines[s.scroll]]
    is looked up. *)
Definition Layout `{IntSize} (nlines : KeyDescriptor -> nat)
    (s : CosignersScreen) (ctx : Context) : res (Context * CosignersScreen * bool) :=
  '(ctx, s, ret) ← Layout_loop (events ctx) ctx s;
  if (ret : bool) then Ok (ctx, s, true)
  else
    k ← index (Keys (co_Descriptor s)) (page s);
    let maxScroll := wrap (Z.of_nat (nlines k) - linesPerPage) in
    let sc := scroll s in
    let sc := if (maxScroll <? sc)%Z then maxScroll else sc in
    let sc := if (sc <? 0)%Z then 0%Z else sc in
    if (sc <? Z.of_nat (nlines k))%Z
    then Ok (ctx, set_page s (page s) sc, false)
    else Panic.

End CosignersScreen_.

(** ** The keys of the keyboard *)

(** In the keyboard [k] the free keys are those that go on from the
    typed prefix [p]: backspace when something is typed, and, unless
    [p] has a single completion, the letters that follow [p] in a word
    of the list. *)
Definition free_keys `{Bip39} (k : Keyboard) (p : gostring) : Prop :=
  forall r, Keyboard_.Valid k r = true <->
    (r = backspace /\ p <> []) \/
    (length (completions p) <> 1 /\
     exists c w, r = Z.of_nat (nat_of_ascii (upper1 c)) /\
       w ∈ Wordlist /\ (p ++ [c]) `prefix_of` w).

(** ** The cursor of the keyboard *)

(** The runes of an ASCII text. *)
Definition runes (s : string) : list Z :=
  map (fun c => Z.of_nat (nat_of_ascii c)) (list_ascii_of_string s).

(** [kbdKeys]: the three rows of keys; the last key is ['⌫']. *)
Definition kbdKeys : list (list Z) :=
  [runes "QWERTYUIOP"; runes "ASDFGHJKL"; runes "ZXCVBNM" ++ [backspace]].

(** The keyboard with the fields that tell the highlighted key: the
    places of the keys and the row and the column of the cursor, next to
    the word, the count and the mask, which [Keyboard] holds. *)
Record Cursor := mkCursor {
  kbd : Keyboard;
  positions : list (list Point);
  row : Z;
  col : Z
}.

(** [l[i]] for an [int] index. *)
Definition indexZ {A} (l : list A) (i : Z) : res A :=
  if (i <? 0)%Z then Panic else index l (Z.to_nat i).

(** [len(l)] *)
Definition len {A} (l : list A) : Z := Z.of_nat (length l).

(** A loop [for i, a := range l] over a state, which can panic. *)
Fixpoint forRange {A St} (f : nat -> A -> St -> res St) (i : nat) (l : list A) (s : St)
  : res St :=
  match l with
  | [] => Ok s
  | a :: l => s ← f i a s; forRange f (S i) l s
  end.

(** [p.Add(q)] and [p.Sub(q)] of [image.Point]. *)
Definition Point_Add `{IntSize} (p q : Point) : Point :=
  mkPoint (wrap (pX p + pX q)) (wrap (pY p + pY q)).
Definition Point_Sub `{IntSize} (p q : Point) : Point :=
  mkPoint (wrap (pX p - pX q)) (wrap (pY p - pY q)).

Module Cursor_.

Definition set_kbd (k : Cursor) (kb : Keyboard) : Cursor :=
  mkCursor kb (positions k) (row k) (col k).
Definition set_cursor (k : Cursor) (r c : Z) : Cursor :=
  mkCursor (kbd k) (positions k) r c.

(** The state of the loops of [adjust] and [adjustCol]: [dist], [k.row],
    [k.col] and [found]. *)
Definition Nearest : Type := Z * Z * Z * bool.

(** The body of the inner loop of [adjust], for the key [key] at row [i]
    and column [j]. *)
Definition adjustKey `{IntSize} (k : Cursor) (allowBackspace : bool) (current : Point)
    (i j : nat) (key : Z) (st : Nearest) : res Nearest :=
  let '(dist, _, _, _) := st in
  if negb (Keyboard_.Valid (kbd k) key) || ((key =? backspace)%Z && negb allowBackspace)
  then Ok st
  else
    prow ← index (positions k) i;
    p ← index prow j;
    let d := Point_Sub p current in
    let d2 := wrap (wrap (pX d * pX d) + wrap (pY d * pY d)) in
    if (d2 <? dist)%Z then Ok (d2, Z.of_nat i, Z.of_nat j, true) else Ok st.

(** [adjust]: the cursor goes to the nearest valid key, if any. *)
Definition adjust `{IntSize} (k : Cursor) (allowBackspace : bool) : res Cursor :=
  prow ← indexZ (positions k) (row k);
  current ← indexZ prow (col k);
  st ← forRange
         (fun i keys st => forRange (adjustKey k allowBackspace current i) 0 keys st)
         0 kbdKeys (1000000%Z, row k, col k, false);
  let '(_, r, c, found) := st in
  if (found : bool) then Ok (set_cursor k r c)
  else
    let r := (len kbdKeys - 1)%Z in
    prow ← indexZ (positions k) r;
    Ok (set_cursor k r (wrap (len prow - 1))).

(** The body of the loop of [adjustCol]. *)
Definition adjustColKey `{IntSize} (k : Cursor) (rw x : Z) (i : nat) (r : Z) (st : Nearest)
  : res Nearest :=
  let '(dist, krow, kcol, _) := st in
  if negb (Keyboard_.Valid (kbd k) r) then Ok st
  else
    prow ← indexZ (positions k) rw;
    p ← index prow i;
    let d := wrap (pX p - x) in
    let d := if (d <? 0)%Z then wrap (- d) else d in
    if (d <? dist)%Z then Ok (d, rw, Z.of_nat i, true) else Ok (dist, rw, kcol, true).

(** [adjustCol]: the cursor goes to the valid key of the row [rw] that
    is nearest in the horizontal, if the row has a valid key. *)
Definition adjustCol `{IntSize} (k : Cursor) (rw : Z) : res (Cursor * bool) :=
  prow ← indexZ (positions k) (row k);
  p ← indexZ prow (col k);
  keys ← indexZ kbdKeys rw;
  st ← forRange (adjustColKey k rw (pX p)) 0 keys (1000000%Z, row k, col k, false);
  let '(_, r, c, found) := st in
  Ok (set_cursor k r c, found).

(** [rune] *)
Definition rune `{Bip39} `{IntSize} (k : Cursor) (r : Z) : res Cursor :=
  if negb (Keyboard_.Valid (kbd k) r) then Ok k
  else
    kb ← Keyboard_.rune (kbd k) r;
    adjust (set_kbd k kb) (r =? backspace)%Z.

(** The loops of [Event] for Left and Right: [step next n] is the
    column tried after [next] in a row of [n] keys. *)
Fixpoint moveCol `{IntSize} (fuel : nat) (k : Cursor) (step : Z -> Z -> Z) (next n : Z)
  : res Cursor :=
  match fuel with
  | O => OutOfFuel
  | S fuel =>
      next ← int_rem (step next n) n;
      keys ← indexZ kbdKeys (row k);
      key ← indexZ keys next;
      if negb (Keyboard_.Valid (kbd k) key) then moveCol fuel k step next n
      else adjust (set_cursor k (row k) next) true
  end.

(** The loops of [Event] for Up and Down. *)
Fixpoint moveRow `{IntSize} (fuel : nat) (k : Cursor) (step : Z -> Z -> Z) (next n : Z)
  : res Cursor :=
  match fuel with
  | O => OutOfFuel
  | S fuel =>
      next ← int_rem (step next n) n;
      '(k, found) ← adjustCol k next;
      if (found : bool) then adjust k true else moveRow fuel k step next n
  end.

(** [(next - 1 + n)] and [(next + 1)], before [% n]. *)
Definition back `{IntSize} (next n : Z) : Z := wrap (wrap (next - 1) + n).
Definition forth `{IntSize} (next n : Z) : Z := wrap (next + 1).

(** [Event]; [fuel] bounds the rounds of its loops. *)
Definition Event `{Bip39} `{IntSize} (fuel : nat) (e : Event) (k : Cursor) : res Cursor :=
  if negb (Pressed e) then Ok k
  else if Button e =? input.Left then
    keys ← indexZ kbdKeys (row k);
    moveCol fuel k back (col k) (len keys)
  else if Button e =? input.Right then
    keys ← indexZ kbdKeys (row k);
    moveCol fuel k forth (col k) (len keys)
  else if Button e =? input.Up then moveRow fuel k back (row k) (len kbdKeys)
  else if Button e =? input.Down then moveRow fuel k forth (row k) (len kbdKeys)
  else if Button e =? input.Rune then rune k (Z.of_N (Rune e))
  else if (Button e =? input.Center) || (Button e =? input.Button3) then
    keys ← indexZ kbdKeys (row k);
    r ← indexZ keys (col k);
    rune k r
  else Ok k.

(** [Clear] *)
Definition Clear `{Bip39} `{IntSize} (k : Cursor) : res Cursor :=
  kb ← Keyboard_.Clear (kbd k);
  let r := Z.quot (len kbdKeys) 2 in
  keys ← indexZ kbdKeys r;
  adjust (mkCursor kb (positions k) r (Z.quot (len keys) 2)) false.

Definition margin : Z := 2.

(** The places of the keys that [NewKeyboard] works out from the bounds
    [bgbnds] of the image of a key. *)
Definition place `{IntSize} (bgbnds : Rectangle) : list (list Point) :=
  let bgsz := Point_Add (Point_Sub (Max bgbnds) (Min bgbnds)) (mkPoint margin margin) in
  let longest :=
    fold_left (fun longest keys => if (longest <? len keys)%Z then len keys else longest)
      kbdKeys 0%Z in
  let maxw := wrap (wrap (longest * pX bgsz) - margin) in
  imap (fun i keys =>
          let n := len keys in
          let n := if i =? length kbdKeys - 1 then wrap (n - 1) else n in
          let w := wrap (wrap (pX bgsz * n) - margin) in
          let off := mkPoint (Z.quot (wrap (maxw - w)) 2) 0 in
          imap (fun j (_ : Z) =>
                  let pos := mkPoint (wrap (Z.of_nat j * pX bgsz))
                                     (wrap (Z.of_nat i * pY bgsz)) in
                  let pos := Point_Add pos off in
                  Point_Sub pos (Min bgbnds))
               keys)
       kbdKeys.

(** [NewKeyboard]: a zero keyboard with the keys placed, cleared.
    [bgbnds] is [k.bginact.Bounds()], the bounds of the image that the
    assets make for a key of the size of the widest letter. *)
Definition NewKeyboard `{Bip39} `{IntSize} (bgbnds : Rectangle) : res Cursor :=
  Clear (mkCursor (mkKeyboard [] 0 0%N) (place bgbnds) 0 0).

End Cursor_.

(** The cursor is on a key that can be typed. *)
Definition on_key (k : Cursor) : Prop :=
  exists keys key,
    (0 <= row k)%Z /\ (0 <= col k)%Z /\
    kbdKeys !! Z.to_nat (row k) = Some keys /\
    keys !! Z.to_nat (col k) = Some key /\
    Keyboard_.Valid (kbd k) key = true.

(** The keyboards with a cursor that can be met: a new one, and one
    that was cleared or was sent an event. *)
Inductive cur_reachable `{Bip39} `{IntSize} (bgbnds : Rectangle) : Cursor -> Prop :=
| cur_new k : Cursor_.NewKeyboard bgbnds = Ok k -> cur_reachable bgbnds k
| cur_clear k k' :
    cur_reachable bgbnds k -> Cursor_.Clear k = Ok k' -> cur_reachable bgbnds k'
| cur_event k fuel e k' :
    cur_reachable bgbnds k -> Cursor_.Event fuel e k = Ok k' -> cur_reachable bgbnds k'.

(** The keys are placed: each key has a place, and the places lie in a
    box of 950 by 200 within 2^20 of the origin. *)
Definition placed (ps : list (list Point)) : Prop :=
  Forall2 (fun (prow : list Point) (keys : list Z) => length prow = length keys)
    ps kbdKeys /\
  exists bx by_,
    (Z.abs bx <= 2 ^ 20)%Z /\ (Z.abs by_ <= 2 ^ 20)%Z /\
    forall prow p, prow ∈ ps -> p ∈ prow ->
      (0 <= pX p - bx <= 950)%Z /\ (0 <= pY p - by_ <= 200)%Z.

(** The image of a key is at most 98 wide and high and lies within
    2^20 of the origin. *)
Definition key_fits (bgbnds : Rectangle) : Prop :=
  (0 <= pX (Max bgbnds) - pX (Min bgbnds) <= 98)%Z /\
  (0 <= pY (Max bgbnds) - pY (Min bgbnds) <= 98)%Z /\
  (Z.abs (pX (Min bgbnds)) <= 2 ^ 20)%Z /\ (Z.abs (pY (Min bgbnds)) <= 2 ^ 20)%Z.

(** ** The word keyboard screen *)

Record WordKeyboardScreen := mkWordKeyboardScreen {
  wk_Mnemonic : Mnemonic;
  wk_selected : Z;
  wk_kbd : option Cursor
}.

(** [l[i] = a] for an [int] index. *)
Definition storeZ {A} (l : list A) (i : Z) (a : A) : res (list A) :=
  if (i <? 0)%Z || (len l <=? i)%Z then Panic else Ok (<[Z.to_nat i := a]> l).

Module WordKeyboardScreen_.

(** The loop [for { s.selected++ ... }] that looks for the next empty
    slot; the boolean tells [return true]. *)
Fixpoint nextSlot `{IntSize} (fuel : nat) (m : Mnemonic) (selected : Z) : res (Z * bool) :=
  match fuel with
  | O => OutOfFuel
  | S fuel =>
      let selected := wrap (selected + 1) in
      if (selected =? len m)%Z then Ok (selected, true)
      else
        w ← indexZ m selected;
        if (w =? -1)%Z then Ok (selected, false) else nextSlot fuel m selected
  end.

(** [s.kbd], which is not nil where it is used. *)
Definition the_kbd (s : WordKeyboardScreen) : res Cursor :=
  match wk_kbd s with Some k => Ok k | None => Panic end.

(** The [switch e.Button] of [Layout]; the boolean tells [return true].
    [fuel] bounds the rounds of the loops. *)
Definition handle `{Bip39} `{IntSize} (fuel : nat) (e : Event) (s : WordKeyboardScreen)
  : res (WordKeyboardScreen * bool) :=
  if Button e =? input.Button1 then Ok (s, Click e)
  else if Button e =? input.Button2 then
    if negb (Click e) then Ok (s, false)
    else
      k ← the_kbd s;
      let '(w, complete) := Keyboard_.Complete (kbd k) in
      if negb complete then Ok (s, false)
      else
        k ← Cursor_.Clear k;
        m ← storeZ (wk_Mnemonic s) (wk_selected s) w;
        '(sel, ret) ← nextSlot fuel m (wk_selected s);
        Ok (mkWordKeyboardScreen m sel (Some k), ret)
  else
    k ← the_kbd s;
    k ← Cursor_.Event fuel e k;
    Ok (mkWordKeyboardScreen (wk_Mnemonic s) (wk_selected s) (Some k), false).

Fixpoint Layout_loop `{Bip39} `{IntSize} (fuel : nat) (evs : list Event) (ctx : Context)
    (s : WordKeyboardScreen) : res (Context * WordKeyboardScreen * bool) :=
  match evs with
  | [] => Ok (ctx, s, false)
  | e :: rest =>
      let ctx := set_events ctx rest in
      '(s, ret) ← handle fuel e s;
      if (ret : bool) then Ok (ctx, s, true) else Layout_loop fuel rest ctx s
  end.

(** [Layout]; of the drawing code nothing changes the state.  [bgbnds]
    stands for what [NewKeyboard] reads from the context and the assets. *)
Definition Layout `{Bip39} `{IntSize} (fuel : nat) (bgbnds : Rectangle)
    (s : WordKeyboardScreen) (ctx : Context) : res (Context * WordKeyboardScreen * bool) :=
  k ← match wk_kbd s with
      | Some k => Ok k
      | None => Cursor_.NewKeyboard bgbnds
      end;
  Layout_loop fuel (events ctx) ctx
    (mkWordKeyboardScreen (wk_Mnemonic s) (wk_selected s) (Some k)).

End WordKeyboardScreen_.

(** The event of a typed rune, as [Context.Events] queues it. *)
Definition runeEvent (c : ascii) : Event :=
  mkEvent (input.mkEvent input.Rune true (N.of_nat (nat_of_ascii c))) false.

(** The events of a click of the button [b], as [Context.Events] queues
    them: the press, and the release that makes the click. *)
Definition clickEvents (b : input.Button) : list Event :=
  [mkEvent (input.mkEvent b true 0) false; mkEvent (input.mkEvent b false 0) true].

(** The mnemonic [m'] is [m] but for words of the list stored in it. *)
Definition words_stored `{Bip39} (m m' : Mnemonic) : Prop :=
  length m' = length m /\
  forall i w, m' !! i = Some w ->
    m !! i = Some w \/ (0 <= w < len Wordlist)%Z.

(** *** Notions for the loops of the cursor *)

(** The key in row [i] and column [j] of the table. *)
Definition key_at (i j : nat) (key : Z) : Prop :=
  exists keys, kbdKeys !! i = Some keys /\ keys !! j = Some key.

(** The place of the key in row [i] and column [j]. *)
Definition pos_at (ps : list (list Point)) (i j : nat) (p : Point) : Prop :=
  exists prow, ps !! i = Some prow /\ prow !! j = Some p.

(** The box of [placed] with the corner [(bx, by_)]. *)
Definition in_box (bx by_ : Z) (p : Point) : Prop :=
  (0 <= pX p - bx <= 950)%Z /\ (0 <= pY p - by_ <= 200)%Z.

(** The square of the distance of two places. *)
Definition dist2 (p c : Point) : Z :=
  ((pX p - pX c) * (pX p - pX c) + (pY p - pY c) * (pY p - pY c))%Z.

(** The keys that [adjust] chooses from. *)
Definition eligible (k : Cursor) (allow : bool) (key : Z) : bool :=
  Keyboard_.Valid (kbd k) key && negb ((key =? backspace)%Z && negb allow).

(** What the loop of [adjust] has found after the keys [seen]: the
    nearest of the keys that can be chosen, if there is one. *)
Definition AdjInv (k : Cursor) (allow : bool) (current : Point) (r0 c0 : Z)
    (seen : nat -> nat -> Prop) (st : Cursor_.Nearest) : Prop :=
  let '(dist, r, c, found) := st in
  if (found : bool) then
    exists i j key p,
      r = Z.of_nat i /\ c = Z.of_nat j /\ key_at i j key /\
      eligible k allow key = true /\ pos_at (positions k) i j p /\
      dist = dist2 p current /\
      forall i' j' key' p',
        seen i' j' -> key_at i' j' key' -> eligible k allow key' = true ->
        pos_at (positions k) i' j' p' -> (dist <= dist2 p' current)%Z
  else
    dist = 1000000%Z /\ r = r0 /\ c = c0 /\
    forall i j key, seen i j -> key_at i j key -> eligible k allow key = false.

(** The cursor has a place. *)
Definition in_table (k : Cursor) : Prop :=
  exists i j p,
    row k = Z.of_nat i /\ col k = Z.of_nat j /\ pos_at (positions k) i j p.

(** No two keys have the same place. *)
Definition distinct (ps : list (list Point)) : Prop :=
  forall i j i' j' p, pos_at ps i j p -> pos_at ps i' j' p -> i = i' /\ j = j'.

(** What the loop of [adjustCol] has found in the first [n] keys of the
    row [ri]: the valid key that is nearest to the column [x], if there
    is one. *)
Definition ColInv (k : Cursor) (ri : nat) (keys : list Z) (x r0 c0 : Z)
    (n : nat) (st : Cursor_.Nearest) : Prop :=
  let '(dist, r, c, found) := st in
  if (found : bool) then
    r = Z.of_nat ri /\
    exists j key p,
      c = Z.of_nat j /\ keys !! j = Some key /\
      Keyboard_.Valid (kbd k) key = true /\ pos_at (positions k) ri j p /\
      dist = Z.abs (pX p - x) /\
      forall j' key' p',
        j' < n -> keys !! j' = Some key' -> Keyboard_.Valid (kbd k) key' = true ->
        pos_at (positions k) ri j' p' -> (dist <= Z.abs (pX p' - x))%Z
  else
    dist = 1000000%Z /\ r = r0 /\ c = c0 /\
    forall j key, j < n -> keys !! j = Some key -> Keyboard_.Valid (kbd k) key = false.

(** ** Runs of frames *)

(** A run of frames, each with the case that its [select] takes and the
    input events that wait in [a.btns]. *)
Fixpoint Frames `{RootScreen} (fs : list (Wake * list input.Event)) (a : App)
  : option App :=
  match fs with
  | [] => Some a
  | (w, btns) :: fs =>
      match App_.Frame w btns a with
      | Some a => Frames fs a
      | None => None
      end
  end.

(** The numbers of the screenshots that the effects dump, and the
    number of times that they draw. *)
Definition dumped (effs : list FrameEffect) : list nat :=
  omap (fun e => match e with DumpImage n => Some n | _ => None end) effs.

Definition drawn (effs : list FrameEffect) : nat :=
  length (omap (fun e => match e with Draw => Some e | _ => None end) effs).

(** The input events hold a request for a screenshot. *)
Definition requested (btns : list input.Event) : bool :=
  existsb (fun e => input.Button_ e =? input.Screenshot) btns.

(** *** Where the cursor goes *)

(** The key in row [r] and column [c] can be typed. *)
Definition valid_key (k : Cursor) (r c : Z) : Prop :=
  exists keys key,
    (0 <= r)%Z /\ (0 <= c)%Z /\
    kbdKeys !! Z.to_nat r = Some keys /\ keys !! Z.to_nat c = Some key /\
    Keyboard_.Valid (kbd k) key = true.

(** The place [t] steps from [x] in the direction [d] (1 or -1), going
    round [n] places. *)
Definition toward (d x : Z) (t : nat) (n : Z) : Z := ((x + d * Z.of_nat t) mod n)%Z.

(** The direction of an arrow button. *)
Definition direction (b : input.Button) : Z :=
  if (b =? input.Left) || (b =? input.Up) then (-1)%Z else 1%Z.

(** ** The seed screen *)

(** The fields of [SeedScreen] that the event switch of its [Layout]
    reads and writes: the mnemonic, the selected word, and the dialogs
    that the switch opens. *)
Record SeedWords := mkSeedWords {
  sw_Mnemonic : Mnemonic;
  sw_selected : Z;
  sw_input : option WordKeyboardScreen;
  sw_cancel : option ConfirmWarningScreen;
  sw_warning : option ErrorScreen
}.

(** How the event switch of [SeedScreen.Layout] is left: by a [return]
    of a mnemonic or of [nil], or for the next round of the loop. *)
Inductive SeedExit :=
| SeedReturn (m : option Mnemonic)
| SeedContinue.

Module SeedScreen_.

(** [empty], on the mnemonic of the screen. *)
Fixpoint empty (m : Mnemonic) : bool :=
  match m with
  | [] => true
  | w :: m => if negb (w =? -1)%Z then false else empty m
  end.

(** The loop at the head of [Layout] that works out [complete]. *)
Fixpoint completeLoop (m : Mnemonic) (complete : bool) : bool :=
  match m with
  | [] => complete
  | w :: m => if (w =? -1)%Z then false else completeLoop m complete
  end.

Definition complete (m : Mnemonic) : bool := completeLoop m (0 <? len m)%Z.

(** [emptyMnemonic]: [make] panics on a negative length; the loop sets
    the slots one by one. *)
Definition emptyMnemonic (nwords : Z) : res Mnemonic :=
  if (nwords <? 0)%Z then Panic
  else
    let m := replicate (Z.to_nat nwords) 0%Z in
    Ok (foldl (fun m i => <[i := (-1)%Z]> m) m (seq 0 (length m))).

Definition discardSeed : ConfirmWarningScreen :=
  mkConfirmWarningScreen "Discard Seed?"
    "Going back will discard the seed.

Hold button to confirm." ConfirmDelay_zero.

Definition invalidSeed : ErrorScreen :=
  mkErrorScreen "Invalid Seed" "The seed phrase is invalid.
Check the words and try again.".

(** The [switch e.Button] of [Layout], reached when no dialog took the
    frame.  [valid] is [bip39.Mnemonic.Valid], and [complete] what the
    head of the loop worked out. *)
Definition handle `{IntSize} (valid : Mnemonic -> bool) (complete : bool) (e : Event)
    (s : SeedWords) : SeedWords * SeedExit :=
  if Button e =? input.Button1 then
    if negb (Click e) then (s, SeedContinue)
    else if empty (sw_Mnemonic s) then (s, SeedReturn None)
    else (mkSeedWords (sw_Mnemonic s) (sw_selected s) (sw_input s) (Some discardSeed)
            (sw_warning s), SeedContinue)
  else if (Button e =? input.Button2) || (Button e =? input.Center) then
    if negb (Click e) then (s, SeedContinue)
    else (mkSeedWords (sw_Mnemonic s) (sw_selected s)
            (Some (mkWordKeyboardScreen (sw_Mnemonic s) (sw_selected s) None))
            (sw_cancel s) (sw_warning s), SeedContinue)
  else if Button e =? input.Button3 then
    if negb (Click e) || negb complete then (s, SeedContinue)
    else if negb (valid (sw_Mnemonic s)) then
      (mkSeedWords (sw_Mnemonic s) (sw_selected s) (sw_input s) (sw_cancel s)
         (Some invalidSeed), SeedContinue)
    else (s, SeedReturn (Some (sw_Mnemonic s)))
  else if Button e =? input.Down then
    if Pressed e && (sw_selected s <? wrap (len (sw_Mnemonic s) - 1))%Z then
      (mkSeedWords (sw_Mnemonic s) (wrap (sw_selected s + 1)) (sw_input s) (sw_cancel s)
         (sw_warning s), SeedContinue)
    else (s, SeedContinue)
  else if Button e =? input.Up then
    if Pressed e && (0 <? sw_selected s)%Z then
      (mkSeedWords (sw_Mnemonic s) (wrap (sw_selected s - 1)) (sw_input s) (sw_cancel s)
         (sw_warning s), SeedContinue)
    else (s, SeedContinue)
  else (s, SeedContinue).

End SeedScreen_.


(** ** Sample values, used to exercise the statements *)

Definition sampleKey : KeyDescriptor :=
  mkKeyDescriptor 1234%N [2147483696; 2147483648; 2147483648; 2147483650]%N "xpubA".

(** A freshly built engrave screen of a calibrated device and a
    one-sided plate. *)
Definition sampleScreen : EngraveScreen :=
  mkEngraveScreen sampleKey (EngraveSideA ++ EngraveSuccess)
    (mkPlate SquarePlate 1) None 0 (mkDryRun 0%Z false)
    engraveState_zero ConfirmDelay_zero.

(** A platform whose engraver answers, and one whose engraver does not. *)
Definition platformUp (now : Time) : Platform := mkPlatform now (inl 7).
Definition platformDown (now : Time) : Platform :=
  mkPlatform now (inr (errorString "failed to connect")).

Definition sampleContext (now : Time) : Context :=
  Context_.NewContext (platformUp now).

(** Stand-ins for the external packages: the xpub text of a key is its
    [KeyData]; P2WSH has the standard path m/48'/0'/0'/2' and the other
    script types have none; a descriptor of more than three keys fits no
    plate; every mnemonic yields a master key, which derives "xpubA"
    from the mnemonic [[1; 2; 3]] and "xpubZ" from any other. *)
Definition samplePath : Path := [2147483696; 2147483648; 2147483648; 2147483650]%N.

#[local] Instance samplePackages : Packages := {|
  KeyDescriptor_String k := KeyData k;
  OutputDescriptor_DerivationPath d :=
    match Type_ d with
    | P2WSH => samplePath
    | _ => []
    end;
  Path_String p := "m/...";
  Fingerprint_String fp := "........";
  FixChecksum m := m;
  backup_Engrave d keyIdx m :=
    if length (Keys d) <=? 3 then inl (mkPlate SquarePlate 1)
    else inr ErrDescriptorTooLarge;
  backup_Recoverable d := true;
  MasterKey := Mnemonic;
  NewMaster m pass := Some m;
  Derive mk p := if bool_decide (mk = [1; 2; 3]%Z) then Some "xpubA" else Some "xpubZ"
|}.

Definition keyA : KeyDescriptor := mkKeyDescriptor 1234%N samplePath "xpubA".
Definition keyB : KeyDescriptor := mkKeyDescriptor 5678%N samplePath "xpubB".

(** A 1-of-2 wallet. *)
Definition sampleDescriptor : OutputDescriptor :=
  mkOutputDescriptor P2WSH 1 [keyA; keyB].

(** The engrave screen [NewEngraveScreen] makes for the share [keyA] on
    a device that is not calibrated. *)
Definition sampleNew : EngraveScreen :=
  mkEngraveScreen keyA (EngraveFirstSideA ++ EngraveSuccess)
    (mkPlate SquarePlate 1) None 0 (mkDryRun 0%Z false)
    engraveState_zero ConfirmDelay_zero.

(** A frame as the tests of the package drive one: the clock is set,
    input events are submitted, the screen is laid out. *)
Definition testFrame (now : Time) (evs : list input.Event) (msgs : list WorkerMsg)
    (st : Context * EngraveScreen) : res (Context * EngraveScreen * bool) :=
  let '(ctx, s) := st in
  let ctx := set_platform ctx (mkPlatform now (Engraver (platform ctx))) in
  EngraveScreen_.Layout msgs (Context_.Events ctx evs) s.

Definition press (b : input.Button) : input.Event := input.mkEvent b true 0%N.
Definition release (b : input.Button) : input.Event := input.mkEvent b false 0%N.
Definition click (b : input.Button) : list input.Event := [press b; release b].

(** An engraving session that is cancelled while the worker runs: four
    clicks lead to the Connect instruction, a hold of one second opens
    the device 7 and starts the worker, a click on the back button opens
    the cancel dialog and a second hold of one second confirms it. *)
Definition cancelScenario : res (Context * EngraveScreen * bool) :=
  '(ctx, s, _) ← testFrame 1000000000%Z
     (click input.Button3 ++ click input.Button3 ++ click input.Button3 ++ click input.Button3)
     [] (sampleContext 1000000000%Z, sampleScreen);
  '(ctx, s, _) ← testFrame 2000000000%Z [press input.Button3] [] (ctx, s);
  '(ctx, s, _) ← testFrame 3000000000%Z [] [] (ctx, s);
  '(ctx, s, _) ← testFrame 4000000000%Z (release input.Button3 :: click input.Button1) [] (ctx, s);
  '(ctx, s, _) ← testFrame 5000000000%Z [press input.Button3] [] (ctx, s);
  testFrame 6000000000%Z [] [] (ctx, s).

(** A key off the standard path, a wallet that lists it twice, and a
    wallet that lists [keyA] twice before it. *)
Definition keyOdd : KeyDescriptor := mkKeyDescriptor 9999%N [2147483734%N] "xpubC".

Definition twiceOdd : OutputDescriptor := mkOutputDescriptor P2WSH 1 [keyOdd; keyOdd].

Definition twiceThenOdd : OutputDescriptor :=
  mkOutputDescriptor P2WSH 2 [keyA; keyA; keyOdd].

(** The descriptor screen showing a wallet, with no child screen. *)
Definition descriptorScreen (d : OutputDescriptor) : DescriptorScreen :=
  mkDescriptorScreen d [] None None None None.

(** A toy multi-part decoder: it keeps the fragments it was given; two
    fragments belong to the same message when their first seven bytes
    agree; a message is complete with two fragments and its payload is
    their concatenation. *)
Definition sameHead (f g : string) : bool :=
  String.eqb (String.substring 0 7 f) (String.substring 0 7 g).

Definition asciiUpper (c : ascii) : ascii :=
  let n := nat_of_ascii c in
  if (97 <=? n) && (n <=? 122) then ascii_of_nat (n - 32) else c.

Fixpoint stringUpper (s : string) : string :=
  match s with
  | EmptyString => EmptyString
  | String c s => String (asciiUpper c) (stringUpper s)
  end.

#[local] Instance sampleUR : URPackage := {|
  Decoder := list string;
  Decoder_zero := [];
  Decoder_Add d f :=
    if forallb (fun g => sameHead g f) d then (d ++ [f], None)
    else (d, Some (errorString "incompatible fragment"));
  Decoder_Result d :=
    match d with
    | [a; b] => ("crypto-output", Some (a ++ b)%string, None)
    | _ => ("", None, None)
    end;
  Value := string;
  urtypes_Parse typ enc := inl enc;
  ToUpper := stringUpper
|}.

(** A root screen that leaves the queue as it finds it, and an
    application whose idle timer is armed. *)
#[local] Instance sampleRoot : RootScreen := {|
  MainScreen := unit;
  MainScreen_Layout s ctx err := (ctx, s)
|}.

Definition sampleApp : App :=
  mkApp false (sampleContext 5%Z) None tt false true 0 [].

Definition screenshotEvent : input.Event := input.mkEvent input.Screenshot true 0%N.

(** A small word list in the manner of the BIP-39 list. *)
Definition sampleWords : list gostring :=
  map list_ascii_of_string ["act"; "action"; "actor"; "bar"; "zoo"]%string.

#[local] Instance sampleBip39 : Bip39 := {|
  Wordlist := sampleWords;
  ClosestWord p := fst <$> firstWith sampleWords p;
  LabelFor i := default [] (sampleWords !! i)
|}.

(** ** Further sample values *)

(** The screen [sampleNew] once the nine preparations were clicked
    through and the hold on the Connect instruction completed: the
    cursor is on the Engrave instruction and the worker runs on the
    device 7. *)
Definition engravingScreen : EngraveScreen :=
  mkEngraveScreen keyA (EngraveFirstSideA ++ EngraveSuccess)
    (mkPlate SquarePlate 1) None 10 (mkDryRun 0%Z false)
    (mkEngraveState (Some 7) true true true 0 None false) ConfirmDelay_zero.

(** [n] clicks of button 3. *)
Definition clicks3 (n : nat) : list input.Event :=
  concat (replicate n (click input.Button3)).

(** An application in debug mode that has dumped three screenshots. *)
Definition debugApp : App :=
  mkApp true (sampleContext 5%Z) None tt false true 3 [].


(* ===================================================================== *)
(** * Part II: properties                                                 *)
(* ===================================================================== *)

(** ** The event model *)

Section EventModel.

Implicit Types (c : Context) (e : input.Event) (b : input.Button).

Lemma Events_nil c : Context_.Events c [] = c.
Proof. reflexivity. Qed.

Lemma Events_cons c e l :
  Context_.Events c (e :: l) = Context_.Events (Context_.Events1 c e) l.
Proof. reflexivity. Qed.

Lemma Events_app c l1 l2 :
  Context_.Events c (l1 ++ l2) = Context_.Events (Context_.Events c l1) l2.
Proof. unfold Context_.Events. apply fold_left_app. Qed.

Lemma Events1_events c e :
  exists cl, events (Context_.Events1 c e) = events c ++ [mkEvent e cl] /\
    (input.Button_ e < length (Buttons c) ->
       cl = negb (input.Pressed e) && at_ false (Buttons c) (input.Button_ e)) /\
    (length (Buttons c) <= input.Button_ e -> cl = false).
Proof.
  unfold Context_.Events1.
  destruct (Nat.ltb_spec (input.Button_ e) (length (Buttons c))) as [Hlt|Hge].
  - eexists; split.
    + destruct (input.Pressed e && isRepeatButton (input.Button_ e)); reflexivity.
    + split; [reflexivity | lia].
  - exists false. split; [reflexivity|]. split; [lia | reflexivity].
Qed.

Lemma Events1_Buttons c e :
  Buttons (Context_.Events1 c e) =
    if input.Button_ e <? length (Buttons c)
    then <[input.Button_ e := input.Pressed e]> (Buttons c)
    else Buttons c.
Proof.
  unfold Context_.Events1.
  destruct (input.Button_ e <? length (Buttons c)); [|reflexivity].
  destruct (input.Pressed e && isRepeatButton (input.Button_ e)); reflexivity.
Qed.

Lemma Events1_Buttons_length c e :
  length (Buttons (Context_.Events1 c e)) = length (Buttons c).
Proof.
  rewrite Events1_Buttons.
  destruct (input.Button_ e <? length (Buttons c)); [apply length_insert | reflexivity].
Qed.

Lemma Events1_Buttons_other c e b :
  input.Button_ e <> b ->
  Buttons (Context_.Events1 c e) !! b = Buttons c !! b.
Proof.
  intros Hne. rewrite Events1_Buttons.
  destruct (input.Button_ e <? length (Buttons c)); [|reflexivity].
  by apply list_lookup_insert_ne.
Qed.

(** Events of other buttons leave the slot of [b] alone and are queued
    in order. *)
Lemma Events_other c b (mid : list input.Event) :
  Forall (fun e => input.Button_ e <> b) mid ->
  exists mid',
    events (Context_.Events c mid) = events c ++ mid' /\
    map Event_ mid' = mid /\
    Buttons (Context_.Events c mid) !! b = Buttons c !! b /\
    length (Buttons (Context_.Events c mid)) = length (Buttons c).
Proof.
  intros Hall. revert c.
  induction Hall as [|e mid Hne _ IH]; intros c.
  - exists []. rewrite Events_nil, app_nil_r. auto.
  - rewrite Events_cons.
    destruct (IH (Context_.Events1 c e)) as (mid' & Hev & Hmap & Hb & Hlen).
    destruct (Events1_events c e) as (cl & Hev1 & _).
    exists (mkEvent e cl :: mid'). repeat split.
    + rewrite Hev, Hev1, <- app_assoc. reflexivity.
    + simpl. by rewrite Hmap.
    + rewrite Hb. by apply Events1_Buttons_other.
    + rewrite Hlen. apply Events1_Buttons_length.
Qed.

Lemma filter_none {A} (P : A -> Prop) `{!forall x, Decision (P x)} (l : list A) :
  Forall (fun x => ~ P x) l -> filter P l = [].
Proof.
  induction 1 as [|x l Hx _ IH]; [reflexivity|].
  rewrite filter_cons_False by exact Hx. exact IH.
Qed.

End EventModel.

(** C4.  A press of a button [b] that has a slot in the button-state
    array, followed by a release of [b], with only events of other
    buttons submitted in between, queues the press with the click flag
    false and the release with the click flag true, and among the queued
    events exactly one is a click of [b]. *)
Theorem C4_press_release_one_click
    (c : Context) (b : input.Button) (r1 r2 : N) (mid : list input.Event) :
  b < length (Buttons c) ->
  Forall (fun e => input.Button_ e <> b) mid ->
  let press := input.mkEvent b true r1 in
  let release := input.mkEvent b false r2 in
  exists mid',
    events (Context_.Events c (press :: mid ++ [release])) =
      events c ++ mkEvent press false :: mid' ++ [mkEvent release true] /\
    map Event_ mid' = mid /\
    length (filter (fun e => Button e = b /\ Click e = true)
              (mkEvent press false :: mid' ++ [mkEvent release true])) = 1.
Proof.
  intros Hb Hmid press release.
  rewrite Events_cons, Events_app.
  set (c1 := Context_.Events1 c press).
  destruct (Events_other c1 b mid Hmid) as (mid' & Hev & Hmap & Hbtn & Hlen).
  set (c2 := Context_.Events c1 mid) in *.
  assert (Hlen1 : length (Buttons c1) = length (Buttons c))
    by apply Events1_Buttons_length.
  assert (Hc1b : Buttons c1 !! b = Some true).
  { unfold c1. rewrite Events1_Buttons. simpl.
    apply Nat.ltb_lt in Hb as Hb'. rewrite Hb'.
    by apply list_lookup_insert_eq. }
  destruct (Events1_events c press) as (cl1 & Hev1 & Hcl1 & _).
  specialize (Hcl1 Hb). simpl in Hcl1. subst cl1.
  destruct (Events1_events c2 release) as (cl2 & Hev2 & Hcl2 & _).
  assert (Hcl2' : cl2 = true).
  { rewrite Hcl2 by (simpl; lia). unfold at_.
    change (input.Button_ release) with b. by rewrite Hbtn, Hc1b. }
  subst cl2.
  exists mid'. split; [|split].
  - rewrite Events_cons, Events_nil, Hev2, Hev. subst c1. rewrite Hev1.
    rewrite <- !app_assoc. reflexivity.
  - exact Hmap.
  - assert (Hnone : filter (fun e => Button e = b /\ Click e = true) mid' = []).
    { apply filter_none, Forall_forall. intros e He [Hbe _].
      rewrite Forall_forall in Hmid. apply (Hmid (Event_ e)); [|exact Hbe].
      rewrite <- Hmap. apply list_elem_of_fmap_2. exact He. }
    rewrite filter_cons_False by (simpl; intros [_ ?]; discriminate).
    rewrite filter_app, Hnone. simpl.
    rewrite filter_cons_True by (split; reflexivity). reflexivity.
Qed.

Lemma C4_witness :
  exists mid',
    events (Context_.Events (Context_.NewContext (mkPlatform 5%Z (inl 0)))
              (input.mkEvent input.Button3 true 0%N
                 :: [input.mkEvent input.Up true 0%N] ++ [input.mkEvent input.Button3 false 0%N])) =
      [] ++ mkEvent (input.mkEvent input.Button3 true 0%N) false
         :: mid' ++ [mkEvent (input.mkEvent input.Button3 false 0%N) true] /\
    map Event_ mid' = [input.mkEvent input.Up true 0%N] /\
    length (filter (fun e => Button e = input.Button3 /\ Click e = true)
              (mkEvent (input.mkEvent input.Button3 true 0%N) false
                 :: mid' ++ [mkEvent (input.mkEvent input.Button3 false 0%N) true])) = 1.
Proof.
  apply (C4_press_release_one_click (Context_.NewContext (mkPlatform 5%Z (inl 0)))
           input.Button3 0%N 0%N [input.mkEvent input.Up true 0%N]).
  - simpl. unfold input.Button3. lia.
  - repeat constructor. discriminate.
Defined.

(** ** The hold-to-confirm timer *)

Section ConfirmTimer.

Implicit Types (c : ConfirmDelay) (ctx : Context).

Lemma Progress_not_running c ctx :
  ConfirmDelay_.Running c = false -> ConfirmDelay_.Progress c ctx = (ctx, 0%Q).
Proof. unfold ConfirmDelay_.Progress. intros ->. reflexivity. Qed.

Lemma Progress_expired c ctx :
  ConfirmDelay_.Running c = true ->
  (timeout c <= Now (platform ctx))%Z ->
  ConfirmDelay_.Progress c ctx = (ctx, 1%Q).
Proof.
  unfold ConfirmDelay_.Progress, Sub. intros -> Hle. simpl.
  destruct (Z.leb_spec (timeout c - Now (platform ctx)) 0); [reflexivity | lia].
Qed.

Lemma Progress_pending c ctx :
  ConfirmDelay_.Running c = true ->
  (Now (platform ctx) < timeout c)%Z ->
  ConfirmDelay_.Progress c ctx =
    (Context_.WakeupAfter ctx 0%Z,
     (1 - Seconds (timeout c - Now (platform ctx))%Z / Seconds confirmDelay)%Q).
Proof.
  unfold ConfirmDelay_.Progress, Sub. intros -> Hlt. simpl.
  destruct (Z.leb_spec (timeout c - Now (platform ctx)) 0); [lia | reflexivity].
Qed.

Lemma inject_Z_sub (x y : Z) : inject_Z (x - y) = (inject_Z x - inject_Z y)%Q.
Proof. unfold Z.sub, Qminus. rewrite inject_Z_plus, inject_Z_opp. reflexivity. Qed.

Lemma Seconds_confirmDelay : (Seconds confirmDelay == 1)%Q.
Proof. vm_compute. reflexivity. Qed.

(** The value of a pending timer, as a fraction of one second. *)
Lemma pending_value (d : Duration) :
  (1 - Seconds d / Seconds confirmDelay == 1 - inject_Z d / inject_Z Second)%Q.
Proof.
  rewrite Seconds_confirmDelay. unfold Seconds.
  change (d # 1) with (inject_Z d). change (Second # 1) with (inject_Z Second).
  field. unfold Second. discriminate.
Qed.

Lemma fraction_pos (d : Duration) :
  (0 < d)%Z -> (0 < inject_Z d / inject_Z Second)%Q.
Proof.
  intros Hd. apply Qlt_shift_div_l; [reflexivity|].
  rewrite Qmult_0_l, <- (Zlt_Qlt 0). exact Hd.
Qed.

(** A pending timer reads strictly less than 1. *)
Lemma Progress_pending_lt_1 c ctx :
  ConfirmDelay_.Running c = true ->
  (Now (platform ctx) < timeout c)%Z ->
  (snd (ConfirmDelay_.Progress c ctx) < 1)%Q.
Proof.
  intros Hr Hlt. rewrite Progress_pending by assumption. simpl snd.
  rewrite pending_value.
  pose proof (fraction_pos (timeout c - Now (platform ctx))%Z ltac:(lia)) as Hpos.
  apply Qlt_minus_iff.
  assert (Heq :
    (1 + - (1 - inject_Z (timeout c - Now (platform ctx)) / inject_Z Second) ==
     inject_Z (timeout c - Now (platform ctx)) / inject_Z Second)%Q) by ring.
  rewrite Heq. exact Hpos.
Qed.

Lemma Progress_eq_1_iff c ctx :
  Qeq_bool (snd (ConfirmDelay_.Progress c ctx)) 1 = true <->
  ConfirmDelay_.Running c = true /\ (timeout c <= Now (platform ctx))%Z.
Proof.
  destruct (ConfirmDelay_.Running c) eqn:Hr.
  - destruct (Z.le_gt_cases (timeout c) (Now (platform ctx))) as [Hle|Hgt].
    + rewrite Progress_expired by assumption. simpl. split; [auto | reflexivity].
    + split.
      * intros H. apply Qeq_bool_iff in H.
        pose proof (Progress_pending_lt_1 c ctx Hr Hgt) as Hlt.
        rewrite H in Hlt. exfalso. revert Hlt. apply Qlt_irrefl.
      * intros [_ Hle]. lia.
  - rewrite Progress_not_running by assumption. simpl.
    split; [discriminate | intros [? _]; discriminate].
Qed.

End ConfirmTimer.




(** ** The engrave screen: one step *)

Section MoveStep.

Implicit Types (ctx : Context) (s : EngraveScreen).

Lemma index_Some {A} (l : list A) i a : l !! i = Some a -> index l i = Ok a.
Proof. unfold index. intros ->. reflexivity. Qed.

Lemma index_lt {A} (l : list A) i : i < length l -> exists a, index l i = Ok a.
Proof.
  intros Hlt. destruct (lookup_lt_is_Some_2 l i Hlt) as [a Ha].
  exists a. by apply index_Some.
Qed.

Lemma index_Ok_lt {A} (l : list A) i a : index l i = Ok a -> l !! i = Some a.
Proof. unfold index. destruct (l !! i); [congruence | discriminate]. Qed.

Lemma InstructionType_eqb_eq (a b : InstructionType) :
  InstructionType_eqb a b = true <-> a = b.
Proof. destruct a, b; simpl; split; congruence. Qed.

Lemma InstructionType_eqb_neq (a b : InstructionType) :
  InstructionType_eqb a b = false <-> a <> b.
Proof. destruct a, b; simpl; split; congruence. Qed.

(** [advance] moves the cursor by one; it ends the session exactly when
    the cursor reaches the end of the list, and it starts a worker
    exactly when the cursor lands on an Engrave instruction. *)
Lemma advance_spec ctx s :
  step s < length (instructions s) ->
  exists ctx' s',
    EngraveScreen_.advance ctx s =
      Ok (ctx', s', bool_decide (step s + 1 = length (instructions s))) /\
    step s' = step s + 1 /\
    instructions s' = instructions s /\
    confirm s' = confirm s /\
    cancel s' = cancel s /\
    platform ctx' = platform ctx /\
    events ctx' = events ctx /\
    dryRun s' = dryRun s /\
    Buttons ctx' = Buttons ctx /\
    (errs_ch (engrave s') = true ->
     errs_ch (engrave s) = true \/
     exists ins, instructions s !! (step s + 1) = Some ins /\
       ins_Type ins = EngraveInstruction).
Proof.
  intros Hlt. unfold EngraveScreen_.advance. simpl.
  destruct (Nat.eqb_spec (step s + 1) (length (instructions s))) as [Heq|Hne].
  - rewrite bool_decide_eq_true_2 by exact Heq.
    eexists _, _. split; [reflexivity|]. simpl.
    repeat (split; [reflexivity|]). discriminate.
  - rewrite bool_decide_eq_false_2 by exact Hne.
    destruct (index_lt (instructions s) (step s + 1) ltac:(lia)) as [ins Hins].
    rewrite Hins. simpl.
    destruct (InstructionType_eqb (ins_Type ins) EngraveInstruction) eqn:Hty;
      eexists _, _; (split; [reflexivity|]); simpl;
      repeat (split; [reflexivity|]).
    + intros _. right. exists ins. split; [by apply index_Ok_lt|].
      by apply InstructionType_eqb_eq.
    + auto.
Qed.

End MoveStep.

(** C6.  On a Connect instruction [moveStep] does nothing when a device
    handle is already there; otherwise, when the engraver cannot be
    opened, it stays on the step with the non-fatal warning "Connection
    Error" and no device; and only when the engraver is opened does the
    step cursor move, by one. *)
Theorem C6_connect_step (ctx : Context) (s : EngraveScreen) (ins : Instruction) :
  instructions s !! step s = Some ins ->
  ins_Type ins = ConnectInstruction ->
  (forall d, dev (engrave s) = Some d ->
     EngraveScreen_.moveStep ctx s = Ok (ctx, s, false)) /\
  (forall err, dev (engrave s) = None -> Engraver (platform ctx) = inr err ->
     exists s',
       EngraveScreen_.moveStep ctx s = Ok (ctx, s', false) /\
       step s' = step s /\
       instructions s' = instructions s /\
       engrave s' =
         mkEngraveState None false false false 0
           (Some (mkErrorScreen "Connection Error"
                    "Failed to establish a connection to the engraver.")) false) /\
  (forall d, dev (engrave s) = None -> Engraver (platform ctx) = inl d ->
     exists ctx' s' ret,
       EngraveScreen_.moveStep ctx s = Ok (ctx', s', ret) /\
       step s' = step s + 1) /\
  (forall ctx' s' ret,
     EngraveScreen_.moveStep ctx s = Ok (ctx', s', ret) ->
     step s' <> step s ->
     dev (engrave s) = None /\ exists d, Engraver (platform ctx) = inl d).
Proof.
  intros Hins Hty.
  assert (Hlt : step s < length (instructions s))
    by (eapply lookup_lt_Some; exact Hins).
  unfold EngraveScreen_.moveStep.
  rewrite (index_Some _ _ _ Hins). simpl. rewrite Hty. simpl.
  split; [|split; [|split]].
  - intros d ->. reflexivity.
  - intros err -> ->. eexists. split; [reflexivity|]. simpl. auto.
  - intros d -> ->.
    set (s1 := EngraveScreen_.set_engrave _ _).
    destruct (advance_spec ctx s1) as (ctx' & s' & Hadv & Hstep & _);
      [exact Hlt|].
    eexists _, _, _. split; [exact Hadv | exact Hstep].
  - intros ctx' s' ret Hmove Hne.
    destruct (dev (engrave s)).
    + injection Hmove as _ <- _. congruence.
    + split; [reflexivity|].
      destruct (Engraver (platform ctx)) as [d|err]; [eauto|].
      injection Hmove as _ <- _. simpl in Hne. congruence.
Qed.

Lemma C6_witness :
  let ctx := Context_.NewContext (platformDown 5%Z) in
  let s := EngraveScreen_.set_step sampleScreen 4 in
  (forall d, dev (engrave s) = Some d ->
     EngraveScreen_.moveStep ctx s = Ok (ctx, s, false)) /\
  (forall err, dev (engrave s) = None -> Engraver (platform ctx) = inr err ->
     exists s',
       EngraveScreen_.moveStep ctx s = Ok (ctx, s', false) /\
       step s' = step s /\
       instructions s' = instructions s /\
       engrave s' =
         mkEngraveState None false false false 0
           (Some (mkErrorScreen "Connection Error"
                    "Failed to establish a connection to the engraver.")) false) /\
  (forall d, dev (engrave s) = None -> Engraver (platform ctx) = inl d ->
     exists ctx' s' ret,
       EngraveScreen_.moveStep ctx s = Ok (ctx', s', ret) /\
       step s' = step s + 1) /\
  (forall ctx' s' ret,
     EngraveScreen_.moveStep ctx s = Ok (ctx', s', ret) ->
     step s' <> step s ->
     dev (engrave s) = None /\ exists d, Engraver (platform ctx) = inl d).
Proof.
  apply (C6_connect_step (Context_.NewContext (platformDown 5%Z))
           (EngraveScreen_.set_step sampleScreen 4) (connect "")).
  - reflexivity.
  - reflexivity.
Defined.

(** ** The engrave screen: frames *)

Section EngraveFrames.

Implicit Types (ctx : Context) (s : EngraveScreen) (l : list Instruction).

(** *** What the sub-screens do to the context *)

Lemma within_frame_refl ctx : within_frame ctx ctx.
Proof. split; [reflexivity | lia]. Qed.

Lemma within_frame_trans c1 c2 c3 :
  within_frame c1 c2 -> within_frame c2 c3 -> within_frame c1 c3.
Proof. intros [? ?] [? ?]. split; [congruence | lia]. Qed.

Lemma Progress_within c ctx :
  within_frame (fst (ConfirmDelay_.Progress c ctx)) ctx /\
  events (fst (ConfirmDelay_.Progress c ctx)) = events ctx.
Proof.
  unfold ConfirmDelay_.Progress.
  destruct (negb (ConfirmDelay_.Running c)); [split; [apply within_frame_refl | reflexivity]|].
  destruct (_ <=? _)%Z; (split; [split; simpl; [reflexivity | lia] | reflexivity]).
Qed.

Lemma ErrorLayout_loop_within evs ctx :
  events ctx = evs ->
  within_frame (fst (ErrorScreen_.Layout_loop evs ctx)) ctx /\
  (snd (ErrorScreen_.Layout_loop evs ctx) = true ->
   length (events (fst (ErrorScreen_.Layout_loop evs ctx))) < length (events ctx)).
Proof.
  unfold within_frame.
  revert ctx. induction evs as [|e rest IH]; intros ctx Hev; simpl.
  - split; [split; [reflexivity | lia] | discriminate].
  - destruct ((Button e =? input.Button3) && Click e); simpl.
    + rewrite Hev. simpl. split; [split; [reflexivity | lia] | lia].
    + destruct (IH (set_events ctx rest) eq_refl) as [[Hp Hl] Hd].
      simpl in *. rewrite Hev. simpl. split; [split; [exact Hp | lia]|].
      intros Ht. specialize (Hd Ht). lia.
Qed.

Lemma ErrorLayout_within w ctx :
  within_frame (fst (ErrorScreen_.Layout w ctx)) ctx /\
  (snd (ErrorScreen_.Layout w ctx) = true ->
   length (events (fst (ErrorScreen_.Layout w ctx))) < length (events ctx)).
Proof. apply ErrorLayout_loop_within. reflexivity. Qed.

Lemma ConfirmHandle_within e ctx dlg :
  let '(ctx', _, _) := ConfirmWarningScreen_.handle e ctx dlg in
  platform ctx' = platform ctx /\ events ctx' = events ctx.
Proof.
  unfold ConfirmWarningScreen_.handle.
  destruct (Button e =? input.Button1); [destruct (Click e); auto|].
  destruct (Button e =? input.Button3); [destruct (Pressed e); auto|auto].
Qed.

Lemma ConfirmLayout_loop_within evs ctx dlg :
  events ctx = evs ->
  let '(ctx', _, r) := ConfirmWarningScreen_.Layout_loop evs ctx dlg in
  within_frame ctx' ctx /\
  (r = ConfirmNo -> length (events ctx') < length (events ctx)).
Proof.
  unfold within_frame.
  revert ctx dlg. induction evs as [|e rest IH]; intros ctx dlg Hev; simpl.
  - destruct (Progress_within (cw_confirm dlg) ctx) as [Hw _]. unfold within_frame in Hw.
    destruct (ConfirmDelay_.Progress (cw_confirm dlg) ctx) as [ctx1 p]. simpl in Hw.
    destruct (Qeq_bool p 1); (split; [exact Hw | discriminate]).
  - destruct (Progress_within (cw_confirm dlg) ctx) as [Hw Hev1]. unfold within_frame in Hw.
    destruct (ConfirmDelay_.Progress (cw_confirm dlg) ctx) as [ctx1 p]. simpl in Hw, Hev1.
    destruct (Qeq_bool p 1); [split; [exact Hw | discriminate]|].
    pose proof (ConfirmHandle_within e (set_events ctx1 rest) dlg) as Hh.
    destruct (ConfirmWarningScreen_.handle e (set_events ctx1 rest) dlg)
      as [[ctx2 dlg2] [r|]].
    + destruct Hh as [Hp He]. simpl in Hp, He.
      destruct Hw as [Hwp Hwl].
      split; [split; [congruence | rewrite He, Hev; simpl; lia]|].
      intros _. rewrite He, Hev. simpl. lia.
    + destruct Hh as [Hp He]. simpl in Hp, He.
      specialize (IH ctx2 dlg2 He).
      destruct (ConfirmWarningScreen_.Layout_loop rest ctx2 dlg2) as [[ctx3 dlg3] r].
      destruct IH as [[Hp3 Hl3] Hno]. destruct Hw as [Hwp Hwl].
      rewrite He in Hl3, Hno. rewrite Hev. simpl.
      split; [split; [congruence | lia]|].
      intros Hr. specialize (Hno Hr). lia.
Qed.

Lemma ConfirmLayout_within dlg ctx :
  let '(ctx', _, r) := ConfirmWarningScreen_.Layout dlg ctx in
  within_frame ctx' ctx /\
  (r = ConfirmNo -> length (events ctx') < length (events ctx)).
Proof. apply ConfirmLayout_loop_within. reflexivity. Qed.


(** *** The invariant through [moveStep] *)

Lemma wf_connect l i ins :
  wf_instructions l -> l !! i = Some ins ->
  ins_Type ins = ConnectInstruction -> i + 1 < length l.
Proof. intros Hwf Hi Hty. by destruct (Hwf i ins Hi) as [H _]; apply H. Qed.

Lemma wf_engrave l i ins :
  wf_instructions l -> l !! i = Some ins ->
  ins_Type ins = EngraveInstruction ->
  i + 1 < length l /\
  exists p, 0 < i /\ l !! (i - 1) = Some p /\ ins_Type p = ConnectInstruction.
Proof. intros Hwf Hi Hty. by destruct (Hwf i ins Hi) as [_ H]; apply H. Qed.

(** An instruction that follows a Prepare instruction is no Engrave
    instruction. *)
Lemma wf_after_prepare l i p ins :
  wf_instructions l -> l !! i = Some p -> ins_Type p <> ConnectInstruction ->
  l !! (i + 1) = Some ins -> ins_Type ins <> EngraveInstruction.
Proof.
  intros Hwf Hp Hnc Hins Hty.
  destruct (wf_engrave l (i + 1) ins Hwf Hins Hty) as (_ & q & _ & Hq & Hqc).
  replace (i + 1 - 1) with i in Hq by lia. congruence.
Qed.

Lemma Running_zero : ConfirmDelay_.Running ConfirmDelay_zero = false.
Proof. reflexivity. Qed.

(** A worker and a running hold timer exclude each other. *)
Lemma inv_worker_idle s :
  EngraveInv s -> errs_ch (engrave s) = true ->
  ConfirmDelay_.Running (confirm s) = false.
Proof.
  intros HI Hw. destruct (ConfirmDelay_.Running (confirm s)) eqn:Hr; [|reflexivity].
  destruct (inv_worker s HI Hw) as (ins & Hins & Hty).
  exfalso. exact (inv_idle s HI Hr ins Hins Hty).
Qed.

(** [moveStep] when the hold timer has run out. *)
Lemma moveStep_expiry ctx s :
  EngraveInv s -> ConfirmDelay_.Running (confirm s) = true ->
  exists ctx' s' ret,
    EngraveScreen_.moveStep ctx s = Ok (ctx', s', ret) /\
    EngraveInv (EngraveScreen_.set_confirm s' ConfirmDelay_zero) /\
    instructions s' = instructions s /\
    platform ctx' = platform ctx /\
    events ctx' = events ctx.
Proof.
  intros HI Hrun.
  destruct (inv_ahead s HI Hrun) as (c & cins & Hc & Hcins & Hcty).
  pose proof (inv_step s HI) as Hlt. pose proof (inv_wf s HI) as Hwf.
  destruct (index_lt _ _ Hlt) as [ins Hins].
  pose proof (index_Ok_lt _ _ _ Hins) as Hlk.
  unfold EngraveScreen_.moveStep. rewrite Hins. simpl.
  destruct (InstructionType_eqb (ins_Type ins) ConnectInstruction) eqn:Hty.
  - apply InstructionType_eqb_eq in Hty.
    destruct (dev (engrave s)) eqn:Hdev.
    + eexists _, _, _. split; [reflexivity|].
      split; [|auto].
      constructor; simpl; try (rewrite Running_zero; discriminate).
      * exact Hwf.
      * exact Hlt.
      * apply (inv_worker s HI).
    + destruct (Engraver (platform ctx)) as [d|err].
      * set (s1 := EngraveScreen_.set_engrave _ _).
        destruct (advance_spec ctx s1 Hlt)
          as (ctx' & s' & Hadv & Hstep & Hinstr & Hconf & Hcan & Hpl & Hev & _ & _ & Herrs).
        eexists _, _, _. split; [exact Hadv|].
        split; [|auto].
        pose proof (wf_connect _ _ _ Hwf Hlk Hty) as Hnext.
        constructor; simpl; try (rewrite Running_zero; discriminate).
        -- rewrite Hinstr. exact Hwf.
        -- rewrite Hinstr, Hstep. exact Hnext.
        -- intros He. destruct (Herrs He) as [Hold|(ins' & Hins' & Hty')];
             [discriminate|].
           rewrite Hinstr, Hstep. eauto.
      * eexists _, _, _. split; [reflexivity|].
        split; [|auto].
        constructor; simpl; try (rewrite Running_zero; discriminate).
        -- exact Hwf.
        -- exact Hlt.
        -- discriminate.
  - apply InstructionType_eqb_neq in Hty.
    destruct (advance_spec ctx s Hlt)
      as (ctx' & s' & Hadv & Hstep & Hinstr & Hconf & Hcan & Hpl & Hev & _ & _ & Herrs).
    eexists _, _, _. split; [exact Hadv|].
    split; [|auto].
    assert (Hcgt : step s < c).
    { destruct (Nat.eq_dec c (step s)) as [->|]; [congruence | lia]. }
    pose proof (lookup_lt_Some _ _ _ Hcins) as Hclt.
    constructor; simpl; try (rewrite Running_zero; discriminate).
    + rewrite Hinstr. exact Hwf.
    + rewrite Hinstr, Hstep. lia.
    + intros He. destruct (Herrs He) as [Hold|(ins' & Hins' & Hty')].
      * rewrite (inv_worker_idle s HI Hold) in Hrun. discriminate.
      * rewrite Hinstr, Hstep. eauto.
Qed.

(** [moveStep] on a click, which only reaches it on a Prepare
    instruction. *)
Lemma moveStep_click ctx s ins :
  EngraveInv s ->
  instructions s !! step s = Some ins ->
  ins_Type ins = PrepareInstruction ->
  exists ctx' s' ret,
    EngraveScreen_.moveStep ctx s = Ok (ctx', s', ret) /\
    (if ret then step s' = length (instructions s') else EngraveInv s') /\
    instructions s' = instructions s /\
    confirm s' = confirm s /\
    platform ctx' = platform ctx /\
    events ctx' = events ctx.
Proof.
  intros HI Hlk Hty.
  pose proof (inv_step s HI) as Hlt. pose proof (inv_wf s HI) as Hwf.
  unfold EngraveScreen_.moveStep. rewrite (index_Some _ _ _ Hlk). simpl.
  rewrite Hty. simpl.
  destruct (advance_spec ctx s Hlt)
    as (ctx' & s' & Hadv & Hstep & Hinstr & Hconf & Hcan & Hpl & Hev & _ & _ & Herrs).
  eexists _, _, _. split; [exact Hadv|].
  split; [|auto].
  case_bool_decide as Hend.
  - rewrite Hinstr, Hstep. exact Hend.
  - assert (Hnot_worker : errs_ch (engrave s) = false).
    { destruct (errs_ch (engrave s)) eqn:He; [|reflexivity].
      destruct (inv_worker s HI He) as (i' & Hi' & Hty').
      rewrite Hlk in Hi'. injection Hi' as <-.
      rewrite Hty in Hty'. discriminate. }
    assert (Hnext : forall ins', instructions s !! (step s + 1) = Some ins' ->
                                 ins_Type ins' <> EngraveInstruction).
    { intros ins' Hins'.
      apply (wf_after_prepare _ (step s) ins ins' Hwf Hlk);
        [rewrite Hty; discriminate | exact Hins']. }
    constructor.
    + rewrite Hinstr. exact Hwf.
    + rewrite Hinstr, Hstep. lia.
    + rewrite Hconf, Hinstr, Hstep. intros Hrun.
      destruct (inv_ahead s HI Hrun) as (c & cins & Hc & Hcins & Hcty).
      exists c, cins. split; [|auto].
      destruct (Nat.eq_dec c (step s)) as [->|]; [congruence | lia].
    + rewrite Hinstr, Hstep. intros _. exact Hnext.
    + intros He. destruct (Herrs He) as [Hold|(ins' & Hins' & Hty')];
        [congruence|].
      exfalso. exact (Hnext ins' Hins' Hty').
Qed.

(** *** The invariant through a frame *)

(** The invariant only looks at the instructions, the cursor, the hold
    timer and the worker channel. *)
Lemma EngraveInv_ext s s' :
  instructions s' = instructions s -> step s' = step s ->
  confirm s' = confirm s -> errs_ch (engrave s') = errs_ch (engrave s) ->
  EngraveInv s -> EngraveInv s'.
Proof.
  intros Hi Hs Hc He HI. constructor; rewrite ?Hi, ?Hs, ?Hc, ?He; apply HI.
Qed.

Lemma expired_ext s s' ctx ctx' :
  confirm s' = confirm s -> platform ctx' = platform ctx ->
  expired s' ctx' = expired s ctx.
Proof. unfold expired. intros -> ->. reflexivity. Qed.

Lemma expired_Progress s ctx :
  Qeq_bool (snd (ConfirmDelay_.Progress (confirm s) ctx)) 1 = expired s ctx.
Proof.
  unfold expired. apply eq_true_iff_eq. rewrite Progress_eq_1_iff.
  rewrite andb_true_iff, Z.leb_le. reflexivity.
Qed.

Lemma drain_Inv msgs ctx s :
  EngraveInv s ->
  exists ctx' s',
    EngraveScreen_.drain msgs ctx s = (ctx', s', false) /\
    EngraveInv s' /\
    instructions s' = instructions s /\
    events ctx' = events ctx.
Proof.
  revert ctx s. induction msgs as [|m rest IH]; intros ctx s HI; simpl.
  - eauto 6.
  - destruct m as [p|err].
    + destruct (progress_ch (engrave s)); [|eauto 6].
      destruct (IH ctx (EngraveScreen_.set_engrave s
                          (EngraveScreen_.set_lastProgress (engrave s) p)))
        as (ctx' & s' & Hd & HI' & Hi' & He').
      { eapply EngraveInv_ext; [..|exact HI]; reflexivity. }
      eauto 6.
    + destruct (errs_ch (engrave s)) eqn:Hw; [|eauto 6].
      destruct err as [err|].
      * match goal with |- context [EngraveScreen_.drain rest ctx ?s1] =>
          destruct (IH ctx s1) as (ctx' & s' & Hd & HI' & Hi' & He') end.
        { constructor; simpl; try apply HI. discriminate. }
        eauto 6.
      * destruct (inv_worker s HI Hw) as (ins & Hins & Hty).
        destruct (wf_engrave _ _ _ (inv_wf s HI) Hins Hty) as [Hnext _].
        destruct (Nat.eqb_spec (step s + 1) (length (instructions s))) as [Heq|Hne];
          [lia|].
        match goal with |- context [EngraveScreen_.drain rest ?c1 ?s1] =>
          destruct (IH c1 s1) as (ctx' & s' & Hd & HI' & Hi' & He') end.
        { pose proof (inv_worker_idle s HI Hw) as Hidle.
          constructor; simpl.
          - apply HI.
          - exact Hnext.
          - rewrite Hidle. discriminate.
          - rewrite Hidle. discriminate.
          - discriminate. }
        eauto 6.
Qed.

Lemma Start_not_expired c ctx ctx' :
  platform ctx' = platform ctx ->
  let c' := ConfirmDelay_.Start c ctx confirmDelay in
  ConfirmDelay_.Running c' && (timeout c' <=? Now (platform ctx'))%Z = false.
Proof.
  intros ->. simpl. apply andb_false_iff. right.
  apply Z.leb_gt. unfold Add, confirmDelay, Second. lia.
Qed.

Lemma handle_Inv e ins canPrev ctx s :
  EngraveInv s ->
  instructions s !! step s = Some ins ->
  (canPrev = true ->
   exists p, 0 < step s /\ instructions s !! (step s - 1) = Some p /\
     ins_Type p = PrepareInstruction) ->
  expired s ctx = false ->
  exists ctx' s' ret,
    EngraveScreen_.handle e ins canPrev ctx s = Ok (ctx', s', ret) /\
    (if ret then step s' = length (instructions s')
     else EngraveInv s' /\ expired s' ctx' = false) /\
    instructions s' = instructions s /\
    platform ctx' = platform ctx /\
    events ctx' = events ctx.
Proof.
  intros HI Hlk Hprev Hexp. unfold EngraveScreen_.handle.
  destruct (Button e =? input.Button1).
  { destruct (negb (Click e)); [eauto 10|].
    destruct canPrev.
    - destruct (Hprev eq_refl) as (p & Hpos & Hp & Hpty).
      eexists _, _, _. split; [reflexivity|]. split; [|auto].
      split; [|exact Hexp].
      constructor; simpl.
      + apply HI.
      + pose proof (inv_step s HI). lia.
      + intros Hrun. destruct (inv_ahead s HI Hrun) as (c & cins & Hc & Hrest).
        exists c, cins. split; [lia | exact Hrest].
      + intros _ i Hi. rewrite Hp in Hi. injection Hi as <-.
        rewrite Hpty. discriminate.
      + intros Hw. destruct (inv_worker s HI Hw) as (i & Hi & Hty).
        destruct (wf_engrave _ _ _ (inv_wf s HI) Hi Hty) as (_ & q & _ & Hq & Hqty).
        rewrite Hp in Hq. injection Hq as <-. rewrite Hpty in Hqty. discriminate.
    - eexists _, _, _. split; [reflexivity|]. split; [|auto].
      split; [|exact Hexp]. eapply EngraveInv_ext; [..|exact HI]; reflexivity. }
  destruct (Button e =? input.Button2).
  { destruct (Pressed e); eexists _, _, _; (split; [reflexivity|]);
      (split; [|auto]); (split; [|exact Hexp]);
      (eapply EngraveInv_ext; [..|exact HI]; reflexivity). }
  destruct (Button e =? input.Button3); [|eauto 10].
  destruct (InstructionType_eqb (ins_Type ins) ConnectInstruction) eqn:Hc.
  { apply InstructionType_eqb_eq in Hc.
    destruct (Pressed e); eexists _, _, _; (split; [reflexivity|]);
      (split; [|auto]); split.
    - constructor; simpl; try apply HI.
      + intros _. exists (step s), ins. auto.
      + intros _ i Hi. rewrite Hlk in Hi. injection Hi as <-.
        rewrite Hc. discriminate.
    - unfold expired. simpl confirm. by apply Start_not_expired.
    - constructor; simpl; try apply HI; rewrite Running_zero; discriminate.
    - reflexivity. }
  apply InstructionType_eqb_neq in Hc.
  destruct (negb (Click e)); [simpl; eauto 10|]. simpl.
  destruct (InstructionType_eqb (ins_Type ins) EngraveInstruction) eqn:He;
    [eauto 10|].
  apply InstructionType_eqb_neq in He.
  assert (Hty : ins_Type ins = PrepareInstruction)
    by (destruct (ins_Type ins); congruence).
  destruct (moveStep_click ctx s ins HI Hlk Hty)
    as (ctx' & s' & ret & Hm & Hret & Hi & Hconf & Hpl & Hev).
  eexists _, _, _. split; [exact Hm|]. split; [|auto].
  destruct ret; [exact Hret|]. split; [exact Hret|].
  rewrite (expired_ext s s' ctx ctx' Hconf Hpl). exact Hexp.
Qed.

Lemma dryRunTick_spec ctx s :
  let '(ctx', s') := EngraveScreen_.dryRunTick ctx s in
  platform ctx' = platform ctx /\ events ctx' = events ctx /\
  instructions s' = instructions s /\ step s' = step s /\
  confirm s' = confirm s /\ engrave s' = engrave s /\ cancel s' = cancel s.
Proof.
  unfold EngraveScreen_.dryRunTick.
  destruct (negb (IsZero (dr_timeout (dryRun s)))); [|auto 10].
  destruct (_ <=? _)%Z; simpl; auto 10.
Qed.

Lemma close_post ctx s :
  EngraveInv s ->
  let '(ctx', s') := EngraveScreen_.close ctx s in
  frame_post s (Ok (ctx', s', true)).
Proof.
  intros HI. simpl. eexists _, _, _. split; [reflexivity|]. simpl.
  split; [reflexivity|]. pose proof (inv_step s HI). lia.
Qed.

Lemma frame_post_ext s0 s r :
  instructions s = instructions s0 -> frame_post s r -> frame_post s0 r.
Proof.
  intros Hi (ctx' & s' & ret & -> & Hi' & Hpost).
  exists ctx', s', ret. split; [reflexivity|]. split; [congruence | exact Hpost].
Qed.

(** The pop of the next event and its handling, given that the rest of
    the loop behaves. *)
Lemma nextEvent_post loop ins canPrev ctx s n :
  (forall ctx1 s1, EngraveInv s1 -> expired s1 ctx1 = false ->
     length (events ctx1) < n -> frame_post s1 (loop ctx1 s1)) ->
  EngraveInv s ->
  instructions s !! step s = Some ins ->
  (canPrev = true ->
   exists p, 0 < step s /\ instructions s !! (step s - 1) = Some p /\
     ins_Type p = PrepareInstruction) ->
  expired s ctx = false ->
  length (events ctx) <= n ->
  frame_post s (EngraveScreen_.nextEvent loop ins canPrev ctx s).
Proof.
  intros Hloop HI Hlk Hprev Hexp Hn. unfold EngraveScreen_.nextEvent, Context_.Next.
  destruct (events ctx) as [|e rest] eqn:Hev.
  - exists ctx, s, false. auto.
  - destruct (handle_Inv e ins canPrev (set_events ctx rest) s HI Hlk Hprev)
      as (ctx' & s' & ret & Hh & Hret & Hi & Hpl & Hev').
    { rewrite <- Hexp. by apply expired_ext. }
    rewrite Hh. simpl. destruct ret.
    + exists ctx', s', true. split; [reflexivity|]. split; [exact Hi | lia].
    + destruct Hret as [HI' Hexp'].
      apply (frame_post_ext s s'); [exact Hi|].
      apply Hloop; [exact HI' | exact Hexp'|].
      rewrite Hev'. simpl in *. lia.
Qed.

Lemma loop_post fuel : forall ctx s,
  EngraveInv s ->
  2 * length (events ctx) + (if expired s ctx then 1 else 0) < fuel ->
  frame_post s (EngraveScreen_.loop fuel ctx s).
Proof.
  induction fuel as [|fuel IH]; intros ctx s HI Hfuel; [lia|].
  pose proof (inv_step s HI) as Hlt.
  destruct (index_lt _ _ Hlt) as [ins Hins].
  pose proof (index_Ok_lt _ _ _ Hins) as Hlk.
  cbn [EngraveScreen_.loop]. unfold EngraveScreen_.iteration. rewrite Hins. cbn [mbind res_bind].
  (* canPrev *)
  assert (Hprev : exists canPrev,
    (if 0 <? step s
     then prev ← index (instructions s) (step s - 1);
          Ok (InstructionType_eqb (ins_Type prev) PrepareInstruction)
     else Ok false) = Ok canPrev /\
    (canPrev = true ->
     exists p, 0 < step s /\ instructions s !! (step s - 1) = Some p /\
       ins_Type p = PrepareInstruction)).
  { destruct (Nat.ltb_spec 0 (step s)) as [Hpos|Hz].
    - destruct (index_lt (instructions s) (step s - 1) ltac:(lia)) as [p Hp].
      rewrite Hp. cbn [mbind res_bind]. eexists. split; [reflexivity|].
      intros Hc. exists p. split; [exact Hpos|].
      split; [by apply index_Ok_lt | by apply InstructionType_eqb_eq].
    - exists false. split; [reflexivity | discriminate]. }
  destruct Hprev as (canPrev & -> & Hprev). cbn [mbind res_bind].
  (* the hold timer *)
  pose proof (expired_Progress s ctx) as Hprog.
  pose proof (Progress_within (confirm s) ctx) as [[Hpl1 _] Hev1].
  destruct (ConfirmDelay_.Progress (confirm s) ctx) as [ctx1 progress].
  simpl in Hprog, Hpl1, Hev1. rewrite Hprog.
  destruct (expired s ctx) eqn:Hexp.
  - (* expiry *)
    assert (Hrun : ConfirmDelay_.Running (confirm s) = true)
      by (unfold expired in Hexp; apply andb_true_iff in Hexp; tauto).
    destruct (moveStep_expiry ctx1 s HI Hrun)
      as (ctx' & s' & ret & Hm & HI' & Hi & Hpl & Hev).
    rewrite Hm. cbn [mbind res_bind].
    apply (frame_post_ext s (EngraveScreen_.set_confirm s' ConfirmDelay_zero));
      [exact Hi|].
    apply IH; [exact HI'|].
    unfold expired at 1. simpl confirm. rewrite Running_zero. simpl.
    rewrite Hev, Hev1. lia.
  - (* no expiry *)
    pose proof (dryRunTick_spec ctx1 s) as Hdry.
    destruct (EngraveScreen_.dryRunTick ctx1 s) as [ctx2 s2].
    destruct Hdry as (Hpl2 & Hev2 & Hi2 & Hs2 & Hc2 & He2 & Hcan2).
    assert (HI2 : EngraveInv s2)
      by (eapply EngraveInv_ext; [..|exact HI]; congruence).
    assert (Hexp2 : expired s2 ctx2 = false)
      by (rewrite <- Hexp; apply expired_ext; congruence).
    assert (Hlk2 : instructions s2 !! step s2 = Some ins) by congruence.
    assert (Hprev2 : canPrev = true ->
      exists p, 0 < step s2 /\ instructions s2 !! (step s2 - 1) = Some p /\
        ins_Type p = PrepareInstruction) by (rewrite Hi2, Hs2; exact Hprev).
    assert (Hlen2 : length (events ctx2) = length (events ctx)) by congruence.
    apply (frame_post_ext s s2); [exact Hi2|].
    assert (Hnext : forall ctx3 s3,
      EngraveInv s3 -> instructions s3 = instructions s2 -> step s3 = step s2 ->
      expired s3 ctx3 = false -> length (events ctx3) <= length (events ctx2) ->
      frame_post s2 (EngraveScreen_.nextEvent (EngraveScreen_.loop fuel) ins canPrev ctx3 s3)).
    { intros ctx3 s3 HI3 Hi3 Hs3 Hexp3 Hlen3.
      apply (frame_post_ext s2 s3); [exact Hi3|].
      apply (nextEvent_post _ ins canPrev ctx3 s3 (length (events ctx2)));
        try assumption.
      - intros c1 t1 HIt Hexpt Hlent. apply IH; [exact HIt|].
        rewrite Hexpt. lia.
      - congruence.
      - rewrite Hi3, Hs3. exact Hprev2. }
    destruct (cancel s2) as [dlg|] eqn:Hcancel.
    + pose proof (ConfirmLayout_within dlg ctx2) as Hdlg.
      destruct (ConfirmWarningScreen_.Layout dlg ctx2) as [[ctx3 dlg3] result].
      destruct Hdlg as [[Hpl3 Hlen3] Hno].
      set (s3 := EngraveScreen_.set_cancel s2 (Some dlg3)).
      assert (HI3 : EngraveInv s3)
        by (eapply EngraveInv_ext; [..|exact HI2]; reflexivity).
      assert (Hexp3 : expired s3 ctx3 = false)
        by (rewrite <- Hexp2; apply expired_ext; [reflexivity | exact Hpl3]).
      destruct result.
      * apply Hnext; auto.
      * apply (frame_post_ext s2 (EngraveScreen_.set_cancel s3 None));
          [reflexivity|].
        apply IH.
        -- eapply EngraveInv_ext; [..|exact HI3]; reflexivity.
        -- change (expired (EngraveScreen_.set_cancel s3 None) ctx3)
             with (expired s3 ctx3).
           rewrite Hexp3. specialize (Hno eq_refl). lia.
      * apply (frame_post_ext s2 s3); [reflexivity|].
        apply (close_post ctx3 s3 HI3).
    + destruct (warning (engrave s2)) as [w|] eqn:Hwarn.
      * pose proof (ErrorLayout_within w ctx2) as [[Hpl3 Hlen3] Hdis].
        destruct (ErrorScreen_.Layout w ctx2) as [ctx3 dismissed].
        simpl in Hpl3, Hlen3, Hdis.
        assert (Hexp3 : expired s2 ctx3 = false)
          by (rewrite <- Hexp2; apply expired_ext; [reflexivity | exact Hpl3]).
        destruct dismissed.
        -- set (s3 := EngraveScreen_.set_engrave s2
                        (EngraveScreen_.set_warning (engrave s2) None)).
           assert (HI3 : EngraveInv s3)
             by (eapply EngraveInv_ext; [..|exact HI2]; reflexivity).
           simpl fatal. destruct (fatal (engrave s2)).
           ++ apply (frame_post_ext s2 s3); [reflexivity|].
              apply (close_post ctx3 s3 HI3).
           ++ apply (frame_post_ext s2 s3); [reflexivity|].
              apply IH; [exact HI3|].
              change (expired s3 ctx3) with (expired s2 ctx3).
              rewrite Hexp3. specialize (Hdis eq_refl). lia.
        -- apply Hnext; auto.
      * apply Hnext; auto.
Qed.

(** Every frame of a screen that satisfies the invariant comes to an
    end without indexing out of range. *)
Lemma Layout_post msgs ctx s :
  EngraveInv s -> frame_post s (EngraveScreen_.Layout msgs ctx s).
Proof.
  intros HI. unfold EngraveScreen_.Layout.
  destruct (drain_Inv msgs ctx s HI) as (ctx' & s' & -> & HI' & Hi & Hev).
  apply (frame_post_ext s s'); [exact Hi|].
  apply loop_post; [exact HI'|].
  unfold EngraveScreen_.fuel_for. destruct (expired s' ctx'); lia.
Qed.

(** *** The instruction lists of [NewEngraveScreen] *)

Ltac wf_by_cases :=
  let i := fresh "i" in
  let ins := fresh "ins" in
  let H := fresh "H" in
  let Hty := fresh "Hty" in
  intros i ins H;
  do 16 (destruct i as [|i];
         [ cbn in H;
           first
             [ discriminate H
             | injection H as <-; split; intros Hty;
               [ first [discriminate Hty | cbn; lia]
               | first [discriminate Hty
                       | split;
                         [cbn; lia | eexists; split; [lia | split; reflexivity]]] ] ]
         | ]);
  cbn in H; discriminate H.

Lemma wf_tables (calibrated twoSides : bool) :
  wf_instructions
    ((if twoSides
      then (if negb calibrated then EngraveFirstSideA else EngraveSideA) ++ EngraveSideB
      else (if negb calibrated then EngraveFirstSideA else EngraveSideA))
     ++ EngraveSuccess).
Proof. destruct calibrated, twoSides; wf_by_cases. Qed.

End EngraveFrames.

Section Reachable.

Context `{Packages}.

Lemma NewEngraveScreen_Inv ctx desc m pass s :
  EngraveScreen_.NewEngraveScreen ctx desc m pass = Ok (inl s) -> EngraveInv s.
Proof.
  unfold EngraveScreen_.NewEngraveScreen.
  destruct (EngraveScreen_.descriptorKeyIdx desc m pass) as [keyIdx|]; [|discriminate].
  destruct (EngraveScreen_.engravePlate desc keyIdx m) as [pl|e]; [|discriminate].
  destruct (index (Keys desc) keyIdx) as [key| |]; simpl; try discriminate.
  intros [= <-].
  pose proof (wf_tables (Calibrated ctx) (1 <? Sides pl)) as Hwf.
  constructor; simpl; try discriminate.
  - destruct (1 <? Sides pl); exact Hwf.
  - destruct (Calibrated ctx), (1 <? Sides pl); simpl; lia.
Qed.

Lemma reachable_Inv s : reachable s -> EngraveInv s.
Proof.
  induction 1 as [ctx desc m pass s Hnew | msgs ctx s ctx' s' _ IH Hframe].
  - eapply NewEngraveScreen_Inv. exact Hnew.
  - destruct (Layout_post msgs ctx s IH) as (c1 & s1 & ret & Heq & _ & Hpost).
    rewrite Hframe in Heq. injection Heq as <- <- <-. exact Hpost.
Qed.

End Reachable.

(** C9.  The cursor of every engrave screen that can be met is a valid
    index of its instruction list, and every frame of such a screen runs
    to its end without indexing the list out of range: the frame either
    ends the session, with the cursor at most at the length of the list,
    or leaves the cursor strictly inside the list.  So do the three
    operations that move the cursor, each on its own: [moveStep] moves
    it forward by at most one and reports the end of the session when it
    reaches the length; a worker's success does the same; the back
    button moves it back only from a positive position. *)
Theorem C9_step_in_range `{Packages} (s : EngraveScreen) :
  reachable s ->
  step s < length (instructions s) /\
  (forall msgs ctx,
     exists ctx' s' ret,
       EngraveScreen_.Layout msgs ctx s = Ok (ctx', s', ret) /\
       instructions s' = instructions s /\
       step s' <= length (instructions s') /\
       (ret = false -> step s' < length (instructions s'))) /\
  (forall ctx ctx' s' ret,
     EngraveScreen_.moveStep ctx s = Ok (ctx', s', ret) ->
     step s <= step s' <= step s + 1 /\
     (ret = true <-> step s' = length (instructions s'))) /\
  (forall ctx ctx' s' ret err,
     EngraveScreen_.drain [MsgResult err] ctx s = (ctx', s', ret) ->
     step s <= step s' <= step s + 1 /\
     (ret = true -> step s' = length (instructions s')) /\
     (ret = false -> step s' < length (instructions s'))) /\
  (forall ctx ctx' s' ret e ins canPrev,
     EngraveScreen_.handle e ins canPrev ctx s = Ok (ctx', s', ret) ->
     step s' < step s ->
     canPrev = true /\ step s' + 1 = step s).
Proof.
  intros Hreach. pose proof (reachable_Inv s Hreach) as HI.
  pose proof (inv_step s HI) as Hlt.
  split; [exact Hlt|]. split; [|split; [|split]].
  - intros msgs ctx.
    destruct (Layout_post msgs ctx s HI) as (ctx' & s' & ret & Heq & Hi & Hpost).
    exists ctx', s', ret. split; [exact Heq|]. split; [exact Hi|].
    destruct ret.
    + split; [exact Hpost | discriminate].
    + pose proof (inv_step s' Hpost). split; [lia | auto].
  - intros ctx ctx' s' ret Hm.
    unfold EngraveScreen_.moveStep in Hm.
    destruct (index_lt _ _ Hlt) as [ins Hins]. rewrite Hins in Hm. simpl in Hm.
    assert (Hadv : forall c t,
      step t = step s -> instructions t = instructions s ->
      EngraveScreen_.advance c t = Ok (ctx', s', ret) ->
      step s <= step s' <= step s + 1 /\
      (ret = true <-> step s' = length (instructions s'))).
    { intros c t Hst Hit Ha.
      destruct (advance_spec c t) as (c' & t' & Ha' & Hst' & Hit' & _);
        [rewrite Hst, Hit; exact Hlt|].
      rewrite Ha' in Ha. injection Ha as <- <- <-.
      split; [lia|]. rewrite Hit', Hst'.
      case_bool_decide; split; congruence. }
    destruct (InstructionType_eqb (ins_Type ins) ConnectInstruction).
    + destruct (dev (engrave s)).
      * injection Hm as <- <- <-. split; [lia|]. split; [discriminate | lia].
      * destruct (Engraver (platform ctx)).
        -- eapply Hadv; [| |exact Hm]; reflexivity.
        -- injection Hm as <- <- <-. simpl. split; [lia|].
           split; [discriminate | lia].
    + eapply Hadv; [| |exact Hm]; reflexivity.
  - intros ctx ctx' s' ret err Hd. simpl in Hd.
    destruct (errs_ch (engrave s)).
    + destruct err as [e|].
      * injection Hd as <- <- <-. simpl. split; [lia|].
        split; [discriminate | intros _; exact Hlt].
      * simpl in Hd.
        destruct (Nat.eqb_spec (step s + 1) (length (instructions s))) as [Heq|Hne];
          injection Hd as <- <- <-; simpl; (split; [lia|]);
          (split; [auto; try discriminate | intros; try discriminate; lia]).
    + injection Hd as <- <- <-. split; [lia|].
      split; [discriminate | intros _; exact Hlt].
  - intros ctx ctx' s' ret e ins canPrev Hh Hback.
    unfold EngraveScreen_.handle in Hh.
    destruct (Button e =? input.Button1).
    { destruct (negb (Click e)); [injection Hh as <- <- <-; lia|].
      destruct canPrev; injection Hh as <- <- <-; simpl in *; [|lia].
      split; [reflexivity | lia]. }
    destruct (Button e =? input.Button2).
    { destruct (Pressed e); injection Hh as <- <- <-; simpl in *; lia. }
    destruct (Button e =? input.Button3); [|injection Hh as <- <- <-; lia].
    destruct (InstructionType_eqb (ins_Type ins) ConnectInstruction).
    { destruct (Pressed e); injection Hh as <- <- <-; simpl in *; lia. }
    destruct (negb (Click e) || InstructionType_eqb (ins_Type ins) EngraveInstruction);
      [injection Hh as <- <- <-; lia|].
    exfalso. revert Hh Hback. unfold EngraveScreen_.moveStep.
    destruct (index_lt _ _ Hlt) as [i0 Hi0]. rewrite Hi0. simpl.
    assert (Hadv : forall c t,
      step t = step s -> instructions t = instructions s ->
      EngraveScreen_.advance c t = Ok (ctx', s', ret) -> step s' < step s -> False).
    { intros c t Hst Hit Ha.
      destruct (advance_spec c t) as (c' & t' & Ha' & Hst' & _);
        [rewrite Hst, Hit; exact Hlt|].
      rewrite Ha' in Ha. injection Ha as <- <- <-. lia. }
    destruct (InstructionType_eqb (ins_Type i0) ConnectInstruction).
    + destruct (dev (engrave s)).
      * intros [= <- <- <-]. lia.
      * destruct (Engraver (platform ctx)).
        -- eapply Hadv; reflexivity.
        -- intros [= <- <- <-]. simpl. lia.
    + eapply Hadv; reflexivity.
Qed.

Lemma C9_witness :
  reachable sampleNew /\
  step sampleNew < length (instructions sampleNew) /\
  (forall msgs ctx,
     exists ctx' s' ret,
       EngraveScreen_.Layout msgs ctx sampleNew = Ok (ctx', s', ret) /\
       instructions s' = instructions sampleNew /\
       step s' <= length (instructions s') /\
       (ret = false -> step s' < length (instructions s'))).
Proof.
  assert (Hr : reachable sampleNew).
  { apply (reachable_new (sampleContext 5%Z) sampleDescriptor [1; 2; 3]%Z passphrase).
    reflexivity. }
  split; [exact Hr|].
  pose proof (C9_step_in_range sampleNew Hr) as (H1 & H2 & _).
  split; [exact H1 | exact H2].
Defined.

(** ** Hold to confirm *)

Section HoldToConfirm.

Implicit Types (ctx : Context) (s : EngraveScreen) (dlg : ConfirmWarningScreen).

(** [moveStep] leaves the dialog, the dry-run state, the queue and the
    button states alone. *)
Lemma moveStep_frame ctx s ctx' s' ret :
  step s < length (instructions s) ->
  EngraveScreen_.moveStep ctx s = Ok (ctx', s', ret) ->
  cancel s' = cancel s /\ dryRun s' = dryRun s /\ events ctx' = events ctx /\
  Buttons ctx' = Buttons ctx /\ platform ctx' = platform ctx.
Proof.
  intros Hlt. unfold EngraveScreen_.moveStep.
  destruct (index_lt _ _ Hlt) as [ins ->]. simpl.
  assert (Hadv : forall c t,
    step t = step s -> instructions t = instructions s ->
    cancel t = cancel s -> dryRun t = dryRun s ->
    EngraveScreen_.advance c t = Ok (ctx', s', ret) ->
    cancel s' = cancel s /\ dryRun s' = dryRun s /\ events ctx' = events c /\
    Buttons ctx' = Buttons c /\ platform ctx' = platform c).
  { intros c t Hst Hit Hct Hdt Ha.
    destruct (advance_spec c t)
      as (c' & t' & Ha' & _ & _ & _ & Hcan & Hpl & Hev & Hdry & Hbt & _);
      [rewrite Hst, Hit; exact Hlt|].
    rewrite Ha' in Ha. injection Ha as <- <- <-.
    repeat split; congruence. }
  destruct (InstructionType_eqb (ins_Type ins) ConnectInstruction).
  - destruct (dev (engrave s)).
    + intros [= <- <- <-]. auto.
    + destruct (Engraver (platform ctx)).
      * apply Hadv; reflexivity.
      * intros [= <- <- <-]. auto.
  - apply Hadv; reflexivity.
Qed.

(** A release of [Button3] submitted once the press has been handled is
    no click. *)
Lemma release_after_clear ctx r :
  Buttons ctx !! input.Button3 = Some false ->
  events (Context_.Events ctx [input.mkEvent input.Button3 false r]) =
    events ctx ++ [mkEvent (input.mkEvent input.Button3 false r) false].
Proof.
  intros Hb. rewrite Events_cons, Events_nil.
  destruct (Events1_events ctx (input.mkEvent input.Button3 false r))
    as (cl & -> & Hcl & _).
  rewrite Hcl by (eapply lookup_lt_Some; exact Hb).
  unfold at_. simpl. rewrite Hb. reflexivity.
Qed.

Lemma loop_S fuel :
  EngraveScreen_.loop (S fuel) = EngraveScreen_.iteration (EngraveScreen_.loop fuel).
Proof. reflexivity. Qed.

Lemma Progress_zero ctx : ConfirmDelay_.Progress ConfirmDelay_zero ctx = (ctx, 0%Q).
Proof. reflexivity. Qed.

(** The part of a frame of the engrave screen after the hold timer was
    looked at, when nothing is queued and no dialog is up. *)
Lemma loop_idle fuel ctx s :
  step s < length (instructions s) ->
  expired s ctx = false ->
  events ctx = [] ->
  cancel s = None ->
  dr_timeout (dryRun s) = 0%Z ->
  exists ctx',
    EngraveScreen_.loop (S fuel) ctx s = Ok (ctx', s, false) /\
    ctx' = fst (ConfirmDelay_.Progress (confirm s) ctx).
Proof.
  intros Hlt Hexp Hev Hcan Hdry.
  destruct (index_lt _ _ Hlt) as [ins Hins].
  rewrite loop_S. unfold EngraveScreen_.iteration. rewrite Hins. cbn [mbind res_bind].
  assert (Hprev : exists canPrev,
    (if 0 <? step s
     then prev ← index (instructions s) (step s - 1);
          Ok (InstructionType_eqb (ins_Type prev) PrepareInstruction)
     else Ok false) = Ok canPrev).
  { destruct (0 <? step s) eqn:Hpos; [|eauto].
    apply Nat.ltb_lt in Hpos.
    destruct (index_lt (instructions s) (step s - 1) ltac:(lia)) as [p ->].
    cbn [mbind res_bind]. eauto. }
  destruct Hprev as [canPrev ->]. cbn [mbind res_bind].
  pose proof (expired_Progress s ctx) as Hprog.
  pose proof (Progress_within (confirm s) ctx) as [_ Hev1].
  destruct (ConfirmDelay_.Progress (confirm s) ctx) as [ctx1 p].
  simpl in Hprog, Hev1. rewrite Hprog, Hexp.
  unfold EngraveScreen_.dryRunTick. rewrite Hdry. simpl IsZero. cbn [negb].
  rewrite Hcan.
  exists ctx1. split; [|reflexivity].
  assert (Hnext : EngraveScreen_.nextEvent (EngraveScreen_.loop fuel) ins canPrev ctx1 s
                  = Ok (ctx1, s, false)).
  { unfold EngraveScreen_.nextEvent, Context_.Next. rewrite Hev1, Hev. reflexivity. }
  destruct (warning (engrave s)) as [w|]; [|exact Hnext].
  unfold ErrorScreen_.Layout. rewrite Hev1, Hev. simpl. exact Hnext.
Qed.

End HoldToConfirm.




(** ** Cancelling an engraving session *)

Section Cancel.

Lemma existsb_app_false {A} (f : A -> bool) (l1 l2 : list A) :
  existsb f l1 = false -> existsb f l2 = false -> existsb f (l1 ++ l2) = false.
Proof. intros H1 H2. rewrite existsb_app, H1, H2. reflexivity. Qed.

(** The teardown goroutine of [close] closes the cancel channel and
    waits; no [dev.Close()] is among its actions. *)
Lemma teardown_actions (f : Runtime.Fate) (e : engraveState) (d : Device) :
  existsb (Runtime.is_DevClose d) (Runtime.run f (GoClose e)) = false.
Proof.
  simpl. apply existsb_app_false.
  - destruct (cancel_ch e); reflexivity.
  - destruct (errs_ch e); [destruct f|]; reflexivity.
Qed.

(** Only the engraving worker closes a device, and only once
    [mjolnir.Engrave] has returned. *)
Lemma closed_by_worker (f : Runtime.Fate) (gs : list Goroutine) (d : Device) :
  Runtime.closed f gs d = true ->
  f <> Runtime.NeverReturns /\
  exists dry side, GoEngrave (Some d) dry side ∈ gs.
Proof.
  unfold Runtime.closed, Runtime.actions.
  induction gs as [|g gs IH]; simpl; [discriminate|].
  rewrite existsb_app. intros [Hg|Hgs]%orb_true_iff.
  - destruct g as [w| |d' dry side|side|e].
    + discriminate.
    + discriminate.
    + destruct f; simpl in Hg; try discriminate;
        (destruct d' as [d'|]; simpl in Hg; [|discriminate]);
        rewrite orb_false_r in Hg; apply Nat.eqb_eq in Hg; subst d';
        (split; [discriminate|]); exists dry, side; left.
    + discriminate.
    + rewrite teardown_actions in Hg. discriminate.
  - destruct (IH Hgs) as (Hf & dry & side & Hin).
    split; [exact Hf|]. exists dry, side. by right.
Qed.

End Cancel.

(** C1 against the code.  Confirming the cancel dialog ends the session
    and hands the engraver state to the teardown goroutine, but that
    goroutine never closes the device: whatever the worker does, its
    actions hold no [dev.Close()], and a device is closed only by a
    worker whose call of [mjolnir.Engrave] returns.  In the cancelled
    session [cancelScenario] the session ends, the screen has dropped the
    handle of device 7, and with a worker that never acknowledges the
    cancellation the device is never closed. *)
Theorem C1_teardown_never_closes :
  (forall f e d,
     existsb (Runtime.is_DevClose d) (Runtime.run f (GoClose e)) = false) /\
  (forall gs d, Runtime.closed Runtime.NeverReturns gs d = false) /\
  exists ctx s,
    cancelScenario = Ok (ctx, s, true) /\
    dev (engrave s) = None /\
    GoEngrave (Some 7) false 0 ∈ spawned ctx /\
    GoClose (mkEngraveState (Some 7) true true true 0 None false) ∈ spawned ctx /\
    Runtime.closed Runtime.NeverReturns (spawned ctx) 7 = false /\
    Runtime.closed Runtime.ReturnsLate (spawned ctx) 7 = true.
Proof.
  split; [exact teardown_actions|]. split.
  - intros gs d. destruct (Runtime.closed Runtime.NeverReturns gs d) eqn:Hc;
      [|reflexivity].
    apply closed_by_worker in Hc as [Hf _]. congruence.
  - eexists _, _. split; [vm_compute; reflexivity|].
    split; [reflexivity|].
    split; [vm_compute; set_solver|].
    split; [vm_compute; set_solver|].
    split; vm_compute; reflexivity.
Qed.

(** ** Descriptor validation *)

Section Validate.

Context `{Packages}.

Implicit Types (ks pre post : list KeyDescriptor) (k : KeyDescriptor)
  (keys : gmap string bool) (expPath : Path).

Lemma seen_default keys x : default false (keys !! x) = true <-> seen keys x.
Proof.
  unfold seen. destruct (keys !! x) as [[]|]; simpl; split; congruence.
Qed.

Lemma seen_insert keys x y : seen (<[x := true]> keys) y <-> x = y \/ seen keys y.
Proof.
  unfold seen. destruct (decide (x = y)) as [->|Hne].
  - rewrite lookup_insert_eq. tauto.
  - rewrite lookup_insert_ne by exact Hne. tauto.
Qed.

(** The path test of the loop. *)
Lemma path_test expPath k :
  (length expPath =? 0) || negb (bool_decide (DerivationPath k = expPath)) = false <->
  expPath <> [] /\ DerivationPath k = expPath.
Proof.
  rewrite orb_false_iff, Nat.eqb_neq, negb_false_iff, bool_decide_eq_true.
  split; intros [Hl Hp]; (split; [|exact Hp]).
  - intros ->. by apply Hl.
  - destruct expPath; [congruence | discriminate].
Qed.

Lemma seen_mark keys pre x :
  seen (mark keys pre) x <-> seen keys x \/ x ∈ KeyDescriptor_String <$> pre.
Proof.
  revert keys. induction pre as [|k pre IH]; intros keys; simpl.
  - rewrite elem_of_nil. tauto.
  - rewrite IH, seen_insert, elem_of_cons. intuition congruence.
Qed.

(** The loop accepts exactly the lists of fresh, distinct keys on the
    expected path. *)
Lemma validateKeys_None expPath keys ks :
  validateKeys expPath keys ks = None <->
  (forall k, k ∈ ks -> ~ seen keys (KeyDescriptor_String k)) /\ keys_ok expPath ks.
Proof.
  unfold keys_ok. revert keys. induction ks as [|k ks IH]; intros keys; simpl.
  - split; [|reflexivity]. intros _.
    split; [|split]; [intros k Hk | constructor | intros k Hk];
      by apply elem_of_nil in Hk.
  - destruct (default false (keys !! KeyDescriptor_String k)) eqn:Hseen.
    + apply seen_default in Hseen. split; [discriminate|].
      intros [Hfresh _]. exfalso. apply (Hfresh k); [left | exact Hseen].
    + assert (Hns : ~ seen keys (KeyDescriptor_String k))
        by (rewrite <- seen_default, Hseen; discriminate).
      destruct ((length expPath =? 0) || negb (bool_decide (DerivationPath k = expPath)))
        eqn:Hpath.
      * split; [discriminate|]. intros (_ & _ & Hstd).
        apply not_true_iff_false in Hpath; [contradiction|].
        rewrite path_test. apply Hstd. left.
      * apply path_test in Hpath. rewrite IH. rewrite NoDup_cons.
        split.
        -- intros (Hfresh & Hnd & Hstd). split; [|split; [split|]].
           ++ intros k' [->|Hin]%elem_of_cons; [exact Hns|].
              intros Hs. apply (Hfresh k' Hin). apply seen_insert. by right.
           ++ intros Hin. apply list_elem_of_fmap in Hin as (k' & Heq & Hin).
              apply (Hfresh k' Hin). apply seen_insert. by left.
           ++ exact Hnd.
           ++ intros k' [->|Hin]%elem_of_cons; [exact Hpath | by apply Hstd].
        -- intros (Hfresh & [Hnk Hnd] & Hstd). split; [|split].
           ++ intros k' Hin [Heq|Hs]%seen_insert.
              ** apply Hnk. rewrite Heq. by apply list_elem_of_fmap_2.
              ** apply (Hfresh k'); [by right | exact Hs].
           ++ exact Hnd.
           ++ intros k' Hin. apply Hstd. by right.
Qed.

(** The loop over a list in two parts. *)
Lemma validateKeys_app expPath keys pre rest :
  validateKeys expPath keys pre = None ->
  validateKeys expPath keys (pre ++ rest) = validateKeys expPath (mark keys pre) rest.
Proof.
  revert keys. induction pre as [|k pre IH]; intros keys; simpl; [reflexivity|].
  destruct (default false (keys !! KeyDescriptor_String k)); [discriminate|].
  destruct ((length expPath =? 0) || negb (bool_decide (DerivationPath k = expPath)));
    [discriminate|].
  apply IH.
Qed.

Lemma seen_empty x : ~ seen ∅ x.
Proof. unfold seen. rewrite lookup_empty. discriminate. Qed.

Lemma validateKeys_clean expPath ks :
  validateKeys expPath ∅ ks = None <-> keys_ok expPath ks.
Proof.
  rewrite validateKeys_None. split; [tauto|].
  intros Hok. split; [|exact Hok]. intros k _. apply seen_empty.
Qed.

(** The first key that fails decides the error of the loop. *)
Lemma validateKeys_first expPath pre k post :
  keys_ok expPath pre ->
  validateKeys expPath ∅ (pre ++ k :: post) =
    if bool_decide (KeyDescriptor_String k ∈ KeyDescriptor_String <$> pre)
    then Some (errDuplicateKey (MasterFingerprint k))
    else if (length expPath =? 0) || negb (bool_decide (DerivationPath k = expPath))
         then Some (errNonstandardDerivation (DerivationPath k))
         else validateKeys expPath (mark ∅ (pre ++ [k])) post.
Proof.
  intros Hok. rewrite validateKeys_app by (by apply validateKeys_clean).
  simpl.
  destruct (decide (KeyDescriptor_String k ∈ KeyDescriptor_String <$> pre)) as [Hin|Hin];
    [rewrite (bool_decide_eq_true_2 _ Hin) | rewrite (bool_decide_eq_false_2 _ Hin)].
  - assert (Hs : default false (mark ∅ pre !! KeyDescriptor_String k) = true).
    { apply (proj2 (seen_default _ _)), (proj2 (seen_mark _ _ _)).
      right. exact Hin. }
    rewrite Hs. reflexivity.
  - assert (Hs : default false (mark ∅ pre !! KeyDescriptor_String k) = false).
    { apply not_true_iff_false. rewrite seen_default, seen_mark.
      intros [Hs|Hs]; [by apply seen_empty in Hs | contradiction]. }
    rewrite Hs.
    destruct ((length expPath =? 0) || negb (bool_decide (DerivationPath k = expPath)));
      [reflexivity|].
    unfold mark. rewrite foldl_app. reflexivity.
Qed.

End Validate.

(** C2, as the code has it.  [validateDescriptor] walks the keys in
    order and stops at the first key that fails: with a duplicate-key
    error when the key's xpub text is that of an earlier key, else with a
    non-standard-derivation error when the expected path is empty or is
    not the key's path.  When all keys pass, the error of the trial
    engraving is returned, if there is one (too large, when the
    descriptor fits no plate), and then an error when the descriptor is
    not recoverable.  The result is nil exactly when all four checks
    pass.  On a click of [Button3] an error opens the error dialog made
    for it, whose title tells the cause, and the seed screen is not
    opened; without an error the seed screen is opened. *)
Theorem C2_validateDescriptor `{Packages} (desc : OutputDescriptor) :
  let expPath := OutputDescriptor_DerivationPath desc in
  (validateDescriptor desc = None <->
     keys_ok expPath (Keys desc) /\
     (exists pl, EngraveScreen_.engravePlate desc 0 dummyMnemonic = inl pl) /\
     backup_Recoverable desc = true) /\
  (forall pre k post,
     Keys desc = pre ++ k :: post -> keys_ok expPath pre ->
     (KeyDescriptor_String k ∈ KeyDescriptor_String <$> pre ->
      validateDescriptor desc = Some (errDuplicateKey (MasterFingerprint k))) /\
     (KeyDescriptor_String k ∉ KeyDescriptor_String <$> pre ->
      expPath = [] \/ DerivationPath k <> expPath ->
      validateDescriptor desc = Some (errNonstandardDerivation (DerivationPath k)))) /\
  (forall err,
     keys_ok expPath (Keys desc) ->
     EngraveScreen_.engravePlate desc 0 dummyMnemonic = inr err ->
     validateDescriptor desc = Some err) /\
  (forall pl,
     keys_ok expPath (Keys desc) ->
     EngraveScreen_.engravePlate desc 0 dummyMnemonic = inl pl ->
     backup_Recoverable desc = false ->
     validateDescriptor desc = Some errNotRecoverable) /\
  (forall e ctx s,
     Descriptor s = desc -> Button e = input.Button3 -> Click e = true ->
     match validateDescriptor desc with
     | Some err =>
         DescriptorScreen_.handle e ctx s =
           (mkDescriptorScreen (Descriptor s) (mnemonic s) (cosigners s) (seed s)
              (Some (NewErrorScreen err)) (ds_engrave s), DescriptorScreen_.Continue)
     | None =>
         DescriptorScreen_.handle e ctx s =
           (mkDescriptorScreen (Descriptor s) (mnemonic s) (cosigners s)
              (Some (NewEmptySeedScreen ctx "Input Share"))
              (ds_warning s) (ds_engrave s), DescriptorScreen_.Continue)
     end) /\
  (forall fp p,
     Title (NewErrorScreen (errDuplicateKey fp)) = "Duplicated Share" /\
     Title (NewErrorScreen (errNonstandardDerivation p)) = "Non-standard Derivation" /\
     Title (NewErrorScreen ErrDescriptorTooLarge) = "Too Large").
Proof.
  intros expPath.
  split; [|split; [|split; [|split; [|split]]]].
  - unfold validateDescriptor. fold expPath. fold dummyMnemonic.
    destruct (validateKeys expPath ∅ (Keys desc)) as [err|] eqn:Hk.
    + split; [discriminate|]. intros (Hok & _).
      apply validateKeys_clean in Hok. congruence.
    + apply validateKeys_clean in Hk.
      destruct (EngraveScreen_.engravePlate desc 0 dummyMnemonic) as [pl|err].
      * destruct (backup_Recoverable desc); simpl.
        -- split; [eauto|reflexivity].
        -- split; [discriminate|]. intros (_ & _ & ?). discriminate.
      * split; [discriminate|]. intros (_ & [pl ?] & _). discriminate.
  - intros pre k post Hkeys Hok.
    unfold validateDescriptor. fold expPath. rewrite Hkeys.
    rewrite (validateKeys_first expPath pre k post Hok).
    split.
    + intros Hin. rewrite bool_decide_eq_true_2 by exact Hin. reflexivity.
    + intros Hnin Hbad. rewrite bool_decide_eq_false_2 by exact Hnin.
      destruct ((length expPath =? 0) || negb (bool_decide (DerivationPath k = expPath)))
        eqn:Hpath; [reflexivity|].
      apply path_test in Hpath. destruct Hbad; tauto.
  - intros err Hok Heng. unfold validateDescriptor. fold expPath. fold dummyMnemonic.
    apply validateKeys_clean in Hok. rewrite Hok, Heng. reflexivity.
  - intros pl Hok Heng Hrec. unfold validateDescriptor. fold expPath. fold dummyMnemonic.
    apply validateKeys_clean in Hok. rewrite Hok, Heng, Hrec. reflexivity.
  - intros e ctx s Hd Hb Hc. unfold DescriptorScreen_.handle.
    rewrite Hb, Hc, Hd. simpl.
    destruct (validateDescriptor desc); reflexivity.
  - intros fp p. repeat split.
Qed.

Lemma C2_witness :
  let desc := twiceThenOdd in
  (Keys desc = [keyA] ++ keyA :: [keyOdd] /\
   keys_ok (OutputDescriptor_DerivationPath desc) [keyA] /\
   KeyDescriptor_String keyA ∈ KeyDescriptor_String <$> [keyA]) /\
  validateDescriptor desc = Some (errDuplicateKey (MasterFingerprint keyA)).
Proof.
  assert (Hok : keys_ok (OutputDescriptor_DerivationPath twiceThenOdd) [keyA]).
  { split.
    - repeat constructor. by intros ?%elem_of_nil.
    - intros k ->%list_elem_of_singleton. split; [discriminate | reflexivity]. }
  assert (Hin : KeyDescriptor_String keyA ∈ KeyDescriptor_String <$> [keyA])
    by (simpl; left).
  split; [split; [reflexivity | split; [exact Hok | exact Hin]]|].
  pose proof (C2_validateDescriptor twiceThenOdd) as (_ & Hfirst & _).
  apply (Hfirst [keyA] keyA [keyOdd] eq_refl Hok). exact Hin.
Defined.

(** C2 does not hold as stated: a wallet that lists the same key twice
    is refused with the non-standard-derivation error when that key is
    off the standard path, and a wallet with a key off the standard path
    is refused with the duplicate-key error when a duplicate comes
    before it. *)
Lemma C2_counterexample :
  (Keys twiceOdd !! 0 = Some keyOdd /\ Keys twiceOdd !! 1 = Some keyOdd /\
   validateDescriptor twiceOdd = Some (errNonstandardDerivation (DerivationPath keyOdd)) /\
   validateDescriptor twiceOdd <> Some (errDuplicateKey (MasterFingerprint keyOdd))) /\
  (keyOdd ∈ Keys twiceThenOdd /\
   DerivationPath keyOdd <> OutputDescriptor_DerivationPath twiceThenOdd /\
   validateDescriptor twiceThenOdd = Some (errDuplicateKey (MasterFingerprint keyA)) /\
   validateDescriptor twiceThenOdd <> Some (errNonstandardDerivation (DerivationPath keyOdd))).
Proof.
  split.
  - split; [reflexivity|]. split; [reflexivity|].
    split; [vm_compute; reflexivity | vm_compute; discriminate].
  - split; [vm_compute; set_solver|].
    split; [vm_compute; discriminate|].
    split; [vm_compute; reflexivity | vm_compute; discriminate].
Qed.

(** ** Scanning a QR code *)

Section ParseQR.

Context `{URPackage}.

Implicit Types (d : Decoder) (qr : string).

(** The decoder that [parseQR] reads the result from: the one that took
    the fragment, or a fresh one that was given the fragment again. *)
Lemma parseQR_fed d qr :
  String.prefix "UR:" (ToUpper qr) = true ->
  ScanScreen_.parseQR d qr =
    let fed :=
      match Decoder_Add d (ToUpper qr) with
      | (_, Some _) => fst (Decoder_Add Decoder_zero (ToUpper qr))
      | (d', None) => d'
      end in
    match Decoder_Result fed with
    | (_, _, Some _) => (Decoder_zero, None)
    | (_, None, None) => (fed, None)
    | (typ, Some enc, None) =>
        match urtypes_Parse typ enc with
        | inr _ => (Decoder_zero, None)
        | inl v => (Decoder_zero, Some (Parsed v))
        end
    end.
Proof. unfold ScanScreen_.parseQR. intros ->. reflexivity. Qed.

(** After [parseQR] the screen holds a fresh decoder or the decoder that
    was fed. *)
Lemma parseQR_decoder d qr :
  fst (ScanScreen_.parseQR d qr) = Decoder_zero \/
  (exists d', Decoder_Add d (ToUpper qr) = (d', None) /\
     fst (ScanScreen_.parseQR d qr) = d') \/
  (exists d' e, Decoder_Add d (ToUpper qr) = (d', Some e) /\
     fst (ScanScreen_.parseQR d qr) = fst (Decoder_Add Decoder_zero (ToUpper qr))).
Proof.
  unfold ScanScreen_.parseQR.
  destruct (String.prefix "UR:" (ToUpper qr)); simpl; [|by left].
  destruct (Decoder_Add d (ToUpper qr)) as [d' [e|]] eqn:Hadd.
  - destruct (Decoder_Result (Decoder_Add Decoder_zero (ToUpper qr)).1)
      as [[typ [enc|]] [e'|]]; simpl; try (by left).
    + destruct (urtypes_Parse typ enc); by left.
    + right. right. eauto.
  - destruct (Decoder_Result d') as [[typ [enc|]] [e'|]]; simpl; try (by left).
    + destruct (urtypes_Parse typ enc); by left.
    + right. left. eauto.
Qed.

Context `{!DecoderModel}.

Lemma one_message_zero : one_message Decoder_zero.
Proof. intros f g Hf. rewrite held_zero in Hf. by apply elem_of_nil in Hf. Qed.

(** A fragment that is taken in keeps the accumulator on one message. *)
Lemma one_message_Add d f d' :
  one_message d -> Decoder_Add d f = (d', None) -> one_message d'.
Proof.
  intros Hone Hadd g h Hg Hh.
  destruct (Add_held d f d' None Hadd g Hg) as [->|Hg'];
    destruct (Add_held d f d' None Hadd h Hh) as [->|Hh'].
  - apply same_message_refl.
  - apply same_message_sym. by apply (Add_accepts d f d' Hadd).
  - by apply (Add_accepts d f d' Hadd).
  - by apply Hone.
Qed.

(** A fragment given to a fresh decoder is alone in it. *)
Lemma one_message_restart f : one_message (fst (Decoder_Add Decoder_zero f)).
Proof.
  destruct (Decoder_Add Decoder_zero f) as [d' r] eqn:Hadd. simpl.
  intros g h Hg Hh.
  destruct (Add_held _ _ _ _ Hadd g Hg) as [->|Hg'];
    [|rewrite held_zero in Hg'; by apply elem_of_nil in Hg'].
  destruct (Add_held _ _ _ _ Hadd h Hh) as [->|Hh'];
    [|rewrite held_zero in Hh'; by apply elem_of_nil in Hh'].
  apply same_message_refl.
Qed.

End ParseQR.

(** C5.  A payload whose upper-cased text does not start with "UR:" is
    returned at once, as it is.  Any other payload is fed to the
    multi-part decoder, and when the decoder refuses it as incompatible,
    a fresh decoder is fed the same fragment; the result is read from
    the decoder that was fed: a complete message that parses is
    returned, parsed, and a complete message that does not parse is
    dropped with nothing returned, the decoder being reset in both
    cases; an incomplete message returns nothing and keeps the decoder.
    At every call, an accumulator that holds fragments of one message
    only still does so afterwards. *)
Theorem C5_parseQR `{URPackage} `{!DecoderModel} (d : Decoder) (qr : string) :
  let uqr := ToUpper qr in
  let fed :=
    match Decoder_Add d uqr with
    | (_, Some _) => fst (Decoder_Add Decoder_zero uqr)
    | (d', None) => d'
    end in
  (String.prefix "UR:" uqr = false ->
   ScanScreen_.parseQR d qr = (Decoder_zero, Some (Bytes qr))) /\
  (String.prefix "UR:" uqr = true ->
   (forall typ enc v,
      Decoder_Result fed = (typ, Some enc, None) -> urtypes_Parse typ enc = inl v ->
      ScanScreen_.parseQR d qr = (Decoder_zero, Some (Parsed v))) /\
   (forall typ enc e,
      Decoder_Result fed = (typ, Some enc, None) -> urtypes_Parse typ enc = inr e ->
      ScanScreen_.parseQR d qr = (Decoder_zero, None)) /\
   (forall typ,
      Decoder_Result fed = (typ, None, None) ->
      ScanScreen_.parseQR d qr = (fed, None)) /\
   (forall typ enc e,
      Decoder_Result fed = (typ, enc, Some e) ->
      ScanScreen_.parseQR d qr = (Decoder_zero, None))) /\
  (one_message d -> one_message (fst (ScanScreen_.parseQR d qr))).
Proof.
  intros uqr fed. split; [|split].
  - intros Hp. unfold ScanScreen_.parseQR. fold uqr. rewrite Hp. reflexivity.
  - intros Hp. rewrite (parseQR_fed d qr Hp). fold uqr. fold fed. cbv zeta.
    split; [|split; [|split]].
    + intros typ enc v -> ->. reflexivity.
    + intros typ enc e -> ->. reflexivity.
    + intros typ ->. reflexivity.
    + intros typ enc e ->. destruct enc; reflexivity.
  - intros Hone.
    destruct (parseQR_decoder d qr) as [->|[(d' & Hadd & ->)|(d' & e & Hadd & ->)]].
    + apply one_message_zero.
    + by apply (one_message_Add d (ToUpper qr)).
    + apply one_message_restart.
Qed.

Section ToyDecoder.

Lemma sampleUR_Add_held (d : list string) (f : string) d' r :
  Decoder_Add (URPackage := sampleUR) d f = (d', r) ->
  forall g, g ∈ d' -> g = f \/ g ∈ d.
Proof.
  simpl. destruct (forallb _ d); intros [= <- <-] g Hg; [|by right].
  apply elem_of_app in Hg as [Hg|Hg%list_elem_of_singleton]; [by right | by left].
Qed.

Lemma sampleUR_Add_accepts (d : list string) (f : string) d' :
  Decoder_Add (URPackage := sampleUR) d f = (d', None) ->
  forall g, g ∈ d -> sameHead g f = true.
Proof.
  simpl. destruct (forallb _ d) eqn:Hall; [|discriminate].
  intros _ g Hg. rewrite forallb_forall in Hall.
  apply Hall. by apply list_elem_of_In.
Qed.

Lemma sameHead_sym f g : sameHead f g = true -> sameHead g f = true.
Proof. unfold sameHead. rewrite String.eqb_sym. auto. Qed.

Lemma sameHead_refl f : sameHead f f = true.
Proof. unfold sameHead. apply String.eqb_refl. Qed.

End ToyDecoder.

(** The toy decoder meets the decoder model. *)
#[local] Instance sampleDecoderModel : DecoderModel (H := sampleUR) :=
  Build_DecoderModel sampleUR (fun d => d) (fun f g => sameHead f g = true)
    sameHead_refl sameHead_sym eq_refl sampleUR_Add_held sampleUR_Add_accepts.

Lemma C5_witness :
  let d : Decoder := ["UR:MSGA/1-2/AAAA"]%string in
  let qr := "ur:msgb/1-2/bbbb"%string in
  (String.prefix "UR:" (ToUpper qr) = true /\
   Decoder_Result ["UR:MSGB/1-2/BBBB"]%string = (""%string, None, None) /\
   one_message d) /\
  ScanScreen_.parseQR d qr = (["UR:MSGB/1-2/BBBB"]%string, None) /\
  one_message (fst (ScanScreen_.parseQR d qr)).
Proof.
  assert (Hone : one_message (["UR:MSGA/1-2/AAAA"]%string : Decoder)).
  { intros f g ->%list_elem_of_singleton ->%list_elem_of_singleton. reflexivity. }
  split; [split; [reflexivity | split; [reflexivity | exact Hone]]|].
  pose proof (C5_parseQR (["UR:MSGA/1-2/AAAA"]%string : Decoder) "ur:msgb/1-2/bbbb")
    as (_ & Hur & Hinv).
  split.
  - destruct (Hur eq_refl) as (_ & _ & Hpending & _).
    exact (Hpending ""%string eq_refl).
  - apply Hinv. exact Hone.
Defined.

(** ** The frame loop *)

Section FrameLoop.

Implicit Types (btns : list input.Event) (ctx : Context).

(** The inner loop of [Frame] hands the screen the button events of the
    frame, in order, leaving out the first of them when the eat flag is
    up; screenshot requests never reach the screen and leave the flag
    alone. *)
Lemma pump_spec btns ctx (eat shot : bool) :
  App_.pump btns ctx eat shot =
    (Context_.Events ctx (drop (if eat then 1 else 0) (buttonEvents btns)),
     eat && bool_decide (buttonEvents btns = []),
     shot || bool_decide (Exists (fun e => input.Button_ e = input.Screenshot) btns)).
Proof.
  unfold buttonEvents.
  revert ctx eat shot. induction btns as [|e rest IH]; intros ctx eat shot.
  - simpl. destruct eat, shot; reflexivity.
  - simpl. destruct (Nat.eqb_spec (input.Button_ e) input.Screenshot) as [Heq|Hne].
    + rewrite IH. rewrite filter_cons_False by (intros Hn; by apply Hn).
      rewrite (bool_decide_eq_true_2 (Exists _ (e :: rest))) by (by left).
      rewrite orb_true_r. reflexivity.
    + rewrite filter_cons_True by exact Hne.
      assert (Hex : bool_decide (Exists (fun e => input.Button_ e = input.Screenshot) (e :: rest))
                    = bool_decide (Exists (fun e => input.Button_ e = input.Screenshot) rest)).
      { apply bool_decide_ext. rewrite Exists_cons. tauto. }
      rewrite Hex. destruct eat.
      * rewrite IH. simpl. rewrite drop_0. reflexivity.
      * rewrite IH. simpl. rewrite drop_0, <- Events_cons. reflexivity.
Qed.

End FrameLoop.

(** C8, as the code has it.  After a frame the idle timer is armed
    exactly when no button is pressed.  The screensaver runs exactly in
    a frame woken by the idle timer, which raises the eat flag.  With
    the flag up, the first input event that is not a screenshot request
    is left out of the queue handed to the screen and takes the flag
    down; the events after it are submitted as usual.  Screenshot
    requests never reach the screen and do not take the flag down. *)
Theorem C8_idle_and_eat `{RootScreen} (w : Wake) (btns : list input.Event)
    (a a' : App) (shot : bool) :
  App_.prepare_ w btns a = Some (a', shot) ->
  let woken := match w with WakeIdle => true | _ => false end in
  let eat := idle_eatButton a || woken in
  let ctx0 :=
    match w with
    | WakeSDCard inserted => set_NoSDCard (ctx_ a) (negb inserted)
    | _ => ctx_ a
    end in
  (idle_timeout a' = true <-> Forall (fun b => b = false) (Buttons (ctx_ a'))) /\
  (woken = true -> idle_timeout a = true) /\
  (SaveScreen ∈ drop (length (effects a)) (effects a') <-> woken = true) /\
  ctx_ a' =
    Context_.Repeat
      (Context_.Events ctx0 (drop (if eat then 1 else 0) (buttonEvents btns))) /\
  idle_eatButton a' = eat && bool_decide (buttonEvents btns = []) /\
  exists a'',
    App_.Frame w btns a = Some a'' /\
    ctx_ a'' = fst (MainScreen_Layout (scr a') (ctx_ a') (err_ a')) /\
    idle_timeout a'' = idle_timeout a' /\
    idle_eatButton a'' = idle_eatButton a'.
Proof.
  intros Hprep woken eat ctx0.
  assert (Hframe : exists a'',
    App_.Frame w btns a = Some a'' /\
    ctx_ a'' = fst (MainScreen_Layout (scr a') (ctx_ a') (err_ a')) /\
    idle_timeout a'' = idle_timeout a' /\
    idle_eatButton a'' = idle_eatButton a').
  { unfold App_.Frame. rewrite Hprep.
    destruct (MainScreen_Layout (scr a') (ctx_ a') (err_ a')) as [c s].
    destruct (Debug a' && shot); eexists; (split; [reflexivity|]); simpl; auto. }
  unfold App_.prepare_ in Hprep.
  assert (Hstep : exists eff0,
    match w with
    | WakeSDCard inserted =>
        Some (set_NoSDCard (ctx_ a) (negb inserted), idle_eatButton a, effects a)
    | WakeWakeup => Some (ctx_ a, idle_eatButton a, effects a)
    | WakeIdle =>
        if idle_timeout a then Some (ctx_ a, true, effects a ++ [SaveScreen]) else None
    end = Some (ctx0, eat, eff0) /\
    (woken = true -> idle_timeout a = true) /\
    eff0 = effects a ++ (if woken then [SaveScreen] else [])).
  { subst woken eat ctx0. destruct w as [ins| |]; simpl.
    - exists (effects a). rewrite orb_false_r, app_nil_r.
      split; [reflexivity|]. split; [discriminate | reflexivity].
    - exists (effects a). rewrite orb_false_r, app_nil_r.
      split; [reflexivity|]. split; [discriminate | reflexivity].
    - destruct (idle_timeout a); [|discriminate].
      exists (effects a ++ [SaveScreen]). rewrite orb_true_r. auto. }
  destruct Hstep as (eff0 & Hstep & Hwoken & Heff0).
  rewrite Hstep in Hprep. rewrite pump_spec in Hprep.
  injection Hprep as <- <-. simpl.
  set (ctx1 := Context_.Repeat _).
  split; [|split; [exact Hwoken|split; [|split; [reflexivity|split; [reflexivity|]]]]].
  - rewrite negb_true_iff. rewrite <- not_true_iff_false.
    rewrite existsb_exists, Forall_forall. split.
    + intros Hno b Hb. destruct b; [|reflexivity].
      exfalso. apply Hno. exists true. split; [by apply list_elem_of_In | reflexivity].
    + intros Hall (b & Hb%list_elem_of_In & Hid). unfold id in Hid. subst b.
      by specialize (Hall true Hb).
  - rewrite Heff0.
    destruct (negb (existsb id (Buttons ctx1)));
      rewrite <- ? app_assoc, drop_app_length; destruct woken; simpl;
      rewrite ?elem_of_cons, ?elem_of_nil; split; intros; try tauto;
      try discriminate; intuition discriminate.
  - exact Hframe.
Qed.

Lemma C8_witness :
  let e1 := input.mkEvent input.Button3 true 0%N in
  let e2 := input.mkEvent input.Button3 false 0%N in
  let e3 := input.mkEvent input.Button2 true 0%N in
  exists a' a'',
    App_.prepare_ WakeIdle [e1; e2; e3] sampleApp = Some (a', false) /\
    App_.Frame WakeIdle [e1; e2; e3] sampleApp = Some a'' /\
    SaveScreen ∈ effects a'' /\
    Event_ <$> events (ctx_ a'') = [e2; e3] /\
    idle_eatButton a'' = false /\
    idle_timeout a'' = false.
Proof.
  assert (Hprep : exists a',
    App_.prepare_ WakeIdle
      [input.mkEvent input.Button3 true 0%N; input.mkEvent input.Button3 false 0%N;
       input.mkEvent input.Button2 true 0%N] sampleApp = Some (a', false))
    by (eexists; vm_compute; reflexivity).
  destruct Hprep as [a' Hprep].
  destruct (C8_idle_and_eat _ _ _ _ _ Hprep)
    as (_ & _ & _ & _ & _ & a'' & Hf & _).
  exists a', a''. split; [exact Hprep|]. split; [exact Hf|].
  vm_compute in Hf. injection Hf as <-.
  split; [vm_compute; set_solver|]. repeat split.
Defined.

(** C8 does not hold as stated when the first event after the
    screensaver is a screenshot request: the request is acted upon, and
    it is the event after it, the press of [Button3], that is left out
    of the queue, although submitted on its own it would be queued. *)
Lemma C8_counterexample :
  let e := input.mkEvent input.Button3 true 0%N in
  exists a1 a2,
    App_.Frame WakeIdle [] sampleApp = Some a1 /\
    idle_eatButton a1 = true /\
    App_.Frame WakeWakeup [screenshotEvent; e] a1 = Some a2 /\
    events (ctx_ a2) = [] /\
    idle_eatButton a2 = false /\
    events (Context_.Events (ctx_ a1) [e]) = [mkEvent e false].
Proof.
  eexists _, _. split; [vm_compute; reflexivity|].
  split; [reflexivity|]. split; [vm_compute; reflexivity|].
  repeat split.
Qed.

(** ** The word keyboard *)

Section Letters.

Lemma upper1_lower c :
  lowerLetter c -> nat_of_ascii (upper1 c) = nat_of_ascii c - 32.
Proof.
  unfold lowerLetter, upper1. intros [Hlo Hhi].
  apply Nat.leb_le in Hlo as Hlo'. apply Nat.leb_le in Hhi as Hhi'.
  rewrite Hlo', Hhi'. simpl. apply nat_ascii_embedding. lia.
Qed.

Lemma lower1_upper1 c : lowerLetter c -> lower1 (upper1 c) = c.
Proof.
  intros Hc. pose proof (upper1_lower c Hc) as Hu. destruct Hc as [Hlo Hhi].
  unfold lower1. rewrite Hu.
  replace (65 <=? nat_of_ascii c - 32) with true by (symmetry; apply Nat.leb_le; lia).
  replace (nat_of_ascii c - 32 <=? 90) with true by (symmetry; apply Nat.leb_le; lia).
  simpl. replace (nat_of_ascii c - 32 + 32) with (nat_of_ascii c) by lia.
  apply ascii_nat_embedding.
Qed.

Lemma ToLower_ToUpper (w : gostring) :
  (forall c, c ∈ w -> lowerLetter c) -> ToLower_ascii (ToUpper_ascii w) = w.
Proof.
  unfold ToLower_ascii, ToUpper_ascii. induction w as [|c w IH]; intros Hw; simpl.
  - reflexivity.
  - rewrite lower1_upper1 by (apply Hw; left).
    rewrite IH; [reflexivity|]. intros c' Hc'. apply Hw. by right.
Qed.

Lemma ToUpper_app (a b : gostring) :
  ToUpper_ascii (a ++ b) = ToUpper_ascii a ++ ToUpper_ascii b.
Proof. apply map_app. Qed.

(** The key of a lower-case letter has a bit in the mask. *)
Lemma idxForRune_letter c :
  lowerLetter c ->
  Keyboard_.idxForRune (Z.of_nat (nat_of_ascii (upper1 c))) = Some (nat_of_ascii c - 97).
Proof.
  intros Hc. rewrite (upper1_lower c Hc). destruct Hc as [Hlo Hhi].
  unfold Keyboard_.idxForRune.
  replace (Z.of_nat (nat_of_ascii c - 32) - 65 <? 0)%Z with false
    by (symmetry; apply Z.ltb_ge; lia).
  replace (32 <=? Z.of_nat (nat_of_ascii c - 32) - 65)%Z with false
    by (symmetry; apply Z.leb_gt; lia).
  simpl. f_equal. lia.
Qed.

Lemma letter_not_backspace c :
  lowerLetter c -> (Z.of_nat (nat_of_ascii (upper1 c)) =? backspace)%Z = false.
Proof.
  intros Hc. rewrite (upper1_lower c Hc). destruct Hc as [Hlo Hhi].
  apply Z.eqb_neq. unfold backspace. lia.
Qed.

(** *** The mask *)

Lemma bit_of_shift (i j : N) : N.testbit (N.shiftl 1 i) j = (i =? j)%N.
Proof. rewrite N.shiftl_1_l. apply N.pow2_bits_eqb. Qed.

Lemma land_bit_zero (m i : N) :
  N.testbit m i = false -> N.land m (N.shiftl 1 i) = 0%N.
Proof.
  intros Hm. apply N.bits_inj_0. intros j.
  rewrite N.land_spec, bit_of_shift.
  destruct (N.eqb_spec i j) as [->|]; [rewrite Hm|]; by rewrite ?andb_false_r.
Qed.

Lemma land_bit_nonzero (m i : N) :
  N.testbit m i = true -> N.land m (N.shiftl 1 i) <> 0%N.
Proof.
  intros Hm Hz.
  assert (Hb : N.testbit (N.land m (N.shiftl 1 i)) i = true)
    by (rewrite N.land_spec, bit_of_shift, Hm, N.eqb_refl; reflexivity).
  rewrite Hz in Hb. rewrite N.bits_0 in Hb. discriminate.
Qed.

Lemma allOnes_bit (i : N) : (i < 32)%N -> N.testbit allOnes i = true.
Proof.
  intros Hi. change allOnes with (N.ones 32). by apply N.ones_spec_low.
Qed.

Lemma ldiff_bit (m i j : N) :
  N.testbit (N.ldiff m (N.shiftl 1 i)) j = N.testbit m j && negb (i =? j)%N.
Proof. by rewrite N.ldiff_spec, bit_of_shift. Qed.

(** *** The order of the word list *)

Lemma lex_lt_prefix_between (p a b c : gostring) :
  lex_lt a b -> lex_lt b c -> p `prefix_of` a -> p `prefix_of` c -> p `prefix_of` b.
Proof.
  revert a b c. induction p as [|x p IH]; intros a b c Hab Hbc Hpa Hpc.
  - apply prefix_nil.
  - destruct a as [|x1 a]; [by apply prefix_nil_not in Hpa|].
    destruct c as [|x3 c]; [by apply prefix_nil_not in Hpc|].
    apply prefix_cons_inv_1 in Hpa as Hx1. apply prefix_cons_inv_2 in Hpa.
    apply prefix_cons_inv_1 in Hpc as Hx3. apply prefix_cons_inv_2 in Hpc.
    subst x1 x3.
    destruct b as [|y b]; [contradiction|].
    simpl in Hab, Hbc.
    destruct Hab as [Hlt|[-> Hab]]; destruct Hbc as [Hlt'|[Heq Hbc]];
      try lia; try (subst; lia).
    apply prefix_cons. by apply (IH a b c).
Qed.

(** A string is not below any of its prefixes. *)
Lemma lex_lt_prefix (p v : gostring) : p `prefix_of` v -> ~ lex_lt v p.
Proof.
  revert v. induction p as [|x p IH]; intros v Hp Hlt.
  - destruct v; exact Hlt.
  - destruct v as [|y v]; [by apply prefix_nil_not in Hp|].
    apply prefix_cons_inv_1 in Hp as Hy. apply prefix_cons_inv_2 in Hp. subst y.
    simpl in Hlt. destruct Hlt as [Hlt|[_ Hlt]]; [lia|]. by apply (IH v).
Qed.

Lemma lex_lt_irrefl (a : gostring) : ~ lex_lt a a.
Proof. by apply lex_lt_prefix. Qed.

End Letters.

Section Words.

Context `{Bip39} (Hspec : Bip39Spec).

Implicit Types (p w : gostring) (ws : list gostring) (k : Keyboard).

Lemma elem_of_drop_in {A} (l : list A) n x : x ∈ drop n l -> x ∈ l.
Proof.
  intros Hx. rewrite <- (take_drop n l). apply elem_of_app. by right.
Qed.

Lemma sorted_lookup {A} (R : A -> A -> Prop) (l : list A) i j a b :
  StronglySorted R l -> i < j -> l !! i = Some a -> l !! j = Some b -> R a b.
Proof.
  intros Hs. revert i j. induction Hs as [|x l Hs IH Hall]; intros i j Hij Ha Hb.
  - discriminate.
  - destruct j as [|j]; [lia|]. simpl in Hb. destruct i as [|i].
    + injection Ha as <-. rewrite Forall_forall in Hall.
      apply Hall. by eapply list_elem_of_lookup_2.
    + simpl in Ha. apply (IH i j); [lia | assumption..].
Qed.

(** In a sorted list the words that start with [p] are next to each
    other. *)
Lemma run_filter p w0 ws :
  StronglySorted lex_lt (w0 :: ws) -> p `prefix_of` w0 ->
  filter (fun w => p `prefix_of` w) ws = run p ws.
Proof.
  revert w0. induction ws as [|w1 ws IH]; intros w0 Hs Hp0; [reflexivity|].
  apply StronglySorted_inv in Hs as [Hs Hall].
  simpl. destruct (decide (p `prefix_of` w1)) as [Hp1|Hp1].
  - rewrite filter_cons_True by exact Hp1. f_equal. by apply (IH w1).
  - rewrite filter_cons_False by exact Hp1.
    apply filter_none, Forall_forall. intros w2 Hw2 Hp2. apply Hp1.
    apply StronglySorted_inv in Hs as [_ Hall1].
    rewrite Forall_forall in Hall, Hall1.
    apply (lex_lt_prefix_between p w0 w1 w2); [|  |assumption..].
    + apply Hall. left.
    + by apply Hall1.
Qed.

Lemma firstCompletion_Some p i w :
  firstCompletion p = Some (i, w) <->
  Wordlist !! i = Some w /\ p `prefix_of` w /\
  forall j v, Wordlist !! j = Some v -> j < i -> ~ p `prefix_of` v.
Proof. unfold firstCompletion, firstWith. apply list_find_Some. Qed.

Lemma firstCompletion_elem_of p w :
  w ∈ Wordlist -> p `prefix_of` w -> is_Some (firstCompletion p).
Proof. unfold firstCompletion, firstWith. apply list_find_elem_of. Qed.

Lemma firstCompletion_None p :
  firstCompletion p = None <-> Forall (fun w => ~ p `prefix_of` w) Wordlist.
Proof. unfold firstCompletion, firstWith. apply list_find_None. Qed.

Lemma completions_run p i w :
  firstCompletion p = Some (i, w) ->
  completions p = run p (drop i Wordlist).
Proof.
  intros (Hi & Hp & Hfirst)%firstCompletion_Some.
  unfold completions.
  transitivity (filter (fun w => p `prefix_of` w) (take i Wordlist ++ drop i Wordlist));
    [by rewrite take_drop|].
  rewrite filter_app.
  assert (Hnone : filter (fun w => p `prefix_of` w) (take i Wordlist) = []).
  { apply filter_none, Forall_forall. intros v Hv.
    apply list_elem_of_lookup in Hv as [j Hj].
    apply lookup_take_Some in Hj as [Hj Hlt]. by apply (Hfirst j). }
  rewrite Hnone. simpl.
  rewrite (drop_S _ _ _ Hi). simpl.
  rewrite decide_True by exact Hp. rewrite filter_cons_True by exact Hp.
  f_equal. apply (run_filter p w); [|exact Hp].
  rewrite <- (drop_S _ _ _ Hi).
  apply (StronglySorted_app_1_r _ (take i Wordlist)).
  rewrite take_drop. apply Hspec.
Qed.

(** The loop of [updateMask]: it counts the words at the head of the
    list that start with [word], it only clears bits, and it clears the
    bit of every letter that follows [word] in one of those words. *)
Lemma maskLoop_spec p ws nv m :
  (forall w c, w ∈ ws -> c ∈ w -> lowerLetter c) ->
  exists m',
    Keyboard_.maskLoop p ws nv m = Ok (nv + length (run p ws), m') /\
    (forall j, N.testbit m j = false -> N.testbit m' j = false) /\
    (forall w c rest, w ∈ run p ws -> drop (length p) w = c :: rest ->
       N.testbit m' (N.of_nat (nat_of_ascii c - 97)) = false).
Proof.
  revert nv m. induction ws as [|w ws IH]; intros nv m Hlow; simpl.
  - exists m. rewrite Nat.add_0_r. split; [reflexivity|]. split; [auto|].
    intros w c rest Hw. by apply elem_of_nil in Hw.
  - unfold HasPrefix. destruct (decide (p `prefix_of` w)) as [Hp|Hp].
    + rewrite bool_decide_eq_true_2 by exact Hp. simpl.
      assert (Hlow' : forall w' c, w' ∈ ws -> c ∈ w' -> lowerLetter c)
        by (intros w' c Hw'; apply Hlow; by right).
      destruct (drop (length p) w) as [|c0 s0] eqn:Hsuf; simpl.
      * destruct (IH (nv + 1) m Hlow') as (m' & Hloop & Hmono & Hclr).
        exists m'. rewrite Hloop. split; [f_equal; f_equal; lia|].
        split; [exact Hmono|].
        intros w' c rest [->|Hw']%elem_of_cons Hd; [congruence|].
        by apply (Hclr w' c rest).
      * assert (Hc0 : lowerLetter c0).
        { apply (Hlow w c0); [left|].
          apply (elem_of_drop_in _ (length p)). rewrite Hsuf. left. }
        rewrite (idxForRune_letter c0 Hc0).
        destruct (IH (nv + 1)
                    (N.ldiff m (N.shiftl 1 (N.of_nat (nat_of_ascii c0 - 97)))) Hlow')
          as (m' & Hloop & Hmono & Hclr).
        exists m'. rewrite Hloop. split; [f_equal; f_equal; lia|]. split.
        -- intros j Hj. apply Hmono. rewrite ldiff_bit, Hj. reflexivity.
        -- intros w' c rest [->|Hw']%elem_of_cons Hd.
           ++ rewrite Hsuf in Hd. injection Hd as <- <-.
              apply Hmono. rewrite ldiff_bit, N.eqb_refl. apply andb_false_r.
           ++ by apply (Hclr w' c rest).
    + rewrite bool_decide_eq_false_2 by exact Hp. simpl.
      exists m. rewrite Nat.add_0_r. split; [reflexivity|]. split; [auto|].
      intros w' c rest Hw'. by apply elem_of_nil in Hw'.
Qed.

Lemma Wordlist_drop_lower i w c :
  w ∈ drop i Wordlist -> c ∈ w -> lowerLetter c.
Proof.
  intros Hw. apply (Wordlist_lower Hspec). by eapply elem_of_drop_in.
Qed.

(** [updateMask] never fails, keeps the word and counts right. *)
Lemma updateMask_counted k0 :
  exists k,
    Keyboard_.updateMask k0 = Ok k /\ kb_Word k = kb_Word k0 /\ counted k.
Proof.
  unfold Keyboard_.updateMask, counted. simpl.
  destruct (ClosestWord (ToLower_ascii (kb_Word k0))) as [i|] eqn:Hcw.
  - destruct (maskLoop_spec (ToLower_ascii (kb_Word k0)) (drop i Wordlist) 0 allOnes
                (Wordlist_drop_lower i)) as (m' & -> & _).
    simpl. eexists. split; [reflexivity|]. split; [reflexivity|]. simpl.
    intros _ _. rewrite (ClosestWord_first Hspec) in Hcw.
    destruct (firstCompletion (ToLower_ascii (kb_Word k0))) as [[i' w]|] eqn:Hfind;
      [|discriminate Hcw].
    cbn in Hcw. injection Hcw as ->. by rewrite (completions_run _ i w Hfind).
  - eexists. split; [reflexivity|]. split; [reflexivity|]. simpl.
    intros i. rewrite Hcw. discriminate.
Qed.

(** [updateMask] for a typed prefix of a word of the list. *)
Lemma updateMask_synced p w nv m :
  w ∈ Wordlist -> p `prefix_of` w ->
  exists k,
    Keyboard_.updateMask (mkKeyboard (ToUpper_ascii p) nv m) = Ok k /\ synced k p.
Proof.
  intros Hw Hp.
  assert (Hlow : forall c, c ∈ p -> lowerLetter c).
  { intros c Hc. apply (Wordlist_lower Hspec w c Hw).
    destruct Hp as [q ->]. apply elem_of_app. by left. }
  unfold Keyboard_.updateMask. simpl. rewrite (ToLower_ToUpper p Hlow).
  rewrite (ClosestWord_first Hspec).
  destruct (firstCompletion_elem_of p w Hw Hp) as [[i w0] Hfind].
  rewrite Hfind. simpl.
  destruct (maskLoop_spec p (drop i Wordlist) 0 allOnes (Wordlist_drop_lower i))
    as (m' & -> & _ & Hclr).
  simpl. rewrite <- (completions_run p i w0 Hfind) in *.
  eexists. split; [reflexivity|]. unfold synced. simpl.
  split; [reflexivity|]. split; [reflexivity|]. split.
  - intros ->. reflexivity.
  - intros Hne. apply Nat.eqb_neq in Hne as ->.
    intros v c rest Hv ->. apply (Hclr (p ++ c :: rest) c rest).
    + unfold completions. apply list_elem_of_filter. split; [|exact Hv].
      by apply prefix_app_r.
    + by rewrite drop_app_length.
Qed.

(** *** Typing a word *)

Lemma enter_cons k c s :
  Keyboard_.enter k (c :: s) =
    k' ← Keyboard_.rune k (Z.of_nat (nat_of_ascii c)); Keyboard_.enter k' s.
Proof.
  simpl. unfold Keyboard_.EventRune. simpl.
  unfold Rune. simpl. rewrite nat_N_Z. reflexivity.
Qed.

(** With every key masked, letters are refused. *)
Lemma rune_masked k c :
  mask k = allOnes -> lowerLetter c ->
  Keyboard_.rune k (Z.of_nat (nat_of_ascii (upper1 c))) = Ok k.
Proof.
  intros Hm Hc. unfold Keyboard_.rune, Keyboard_.Valid.
  rewrite (letter_not_backspace c Hc), (idxForRune_letter c Hc), Hm.
  destruct Hc as [Hlo Hhi].
  assert (Hbit : N.land allOnes (N.shiftl 1 (N.of_nat (nat_of_ascii c - 97))) <> 0%N)
    by (apply land_bit_nonzero, allOnes_bit; lia).
  apply N.eqb_neq in Hbit. rewrite Hbit. reflexivity.
Qed.

Lemma enter_masked k s :
  mask k = allOnes -> (forall c, c ∈ s -> lowerLetter c) ->
  Keyboard_.enter k (ToUpper_ascii s) = Ok k.
Proof.
  intros Hm. induction s as [|c s IH]; intros Hs; [reflexivity|].
  change (ToUpper_ascii (c :: s)) with (upper1 c :: ToUpper_ascii s).
  rewrite enter_cons, (rune_masked k c Hm) by (apply Hs; left).
  simpl. apply IH. intros c' Hc'. apply Hs. by right.
Qed.

(** A letter that continues the typed prefix towards a word is taken. *)
Lemma rune_accept k p c rest w :
  synced k p -> length (completions p) <> 1 ->
  w ∈ Wordlist -> w = p ++ c :: rest ->
  exists k',
    Keyboard_.rune k (Z.of_nat (nat_of_ascii (upper1 c))) = Ok k' /\
    synced k' (p ++ [c]).
Proof.
  intros (Hword & _ & _ & Hfree) Hne Hw Heq.
  assert (Hc : lowerLetter c).
  { apply (Wordlist_lower Hspec w c Hw). rewrite Heq.
    apply elem_of_app. right. left. }
  unfold Keyboard_.rune, Keyboard_.Valid.
  rewrite (letter_not_backspace c Hc), (idxForRune_letter c Hc).
  rewrite (land_bit_zero _ _ (Hfree Hne w c rest Hw Heq)). simpl.
  rewrite Nat2Z.id, ascii_nat_embedding, Hword.
  replace (ToUpper_ascii p ++ [upper1 c]) with (ToUpper_ascii (p ++ [c]))
    by (by rewrite ToUpper_app).
  apply (updateMask_synced _ w); [exact Hw|].
  rewrite Heq. exists rest. by rewrite <- app_assoc.
Qed.

Lemma singleton_unique {A} (l : list A) (a b : A) :
  length l = 1 -> a ∈ l -> b ∈ l -> a = b.
Proof.
  destruct l as [|x [|y l]]; try discriminate. intros _.
  by intros ->%list_elem_of_singleton ->%list_elem_of_singleton.
Qed.

Lemma Wordlist_index_inj i j w :
  Wordlist !! i = Some w -> Wordlist !! j = Some w -> i = j.
Proof.
  intros Hi Hj. destruct (Nat.lt_trichotomy i j) as [Hlt|[->|Hlt]]; [|reflexivity|].
  - exfalso. apply (lex_lt_irrefl w).
    by apply (sorted_lookup lex_lt Wordlist i j w w (Wordlist_sorted Hspec)).
  - exfalso. apply (lex_lt_irrefl w).
    by apply (sorted_lookup lex_lt Wordlist j i w w (Wordlist_sorted Hspec)).
Qed.

Lemma prefix_lower p w :
  w ∈ Wordlist -> p `prefix_of` w -> forall c, c ∈ p -> lowerLetter c.
Proof.
  intros Hw [q ->] c Hc. apply (Wordlist_lower Hspec _ c Hw).
  apply elem_of_app. by left.
Qed.

(** The only completion of what is typed is the completed word. *)
Lemma Complete_unique k p w i :
  synced k p -> length (completions p) = 1 ->
  Wordlist !! i = Some w -> p `prefix_of` w ->
  Keyboard_.Complete k = (Z.of_nat i, true).
Proof.
  intros (Hword & Hn & _) Hone Hi Hp.
  assert (Hw : w ∈ Wordlist) by (by eapply list_elem_of_lookup_2).
  unfold Keyboard_.Complete.
  rewrite Hword, (ToLower_ToUpper p (prefix_lower p w Hw Hp)).
  rewrite (ClosestWord_first Hspec).
  destruct (firstCompletion_elem_of p w Hw Hp) as [[i0 w0] Hfind].
  rewrite Hfind. simpl.
  apply firstCompletion_Some in Hfind as (Hi0 & Hp0 & _).
  assert (Heq : w0 = w).
  { apply (singleton_unique (completions p)); [exact Hone| |];
      apply list_elem_of_filter; (split; [assumption|]);
      [by eapply list_elem_of_lookup_2 | exact Hw]. }
  subst w0. rewrite (Wordlist_index_inj i0 i w Hi0 Hi).
  rewrite Hn, Hone. reflexivity.
Qed.

(** A word typed in full is the completed word. *)
Lemma Complete_full k w i :
  synced k w -> Wordlist !! i = Some w ->
  Keyboard_.Complete k = (Z.of_nat i, true).
Proof.
  intros (Hword & _) Hi.
  assert (Hw : w ∈ Wordlist) by (by eapply list_elem_of_lookup_2).
  unfold Keyboard_.Complete.
  rewrite Hword, (ToLower_ToUpper w (fun c => Wordlist_lower Hspec w c Hw)).
  rewrite (ClosestWord_first Hspec).
  destruct (firstCompletion_elem_of w w Hw (reflexivity w)) as [[i0 w0] Hfind].
  rewrite Hfind. simpl.
  apply firstCompletion_Some in Hfind as (Hi0 & Hp0 & Hfirst).
  assert (Hi0i : i0 = i).
  { destruct (Nat.lt_trichotomy i0 i) as [Hlt|[->|Hlt]]; [|reflexivity|].
    - exfalso. apply (lex_lt_prefix w w0 Hp0).
      by apply (sorted_lookup lex_lt Wordlist i0 i w0 w (Wordlist_sorted Hspec)).
    - exfalso. by apply (Hfirst i w Hi Hlt). }
  subst i0. rewrite (LabelFor_word Hspec i w Hi).
  rewrite bool_decide_eq_true_2 by reflexivity. by rewrite orb_true_r.
Qed.

Lemma enter_word w i :
  Wordlist !! i = Some w ->
  forall rest p k,
    w = p ++ rest -> synced k p ->
    exists k',
      Keyboard_.enter k (ToUpper_ascii rest) = Ok k' /\
      Keyboard_.Complete k' = (Z.of_nat i, true).
Proof.
  intros Hi.
  assert (Hw : w ∈ Wordlist) by (by eapply list_elem_of_lookup_2).
  induction rest as [|c rest IH]; intros p k Heq Hsync.
  - rewrite app_nil_r in Heq. subst p. exists k. split; [reflexivity|].
    by apply (Complete_full k w i).
  - destruct (decide (length (completions p) = 1)) as [Hone|Hne].
    + exists k. split.
      * apply enter_masked; [by apply Hsync|].
        intros c' Hc'. apply (Wordlist_lower Hspec w c' Hw).
        rewrite Heq. apply elem_of_app. by right.
      * apply (Complete_unique k p w i Hsync Hone Hi). by exists (c :: rest).
    + destruct (rune_accept k p c rest w Hsync Hne Hw Heq) as (k1 & Hrune & Hsync1).
      destruct (IH (p ++ [c]) k1) as (k' & Henter & Hcomplete);
        [by rewrite <- app_assoc | exact Hsync1|].
      exists k'. split; [|exact Hcomplete].
      change (ToUpper_ascii (c :: rest)) with (upper1 c :: ToUpper_ascii rest).
      rewrite enter_cons, Hrune. exact Henter.
Qed.

(** *** The keyboards that can be met *)

Lemma rune_counted k r :
  counted k -> exists k', Keyboard_.rune k r = Ok k' /\ counted k'.
Proof.
  intros Hk. unfold Keyboard_.rune.
  destruct (negb (Keyboard_.Valid k r)); [eauto|].
  destruct (r =? backspace)%Z;
    match goal with |- context [Keyboard_.updateMask ?k0] =>
      destruct (updateMask_counted k0) as (k' & -> & _ & Hc) end; eauto.
Qed.

Lemma reachable_counted k : kb_reachable k -> counted k.
Proof.
  induction 1 as [k Hnew | k k' _ IH Hclear | k r k' _ IH Hrune].
  - unfold Keyboard_.NewKeyboard, Keyboard_.Clear in Hnew.
    match type of Hnew with Keyboard_.updateMask ?k0 = _ =>
      destruct (updateMask_counted k0) as (k1 & Hk1 & _ & Hc) end.
    rewrite Hk1 in Hnew. by injection Hnew as <-.
  - unfold Keyboard_.Clear in Hclear.
    match type of Hclear with Keyboard_.updateMask ?k0 = _ =>
      destruct (updateMask_counted k0) as (k1 & Hk1 & _ & Hc) end.
    rewrite Hk1 in Hclear. by injection Hclear as <-.
  - destruct (rune_counted k r IH) as (k1 & Hk1 & Hc).
    rewrite Hk1 in Hrune. by injection Hrune as <-.
Qed.

End Words.

(** C10. Word completion of the seed keyboard, for any word list that is
    strictly sorted, lowercase, and looked up by first completion.
    (1) Typing the letters of any word of the list on a new keyboard is
    never refused with an error, and [Complete] then gives the index of
    that word and [true], also when the keyboard stopped taking letters on
    the way because only one completion was left.  (2) On any keyboard
    reached from a new one by runes and clears, [Complete] says [true]
    only if what is typed is a word of the list or has exactly one
    completion in it.  (3) When no word of the list starts with what is
    typed, [Complete] gives [-1] and [false]. *)
Theorem C10_keyboard_complete `{Bip39} :
  Bip39Spec ->
  (forall i w, Wordlist !! i = Some w ->
     exists k0 k,
       Keyboard_.NewKeyboard = Ok k0 /\
       Keyboard_.enter k0 (ToUpper_ascii w) = Ok k /\
       Keyboard_.Complete k = (Z.of_nat i, true)) /\
  (forall k x, kb_reachable k -> Keyboard_.Complete k = (x, true) ->
     ToLower_ascii (kb_Word k) ∈ Wordlist \/
     length (completions (ToLower_ascii (kb_Word k))) = 1) /\
  (forall k,
     Forall (fun w => ~ ToLower_ascii (kb_Word k) `prefix_of` w) Wordlist ->
     Keyboard_.Complete k = ((-1)%Z, false)).
Proof.
  intros Hspec. split; [|split].
  - intros i w Hi.
    assert (Hw : w ∈ Wordlist) by (by eapply list_elem_of_lookup_2).
    destruct (updateMask_synced Hspec [] w 0 0%N Hw (prefix_nil w))
      as (k0 & Hk0 & Hsync).
    destruct (enter_word Hspec w i Hi w [] k0 eq_refl Hsync)
      as (k & Henter & Hcomplete).
    exists k0, k. split; [exact Hk0|]. by split.
  - intros k x Hreach Hcomplete.
    pose proof (reachable_counted Hspec k Hreach) as Hcount.
    unfold Keyboard_.Complete in Hcomplete. unfold counted in Hcount.
    rewrite (ClosestWord_first Hspec) in Hcomplete, Hcount.
    destruct (firstCompletion (ToLower_ascii (kb_Word k))) as [[i w]|] eqn:Hfind;
      simpl in Hcomplete; [|discriminate Hcomplete].
    injection Hcomplete as _ Hor.
    apply (firstCompletion_Some) in Hfind as (Hi & _ & _).
    apply orb_true_iff in Hor as [Hone|Hlabel].
    + right. rewrite <- (Hcount i eq_refl). by apply Nat.eqb_eq.
    + left. apply bool_decide_eq_true_1 in Hlabel.
      rewrite Hlabel, (LabelFor_word Hspec i w Hi).
      by eapply list_elem_of_lookup_2.
  - intros k Hnone. apply firstCompletion_None in Hnone.
    unfold Keyboard_.Complete.
    by rewrite (ClosestWord_first Hspec), Hnone.
Qed.

Lemma lex_lt_nil y b : lex_lt [] (y :: b).
Proof. exact I. Qed.

Lemma lex_lt_cons_eq x a b : lex_lt a b -> lex_lt (x :: a) (x :: b).
Proof. intros Hab. right. by split. Qed.

Lemma lex_lt_cons_lt x y a b :
  (nat_of_ascii x <? nat_of_ascii y) = true -> lex_lt (x :: a) (y :: b).
Proof. intros Hxy%Nat.ltb_lt. by left. Qed.

Lemma lowerLetter_check c :
  (97 <=? nat_of_ascii c) && (nat_of_ascii c <=? 122) = true -> lowerLetter c.
Proof.
  intros [Hlo%Nat.leb_le Hhi%Nat.leb_le]%andb_true_iff. by split.
Qed.

(** The sample word list meets the contract of the word list. *)
Lemma sampleBip39_spec : @Bip39Spec sampleBip39.
Proof.
  split.
  - change (@Wordlist sampleBip39) with sampleWords. unfold sampleWords.
    cbn [map list_ascii_of_string].
    repeat match goal with
           | |- StronglySorted _ [] => apply SSorted_nil
           | |- StronglySorted _ (_ :: _) => apply SSorted_cons
           | |- Forall _ [] => apply Forall_nil_2
           | |- Forall _ (_ :: _) => apply Forall_cons_2
           | |- lex_lt [] (_ :: _) => apply lex_lt_nil
           | |- lex_lt (_ :: _) (_ :: _) =>
               first [apply lex_lt_cons_eq
                     | apply lex_lt_cons_lt; vm_compute; reflexivity]
           end.
  - assert (Hall : Forall (Forall lowerLetter) sampleWords).
    { unfold sampleWords. cbn [map list_ascii_of_string].
      repeat match goal with
             | |- Forall _ [] => apply Forall_nil_2
             | |- Forall _ (_ :: _) => apply Forall_cons_2
             | |- lowerLetter _ => apply lowerLetter_check; vm_compute; reflexivity
             end. }
    intros w c Hw Hc. rewrite Forall_forall in Hall.
    specialize (Hall w Hw). rewrite Forall_forall in Hall. by apply Hall.
  - intros p. reflexivity.
  - intros i w Hi. cbv [LabelFor Wordlist sampleBip39 gostring] in *. by rewrite Hi.
Qed.

Lemma C10_witness :
  @Bip39Spec sampleBip39 /\
  exists k0 k,
    Keyboard_.NewKeyboard = Ok k0 /\
    Keyboard_.enter k0 (ToUpper_ascii (list_ascii_of_string "action")) = Ok k /\
    Keyboard_.Complete k = (1%Z, true).
Proof.
  split; [exact sampleBip39_spec|].
  exact (proj1 (C10_keyboard_complete sampleBip39_spec) 1
           (list_ascii_of_string "action") eq_refl).
Defined.

(* ===================================================================== *)
(** * Part III: further properties of the package                         *)
(* ===================================================================== *)

(** ** The event queue *)

Section EventQueue.

Implicit Types (c : Context) (e : input.Event) (b : input.Button).

Lemma Events_queue c (evts : list input.Event) :
  exists l,
    events (Context_.Events c evts) = events c ++ l /\ map Event_ l = evts.
Proof.
  revert c. induction evts as [|e evts IH]; intros c.
  - exists []. by rewrite Events_nil, app_nil_r.
  - rewrite Events_cons.
    destruct (IH (Context_.Events1 c e)) as (l & Hev & Hmap).
    destruct (Events1_events c e) as (cl & Hev1 & _).
    exists (mkEvent e cl :: l). split.
    + by rewrite Hev, Hev1, <- app_assoc.
    + simpl. by rewrite Hmap.
Qed.

Lemma nextN_events c l q n :
  events c = l ++ q -> n = length l ->
  nextN n c = (set_events c q, l).
Proof.
  revert c n. induction l as [|x l IH]; intros c n Hev ->.
  - simpl in *. destruct c; simpl in *; by subst.
  - simpl. unfold Context_.Next. rewrite Hev. simpl.
    rewrite (IH (set_events c (l ++ q)) (length l) eq_refl eq_refl).
    reflexivity.
Qed.

Lemma Events_length_Buttons c evts :
  length (Buttons (Context_.Events c evts)) = length (Buttons c).
Proof.
  revert c. induction evts as [|e evts IH]; intros c; [reflexivity|].
  by rewrite Events_cons, IH, Events1_Buttons_length.
Qed.

Lemma down_nil c b : down c [] b = at_ false (Buttons c) b.
Proof. reflexivity. Qed.

Lemma down_cons c e pre b :
  b < length (Buttons c) ->
  down c (e :: pre) b = down (Context_.Events1 c e) pre b.
Proof.
  intros Hb. unfold down.
  destruct (decide (input.Button_ e = b)) as [Heq|Hne].
  - rewrite filter_cons_True by exact Heq.
    destruct (filter (fun e0 => input.Button_ e0 = b) pre) as [|x l] eqn:Hf.
    + simpl. unfold at_. rewrite Events1_Buttons, Heq.
      destruct (Nat.ltb_spec b (length (Buttons c))) as [_|]; [|lia].
      by rewrite list_lookup_insert_eq by lia.
    + rewrite last_cons_cons. destruct (last (x :: l)) eqn:Hl; [reflexivity|].
      by apply last_None in Hl.
  - rewrite filter_cons_False by exact Hne.
    destruct (last _); [reflexivity|].
    unfold at_. by rewrite Events1_Buttons_other.
Qed.

Lemma Buttons_down c pre b :
  b < length (Buttons c) ->
  at_ false (Buttons (Context_.Events c pre)) b = down c pre b.
Proof.
  revert c. induction pre as [|e pre IH]; intros c Hb; [reflexivity|].
  rewrite Events_cons, down_cons by exact Hb.
  apply IH. by rewrite Events1_Buttons_length.
Qed.

End EventQueue.

(** X1.  The queue is first in, first out: after [Events] has been given
    the input events [evts], as many calls of [Next] as there are queued
    events hand out what was queued before, then one entry for each
    event of [evts], in the order submitted and none dropped; the queue
    is then empty and a further call of [Next] reports so, leaving the
    context as it is. *)
Theorem Events_Next_fifo (c : Context) (evts : list input.Event) :
  exists c' l,
    nextN (length (events c) + length evts) (Context_.Events c evts)
      = (c', events c ++ l) /\
    map Event_ l = evts /\
    events c' = [] /\
    Buttons c' = Buttons (Context_.Events c evts) /\
    Context_.Next c' = (c', None).
Proof.
  destruct (Events_queue c evts) as (l & Hev & Hmap).
  exists (set_events (Context_.Events c evts) []), l.
  split; [|split; [exact Hmap|split; [reflexivity|split; reflexivity]]].
  apply nextN_events.
  - by rewrite app_nil_r.
  - rewrite length_app. f_equal. by rewrite <- Hmap, length_map.
Qed.

(** X2.  The click flag and the button-state array follow the last event
    of each button.  Of the events given to [Events], the one that comes
    after the events [pre] is queued as a click exactly when it is a
    release of a button that has a slot in the button-state array and is
    down at that point, that is, whose last event among [pre] is a press
    (or, with no event of it among [pre], that was down before).  After
    all events the slot of each button tells whether its last event was
    a press.  Events of buttons without a slot, such as runes, are never
    clicks. *)
Theorem Events_click_iff (c : Context) (pre post : list input.Event) (e : input.Event) :
  let b := input.Button_ e in
  events (Context_.Events c (pre ++ e :: post)) !! (length (events c) + length pre)
    = Some (mkEvent e
              (negb (input.Pressed e) && (b <? length (Buttons c)) && down c pre b)) /\
  (forall b', b' < length (Buttons c) ->
     Buttons (Context_.Events c (pre ++ e :: post)) !! b'
       = Some (down c (pre ++ e :: post) b')) /\
  (length (Buttons c) <= b ->
     Buttons (Context_.Events c (pre ++ [e])) = Buttons (Context_.Events c pre)).
Proof.
  intros b. split; [|split].
  - rewrite Events_app, Events_cons.
    destruct (Events_queue c pre) as (l1 & Hev1 & Hmap1).
    destruct (Events_queue (Context_.Events1 (Context_.Events c pre) e) post)
      as (l2 & Hev2 & _).
    destruct (Events1_events (Context_.Events c pre) e) as (cl & Hev & Hin & Hout).
    rewrite Hev2, Hev, Hev1.
    assert (Hlen : length l1 = length pre) by (by rewrite <- Hmap1, length_map).
    rewrite <- !app_assoc, lookup_app_r by lia.
    rewrite Nat.add_comm, Nat.add_sub, lookup_app_r by lia.
    rewrite Hlen, Nat.sub_diag. simpl. f_equal. f_equal.
    rewrite Events_length_Buttons in Hin, Hout. fold b in Hin, Hout.
    destruct (Nat.ltb_spec b (length (Buttons c))) as [Hlt|Hge].
    + rewrite (Hin Hlt), Buttons_down by exact Hlt.
      by rewrite andb_true_r.
    + rewrite (Hout Hge). by rewrite andb_false_r.
  - intros b' Hb'.
    pose proof (Buttons_down c (pre ++ e :: post) b' Hb') as Hh.
    unfold at_ in Hh.
    destruct (Buttons (Context_.Events c (pre ++ e :: post)) !! b') as [x|] eqn:Hx.
    + simpl in Hh. by rewrite Hh.
    + apply lookup_ge_None in Hx. rewrite Events_length_Buttons in Hx. lia.
  - intros Hge. rewrite Events_app. simpl. rewrite Events1_Buttons.
    rewrite Events_length_Buttons. fold b.
    destruct (Nat.ltb_spec b (length (Buttons c))); [lia | reflexivity].
Qed.

(** ** Auto-repeat *)

Section AutoRepeat.

Implicit Types (c : Context) (b : input.Button).

(** [due], on a pair of the [range] loop of [Repeat]. *)
Let duep (c : Context) (bp : nat * bool) : bool :=
  bp.2 && isRepeatButton bp.1 &&
  negb (Before (Now (platform c)) (at_ 0%Z (Repeats c) bp.1)).

Lemma filter_ext_in {A} (P Q : A -> Prop)
    `{!forall x, Decision (P x)} `{!forall x, Decision (Q x)} (l : list A) :
  (forall x, x ∈ l -> P x <-> Q x) -> filter P l = filter Q l.
Proof.
  induction l as [|x l IH]; intros Hl; [reflexivity|].
  assert (Hx : P x <-> Q x) by (apply Hl; left).
  assert (Ht : filter P l = filter Q l).
  { apply IH. intros y Hy. apply Hl. by right. }
  destruct (decide (P x)) as [Hp|Hp].
  - rewrite !filter_cons_True by tauto. by rewrite Ht.
  - rewrite !filter_cons_False by tauto. exact Ht.
Qed.

Lemma Repeat1_spec now c bp :
  now = Now (platform c) ->
  Context_.Repeat1 now c bp =
    if duep c bp then
      Context_.WakeupAfter
        (set_Repeats
           (set_events c (events c ++ [repeatEvent bp.1]))
           (<[bp.1 := Add (Now (platform c)) repeatDelay]> (Repeats c)))
        repeatDelay
    else c.
Proof.
  intros ->. destruct bp as [btn pressed]. unfold Context_.Repeat1, duep. simpl.
  destruct pressed; simpl; [|reflexivity].
  destruct (isRepeatButton btn); simpl; [|reflexivity].
  destruct (Before _ _); reflexivity.
Qed.

Lemma Repeat_fold c (l : list (nat * bool)) :
  NoDup l.*1 ->
  let r := fold_left (Context_.Repeat1 (Now (platform c))) l c in
  events r = events c ++ (repeatEvent <$> (filter (fun bp => duep c bp) l).*1) /\
  spawned r = spawned c ++
    ((fun _ => GoWakeupAfter repeatDelay) <$> filter (fun bp => duep c bp) l) /\
  Buttons r = Buttons c /\
  platform r = platform c /\
  length (Repeats r) = length (Repeats c) /\
  forall b,
    Repeats r !! b =
      if bool_decide (b ∈ (filter (fun bp => duep c bp) l).*1)
      then (fun _ => Add (Now (platform c)) repeatDelay) <$> Repeats c !! b
      else Repeats c !! b.
Proof.
  revert c. induction l as [|bp l IH]; intros c Hnd.
  - simpl. rewrite !app_nil_r. by repeat split.
  - apply NoDup_cons in Hnd as [Hbp Hnd]. cbn [fold_left].
    rewrite Repeat1_spec by reflexivity.
    destruct (duep c bp) eqn:Hdue.
    + set (c1 := Context_.WakeupAfter _ _).
      assert (Hsame : forall bp', bp' ∈ l -> duep c1 bp' = duep c bp').
      { intros bp' Hin. unfold duep, at_. subst c1. simpl.
        rewrite list_lookup_insert_ne; [reflexivity|].
        intros Heq. apply Hbp. rewrite Heq. by apply list_elem_of_fmap_2. }
      assert (Hf : filter (fun bp => duep c1 bp) l = filter (fun bp => duep c bp) l).
      { apply filter_ext_in. intros x Hx. by rewrite (Hsame x Hx). }
      destruct (IH c1 Hnd) as (Hev & Hsp & Hb & Hp & Hlen & Hrep).
      change (Now (platform c1)) with (Now (platform c)) in Hev, Hsp, Hb, Hp, Hlen, Hrep.
      rewrite filter_cons_True by (by rewrite Hdue).
      rewrite Hf in *. cbn [fmap list_fmap] in *.
      split; [rewrite Hev; subst c1; simpl; by rewrite <- app_assoc|].
      split; [rewrite Hsp; subst c1; simpl; by rewrite <- app_assoc|].
      split; [rewrite Hb; reflexivity|].
      split; [rewrite Hp; reflexivity|].
      split; [rewrite Hlen; subst c1; simpl; apply length_insert|].
      intros b. rewrite Hrep. subst c1. simpl.
      destruct (decide (b = bp.1)) as [->|Hne].
      * rewrite (bool_decide_eq_true_2 (bp.1 ∈ bp.1 :: _)) by (by left).
        case_bool_decide as Hin.
        -- exfalso. apply Hbp.
           apply list_elem_of_fmap in Hin as (x & -> & Hx).
           apply list_elem_of_filter in Hx as [_ Hx].
           by apply list_elem_of_fmap_2.
        -- destruct (decide (bp.1 < length (Repeats c))) as [Hlt|Hge].
           ++ rewrite list_lookup_insert_eq by exact Hlt.
              apply lookup_lt_is_Some in Hlt as [x ->]. reflexivity.
           ++ rewrite list_insert_ge by lia.
              by rewrite (proj2 (lookup_ge_None _ _)) by lia.
      * rewrite list_lookup_insert_ne by congruence.
        rewrite (bool_decide_ext (b ∈ bp.1 :: (filter (fun bp0 => duep c bp0) l).*1)
                   (b ∈ (filter (fun bp0 => duep c bp0) l).*1))
          by (rewrite elem_of_cons; tauto).
        reflexivity.
    + rewrite filter_cons_False by (rewrite Hdue; exact id).
      apply IH. exact Hnd.
Qed.

Lemma imap_pair_fst {A} (l : list A) k :
  (imap (fun i x => (k + i, x)) l).*1 = seq k (length l).
Proof.
  revert k. induction l as [|x l IH]; intros k; [reflexivity|].
  simpl. rewrite Nat.add_0_r. f_equal.
  rewrite <- (IH (S k)). f_equal. apply imap_ext. intros i y _. simpl. f_equal. lia.
Qed.

Lemma imap_pair_lookup {A} (l : list A) i x :
  (i, x) ∈ imap (fun i x => (i, x)) l <-> l !! i = Some x.
Proof.
  rewrite list_elem_of_lookup. split.
  - intros [j Hj]. rewrite list_lookup_imap in Hj.
    destruct (l !! j) as [y|] eqn:Hy; [|discriminate].
    simpl in Hj. injection Hj as <- <-. exact Hy.
  - intros Hi. exists i. by rewrite list_lookup_imap, Hi.
Qed.

(** The buttons the loop of [Repeat] fires for are the due ones. *)
Lemma due_filter c :
  (filter (fun bp => duep c bp) (imap (fun i x => (i, x)) (Buttons c))).*1 =
  filter (fun b => due c b) (seq 0 (length (Buttons c))).
Proof.
  unfold due, duep, at_.
  generalize (Repeats c) (Now (platform c)). intros R now.
  assert (Hgen : forall k l,
    (forall i x, l !! i = Some x -> Buttons c !! (k + i) = Some x) ->
    (filter (fun bp : nat * bool =>
       bp.2 && isRepeatButton bp.1 && negb (Before now (default 0%Z (R !! bp.1))))
       (imap (fun i x => (k + i, x)) l)).*1 =
    filter (fun b =>
       default false (Buttons c !! b) && isRepeatButton b &&
       negb (Before now (default 0%Z (R !! b)))) (seq k (length l))).
  { intros k l. revert k. induction l as [|x l IH]; intros k Hl; [reflexivity|].
    cbn [imap length seq]. rewrite Nat.add_0_r.
    pose proof (Hl 0 x eq_refl) as Hx. rewrite Nat.add_0_r in Hx.
    assert (Htail :
      (filter (fun bp : nat * bool =>
         bp.2 && isRepeatButton bp.1 && negb (Before now (default 0%Z (R !! bp.1))))
         (imap ((fun i x => (k + i, x)) ∘ S) l)).*1 =
      filter (fun b =>
         default false (Buttons c !! b) && isRepeatButton b &&
         negb (Before now (default 0%Z (R !! b)))) (seq (S k) (length l))).
    { rewrite <- (IH (S k)).
      - f_equal. f_equal. apply imap_ext. intros i y _. simpl. f_equal. lia.
      - intros i y Hy. specialize (Hl (S i) y Hy).
        by replace (S k + i) with (k + S i) by lia. }
    destruct (x && isRepeatButton k && negb (Before now (default 0%Z (R !! k)))) eqn:Hd.
    - rewrite filter_cons_True by (simpl; by rewrite Hd).
      rewrite filter_cons_True by (rewrite Hx; simpl; by rewrite Hd).
      cbn [fmap list_fmap]. simpl. f_equal. exact Htail.
    - rewrite filter_cons_False by (simpl; rewrite Hd; exact id).
      rewrite filter_cons_False by (rewrite Hx; simpl; rewrite Hd; exact id).
      exact Htail. }
  apply (Hgen 0 (Buttons c)). intros i x Hi. exact Hi.
Qed.

Lemma Repeat_spec c :
  let fired := filter (fun b => due c b) (seq 0 (length (Buttons c))) in
  events (Context_.Repeat c) = events c ++ (repeatEvent <$> fired) /\
  length (spawned (Context_.Repeat c)) = length (spawned c) + length fired /\
  Buttons (Context_.Repeat c) = Buttons c /\
  platform (Context_.Repeat c) = platform c /\
  length (Repeats (Context_.Repeat c)) = length (Repeats c) /\
  forall b,
    Repeats (Context_.Repeat c) !! b =
      if bool_decide (b ∈ fired)
      then (fun _ => Add (Now (platform c)) repeatDelay) <$> Repeats c !! b
      else Repeats c !! b.
Proof.
  intros fired. unfold Context_.Repeat.
  assert (Hnd : NoDup (imap (fun i x => (i, x)) (Buttons c)).*1).
  { change (imap (fun i x => (i, x)) (Buttons c))
      with (imap (fun i x => (0 + i, x)) (Buttons c)).
    rewrite (imap_pair_fst (Buttons c) 0). apply NoDup_seq. }
  destruct (Repeat_fold c _ Hnd) as (Hev & Hsp & Hb & Hp & Hlen & Hrep).
  rewrite due_filter in Hev, Hrep. fold fired in Hev, Hrep.
  split; [exact Hev|]. split.
  - rewrite Hsp, length_app, length_fmap. f_equal.
    unfold fired. by rewrite <- due_filter, length_fmap.
  - split; [exact Hb|]. split; [exact Hp|]. split; [exact Hlen|]. exact Hrep.
Qed.

Lemma repeatDelay_pos : (0 < repeatDelay)%Z.
Proof. reflexivity. Qed.

Lemma due_after_Repeat c b :
  length (Repeats c) = length (Buttons c) ->
  due (Context_.Repeat c) b = false.
Proof.
  intros Hlen.
  destruct (Repeat_spec c) as (_ & _ & Hb & Hp & _ & Hrep).
  unfold due, at_. rewrite Hb, Hp, Hrep.
  destruct (Buttons c !! b) as [x|] eqn:Hx; [|reflexivity].
  simpl. case_bool_decide as Hin.
  - assert (Hlt : b < length (Repeats c)).
    { rewrite Hlen. by apply lookup_lt_is_Some. }
    apply lookup_lt_is_Some in Hlt as [t ->]. simpl.
    unfold Before, Add. pose proof repeatDelay_pos.
    replace (Now (platform c) <? Now (platform c) + repeatDelay)%Z with true
      by (symmetry; apply Z.ltb_lt; lia).
    by rewrite andb_false_r.
  - destruct (x && isRepeatButton b &&
              negb (Before (Now (platform c)) (default 0%Z (Repeats c !! b)))) eqn:Hd;
      [|first [reflexivity | exact Hd]].
    exfalso. apply Hin. apply list_elem_of_filter. split.
    + apply Is_true_true. unfold due, at_. rewrite Hx. exact Hd.
    + apply elem_of_seq. apply lookup_lt_Some in Hx. lia.
Qed.

End AutoRepeat.

(** X3.  [Repeat] queues one press, not a click, for each button that is
    due: a repeat button (up, down, left, right) that is down and whose
    deadline is not ahead of the clock; they are queued in button order,
    behind what was queued already, and nothing is queued for any other
    button.  The deadline of each button that fired moves to 100 ms
    after the clock, the other deadlines and the button states stay, and
    one wake-up is started per button that fired.  With a deadline slot
    for every button, as in the arrays of the context, no button is due
    any more afterwards, so that a second [Repeat] at the same instant
    queues nothing. *)
Theorem Repeat_fires_due (c : Context) :
  let fired := filter (fun b => due c b) (seq 0 (length (Buttons c))) in
  events (Context_.Repeat c) = events c ++ (repeatEvent <$> fired) /\
  Buttons (Context_.Repeat c) = Buttons c /\
  length (spawned (Context_.Repeat c)) = length (spawned c) + length fired /\
  (forall b,
     Repeats (Context_.Repeat c) !! b =
       if bool_decide (b ∈ fired)
       then (fun _ => (Now (platform c) + repeatDelay)%Z) <$> Repeats c !! b
       else Repeats c !! b) /\
  (length (Repeats c) = length (Buttons c) ->
     events (Context_.Repeat (Context_.Repeat c)) = events (Context_.Repeat c)).
Proof.
  intros fired.
  destruct (Repeat_spec c) as (Hev & Hsp & Hb & Hp & Hlen & Hrep).
  split; [exact Hev|]. split; [exact Hb|]. split; [exact Hsp|].
  split; [exact Hrep|].
  intros Heq.
  destruct (Repeat_spec (Context_.Repeat c)) as (Hev2 & _).
  rewrite Hev2.
  rewrite (filter_none (fun b => due (Context_.Repeat c) b)).
  - by rewrite app_nil_r.
  - apply Forall_forall. intros b _.
    rewrite (due_after_Repeat c b Heq). simpl. tauto.
Qed.

Section RepeatTiming.

Lemma Events1_press_repeat (c : Context) (b : input.Button) (r : N) :
  b < length (Buttons c) -> length (Repeats c) = length (Buttons c) ->
  isRepeatButton b = true ->
  let c1 := Context_.Events c [input.mkEvent b true r] in
  Buttons c1 !! b = Some true /\
  Repeats c1 !! b = Some (Now (platform c) + repeatStartDelay)%Z /\
  platform c1 = platform c /\
  length (Repeats c1) = length (Buttons c1).
Proof.
  intros Hb Hlen Hrep. simpl. unfold Context_.Events1. simpl.
  destruct (Nat.ltb_spec b (length (Buttons c))) as [_|]; [|lia].
  rewrite Hrep. simpl.
  rewrite !length_insert.
  split; [by apply list_lookup_insert_eq|].
  split; [apply list_lookup_insert_eq; change (b < length (Repeats c)); by rewrite Hlen|].
  by split.
Qed.

Lemma due_at_time (c : Context) (b : input.Button) (t d : Time) :
  Buttons c !! b = Some true -> Repeats c !! b = Some d ->
  isRepeatButton b = true ->
  due (at_time c t) b = true <-> (d <= t)%Z.
Proof.
  intros Hb Hr Hrep. unfold due, at_time, at_, Before. simpl.
  unfold Time in *. rewrite Hb, Hr, Hrep. simpl.
  rewrite negb_true_iff, Z.ltb_ge. reflexivity.
Qed.

End RepeatTiming.

(** X4.  The timing of auto-repeat.  After the press of a repeat button
    (up, down, left or right) the button is due for its first repeat
    exactly from 400 ms after the press on; and once [Repeat] has fired
    for it, at the instant [t], it is due again exactly from 100 ms
    after [t] on, for as long as it stays down. *)
Theorem Repeat_timing (c : Context) (b : input.Button) (r : N) (t : Time) :
  b < length (Buttons c) -> length (Repeats c) = length (Buttons c) ->
  isRepeatButton b = true ->
  let c1 := Context_.Events c [input.mkEvent b true r] in
  (due (at_time c1 t) b = true <-> (Now (platform c) + 400 * Millisecond <= t)%Z) /\
  (due (at_time c1 t) b = true ->
   repeatEvent b ∈ events (Context_.Repeat (at_time c1 t)) /\
   forall t',
     due (at_time (Context_.Repeat (at_time c1 t)) t') b = true <->
     (t + 100 * Millisecond <= t')%Z).
Proof.
  intros Hb Hlen Hrep c1.
  destruct (Events1_press_repeat c b r Hb Hlen Hrep) as (Hb1 & Hr1 & Hp1 & Hlen1).
  fold c1 in Hb1, Hr1, Hp1, Hlen1.
  split; [exact (due_at_time c1 b t _ Hb1 Hr1 Hrep)|].
  intros Hdue.
  set (c2 := at_time c1 t) in *.
  destruct (Repeat_spec c2) as (Hev & _ & Hb2 & _ & _ & Hr2).
  assert (Hfired : b ∈ filter (fun b0 => due c2 b0) (seq 0 (length (Buttons c2)))).
  { apply list_elem_of_filter. split; [by rewrite Hdue|].
    apply elem_of_seq. apply lookup_lt_Some in Hb1. subst c2. simpl. lia. }
  split.
  - rewrite Hev. apply elem_of_app. right. by apply list_elem_of_fmap_2.
  - intros t'. apply due_at_time; [by rewrite Hb2 | | exact Hrep].
    rewrite Hr2, bool_decide_eq_true_2 by exact Hfired.
    subst c2. simpl. unfold Time in *. rewrite Hr1. reflexivity.
Qed.

Lemma Repeat_timing_witness :
  let c := Context_.NewContext (mkPlatform 0%Z (inl 7)) in
  input.Up < length (Buttons c) /\
  (due (at_time (Context_.Events c [input.mkEvent input.Up true 0%N]) 400000000%Z)
       input.Up = true <-> (0 + 400 * Millisecond <= 400000000)%Z).
Proof.
  split; [vm_compute; lia|].
  exact (proj1 (Repeat_timing (Context_.NewContext (mkPlatform 0%Z (inl 7)))
                  input.Up 0%N 400000000%Z
                  ltac:(vm_compute; lia) eq_refl eq_refl)).
Defined.

(** ** The dialogs *)

Section Dialogs.

Lemma set_events_same (ctx : Context) : set_events ctx (events ctx) = ctx.
Proof. by destruct ctx. Qed.

Lemma ErrorLayout_loop_dismissed pre e post ctx :
  Forall (fun x => isClick input.Button3 x = false) pre ->
  isClick input.Button3 e = true ->
  ErrorScreen_.Layout_loop (pre ++ e :: post) ctx = (set_events ctx post, true).
Proof.
  intros Hpre He. revert ctx.
  induction Hpre as [|x pre Hx _ IH]; intros ctx; simpl.
  - unfold isClick in He. by rewrite He.
  - unfold isClick in Hx. rewrite Hx. by rewrite IH.
Qed.

Lemma ErrorLayout_loop_kept evs ctx :
  events ctx = evs ->
  Forall (fun x => isClick input.Button3 x = false) evs ->
  ErrorScreen_.Layout_loop evs ctx = (set_events ctx [], false).
Proof.
  intros Hev Hall. revert ctx Hev.
  induction Hall as [|x evs Hx _ IH]; intros ctx Hev; simpl.
  - by rewrite <- Hev, set_events_same.
  - unfold isClick in Hx. rewrite Hx. by rewrite IH.
Qed.

Lemma cw_expired_Progress dlg ctx :
  Qeq_bool (snd (ConfirmDelay_.Progress (cw_confirm dlg) ctx)) 1 = cw_expired dlg ctx.
Proof.
  unfold cw_expired. apply eq_true_iff_eq. rewrite Progress_eq_1_iff.
  rewrite andb_true_iff, Z.leb_le. reflexivity.
Qed.

Lemma cw_expired_ext dlg ctx ctx' :
  platform ctx' = platform ctx -> cw_expired dlg ctx' = cw_expired dlg ctx.
Proof. unfold cw_expired. by intros ->. Qed.

(** The event switch of the dialog never leaves a timer that has run
    out behind. *)
Lemma ConfirmHandle_not_expired e ctx dlg ctx' dlg' r :
  cw_expired dlg ctx = false ->
  ConfirmWarningScreen_.handle e ctx dlg = (ctx', dlg', r) ->
  platform ctx' = platform ctx /\ events ctx' = events ctx /\
  cw_expired dlg' ctx' = false /\
  (r = None \/ r = Some ConfirmNo /\ isClick input.Button1 e = true).
Proof.
  intros Hne. unfold ConfirmWarningScreen_.handle, isClick.
  destruct (Button e =? input.Button1).
  - destruct (Click e); intros [= <- <- <-]; auto 10.
  - destruct (Button e =? input.Button3); [|intros [= <- <- <-]; auto].
    destruct (Pressed e); intros [= <- <- <-].
    + repeat split; auto.
      unfold cw_expired. simpl.
      exact (Start_not_expired (cw_confirm dlg) _ _ eq_refl).
    + repeat split; auto.
Qed.

Lemma ConfirmLayout_loop_frame evs ctx dlg ctx' dlg' r :
  events ctx = evs ->
  cw_expired dlg ctx = false ->
  ConfirmWarningScreen_.Layout_loop evs ctx dlg = (ctx', dlg', r) ->
  r <> ConfirmYes /\
  platform ctx' = platform ctx /\
  cw_expired dlg' ctx' = false /\
  (r = ConfirmNo -> Exists (fun e => isClick input.Button1 e = true) evs) /\
  (r = ConfirmNone -> events ctx' = []).
Proof.
  revert ctx dlg. induction evs as [|e rest IH]; intros ctx dlg Hev Hne; simpl.
  - pose proof (cw_expired_Progress dlg ctx) as Hq.
    destruct (Progress_within (cw_confirm dlg) ctx) as [[Hp _] Hev1].
    destruct (ConfirmDelay_.Progress (cw_confirm dlg) ctx) as [ctx1 p].
    simpl in *. rewrite Hq, Hne. intros [= <- <- <-].
    repeat split; try discriminate.
    + exact Hp.
    + by rewrite (cw_expired_ext dlg ctx ctx1 Hp).
    + intros _. by rewrite Hev1.
  - pose proof (cw_expired_Progress dlg ctx) as Hq.
    destruct (Progress_within (cw_confirm dlg) ctx) as [[Hp _] Hev1].
    destruct (ConfirmDelay_.Progress (cw_confirm dlg) ctx) as [ctx1 p].
    simpl in *. rewrite Hq, Hne.
    destruct (ConfirmWarningScreen_.handle e (set_events ctx1 rest) dlg)
      as [[ctx2 dlg2] ro] eqn:Hh.
    apply ConfirmHandle_not_expired in Hh as (Hp2 & Hev2 & Hne2 & Hr);
      [|by rewrite (cw_expired_ext dlg ctx (set_events ctx1 rest) Hp)].
    simpl in Hp2, Hev2.
    destruct Hr as [->|[-> Hclick]].
    + intros Hloop.
      destruct (IH ctx2 dlg2 Hev2 Hne2 Hloop) as (Hy & Hp3 & Hne3 & Hno & Hnone).
      split; [exact Hy|]. split; [congruence|]. split; [exact Hne3|].
      split; [|exact Hnone]. intros Hr. right. by apply Hno.
    + intros [= <- <- <-].
      split; [discriminate|]. split; [congruence|]. split; [exact Hne2|].
      split; [|discriminate]. intros _. by left.
Qed.

End Dialogs.

(** X5.  The error dialog is dismissed by the first click of button 3
    and by nothing else.  When the queue holds such a click, [Layout]
    reports the dismissal and leaves in the queue exactly the events
    behind that click; the events in front of it are used up.  When it
    holds none, [Layout] uses up the whole queue and reports that the
    dialog stays. *)
Theorem ErrorScreen_Layout_dismiss (s : ErrorScreen) (ctx : Context) :
  (forall pre e post,
     events ctx = pre ++ e :: post ->
     Forall (fun x => isClick input.Button3 x = false) pre ->
     isClick input.Button3 e = true ->
     ErrorScreen_.Layout s ctx = (set_events ctx post, true)) /\
  (Forall (fun x => isClick input.Button3 x = false) (events ctx) ->
   ErrorScreen_.Layout s ctx = (set_events ctx [], false)).
Proof.
  unfold ErrorScreen_.Layout. split.
  - intros pre e post -> Hpre He. by apply ErrorLayout_loop_dismissed.
  - intros Hall. by apply ErrorLayout_loop_kept.
Qed.



(** ** Making an engrave screen *)

Section NewScreen.

Context `{Packages}.

Lemma descriptorKeyIdx_Some desc m pass i :
  EngraveScreen_.descriptorKeyIdx desc m pass = Some i <->
  exists mk k,
    NewMaster m pass = Some mk /\
    Keys desc !! i = Some k /\
    Derive mk (DerivationPath k) = Some (KeyDescriptor_String k) /\
    forall j k', Keys desc !! j = Some k' -> j < i ->
      Derive mk (DerivationPath k') <> Some (KeyDescriptor_String k').
Proof.
  unfold EngraveScreen_.descriptorKeyIdx.
  destruct (NewMaster m pass) as [mk|]; [|split; [discriminate | by intros (? & ? & ? & _)]].
  split.
  - destruct (list_find _ (Keys desc)) as [[i' k]|] eqn:Hf; [|discriminate].
    intros [= <-]. apply list_find_Some in Hf as (Hk & Hd & Hfirst).
    exists mk, k. split; [reflexivity|]. split; [exact Hk|].
    split; [by apply bool_decide_unpack in Hd|].
    intros j k' Hj Hlt Heq. apply (Hfirst j k' Hj Hlt).
    by apply bool_decide_pack.
  - intros (mk' & k & [= <-] & Hk & Hd & Hfirst).
    assert (Hf : list_find
      (fun k => bool_decide (Derive mk (DerivationPath k) = Some (KeyDescriptor_String k)))
      (Keys desc) = Some (i, k)).
    { apply list_find_Some. split; [exact Hk|].
      split; [by apply bool_decide_pack|].
      intros j k' Hj Hlt Hb. apply (Hfirst j k' Hj Hlt).
      by apply bool_decide_unpack in Hb. }
    by rewrite Hf.
Qed.

Lemma table_sides (calibrated : bool) (n : nat) :
  let ins :=
    (if 1 <? n
     then (if negb calibrated then EngraveFirstSideA else EngraveSideA) ++ EngraveSideB
     else (if negb calibrated then EngraveFirstSideA else EngraveSideA))
    ++ EngraveSuccess in
  0 < n ->
  Forall (fun i => ins_Type i = EngraveInstruction -> ins_Side i < n) ins.
Proof.
  intros ins Hn. subst ins.
  destruct (Nat.ltb_spec 1 n), calibrated; simpl;
    repeat (apply Forall_cons_2; [simpl; intros; first [discriminate | lia]|]);
    apply Forall_nil_2.
Qed.

End NewScreen.

(** X7.  [NewEngraveScreen] never indexes out of range, and it fails in
    two ways only: with "share not part of descriptor" when the seed
    gives no master key or derives none of the keys of the descriptor,
    in which case no plate is laid out at all; and with the error of the
    plate layout otherwise.  When it succeeds, the share of the screen
    is the first key of the descriptor that the seed derives, the plate
    is the one laid out for the index of that key, the screen starts at
    the first instruction with no dialog, no timer and no engraver
    session, the instructions are the list for the first side (the long
    one if the device is not calibrated), then the list for the second
    side if the plate has more than one side, then the closing
    instruction; and every Engrave instruction names a side that the
    plate has, as soon as the plate has a side at all. *)
Theorem NewEngraveScreen_spec `{Packages} (ctx : Context) (desc : OutputDescriptor)
    (m : Mnemonic) (pass : string) :
  exists r,
    EngraveScreen_.NewEngraveScreen ctx desc m pass = Ok r /\
    match r with
    | inr err =>
        (EngraveScreen_.descriptorKeyIdx desc m pass = None /\
         err = errKeyNotInDescriptor) \/
        (exists i, EngraveScreen_.descriptorKeyIdx desc m pass = Some i /\
                   EngraveScreen_.engravePlate desc i m = inr err)
    | inl s =>
        (exists i mk,
           NewMaster m pass = Some mk /\
           Keys desc !! i = Some (Key s) /\
           Derive mk (DerivationPath (Key s)) = Some (KeyDescriptor_String (Key s)) /\
           (forall j k', Keys desc !! j = Some k' -> j < i ->
              Derive mk (DerivationPath k') <> Some (KeyDescriptor_String k')) /\
           EngraveScreen_.engravePlate desc i m = inl (plate s)) /\
        step s = 0 /\ cancel s = None /\ engrave s = engraveState_zero /\
        confirm s = ConfirmDelay_zero /\ dryRun s = mkDryRun 0%Z false /\
        instructions s =
          (if Calibrated ctx then EngraveSideA else EngraveFirstSideA) ++
          (if 1 <? Sides (plate s) then EngraveSideB else []) ++ EngraveSuccess /\
        (0 < Sides (plate s) ->
         Forall (fun i => ins_Type i = EngraveInstruction -> ins_Side i < Sides (plate s))
           (instructions s))
    end.
Proof.
  unfold EngraveScreen_.NewEngraveScreen.
  destruct (EngraveScreen_.descriptorKeyIdx desc m pass) as [i|] eqn:Hidx.
  - destruct (EngraveScreen_.engravePlate desc i m) as [pl|err] eqn:Hpl.
    + apply descriptorKeyIdx_Some in Hidx as (mk & k & Hmk & Hk & Hd & Hfirst).
      unfold index. rewrite Hk. cbn [mbind res_bind].
      eexists. split; [reflexivity|]. cbn -[Nat.ltb].
      split; [exists i, mk; auto|].
      do 5 (split; [reflexivity|]).
      split.
      * destruct (Calibrated ctx), (1 <? Sides pl); reflexivity.
      * intros Hn. pose proof (table_sides (Calibrated ctx) (Sides pl) Hn) as Ht.
        destruct (1 <? Sides pl); exact Ht.
    + eexists. split; [reflexivity|]. right. by exists i.
  - eexists. split; [reflexivity|]. by left.
Qed.

(** ** The frames of the engrave screen, pass by pass *)

Section Passes.

Lemma passes_snoc cs1 cs2 cs3 : passes cs1 cs2 -> pass cs2 cs3 -> passes cs1 cs3.
Proof.
  induction 1 as [cs|cs1 cs2 cs4 Hp _ IH]; intros Hlast.
  - eapply passes_step; [exact Hlast | apply passes_refl].
  - eapply passes_step; [exact Hp | by apply IH].
Qed.

(** The event pop of a pass, read as a pass. *)
Lemma nextEvent_passes loop ins canPrev ctx s ctx2 s2 ctx3 s3 r :
  entered ctx s ins canPrev ctx2 s2 ->
  waiting ctx2 s2 ctx3 s3 ->
  EngraveScreen_.nextEvent loop ins canPrev ctx3 s3 = Ok r ->
  last_pass (ctx, s) r \/
  exists ctx4 s4, pass (ctx, s) (ctx4, s4) /\ loop ctx4 s4 = Ok r.
Proof.
  intros Hent Hwait. unfold EngraveScreen_.nextEvent, Context_.Next.
  destruct (events ctx3) as [|e rest] eqn:Hev.
  - intros [= <-]. left. by eapply last_idle.
  - destruct (EngraveScreen_.handle e ins canPrev (set_events ctx3 rest) s3)
      as [[[ctx4 s4] ret]| |] eqn:Hh; cbn [mbind res_bind]; try discriminate.
    destruct ret.
    + intros [= <-]. left. by eapply last_event.
    + intros Hloop. right. exists ctx4, s4. split; [|exact Hloop].
      by eapply pass_event.
Qed.

(** A frame that comes to an end is a sequence of passes. *)
Lemma loop_passes fuel : forall ctx s r,
  EngraveScreen_.loop fuel ctx s = Ok r ->
  exists cs, passes (ctx, s) cs /\ last_pass cs r.
Proof.
  induction fuel as [|fuel IH]; intros ctx s r; [discriminate|].
  cbn [EngraveScreen_.loop]. unfold EngraveScreen_.iteration.
  destruct (index (instructions s) (step s)) as [ins| |] eqn:Hins;
    cbn [mbind res_bind]; try discriminate.
  fold (canPrev_of s).
  destruct (canPrev_of s) as [canPrev| |] eqn:Hcp;
    cbn [mbind res_bind]; try discriminate.
  destruct (ConfirmDelay_.Progress (confirm s) ctx) as [ctx1 p] eqn:Hprog.
  assert (Hstep : forall cs' r0,
    pass (ctx, s) cs' -> EngraveScreen_.loop fuel cs'.1 cs'.2 = Ok r0 ->
    exists cs, passes (ctx, s) cs /\ last_pass cs r0).
  { intros [c' s'] r0 Hp Hl. destruct (IH c' s' r0 Hl) as (cs & Hps & Hlast).
    exists cs. split; [|exact Hlast]. by eapply passes_step. }
  destruct (Qeq_bool p 1) eqn:Hq.
  - destruct (EngraveScreen_.moveStep ctx1 s) as [[[ctx2 s2] ret]| |] eqn:Hm;
      cbn [mbind res_bind]; try discriminate.
    intros Hl. apply (Hstep (ctx2, EngraveScreen_.set_confirm s2 ConfirmDelay_zero) r);
      [|exact Hl].
    eapply pass_expiry; [exact Hins | exact Hcp | by rewrite Hprog | by rewrite Hprog].
  - destruct (EngraveScreen_.dryRunTick ctx1 s) as [ctx2 s2] eqn:Hdry.
    assert (Hent : entered ctx s ins canPrev ctx2 s2).
    { split; [exact Hins|]. split; [exact Hcp|]. by rewrite Hprog. }
    assert (Hnext : forall ctx3 s3,
      waiting ctx2 s2 ctx3 s3 ->
      EngraveScreen_.nextEvent (EngraveScreen_.loop fuel) ins canPrev ctx3 s3 = Ok r ->
      exists cs, passes (ctx, s) cs /\ last_pass cs r).
    { intros ctx3 s3 Hw Hn.
      destruct (nextEvent_passes _ ins canPrev ctx s ctx2 s2 ctx3 s3 r Hent Hw Hn)
        as [Hlast|(ctx4 & s4 & Hp & Hl)].
      - exists (ctx, s). split; [apply passes_refl | exact Hlast].
      - by apply (Hstep (ctx4, s4) r). }
    destruct (cancel s2) as [dlg|] eqn:Hcancel.
    + destruct (ConfirmWarningScreen_.Layout dlg ctx2) as [[ctx3 dlg3] result] eqn:Hdlg.
      destruct result.
      * apply Hnext. by eapply waiting_cancel.
      * intros Hl.
        apply (Hstep (ctx3, EngraveScreen_.set_cancel
                              (EngraveScreen_.set_cancel s2 (Some dlg3)) None) r);
          [|exact Hl].
        change (EngraveScreen_.set_cancel (EngraveScreen_.set_cancel s2 (Some dlg3)) None)
          with (EngraveScreen_.set_cancel s2 None).
        by eapply pass_cancel_no.
      * destruct (EngraveScreen_.close ctx3 (EngraveScreen_.set_cancel s2 (Some dlg3)))
          as [ctx4 s4] eqn:Hclose.
        intros [= <-]. exists (ctx, s). split; [apply passes_refl|].
        rewrite <- Hclose. by eapply last_cancel_yes.
    + destruct (warning (engrave s2)) as [w|] eqn:Hwarn.
      * destruct (ErrorScreen_.Layout w ctx2) as [ctx3 dismissed] eqn:Herr.
        destruct dismissed.
        -- simpl fatal. destruct (fatal (engrave s2)) eqn:Hfatal.
           ++ match goal with |- context [EngraveScreen_.close ctx3 ?s3] =>
                destruct (EngraveScreen_.close ctx3 s3) as [ctx4 s4] eqn:Hclose end.
              intros [= <-]. exists (ctx, s). split; [apply passes_refl|].
              rewrite <- Hclose. by eapply last_fatal.
           ++ intros Hl.
              match type of Hl with EngraveScreen_.loop fuel ctx3 ?s3 = _ =>
                apply (Hstep (ctx3, s3) r); [|exact Hl] end.
              by eapply pass_dismissed.
        -- apply Hnext. by eapply waiting_warning.
      * apply Hnext. by eapply waiting_plain.
Qed.

(** *** The footprint of a frame *)

Lemma footprint_refl ctx : footprint ctx ctx.
Proof. constructor; auto. Qed.

Lemma footprint_trans ctx1 ctx2 ctx3 :
  footprint ctx1 ctx2 -> footprint ctx2 ctx3 -> footprint ctx1 ctx3.
Proof.
  intros [] []. constructor; try congruence.
  - by etransitivity.
  - by etransitivity.
  - intros b. destruct (fp_Buttons1 b) as [H1|[Hb H1]]; [|by right].
    rewrite H1. apply fp_Buttons0.
Qed.

Lemma footprint_go ctx g : footprint ctx (go ctx g).
Proof.
  constructor; simpl; auto. by apply prefix_app_r.
Qed.

Lemma footprint_set_events ctx rest :
  rest `suffix_of` events ctx -> footprint ctx (set_events ctx rest).
Proof. intros Hs. constructor; simpl; auto. Qed.

Lemma footprint_release ctx b :
  b = input.Button2 \/ b = input.Button3 ->
  footprint ctx (set_Buttons ctx (<[b := false]> (Buttons ctx))).
Proof.
  intros Hb. constructor; simpl; auto.
  intros b'. destruct (decide (b' = b)) as [->|Hne].
  - destruct (decide (b < length (Buttons ctx))) as [Hlt|Hge].
    + right. split; [exact Hb|]. by apply list_lookup_insert_eq.
    + left. by rewrite list_insert_ge by lia.
  - left. by apply list_lookup_insert_ne.
Qed.

Lemma footprint_Progress c ctx :
  footprint ctx (fst (ConfirmDelay_.Progress c ctx)).
Proof.
  unfold ConfirmDelay_.Progress.
  destruct (negb (ConfirmDelay_.Running c)); [apply footprint_refl|].
  destruct (_ <=? _)%Z; [apply footprint_refl | apply footprint_go].
Qed.

Lemma footprint_close ctx s : footprint ctx (fst (EngraveScreen_.close ctx s)).
Proof. apply footprint_go. Qed.

Lemma footprint_advance ctx s ctx' s' ret :
  EngraveScreen_.advance ctx s = Ok (ctx', s', ret) -> footprint ctx ctx'.
Proof.
  unfold EngraveScreen_.advance. cbn [step EngraveScreen_.set_step instructions].
  destruct (_ =? _).
  - intros [= <- _ _]. apply footprint_go.
  - destruct (index _ _) as [ins| |]; cbn [mbind res_bind]; try discriminate.
    destruct (InstructionType_eqb _ _); intros [= <- _ _]; [|apply footprint_refl].
    repeat (eapply footprint_trans; [|apply footprint_go]). apply footprint_refl.
Qed.

Lemma footprint_moveStep ctx s ctx' s' ret :
  EngraveScreen_.moveStep ctx s = Ok (ctx', s', ret) -> footprint ctx ctx'.
Proof.
  unfold EngraveScreen_.moveStep.
  destruct (index _ _) as [ins| |]; cbn [mbind res_bind]; try discriminate.
  destruct (InstructionType_eqb _ _); [|apply footprint_advance].
  destruct (dev (engrave s)); [intros [= <- _ _]; apply footprint_refl|].
  destruct (Engraver (platform ctx)); [apply footprint_advance|].
  intros [= <- _ _]. apply footprint_refl.
Qed.

Lemma footprint_dryRunTick ctx s :
  footprint ctx (fst (EngraveScreen_.dryRunTick ctx s)).
Proof.
  unfold EngraveScreen_.dryRunTick.
  destruct (negb _); [|apply footprint_refl].
  destruct (_ <=? _)%Z; [|apply footprint_refl].
  apply footprint_release. by left.
Qed.

Lemma footprint_ErrorLayout_loop evs ctx :
  events ctx = evs -> footprint ctx (fst (ErrorScreen_.Layout_loop evs ctx)).
Proof.
  revert ctx. induction evs as [|e rest IH]; intros ctx Hev; simpl.
  - apply footprint_refl.
  - assert (Hfp : footprint ctx (set_events ctx rest)).
    { apply footprint_set_events. rewrite Hev. by apply suffix_cons_r. }
    destruct (_ && _); [exact Hfp|].
    eapply footprint_trans; [exact Hfp|]. by apply IH.
Qed.

Lemma footprint_ConfirmHandle e ctx dlg :
  footprint ctx (ConfirmWarningScreen_.handle e ctx dlg).1.1.
Proof.
  unfold ConfirmWarningScreen_.handle.
  destruct (Button e =? input.Button1); [destruct (Click e); apply footprint_refl|].
  destruct (Button e =? input.Button3); [|apply footprint_refl].
  destruct (Pressed e); [|apply footprint_refl].
  apply footprint_release. by right.
Qed.

Lemma footprint_ConfirmLayout_loop evs ctx dlg :
  events ctx = evs ->
  footprint ctx (ConfirmWarningScreen_.Layout_loop evs ctx dlg).1.1.
Proof.
  revert ctx dlg. induction evs as [|e rest IH]; intros ctx dlg Hev; simpl.
  - pose proof (footprint_Progress (cw_confirm dlg) ctx) as Hp.
    destruct (ConfirmDelay_.Progress (cw_confirm dlg) ctx) as [ctx1 p].
    by destruct (Qeq_bool p 1).
  - pose proof (footprint_Progress (cw_confirm dlg) ctx) as Hp.
    destruct (Progress_within (cw_confirm dlg) ctx) as [_ Hev1].
    destruct (ConfirmDelay_.Progress (cw_confirm dlg) ctx) as [ctx1 p].
    simpl in Hp, Hev1.
    destruct (Qeq_bool p 1); [exact Hp|].
    assert (Hfp : footprint ctx (set_events ctx1 rest)).
    { eapply footprint_trans; [exact Hp|]. apply footprint_set_events.
      rewrite Hev1, Hev. by apply suffix_cons_r. }
    pose proof (footprint_ConfirmHandle e (set_events ctx1 rest) dlg) as Hh.
    pose proof (ConfirmHandle_within e (set_events ctx1 rest) dlg) as Hw.
    destruct (ConfirmWarningScreen_.handle e (set_events ctx1 rest) dlg)
      as [[ctx2 dlg2] [r|]]; simpl in Hh.
    + by eapply footprint_trans.
    + destruct Hw as [_ Hev2]. simpl in Hev2.
      eapply footprint_trans; [eapply footprint_trans; [exact Hfp | exact Hh]|].
      by apply IH.
Qed.

Lemma footprint_handle e ins canPrev ctx s ctx' s' ret :
  EngraveScreen_.handle e ins canPrev ctx s = Ok (ctx', s', ret) -> footprint ctx ctx'.
Proof.
  unfold EngraveScreen_.handle.
  destruct (Button e =? input.Button1).
  { destruct (negb (Click e)); [intros [= <- _ _]; apply footprint_refl|].
    destruct canPrev; intros [= <- _ _]; apply footprint_refl. }
  destruct (Button e =? input.Button2).
  { destruct (Pressed e); intros [= <- _ _];
      [apply footprint_go | apply footprint_refl]. }
  destruct (Button e =? input.Button3); [|intros [= <- _ _]; apply footprint_refl].
  destruct (InstructionType_eqb (ins_Type ins) ConnectInstruction).
  { destruct (Pressed e); intros [= <- _ _]; [|apply footprint_refl].
    apply footprint_release. by right. }
  destruct (_ || _); [intros [= <- _ _]; apply footprint_refl|].
  apply footprint_moveStep.
Qed.

Lemma footprint_entered ctx s ins canPrev ctx2 s2 :
  entered ctx s ins canPrev ctx2 s2 -> footprint ctx ctx2.
Proof.
  intros (_ & _ & _ & Hdry).
  eapply footprint_trans; [apply footprint_Progress|].
  pose proof (footprint_dryRunTick (ConfirmDelay_.Progress (confirm s) ctx).1 s) as Hfp.
  by rewrite Hdry in Hfp.
Qed.

Lemma footprint_waiting ctx2 s2 ctx3 s3 :
  waiting ctx2 s2 ctx3 s3 -> footprint ctx2 ctx3.
Proof.
  intros [dlg ctx3' dlg3 _ Hdlg|w ctx3' _ _ Herr|_ _].
  - pose proof (footprint_ConfirmLayout_loop (events ctx2) ctx2 dlg eq_refl) as Hfp.
    unfold ConfirmWarningScreen_.Layout in Hdlg. by rewrite Hdlg in Hfp.
  - pose proof (footprint_ErrorLayout_loop (events ctx2) ctx2 eq_refl) as Hfp.
    unfold ErrorScreen_.Layout in Herr. by rewrite Herr in Hfp.
  - apply footprint_refl.
Qed.

Lemma footprint_pop ctx e rest :
  events ctx = e :: rest -> footprint ctx (set_events ctx rest).
Proof. intros Hev. apply footprint_set_events. rewrite Hev. by apply suffix_cons_r. Qed.

Lemma footprint_pass cs cs' : pass cs cs' -> footprint cs.1 cs'.1.
Proof.
  intros [ctx s ins cp ctx2 s2 ret _ _ _ Hm
         |ctx s ins cp ctx2 s2 dlg ctx3 dlg3 Hent _ Hdlg
         |ctx s ins cp ctx2 s2 w ctx3 Hent _ _ Herr _
         |ctx s ins cp ctx2 s2 ctx3 s3 e rest ctx4 s4 Hent Hw Hev Hh]; simpl.
  - eapply footprint_trans; [apply footprint_Progress|].
    by eapply footprint_moveStep.
  - eapply footprint_trans; [by eapply footprint_entered|].
    pose proof (footprint_ConfirmLayout_loop (events ctx2) ctx2 dlg eq_refl) as Hfp.
    unfold ConfirmWarningScreen_.Layout in Hdlg. by rewrite Hdlg in Hfp.
  - eapply footprint_trans; [by eapply footprint_entered|].
    pose proof (footprint_ErrorLayout_loop (events ctx2) ctx2 eq_refl) as Hfp.
    unfold ErrorScreen_.Layout in Herr. by rewrite Herr in Hfp.
  - eapply footprint_trans; [by eapply footprint_entered|].
    eapply footprint_trans; [by eapply footprint_waiting|].
    eapply footprint_trans; [by eapply footprint_pop|].
    by eapply footprint_handle.
Qed.

Lemma footprint_last_pass cs r : last_pass cs r -> footprint cs.1 r.1.1.
Proof.
  intros [ctx s ins cp ctx2 s2 dlg ctx3 dlg3 Hent _ Hdlg
         |ctx s ins cp ctx2 s2 w ctx3 Hent _ _ Herr _
         |ctx s ins cp ctx2 s2 ctx3 s3 Hent Hw _
         |ctx s ins cp ctx2 s2 ctx3 s3 e rest ctx4 s4 Hent Hw Hev Hh]; simpl.
  - eapply footprint_trans; [by eapply footprint_entered|].
    eapply footprint_trans; [|apply footprint_go].
    pose proof (footprint_ConfirmLayout_loop (events ctx2) ctx2 dlg eq_refl) as Hfp.
    unfold ConfirmWarningScreen_.Layout in Hdlg. by rewrite Hdlg in Hfp.
  - eapply footprint_trans; [by eapply footprint_entered|].
    eapply footprint_trans; [|apply footprint_go].
    pose proof (footprint_ErrorLayout_loop (events ctx2) ctx2 eq_refl) as Hfp.
    unfold ErrorScreen_.Layout in Herr. by rewrite Herr in Hfp.
  - eapply footprint_trans; [by eapply footprint_entered|].
    by eapply footprint_waiting.
  - eapply footprint_trans; [by eapply footprint_entered|].
    eapply footprint_trans; [by eapply footprint_waiting|].
    eapply footprint_trans; [by eapply footprint_pop|].
    by eapply footprint_handle.
Qed.

Lemma footprint_passes cs cs' : passes cs cs' -> footprint cs.1 cs'.1.
Proof.
  induction 1 as [cs|cs1 cs2 cs3 Hp _ IH]; [apply footprint_refl|].
  eapply footprint_trans; [by apply footprint_pass | exact IH].
Qed.

End Passes.

Section Plan.

Lemma plan_advance ctx s ctx' s' ret :
  EngraveScreen_.advance ctx s = Ok (ctx', s', ret) ->
  plan s' = plan s /\ (ret = true -> engrave s' = engraveState_zero).
Proof.
  unfold EngraveScreen_.advance. cbn [step EngraveScreen_.set_step instructions].
  destruct (_ =? _).
  - intros [= _ <- <-]. by split.
  - destruct (index _ _) as [ins| |]; cbn [mbind res_bind]; try discriminate.
    destruct (InstructionType_eqb _ _); intros [= _ <- <-]; by split.
Qed.

Lemma plan_moveStep ctx s ctx' s' ret :
  EngraveScreen_.moveStep ctx s = Ok (ctx', s', ret) ->
  plan s' = plan s /\ (ret = true -> engrave s' = engraveState_zero).
Proof.
  unfold EngraveScreen_.moveStep.
  destruct (index _ _) as [ins| |]; cbn [mbind res_bind]; try discriminate.
  destruct (InstructionType_eqb _ _); [|apply plan_advance].
  destruct (dev (engrave s)); [intros [= _ <- <-]; by split|].
  destruct (Engraver (platform ctx)).
  - intros Hadv. by apply plan_advance in Hadv.
  - intros [= _ <- <-]; by split.
Qed.

Lemma plan_handle e ins canPrev ctx s ctx' s' ret :
  EngraveScreen_.handle e ins canPrev ctx s = Ok (ctx', s', ret) ->
  plan s' = plan s /\ (ret = true -> engrave s' = engraveState_zero).
Proof.
  unfold EngraveScreen_.handle.
  destruct (Button e =? input.Button1).
  { destruct (negb (Click e)); [intros [= _ <- <-]; by split|].
    destruct canPrev; intros [= _ <- <-]; by split. }
  destruct (Button e =? input.Button2).
  { destruct (Pressed e); intros [= _ <- <-]; by split. }
  destruct (Button e =? input.Button3); [|intros [= _ <- <-]; by split].
  destruct (InstructionType_eqb (ins_Type ins) ConnectInstruction).
  { destruct (Pressed e); intros [= _ <- <-]; by split. }
  destruct (_ || _); [intros [= _ <- <-]; by split|].
  apply plan_moveStep.
Qed.

Lemma plan_entered ctx s ins canPrev ctx2 s2 :
  entered ctx s ins canPrev ctx2 s2 -> plan s2 = plan s.
Proof.
  intros (_ & _ & _ & Hdry). revert Hdry. unfold EngraveScreen_.dryRunTick.
  destruct (negb _); [|by intros [= _ <-]].
  destruct (_ <=? _)%Z; by intros [= _ <-].
Qed.

Lemma plan_waiting ctx2 s2 ctx3 s3 : waiting ctx2 s2 ctx3 s3 -> plan s3 = plan s2.
Proof. by intros [| |]. Qed.

Lemma plan_pass cs cs' : pass cs cs' -> plan cs'.2 = plan cs.2.
Proof.
  intros [ctx s ins cp ctx2 s2 ret _ _ _ Hm
         |ctx s ins cp ctx2 s2 dlg ctx3 dlg3 Hent _ _
         |ctx s ins cp ctx2 s2 w ctx3 Hent _ _ _ _
         |ctx s ins cp ctx2 s2 ctx3 s3 e rest ctx4 s4 Hent Hw _ Hh]; simpl.
  - apply plan_moveStep in Hm as [<- _]. reflexivity.
  - by rewrite <- (plan_entered _ _ _ _ _ _ Hent).
  - by rewrite <- (plan_entered _ _ _ _ _ _ Hent).
  - apply plan_handle in Hh as [-> _].
    by rewrite (plan_waiting _ _ _ _ Hw), (plan_entered _ _ _ _ _ _ Hent).
Qed.

Lemma plan_last_pass cs r :
  last_pass cs r ->
  plan r.1.2 = plan cs.2 /\ (r.2 = true -> engrave r.1.2 = engraveState_zero).
Proof.
  intros [ctx s ins cp ctx2 s2 dlg ctx3 dlg3 Hent _ _
         |ctx s ins cp ctx2 s2 w ctx3 Hent _ _ _ _
         |ctx s ins cp ctx2 s2 ctx3 s3 Hent Hw _
         |ctx s ins cp ctx2 s2 ctx3 s3 e rest ctx4 s4 Hent Hw _ Hh]; simpl.
  - by rewrite <- (plan_entered _ _ _ _ _ _ Hent).
  - by rewrite <- (plan_entered _ _ _ _ _ _ Hent).
  - rewrite (plan_waiting _ _ _ _ Hw), (plan_entered _ _ _ _ _ _ Hent).
    split; [reflexivity | discriminate].
  - apply plan_handle in Hh as [-> Hz].
    rewrite (plan_waiting _ _ _ _ Hw), (plan_entered _ _ _ _ _ _ Hent).
    split; [reflexivity|]. intros _. by apply Hz.
Qed.

Lemma plan_passes cs cs' : passes cs cs' -> plan cs'.2 = plan cs.2.
Proof.
  induction 1 as [cs|cs1 cs2 cs3 Hp _ IH]; [reflexivity|].
  by rewrite IH, (plan_pass _ _ Hp).
Qed.

(** The first loop of [Layout]: the worker's messages. *)
Lemma drain_spec msgs ctx s ctx' s' ret :
  EngraveScreen_.drain msgs ctx s = (ctx', s', ret) ->
  plan s' = plan s /\
  (ret = true -> engrave s' = engraveState_zero) /\
  (ctx' = ctx \/
   ctx' = set_Calibrated ctx true /\ errs_ch (engrave s) = true /\
   MsgResult None ∈ msgs).
Proof.
  revert ctx s. induction msgs as [|m rest IH]; intros ctx s; simpl.
  - intros [= <- <- <-]. split; [reflexivity|]. split; [discriminate | by left].
  - destruct m as [p|err].
    + destruct (progress_ch (engrave s)).
      * intros Hd. apply IH in Hd as (Hplan & Hz & Hctx).
        split; [exact Hplan|]. split; [exact Hz|].
        destruct Hctx as [->|(-> & He & Hin)]; [by left|].
        right. split; [reflexivity|]. split; [exact He | by right].
      * intros [= <- <- <-]. split; [reflexivity|]. split; [discriminate | by left].
    + destruct (errs_ch (engrave s)) eqn:Herrs.
      * destruct err as [err|].
        -- intros Hd. apply IH in Hd as (Hplan & Hz & Hctx).
           split; [exact Hplan|]. split; [exact Hz|].
           destruct Hctx as [->|(_ & He & _)]; [by left | discriminate He].
        -- cbn [step EngraveScreen_.set_step instructions EngraveScreen_.set_engrave].
           destruct (_ =? _).
           ++ intros [= <- <- <-]. split; [reflexivity|]. split; [reflexivity|].
              right. split; [reflexivity|]. split; [reflexivity | by left].
           ++ intros Hd. apply IH in Hd as (Hplan & Hz & Hctx).
              split; [exact Hplan|]. split; [exact Hz|].
              destruct Hctx as [->|(_ & He & _)]; [|discriminate He].
              right. split; [reflexivity|]. split; [reflexivity | by left].
      * intros [= <- <- <-]. split; [reflexivity|]. split; [discriminate | by left].
Qed.

End Plan.

(** X8.  What a frame of the engrave screen may and may not do.  A frame
    that comes to an end leaves the clock, the settings and the repeat
    deadlines of the context alone; it only takes events off the front
    of the queue and never adds one; it only starts goroutines; in the
    button-state array it does nothing but release button 2 or button
    3; and it marks the device calibrated only when the worker reports
    the end of an engraving without error.  The share, the instructions
    and the plate of the screen stay what they are, and whenever the
    frame ends the session, the engraver state of the screen has been
    reset. *)
Theorem EngraveScreen_Layout_footprint (msgs : list WorkerMsg)
    (ctx : Context) (s : EngraveScreen) (ctx' : Context) (s' : EngraveScreen) (ret : bool) :
  EngraveScreen_.Layout msgs ctx s = Ok (ctx', s', ret) ->
  platform ctx' = platform ctx /\
  EnableSeedScan ctx' = EnableSeedScan ctx /\
  NoSDCard ctx' = NoSDCard ctx /\
  Repeats ctx' = Repeats ctx /\
  events ctx' `suffix_of` events ctx /\
  spawned ctx `prefix_of` spawned ctx' /\
  (forall b,
     Buttons ctx' !! b = Buttons ctx !! b \/
     ((b = input.Button2 \/ b = input.Button3) /\ Buttons ctx' !! b = Some false)) /\
  (Calibrated ctx' = Calibrated ctx \/
   Calibrated ctx' = true /\ errs_ch (engrave s) = true /\ MsgResult None ∈ msgs) /\
  Key s' = Key s /\ instructions s' = instructions s /\ plate s' = plate s /\
  (ret = true -> engrave s' = engraveState_zero).
Proof.
  unfold EngraveScreen_.Layout.
  destruct (EngraveScreen_.drain msgs ctx s) as [[ctx1 s1] done] eqn:Hd.
  apply drain_spec in Hd as (Hplan1 & Hz1 & Hctx1).
  assert (Hfinish : forall ctx2 s2,
    footprint ctx1 ctx2 -> plan s2 = plan s1 ->
    (ret = true -> engrave s2 = engraveState_zero) ->
    platform ctx2 = platform ctx /\
    EnableSeedScan ctx2 = EnableSeedScan ctx /\
    NoSDCard ctx2 = NoSDCard ctx /\
    Repeats ctx2 = Repeats ctx /\
    events ctx2 `suffix_of` events ctx /\
    spawned ctx `prefix_of` spawned ctx2 /\
    (forall b,
       Buttons ctx2 !! b = Buttons ctx !! b \/
       ((b = input.Button2 \/ b = input.Button3) /\ Buttons ctx2 !! b = Some false)) /\
    (Calibrated ctx2 = Calibrated ctx \/
     Calibrated ctx2 = true /\ errs_ch (engrave s) = true /\ MsgResult None ∈ msgs) /\
    Key s2 = Key s /\ instructions s2 = instructions s /\ plate s2 = plate s /\
    (ret = true -> engrave s2 = engraveState_zero)).
  { intros ctx2 s2 [] Hplan2 Hz2.
    rewrite Hplan1 in Hplan2. injection Hplan2 as HK HI HP.
    destruct Hctx1 as [->|(-> & He & Hin)]; simpl in *; auto 20. }
  destruct done.
  - intros [= <- <- <-]. apply Hfinish; [apply footprint_refl | reflexivity | exact Hz1].
  - intros Hloop.
    destruct (loop_passes _ _ _ _ Hloop) as ([ctx2 s2] & Hps & Hlast).
    pose proof (footprint_passes _ _ Hps) as Hfp1.
    pose proof (footprint_last_pass _ _ Hlast) as Hfp2.
    pose proof (plan_passes _ _ Hps) as Hpl1.
    pose proof (plan_last_pass _ _ Hlast) as [Hpl2 Hz2].
    simpl in *. apply Hfinish.
    + by eapply footprint_trans.
    + by rewrite Hpl2, Hpl1.
    + exact Hz2.
Qed.

Lemma EngraveScreen_Layout_footprint_witness :
  exists ctx s ctx' s',
    EngraveScreen_.Layout [] ctx s = Ok (ctx', s', false) /\
    events ctx' `suffix_of` events ctx /\ instructions s' = instructions s.
Proof.
  assert (Hrun : exists ctx' s',
    EngraveScreen_.Layout []
      (Context_.Events (sampleContext 0%Z)
         [input.mkEvent input.Button3 true 0%N; input.mkEvent input.Button3 false 0%N])
      sampleScreen = Ok (ctx', s', false))
    by (eexists _, _; vm_compute; reflexivity).
  destruct Hrun as (ctx' & s' & Hrun).
  pose proof (EngraveScreen_Layout_footprint _ _ _ _ _ _ Hrun) as Hfp.
  eexists _, _, ctx', s'. split; [exact Hrun|]. split; apply Hfp.
Defined.

(** ** On an Engrave instruction *)

Section Engraving.

Lemma stays_refl s : stays s s.
Proof. by repeat split. Qed.

Lemma stays_trans s1 s2 s3 : stays s1 s2 -> stays s2 s3 -> stays s1 s3.
Proof. intros (?&?&?&?) (?&?&?&?). repeat split; congruence. Qed.

Lemma stays_Inv s0 s : stays s0 s -> EngraveInv s0 -> EngraveInv s.
Proof.
  intros (Hi & Hs & Hc & He). apply EngraveInv_ext; try assumption.
  unfold session in He. by injection He.
Qed.

(** The cursor is on an Engrave instruction. *)
Let engraving (s : EngraveScreen) : Prop :=
  exists ins, instructions s !! step s = Some ins /\ ins_Type ins = EngraveInstruction.

Lemma stays_engraving s0 s : stays s0 s -> engraving s0 -> engraving s.
Proof. intros (Hi & Hs & _) (ins & Hins & Hty). exists ins. by rewrite Hi, Hs. Qed.

Lemma engraving_idle s ctx :
  EngraveInv s -> engraving s ->
  Qeq_bool (snd (ConfirmDelay_.Progress (confirm s) ctx)) 1 = false.
Proof.
  intros HI (ins & Hins & Hty). rewrite expired_Progress. unfold expired.
  destruct (ConfirmDelay_.Running (confirm s)) eqn:Hrun; [|reflexivity].
  exfalso. exact (inv_idle s HI Hrun ins Hins Hty).
Qed.

Lemma entered_stays ctx s ins canPrev ctx2 s2 :
  entered ctx s ins canPrev ctx2 s2 -> stays s s2.
Proof.
  intros (_ & _ & _ & Hdry). revert Hdry. unfold EngraveScreen_.dryRunTick.
  destruct (negb _); [|intros [= _ <-]; apply stays_refl].
  destruct (_ <=? _)%Z; intros [= _ <-]; by repeat split.
Qed.

Lemma waiting_stays ctx2 s2 ctx3 s3 : waiting ctx2 s2 ctx3 s3 -> stays s2 s3.
Proof. intros [| |]; by repeat split. Qed.

(** On an Engrave instruction there is no way back: the instruction in
    front of it is a Connect instruction. *)
Lemma engraving_canPrev s canPrev :
  EngraveInv s -> engraving s -> canPrev_of s = Ok canPrev -> canPrev = false.
Proof.
  intros HI (ins & Hins & Hty). unfold canPrev_of.
  destruct (wf_engrave _ _ _ (inv_wf s HI) Hins Hty) as (_ & p & Hpos & Hp & Hpty).
  destruct (Nat.ltb_spec 0 (step s)) as [_|]; [|lia].
  rewrite (index_Some _ _ _ Hp). cbn [mbind res_bind]. rewrite Hpty.
  by intros [= <-].
Qed.

Lemma handle_engraving e ins ctx s ctx' s' ret :
  ins_Type ins = EngraveInstruction ->
  EngraveScreen_.handle e ins false ctx s = Ok (ctx', s', ret) ->
  ret = false /\ stays s s'.
Proof.
  intros Hty. unfold EngraveScreen_.handle. rewrite Hty. simpl.
  destruct (Button e =? input.Button1).
  { destruct (negb (Click e)); intros [= _ <- <-]; by repeat split. }
  destruct (Button e =? input.Button2).
  { destruct (Pressed e); intros [= _ <- <-]; by repeat split. }
  destruct (Button e =? input.Button3); [|intros [= _ <- <-]; by repeat split].
  rewrite orb_true_r. intros [= _ <- <-]; by repeat split.
Qed.

Lemma entered_ins ctx s ins canPrev ctx2 s2 :
  entered ctx s ins canPrev ctx2 s2 -> instructions s !! step s = Some ins.
Proof. intros (Hins & _). by apply index_Ok_lt. Qed.

Lemma pass_engraving cs cs' :
  pass cs cs' -> EngraveInv cs.2 -> engraving cs.2 -> stays cs.2 cs'.2.
Proof.
  intros
    [ctx s ins cp ctx2 s2 ret _ _ Hq _
    |ctx s ins cp ctx2 s2 dlg ctx3 dlg3 Hent _ _
    |ctx s ins cp ctx2 s2 w ctx3 Hent _ _ _ _
    |ctx s ins cp ctx2 s2 ctx3 s3 e rest ctx4 s4 Hent Hw _ Hh] HI Heng; simpl in *.
  - by rewrite (engraving_idle s ctx HI Heng) in Hq.
  - eapply stays_trans; [by eapply entered_stays|]. by repeat split.
  - eapply stays_trans; [by eapply entered_stays|]. by repeat split.
  - pose proof (entered_stays _ _ _ _ _ _ Hent) as H2.
    pose proof (waiting_stays _ _ _ _ Hw) as H3.
    pose proof (entered_ins _ _ _ _ _ _ Hent) as Hins.
    destruct Heng as (ins' & Hins' & Hty). rewrite Hins in Hins'. injection Hins' as <-.
    destruct Hent as (_ & Hcp & _).
    assert (cp = false) as ->
      by (apply (engraving_canPrev s cp HI); [by exists ins | exact Hcp]).
    apply (handle_engraving _ _ _ _ _ _ _ Hty) in Hh as [_ H4].
    eapply stays_trans; [exact H2|]. by eapply stays_trans.
Qed.

Lemma passes_engraving cs cs' :
  EngraveInv cs.2 -> engraving cs.2 -> passes cs cs' -> stays cs.2 cs'.2.
Proof.
  intros HI Heng Hps. induction Hps as [cs|cs1 cs2 cs3 Hp _ IH]; [apply stays_refl|].
  pose proof (pass_engraving cs1 cs2 Hp HI Heng) as H12.
  eapply stays_trans; [exact H12|]. apply IH.
  - by eapply stays_Inv.
  - by eapply stays_engraving.
Qed.

Lemma last_pass_engraving cs r :
  last_pass cs r -> EngraveInv cs.2 -> engraving cs.2 ->
  step r.1.2 = step cs.2 /\
  (r.2 = false -> stays cs.2 r.1.2) /\
  (r.2 = true ->
   exists e, last (spawned r.1.1) = Some (GoClose e) /\
     session e = session (engrave cs.2)).
Proof.
  intros
    [ctx s ins cp ctx2 s2 dlg ctx3 dlg3 Hent _ _
    |ctx s ins cp ctx2 s2 w ctx3 Hent _ _ _ _
    |ctx s ins cp ctx2 s2 ctx3 s3 Hent Hw _
    |ctx s ins cp ctx2 s2 ctx3 s3 e rest ctx4 s4 Hent Hw _ Hh] HI Heng; simpl in *.
  - destruct (entered_stays _ _ _ _ _ _ Hent) as (_ & Hs & _ & Hse).
    split; [exact Hs|]. split; [discriminate|]. intros _.
    exists (engrave s2). by rewrite last_snoc.
  - destruct (entered_stays _ _ _ _ _ _ Hent) as (_ & Hs & _ & Hse).
    split; [exact Hs|]. split; [discriminate|]. intros _.
    eexists. rewrite last_snoc. split; [reflexivity | exact Hse].
  - pose proof (entered_stays _ _ _ _ _ _ Hent) as H2.
    pose proof (waiting_stays _ _ _ _ Hw) as H3.
    pose proof (stays_trans _ _ _ H2 H3) as H13.
    split; [apply H13|]. split; [by intros _ | discriminate].
  - exfalso.
    pose proof (entered_ins _ _ _ _ _ _ Hent) as Hins.
    destruct Heng as (ins' & Hins' & Hty). rewrite Hins in Hins'. injection Hins' as <-.
    destruct Hent as (_ & Hcp & _).
    assert (cp = false) as ->
      by (apply (engraving_canPrev s cp HI); [by exists ins | exact Hcp]).
    by apply (handle_engraving _ _ _ _ _ _ _ Hty) in Hh as [? _].
Qed.

Lemma drain_progress msgs ctx s :
  Forall (fun m => isProgress m = true) msgs ->
  exists s1, EngraveScreen_.drain msgs ctx s = (ctx, s1, false) /\ stays s s1.
Proof.
  intros Hall. revert s. induction Hall as [|m rest Hm _ IH]; intros s; simpl.
  - exists s. split; [reflexivity | apply stays_refl].
  - destruct m as [p|err]; [|discriminate Hm].
    destruct (progress_ch (engrave s)); [|exists s; split; [reflexivity | apply stays_refl]].
    destruct (IH (EngraveScreen_.set_engrave s
                    (EngraveScreen_.set_lastProgress (engrave s) p))) as (s1 & Hd & Hst).
    exists s1. split; [exact Hd|].
    eapply stays_trans; [|exact Hst]. by repeat split.
Qed.

Lemma Layout_engraving msgs ctx s ins :
  EngraveInv s ->
  instructions s !! step s = Some ins -> ins_Type ins = EngraveInstruction ->
  Forall (fun m => isProgress m = true) msgs ->
  exists ctx' s' ret,
    EngraveScreen_.Layout msgs ctx s = Ok (ctx', s', ret) /\
    step s' = step s /\
    (ret = false -> stays s s') /\
    (ret = true ->
     exists e, last (spawned ctx') = Some (GoClose e) /\
       session e = session (engrave s)).
Proof.
  intros HI Hins Hty Hmsgs.
  assert (Heng : engraving s) by (by exists ins).
  destruct (Layout_post msgs ctx s HI) as (ctx' & s' & ret & HL & _).
  exists ctx', s', ret. split; [exact HL|].
  unfold EngraveScreen_.Layout in HL.
  destruct (drain_progress msgs ctx s Hmsgs) as (s1 & Hd & Hst1).
  rewrite Hd in HL.
  destruct (loop_passes _ _ _ _ HL) as ([ctx2 s2] & Hps & Hlast).
  pose proof (stays_Inv _ _ Hst1 HI) as HI1.
  pose proof (stays_engraving _ _ Hst1 Heng) as Heng1.
  pose proof (passes_engraving (ctx, s1) (ctx2, s2) HI1 Heng1 Hps) as Hst2.
  simpl in Hst2.
  pose proof (last_pass_engraving (ctx2, s2) (ctx', s', ret) Hlast
                (stays_Inv _ _ Hst2 HI1) (stays_engraving _ _ Hst2 Heng1))
    as (Hstep & Hfalse & Htrue). simpl in *.
  pose proof (stays_trans _ _ _ Hst1 Hst2) as Hst12.
  split; [|split].
  - rewrite Hstep. apply Hst12.
  - intros Hr. eapply stays_trans; [exact Hst12 | by apply Hfalse].
  - intros Hr. destruct (Htrue Hr) as (e & Hlast' & Hse).
    exists e. split; [exact Hlast'|].
    rewrite Hse. apply Hst12.
Qed.

End Engraving.

(** X9.  No button takes the screen off an engraving.  With the cursor
    on an Engrave instruction of a screen made by [NewEngraveScreen] and
    the frames after it, a frame in which the worker reports nothing but
    progress leaves the cursor on that instruction, whatever events are
    queued.  If the frame does not end the session, the hold timer and
    the engraver session (the device and the channels) are untouched as
    well.  If it ends the session, which takes the confirmation of the
    cancel dialog or the dismissal of a fatal warning, the last
    goroutine it starts is the teardown of that very session. *)
Theorem Engraving_not_skipped `{Packages} (msgs : list WorkerMsg)
    (ctx : Context) (s : EngraveScreen) (ins : Instruction) :
  reachable s ->
  instructions s !! step s = Some ins -> ins_Type ins = EngraveInstruction ->
  Forall (fun m => isProgress m = true) msgs ->
  exists ctx' s' ret,
    EngraveScreen_.Layout msgs ctx s = Ok (ctx', s', ret) /\
    step s' = step s /\
    (ret = false -> stays s s') /\
    (ret = true ->
     exists e, last (spawned ctx') = Some (GoClose e) /\
       session e = session (engrave s)).
Proof.
  intros Hreach. apply Layout_engraving. by apply reachable_Inv.
Qed.

Lemma engravingScreen_reachable : @reachable samplePackages engravingScreen.
Proof.
  assert (H0 : @reachable samplePackages sampleNew).
  { apply (reachable_new (sampleContext 5%Z) sampleDescriptor [1; 2; 3]%Z passphrase).
    reflexivity. }
  assert (H1 : exists ctx1 s1,
    EngraveScreen_.Layout []
      (Context_.Events (sampleContext 1000000000%Z) (clicks3 9)) sampleNew
      = Ok (ctx1, s1, false) /\
    exists ctx2 s2,
      EngraveScreen_.Layout []
        (Context_.Events (at_time ctx1 2000000000%Z) [press input.Button3]) s1
        = Ok (ctx2, s2, false) /\
      exists ctx3,
        EngraveScreen_.Layout [] (at_time ctx2 3000000000%Z) s2
          = Ok (ctx3, engravingScreen, false)).
  { eexists _, _. split; [vm_compute; reflexivity|].
    eexists _, _. split; [vm_compute; reflexivity|].
    eexists. vm_compute. reflexivity. }
  destruct H1 as (ctx1 & s1 & E1 & ctx2 & s2 & E2 & ctx3 & E3).
  eapply reachable_frame; [|exact E3].
  eapply reachable_frame; [|exact E2].
  eapply reachable_frame; [exact H0 | exact E1].
Qed.

Lemma Engraving_not_skipped_witness :
  exists ctx' s' ret,
    EngraveScreen_.Layout [MsgProgress (1 # 2)]
      (Context_.Events (sampleContext 4000000000%Z)
         (click input.Button3 ++ click input.Button1 ++ click input.Button2))
      engravingScreen = Ok (ctx', s', ret) /\
    step s' = 10.
Proof.
  destruct (@Engraving_not_skipped samplePackages [MsgProgress (1 # 2)]
              (Context_.Events (sampleContext 4000000000%Z)
                 (click input.Button3 ++ click input.Button1 ++ click input.Button2))
              engravingScreen (engrave_ 0)
              engravingScreen_reachable eq_refl eq_refl
              ltac:(repeat constructor))
    as (ctx' & s' & ret & HL & Hstep & _).
  exists ctx', s', ret. split; [exact HL | exact Hstep].
Defined.

(** ** The worker and its device *)

Section Worker.

Lemma armed_refl ctx : started_armed ctx ctx.
Proof. exists []. by rewrite app_nil_r. Qed.

Lemma armed_trans ctx1 ctx2 ctx3 :
  started_armed ctx1 ctx2 -> started_armed ctx2 ctx3 -> started_armed ctx1 ctx3.
Proof.
  intros (g1 & H1 & F1) (g2 & H2 & F2). exists (g1 ++ g2).
  split; [by rewrite H2, H1, app_assoc | by apply Forall_app].
Qed.

Lemma armed_go ctx g : armed g -> started_armed ctx (go ctx g).
Proof. intros Hg. exists [g]. split; [reflexivity | by apply Forall_singleton]. Qed.

Lemma armed_same ctx ctx' : spawned ctx' = spawned ctx -> started_armed ctx ctx'.
Proof. intros Hs. exists []. by rewrite app_nil_r. Qed.

Lemma armed_Progress c ctx : started_armed ctx (fst (ConfirmDelay_.Progress c ctx)).
Proof.
  unfold ConfirmDelay_.Progress.
  destruct (negb (ConfirmDelay_.Running c)); [apply armed_refl|].
  destruct (_ <=? _)%Z; [apply armed_refl | by apply armed_go].
Qed.

Lemma armed_dryRunTick ctx s : started_armed ctx (fst (EngraveScreen_.dryRunTick ctx s)).
Proof.
  unfold EngraveScreen_.dryRunTick.
  destruct (negb _); [|apply armed_refl].
  destruct (_ <=? _)%Z; [by apply armed_same | apply armed_refl].
Qed.

Lemma armed_ErrorLayout_loop evs ctx :
  started_armed ctx (fst (ErrorScreen_.Layout_loop evs ctx)).
Proof.
  revert ctx. induction evs as [|e rest IH]; intros ctx; simpl; [apply armed_refl|].
  destruct (_ && _); [by apply armed_same|].
  eapply armed_trans; [|apply IH]. by apply armed_same.
Qed.

Lemma armed_ConfirmLayout_loop evs ctx dlg :
  started_armed ctx (ConfirmWarningScreen_.Layout_loop evs ctx dlg).1.1.
Proof.
  revert ctx dlg. induction evs as [|e rest IH]; intros ctx dlg; simpl.
  - pose proof (armed_Progress (cw_confirm dlg) ctx) as Hp.
    destruct (ConfirmDelay_.Progress (cw_confirm dlg) ctx) as [ctx1 p].
    by destruct (Qeq_bool p 1).
  - pose proof (armed_Progress (cw_confirm dlg) ctx) as Hp.
    destruct (ConfirmDelay_.Progress (cw_confirm dlg) ctx) as [ctx1 p]. simpl in Hp.
    destruct (Qeq_bool p 1); [exact Hp|].
    assert (Hh : started_armed (set_events ctx1 rest)
                   (ConfirmWarningScreen_.handle e (set_events ctx1 rest) dlg).1.1).
    { unfold ConfirmWarningScreen_.handle.
      destruct (Button e =? input.Button1); [destruct (Click e); apply armed_refl|].
      destruct (Button e =? input.Button3); [|apply armed_refl].
      destruct (Pressed e); [by apply armed_same | apply armed_refl]. }
    destruct (ConfirmWarningScreen_.handle e (set_events ctx1 rest) dlg)
      as [[ctx2 dlg2] [r|]]; simpl in Hh.
    + eapply armed_trans; [exact Hp|]. eapply armed_trans; [|exact Hh].
      by apply armed_same.
    + eapply armed_trans; [exact Hp|].
      eapply armed_trans; [by apply (armed_same ctx1 (set_events ctx1 rest))|].
      eapply armed_trans; [exact Hh | apply IH].
Qed.

(** The second half of [moveStep] hands the worker the device of the
    session. *)
Lemma armed_advance ctx s ctx' s' ret :
  (forall ins, instructions s !! (step s + 1) = Some ins ->
     ins_Type ins = EngraveInstruction -> dev (engrave s) <> None) ->
  EngraveScreen_.advance ctx s = Ok (ctx', s', ret) -> started_armed ctx ctx'.
Proof.
  intros Hdev. unfold EngraveScreen_.advance.
  cbn [step EngraveScreen_.set_step instructions].
  destruct (_ =? _).
  - intros [= <- _ _]. by apply armed_go.
  - destruct (index _ _) as [ins| |] eqn:Hins; cbn [mbind res_bind]; try discriminate.
    apply index_Ok_lt in Hins. simpl in Hins.
    destruct (InstructionType_eqb _ _) eqn:Hty; intros [= <- _ _]; [|apply armed_refl].
    apply InstructionType_eqb_eq in Hty.
    specialize (Hdev ins Hins Hty). simpl.
    destruct (dev (engrave s)) as [d|] eqn:Hd; [|done].
    exists [GoWakeupChan; GoWakeupChan; GoEngrave (Some d) (dr_enabled (dryRun s)) (ins_Side ins);
            GoSideEngrave (ins_Side ins)].
    split; [simpl; by rewrite <- !app_assoc|].
    by repeat constructor.
Qed.

Lemma armed_moveStep ctx s ctx' s' ret :
  EngraveInv s ->
  EngraveScreen_.moveStep ctx s = Ok (ctx', s', ret) -> started_armed ctx ctx'.
Proof.
  intros HI. unfold EngraveScreen_.moveStep.
  destruct (index _ _) as [ins| |] eqn:Hins; cbn [mbind res_bind]; try discriminate.
  apply index_Ok_lt in Hins.
  destruct (InstructionType_eqb _ _) eqn:Hty.
  - destruct (dev (engrave s)); [intros [= <- _ _]; apply armed_refl|].
    destruct (Engraver (platform ctx)) as [d|err];
      [|intros [= <- _ _]; apply armed_refl].
    apply armed_advance. intros _ _ _. discriminate.
  - apply InstructionType_eqb_neq in Hty.
    apply armed_advance. intros ins' Hins' Hty'. exfalso.
    destruct (wf_engrave _ _ _ (inv_wf s HI) Hins' Hty') as (_ & p & _ & Hp & Hpty).
    replace (step s + 1 - 1) with (step s) in Hp by lia.
    rewrite Hins in Hp. injection Hp as <-. contradiction.
Qed.

Lemma armed_handle e ins canPrev ctx s ctx' s' ret :
  EngraveInv s ->
  EngraveScreen_.handle e ins canPrev ctx s = Ok (ctx', s', ret) ->
  started_armed ctx ctx'.
Proof.
  intros HI. unfold EngraveScreen_.handle.
  destruct (Button e =? input.Button1).
  { destruct (negb (Click e)); [intros [= <- _ _]; apply armed_refl|].
    destruct canPrev; intros [= <- _ _]; apply armed_refl. }
  destruct (Button e =? input.Button2).
  { destruct (Pressed e); intros [= <- _ _]; [by apply armed_go | apply armed_refl]. }
  destruct (Button e =? input.Button3); [|intros [= <- _ _]; apply armed_refl].
  destruct (InstructionType_eqb (ins_Type ins) ConnectInstruction).
  { destruct (Pressed e); intros [= <- _ _]; [by apply armed_same | apply armed_refl]. }
  destruct (_ || _); [intros [= <- _ _]; apply armed_refl|].
  by apply armed_moveStep.
Qed.

Lemma armed_entered ctx s ins canPrev ctx2 s2 :
  entered ctx s ins canPrev ctx2 s2 -> started_armed ctx ctx2.
Proof.
  intros (_ & _ & _ & Hdry).
  eapply armed_trans; [apply armed_Progress|].
  pose proof (armed_dryRunTick (ConfirmDelay_.Progress (confirm s) ctx).1 s) as Ha.
  by rewrite Hdry in Ha.
Qed.

Lemma armed_waiting ctx2 s2 ctx3 s3 :
  waiting ctx2 s2 ctx3 s3 -> started_armed ctx2 ctx3.
Proof.
  intros [dlg ctx3' dlg3 _ Hdlg|w ctx3' _ _ Herr|_ _].
  - pose proof (armed_ConfirmLayout_loop (events ctx2) ctx2 dlg) as Ha.
    unfold ConfirmWarningScreen_.Layout in Hdlg. by rewrite Hdlg in Ha.
  - pose proof (armed_ErrorLayout_loop (events ctx2) ctx2) as Ha.
    unfold ErrorScreen_.Layout in Herr. by rewrite Herr in Ha.
  - apply armed_refl.
Qed.

(** *** The invariant, pass by pass *)

Lemma canPrev_of_true s :
  canPrev_of s = Ok true ->
  exists p, 0 < step s /\ instructions s !! (step s - 1) = Some p /\
    ins_Type p = PrepareInstruction.
Proof.
  unfold canPrev_of. destruct (Nat.ltb_spec 0 (step s)) as [Hpos|]; [|discriminate].
  destruct (index _ _) as [p| |] eqn:Hp; cbn [mbind res_bind]; try discriminate.
  intros [= Hty]. exists p. split; [exact Hpos|].
  split; [by apply index_Ok_lt | by apply InstructionType_eqb_eq].
Qed.

Lemma entered_not_expired ctx s ins canPrev ctx2 s2 :
  entered ctx s ins canPrev ctx2 s2 -> expired s ctx = false.
Proof. intros (_ & _ & Hq & _). by rewrite <- expired_Progress. Qed.

(** The screen the event switch of a pass works on. *)
Lemma event_ready ctx s ins canPrev ctx2 s2 ctx3 s3 rest :
  EngraveInv s ->
  entered ctx s ins canPrev ctx2 s2 -> waiting ctx2 s2 ctx3 s3 ->
  EngraveInv s3 /\
  instructions s3 !! step s3 = Some ins /\
  (canPrev = true ->
   exists p, 0 < step s3 /\ instructions s3 !! (step s3 - 1) = Some p /\
     ins_Type p = PrepareInstruction) /\
  expired s3 (set_events ctx3 rest) = false.
Proof.
  intros HI Hent Hw.
  pose proof (stays_trans _ _ _ (entered_stays _ _ _ _ _ _ Hent)
                (waiting_stays _ _ _ _ Hw)) as Hst.
  pose proof Hst as (Hi & Hs & Hc & _).
  split; [by eapply stays_Inv|].
  split; [rewrite Hi, Hs; by eapply entered_ins|].
  split.
  - intros ->. rewrite Hi, Hs. apply canPrev_of_true. apply Hent.
  - rewrite <- (entered_not_expired _ _ _ _ _ _ Hent).
    apply expired_ext; [exact Hc|]. simpl.
    pose proof (footprint_entered _ _ _ _ _ _ Hent) as [Hp2].
    pose proof (footprint_waiting _ _ _ _ Hw) as [Hp3]. congruence.
Qed.

Lemma pass_Inv cs cs' : pass cs cs' -> EngraveInv cs.2 -> EngraveInv cs'.2.
Proof.
  intros
    [ctx s ins cp ctx2 s2 ret _ _ Hq Hm
    |ctx s ins cp ctx2 s2 dlg ctx3 dlg3 Hent _ _
    |ctx s ins cp ctx2 s2 w ctx3 Hent _ _ _ _
    |ctx s ins cp ctx2 s2 ctx3 s3 e rest ctx4 s4 Hent Hw _ Hh] HI; simpl in *.
  - rewrite expired_Progress in Hq. unfold expired in Hq.
    apply andb_true_iff in Hq as [Hrun _].
    destruct (moveStep_expiry (ConfirmDelay_.Progress (confirm s) ctx).1 s HI Hrun)
      as (c' & s' & r' & Hm' & HI' & _).
    rewrite Hm in Hm'. injection Hm' as <- <- <-. exact HI'.
  - apply (stays_Inv s); [|exact HI].
    eapply stays_trans; [by eapply entered_stays|]. by repeat split.
  - apply (stays_Inv s); [|exact HI].
    eapply stays_trans; [by eapply entered_stays|]. by repeat split.
  - destruct (event_ready _ _ _ _ _ _ _ _ rest HI Hent Hw) as (HI3 & Hlk & Hprev & Hexp).
    destruct (handle_Inv e ins cp (set_events ctx3 rest) s3 HI3 Hlk Hprev Hexp)
      as (c' & s' & r' & Hh' & Hret & _).
    rewrite Hh in Hh'. injection Hh' as <- <- <-. apply Hret.
Qed.

Lemma armed_pass cs cs' : pass cs cs' -> EngraveInv cs.2 -> started_armed cs.1 cs'.1.
Proof.
  intros
    [ctx s ins cp ctx2 s2 ret _ _ Hq Hm
    |ctx s ins cp ctx2 s2 dlg ctx3 dlg3 Hent _ Hdlg
    |ctx s ins cp ctx2 s2 w ctx3 Hent _ _ Herr _
    |ctx s ins cp ctx2 s2 ctx3 s3 e rest ctx4 s4 Hent Hw _ Hh] HI; simpl in *.
  - eapply armed_trans; [apply armed_Progress|]. by eapply armed_moveStep.
  - eapply armed_trans; [by eapply armed_entered|].
    pose proof (armed_ConfirmLayout_loop (events ctx2) ctx2 dlg) as Ha.
    unfold ConfirmWarningScreen_.Layout in Hdlg. by rewrite Hdlg in Ha.
  - eapply armed_trans; [by eapply armed_entered|].
    pose proof (armed_ErrorLayout_loop (events ctx2) ctx2) as Ha.
    unfold ErrorScreen_.Layout in Herr. by rewrite Herr in Ha.
  - destruct (event_ready _ _ _ _ _ _ _ _ rest HI Hent Hw) as (HI3 & _).
    eapply armed_trans; [by eapply armed_entered|].
    eapply armed_trans; [by eapply armed_waiting|].
    eapply armed_trans; [by apply (armed_same ctx3 (set_events ctx3 rest))|].
    by eapply armed_handle.
Qed.

Lemma armed_last_pass cs r :
  last_pass cs r -> EngraveInv cs.2 -> started_armed cs.1 r.1.1.
Proof.
  intros
    [ctx s ins cp ctx2 s2 dlg ctx3 dlg3 Hent _ Hdlg
    |ctx s ins cp ctx2 s2 w ctx3 Hent _ _ Herr _
    |ctx s ins cp ctx2 s2 ctx3 s3 Hent Hw _
    |ctx s ins cp ctx2 s2 ctx3 s3 e rest ctx4 s4 Hent Hw _ Hh] HI; simpl in *.
  - eapply armed_trans; [by eapply armed_entered|].
    eapply armed_trans; [|by apply armed_go].
    pose proof (armed_ConfirmLayout_loop (events ctx2) ctx2 dlg) as Ha.
    unfold ConfirmWarningScreen_.Layout in Hdlg. by rewrite Hdlg in Ha.
  - eapply armed_trans; [by eapply armed_entered|].
    eapply armed_trans; [|by apply armed_go].
    pose proof (armed_ErrorLayout_loop (events ctx2) ctx2) as Ha.
    unfold ErrorScreen_.Layout in Herr. by rewrite Herr in Ha.
  - eapply armed_trans; [by eapply armed_entered | by eapply armed_waiting].
  - destruct (event_ready _ _ _ _ _ _ _ _ rest HI Hent Hw) as (HI3 & _).
    eapply armed_trans; [by eapply armed_entered|].
    eapply armed_trans; [by eapply armed_waiting|].
    eapply armed_trans; [by apply (armed_same ctx3 (set_events ctx3 rest))|].
    by eapply armed_handle.
Qed.

Lemma armed_passes cs cs' :
  passes cs cs' -> EngraveInv cs.2 -> EngraveInv cs'.2 /\ started_armed cs.1 cs'.1.
Proof.
  induction 1 as [cs|cs1 cs2 cs3 Hp _ IH]; intros HI.
  - split; [exact HI | apply armed_refl].
  - destruct (IH (pass_Inv _ _ Hp HI)) as [HI3 Ha].
    split; [exact HI3|]. eapply armed_trans; [by apply armed_pass | exact Ha].
Qed.

Lemma armed_no_NilDeref f gs :
  Forall armed gs -> Runtime.NilDeref ∉ Runtime.actions f gs.
Proof.
  unfold Runtime.actions. induction 1 as [|g gs Hg _ IH]; simpl.
  - apply not_elem_of_nil.
  - rewrite elem_of_app. intros [Hin|Hin]; [|by apply IH].
    assert (Hno : forall l : list Runtime.Action,
      Forall (fun a => a <> Runtime.NilDeref) l -> Runtime.NilDeref ∉ l).
    { intros l Hl Hn. rewrite Forall_forall in Hl. by apply (Hl _ Hn). }
    revert Hin. apply Hno.
    destruct g as [d| |d dr side|side|e]; simpl.
    + by repeat constructor.
    + constructor.
    + destruct d as [d|]; [|done]. destruct f; by repeat constructor.
    + constructor.
    + destruct (cancel_ch e), (errs_ch e), f; by repeat constructor.
Qed.

Lemma Layout_armed msgs ctx s :
  EngraveInv s ->
  exists ctx' s' ret gs,
    EngraveScreen_.Layout msgs ctx s = Ok (ctx', s', ret) /\
    spawned ctx' = spawned ctx ++ gs /\ Forall armed gs.
Proof.
  intros HI.
  destruct (Layout_post msgs ctx s HI) as (ctx' & s' & ret & HL & _).
  unfold EngraveScreen_.Layout in HL.
  destruct (drain_Inv msgs ctx s HI) as (ctx1 & s1 & Hd & HI1 & _ & _).
  pose proof Hd as Hd'. apply drain_spec in Hd' as (_ & _ & Hctx1).
  assert (Hsp : spawned ctx1 = spawned ctx)
    by (destruct Hctx1 as [->|(-> & _)]; reflexivity).
  rewrite Hd in HL.
  destruct (loop_passes _ _ _ _ HL) as ([ctx2 s2] & Hps & Hlast).
  destruct (armed_passes (ctx1, s1) (ctx2, s2) Hps HI1) as [HI2 Ha1].
  pose proof (armed_last_pass (ctx2, s2) (ctx', s', ret) Hlast HI2) as Ha2.
  destruct (armed_trans _ _ _ Ha1 Ha2) as (gs & Hgs & Hall). simpl in Hgs.
  exists ctx', s', ret, gs.
  split; [|split; [by rewrite Hgs, Hsp | exact Hall]].
  unfold EngraveScreen_.Layout. by rewrite Hd.
Qed.

End Worker.



(** ** Colors and masks *)

Section Colors.

Local Open Scope N_scope.

Lemma uint8_land n : uint8 n = N.land n 255.
Proof. unfold uint8. change 256 with (2 ^ 8). by rewrite <- N.land_ones. Qed.

Lemma uint8_lt n : uint8 n < 256.
Proof. unfold uint8. by apply N.mod_lt. Qed.

Lemma land_255_lor n : N.land (N.lor 255 n) 255 = 255.
Proof.
  apply N.bits_inj. intros i. rewrite N.land_spec, N.lor_spec.
  change 255 with (N.ones 8).
  destruct (N.lt_ge_cases i 8) as [Hlt|Hge].
  - by rewrite N.ones_spec_low by exact Hlt.
  - rewrite N.ones_spec_high by exact Hge. by rewrite andb_false_r.
Qed.

Lemma argb_pack c :
  c < 2 ^ 32 ->
  cA (argb c) * 2 ^ 24 + cR (argb c) * 2 ^ 16 + cG (argb c) * 2 ^ 8 + cB (argb c) = c.
Proof.
  intros Hc. unfold argb, uint8. simpl. rewrite !N.shiftr_div_pow2.
  change (2 ^ 32) with 4294967296 in Hc.
  change (2 ^ 24) with (256 * 256 * 256). change (2 ^ 16) with (256 * 256).
  change (2 ^ 8) with 256.
  rewrite <- !N.Div0.div_div.
  pose proof (N.div_mod c 256 ltac:(discriminate)) as E1.
  pose proof (N.mod_lt c 256 ltac:(discriminate)) as B1.
  set (q1 := c / 256) in *.
  pose proof (N.div_mod q1 256 ltac:(discriminate)) as E2.
  pose proof (N.mod_lt q1 256 ltac:(discriminate)) as B2.
  set (q2 := q1 / 256) in *.
  pose proof (N.div_mod q2 256 ltac:(discriminate)) as E3.
  pose proof (N.mod_lt q2 256 ltac:(discriminate)) as B3.
  set (q3 := q2 / 256) in *.
  clearbody q3. clearbody q2. clearbody q1.
  set (r1 := c mod 256) in *. set (r2 := q1 mod 256) in *. set (r3 := q2 mod 256) in *.
  clearbody r1 r2 r3.
  assert (Hq3 : q3 < 256) by lia.
  rewrite (N.mod_small q3 256 Hq3). lia.
Qed.

End Colors.

(** X11.  [argb] splits a 32-bit color into its four bytes, alpha in
    the top byte, then red, green and blue, and loses nothing: the four
    components, each below 256, put together again give the color.
    [rgb] is [argb] made opaque: it has the red, green and blue of
    [argb] on the same number, and alpha 255 whatever the top byte of
    the number is. *)
Theorem argb_rgb_components (c : N) :
  (c < 2 ^ 32)%N ->
  (cA (argb c) * 2 ^ 24 + cR (argb c) * 2 ^ 16 + cG (argb c) * 2 ^ 8 + cB (argb c) = c)%N /\
  (cA (argb c) < 256 /\ cR (argb c) < 256 /\ cG (argb c) < 256 /\ cB (argb c) < 256)%N /\
  cA (rgb c) = 255%N /\
  cR (rgb c) = cR (argb c) /\ cG (rgb c) = cG (argb c) /\ cB (rgb c) = cB (argb c).
Proof.
  intros Hc. split; [by apply argb_pack|].
  split; [repeat split; apply uint8_lt|].
  unfold rgb, argb. simpl. rewrite !uint8_land, !N.shiftr_lor.
  change (N.shiftr 4278190080 24) with 255%N.
  change (N.shiftr 4278190080 16) with 65280%N.
  change (N.shiftr 4278190080 8) with 16711680%N.
  rewrite land_255_lor, !N.land_lor_distr_l.
  change (N.land 65280 255) with 0%N.
  change (N.land 16711680 255) with 0%N.
  change (N.land 4278190080 255) with 0%N.
  by rewrite !N.lor_0_l.
Qed.

Lemma argb_rgb_components_witness :
  (16711935 < 2 ^ 32)%N /\ cA (rgb 16711935) = 255%N /\ cR (rgb 16711935) = 255%N.
Proof.
  split; [reflexivity|].
  destruct (argb_rgb_components 16711935 eq_refl) as (_ & _ & HA & HR & _).
  split; [exact HA | exact HR].
Defined.

Section Mask.

Context `{IntSize}.

Local Open Scope Z_scope.

Lemma wrap_small z : - 2 ^ 31 <= z < 2 ^ 31 -> wrap z = z.
Proof.
  intros Hz. unfold wrap, intBits. destruct H; simpl.
  - change (2 ^ 31) with 2147483648 in *. change (2 ^ 32) with 4294967296.
    rewrite Z.mod_small; lia.
  - change (2 ^ 31) with 2147483648 in *. change (2 ^ 63) with 9223372036854775808.
    change (2 ^ 64) with 18446744073709551616.
    rewrite Z.mod_small; lia.
Qed.

(** The opacity of the mask in the row [y] of a rectangle, in exact
    arithmetic. *)
Lemma scrollMask_alpha n x y :
  - 2 ^ 30 <= pY (Min n) <= y -> y <= pY (Max n) < 2 ^ 30 ->
  Z.of_N (c64A (scrollMask.RGBA64At n x y)) =
    if y - pY (Min n) <? 16 then 65535 * (y - pY (Min n)) / 16
    else if pY (Max n) - y <? 16 then 65535 * (pY (Max n) - y) / 16
    else 65535.
Proof.
  intros Hmin Hmax. unfold scrollMask.RGBA64At, scrollMask.Bounds, scrollFadeDist, uint16.
  change (2 ^ 30) with 1073741824 in *. cbn [c64A].
  rewrite (wrap_small (y - pY (Min n))) by (change (2 ^ 31) with 2147483648; lia).
  rewrite (wrap_small (pY (Max n) - y)) by (change (2 ^ 31) with 2147483648; lia).
  destruct (Z.ltb_spec (y - pY (Min n)) 16) as [Htop|Htop].
  - rewrite wrap_small by (change (2 ^ 31) with 2147483648; lia).
    rewrite Z.quot_div_nonneg by lia.
    rewrite Z2N.id by (apply Z.mod_pos_bound; lia).
    apply Z.mod_small. split; [apply Z.div_pos; lia|].
    apply Z.div_lt_upper_bound; lia.
  - destruct (Z.ltb_spec (pY (Max n) - y) 16) as [Hbot|Hbot].
    + rewrite wrap_small by (change (2 ^ 31) with 2147483648; lia).
      rewrite Z.quot_div_nonneg by lia.
      rewrite Z2N.id by (apply Z.mod_pos_bound; lia).
      apply Z.mod_small. split; [apply Z.div_pos; lia|].
      apply Z.div_lt_upper_bound; lia.
    + reflexivity.
Qed.

End Mask.

(** X12.  The scroll mask fades in over the 16 rows at the top of its
    rectangle and fades out over the 16 rows at the bottom.  For a
    rectangle within 2^30 of the origin and a row [y] between its top
    and its bottom, whatever the column: only the alpha component is
    set; it is 65535 d / 16, rounded down, in a row [d] < 16 below the
    top, the same with the distance to the bottom in the last 16 rows
    (the top going first in a rectangle too low for both), and 65535
    (opaque) in between; so it is 0 in the top row, never above 65535,
    and it grows from row to row at the top. *)
Theorem scrollMask_fade `{IntSize} (n : Rectangle) (x y : Z) :
  (- 2 ^ 30 <= pY (Min n) <= y)%Z -> (y <= pY (Max n) < 2 ^ 30)%Z ->
  let a := Z.of_N (c64A (scrollMask.At n x y)) in
  c64R (scrollMask.At n x y) = 0%N /\ c64G (scrollMask.At n x y) = 0%N /\
  c64B (scrollMask.At n x y) = 0%N /\
  (a = if (y - pY (Min n) <? 16)%Z then (65535 * (y - pY (Min n)) / 16)%Z
       else if (pY (Max n) - y <? 16)%Z then (65535 * (pY (Max n) - y) / 16)%Z
       else 65535%Z) /\
  (0 <= a <= 65535)%Z /\
  (y = pY (Min n) -> a = 0%Z) /\
  (16 <= y - pY (Min n) -> 16 <= pY (Max n) - y -> a = 65535)%Z /\
  (y - pY (Min n) < 15 -> y < pY (Max n) ->
   a < Z.of_N (c64A (scrollMask.At n x (y + 1))))%Z.
Proof.
  intros Hmin Hmax a. unfold scrollMask.At in *.
  split; [reflexivity|]. split; [reflexivity|]. split; [reflexivity|].
  pose proof (scrollMask_alpha n x y Hmin Hmax) as Ha. fold a in Ha.
  split; [exact Ha|].
  split; [|split; [|split]].
  - rewrite Ha. destruct (Z.ltb_spec (y - pY (Min n)) 16);
      [|destruct (Z.ltb_spec (pY (Max n) - y) 16)]; try lia.
    + split; [apply Z.div_pos; lia|].
      apply Z.lt_succ_r. apply Z.div_lt_upper_bound; lia.
    + split; [apply Z.div_pos; lia|].
      apply Z.lt_succ_r. apply Z.div_lt_upper_bound; lia.
  - intros ->. rewrite Ha, Z.sub_diag. reflexivity.
  - intros Htop Hbot. rewrite Ha.
    destruct (Z.ltb_spec (y - pY (Min n)) 16); [lia|].
    destruct (Z.ltb_spec (pY (Max n) - y) 16); [lia | reflexivity].
  - intros Htop Hlt. rewrite Ha.
    rewrite (scrollMask_alpha n x (y + 1)) by lia.
    destruct (Z.ltb_spec (y - pY (Min n)) 16); [|lia].
    destruct (Z.ltb_spec (y + 1 - pY (Min n)) 16); [|lia].
    replace (65535 * (y + 1 - pY (Min n)))%Z
      with (65535 * (y - pY (Min n)) + 65535)%Z by lia.
    pose proof (Z.div_mod (65535 * (y - pY (Min n))) 16 ltac:(lia)) as E1.
    pose proof (Z.mod_pos_bound (65535 * (y - pY (Min n))) 16 ltac:(lia)) as B1.
    pose proof (Z.div_mod (65535 * (y - pY (Min n)) + 65535) 16 ltac:(lia)) as E2.
    pose proof (Z.mod_pos_bound (65535 * (y - pY (Min n)) + 65535) 16 ltac:(lia)) as B2.
    set (q1 := (65535 * (y - pY (Min n)) / 16)%Z) in *.
    set (q2 := ((65535 * (y - pY (Min n)) + 65535) / 16)%Z) in *.
    set (r1 := ((65535 * (y - pY (Min n))) mod 16)%Z) in *.
    set (r2 := ((65535 * (y - pY (Min n)) + 65535) mod 16)%Z) in *.
    clearbody q1 q2 r1 r2. lia.
Qed.

Lemma scrollMask_fade_witness :
  let n := mkRectangle (mkPoint 0 50) (mkPoint 240 200) in
  (- 2 ^ 30 <= pY (Min n) <= 58)%Z /\
  Z.of_N (c64A (@scrollMask.At Int32 n 7 58)) = 32767%Z.
Proof.
  split; [vm_compute; split; discriminate|].
  destruct (@scrollMask_fade Int32 (mkRectangle (mkPoint 0 50) (mkPoint 240 200)) 7 58
              ltac:(vm_compute; split; discriminate) ltac:(vm_compute; split; [discriminate | reflexivity]))
    as (_ & _ & _ & Ha & _).
  exact Ha.
Defined.

(** ** The text of a derivation path *)

Section PathText.

Local Open Scope string_scope.

Lemma digits_uint d : digits (NilEmpty.string_of_uint d).
Proof. induction d; simpl; auto. Qed.

Lemma digits_decimal n : digits (decimal n).
Proof.
  unfold decimal, NilZero.string_of_uint.
  destruct (N.to_uint n); try apply (digits_uint (_ _)); simpl; auto.
Qed.

Lemma to_uint_nonnil n : N.to_uint n <> Decimal.Nil.
Proof.
  destruct n; [discriminate|]. apply DecimalPos.Unsigned.to_uint_nonnil.
Qed.

Lemma decimal_inj n m : decimal n = decimal m -> n = m.
Proof.
  unfold decimal. intros Heq. apply DecimalN.Unsigned.to_uint_inj.
  apply (f_equal NilZero.uint_of_string) in Heq.
  rewrite !NilZero.usu in Heq by apply to_uint_nonnil.
  by injection Heq.
Qed.

Lemma append_nil_l (t : string) : String.append "" t = t.
Proof. reflexivity. Qed.

Lemma append_cons c (s t : string) :
  String.append (String c s) t = String c (String.append s t).
Proof. reflexivity. Qed.

Lemma append_nil_r (s : string) : String.append s "" = s.
Proof. induction s as [|c s IH]; [reflexivity|]. by rewrite append_cons, IH. Qed.

(** A run of digits is read off a text in one way only. *)
Lemma digits_split s1 : forall s2 t1 t2,
  digits s1 -> digits s2 -> stops t1 -> stops t2 ->
  String.append s1 t1 = String.append s2 t2 -> s1 = s2 /\ t1 = t2.
Proof.
  induction s1 as [|c s1 IH]; intros [|c2 s2] t1 t2 H1 H2 Ht1 Ht2 Heq;
    rewrite ?append_nil_l, ?append_cons in Heq; simpl in *.
  - by split.
  - subst t1. simpl in Ht1. destruct H2 as [H2 _]. congruence.
  - subst t2. simpl in Ht2. destruct H1 as [H1 _]. congruence.
  - injection Heq as -> Heq. destruct H1 as [_ H1], H2 as [_ H2].
    destruct (IH s2 t1 t2 H1 H2 Ht1 Ht2 Heq) as [-> ->]. by split.
Qed.

Lemma append_assoc (a b c : string) :
  String.append (String.append a b) c = String.append a (String.append b c).
Proof.
  induction a as [|x a IH]; [reflexivity|]. by rewrite !append_cons, IH.
Qed.

Lemma pathElement_split p q r1 r2 :
  tail_ok r1 -> tail_ok r2 ->
  String.append (pathElement p) r1 = String.append (pathElement q) r2 ->
  p = q /\ r1 = r2.
Proof.
  intros Hr1 Hr2. unfold pathElement. rewrite !append_cons, !append_nil_l.
  intros [= Heq].
  assert (Hstop : forall r, tail_ok r -> stops r /\ stops (String "'" r)).
  { intros r [->|[r' ->]]; by split. }
  destruct (N.leb_spec HardenedKeyStart p) as [Hp|Hp];
    destruct (N.leb_spec HardenedKeyStart q) as [Hq|Hq];
    rewrite ?append_assoc, ?append_cons, ?append_nil_l in Heq.
  - apply digits_split in Heq as [Hd [= ->]];
      try apply digits_decimal; try (by apply Hstop).
    apply decimal_inj in Hd. split; [lia | reflexivity].
  - apply digits_split in Heq as [_ Ht];
      try apply digits_decimal; try (by apply Hstop).
    exfalso. destruct Hr2 as [->|[r' ->]]; discriminate Ht.
  - apply digits_split in Heq as [_ Ht];
      try apply digits_decimal; try (by apply Hstop).
    exfalso. destruct Hr1 as [->|[r' ->]]; discriminate Ht.
  - apply digits_split in Heq as [Hd ->];
      try apply digits_decimal; try (by apply Hstop).
    apply decimal_inj in Hd. by split.
Qed.

Lemma concat_cons p l :
  String.concat "" (map pathElement (p :: l)) =
  String.append (pathElement p) (String.concat "" (map pathElement l)).
Proof.
  destruct l as [|q l]; simpl; [by rewrite append_nil_r | reflexivity].
Qed.

Lemma pathElement_head p : exists r, pathElement p = String "/" r.
Proof. unfold pathElement. rewrite append_cons, append_nil_l. eauto. Qed.

Lemma tail_ok_elements l : tail_ok (String.concat "" (map pathElement l)).
Proof.
  destruct l as [|p l]; [by left|]. right.
  rewrite concat_cons. destruct (pathElement_head p) as [r ->].
  rewrite append_cons. eauto.
Qed.

Lemma elements_inj l1 : forall l2,
  String.concat "" (map pathElement l1) = String.concat "" (map pathElement l2) ->
  l1 = l2.
Proof.
  induction l1 as [|p l1 IH]; intros [|q l2] Heq.
  - reflexivity.
  - rewrite concat_cons in Heq. destruct (pathElement_head q) as [r Hr].
    rewrite Hr, append_cons in Heq. discriminate Heq.
  - rewrite concat_cons in Heq. destruct (pathElement_head p) as [r Hr].
    rewrite Hr, append_cons in Heq. discriminate Heq.
  - rewrite !concat_cons in Heq.
    apply pathElement_split in Heq as [-> Heq]; try apply tail_ok_elements.
    by rewrite (IH l2 Heq).
Qed.

End PathText.

(** X13.  The text of a derivation path tells the path: two paths that
    [derivationPath] writes the same are the same path, element by
    element, hardened or not.  The text starts with "m" and the path
    without elements is written "m". *)
Theorem derivationPath_inj (p q : Path) :
  (derivationPath p = derivationPath q -> p = q) /\
  derivationPath [] = "m"%string /\
  exists rest, derivationPath p = String "m" rest.
Proof.
  split; [|split].
  - unfold derivationPath. rewrite !append_cons, !append_nil_l.
    intros [= Heq]. by apply elements_inj.
  - reflexivity.
  - unfold derivationPath. rewrite append_cons, append_nil_l. eauto.
Qed.

Example derivationPath_sample :
  derivationPath [2147483696; 2147483648; 0; 2147483650]%N = "m/48'/0'/0/2'"%string.
Proof. reflexivity. Qed.

(** ** The choice screen *)

Section Choice.

Lemma ChoiceHandle_walk e s :
  decides e = false ->
  exists s',
    ChoiceScreen_.handle e s = (s', None) /\
    Choices s' = Choices s /\
    choice s' = walk (length (Choices s)) (choice s) [e].
Proof.
  unfold decides, ChoiceScreen_.handle. simpl. intros Hd.
  assert (Hdown : (Z.of_nat (choice s) <? Z.of_nat (length (Choices s)) - 1)%Z
                  = (choice s + 1 <? length (Choices s))).
  { destruct (Z.ltb_spec (Z.of_nat (choice s)) (Z.of_nat (length (Choices s)) - 1));
      destruct (Nat.ltb_spec (choice s + 1) (length (Choices s))); lia. }
  rewrite Hdown.
  assert (Hup : (if 0 <? choice s then choice s - 1 else choice s) = choice s - 1).
  { destruct (Nat.ltb_spec 0 (choice s)); lia. }
  destruct (Nat.eqb_spec (Button e) input.Button1) as [Hb1|Hb1];
    [simpl in Hd; rewrite Hd, Hb1; simpl; eauto|].
  destruct (Nat.eqb_spec (Button e) input.Button3) as [Hb3|Hb3];
    [simpl in Hd; rewrite Hd, Hb3; simpl; eauto|].
  destruct (Nat.eqb_spec (Button e) input.Center) as [Hc|Hc];
    [simpl in Hd; rewrite Hd, Hc; simpl; eauto|].
  simpl.
  destruct (Nat.eqb_spec (Button e) input.Up) as [Hu|Hu];
    destruct (Nat.eqb_spec (Button e) input.Down) as [Hdn|Hdn];
    destruct (Pressed e); simpl; eauto.
  - rewrite Hu in Hdn. discriminate Hdn.
  - destruct (0 <? choice s) eqn:Hz; simpl; eauto.
  - destruct (choice s + 1 <? length (Choices s)); simpl; eauto.
Qed.

Lemma ChoiceHandle_decides e s :
  decides e = true ->
  ChoiceScreen_.handle e s =
    (s, Some (if Button e =? input.Button1 then (-1)%Z else Z.of_nat (choice s))).
Proof.
  unfold decides, ChoiceScreen_.handle. intros Hd.
  apply andb_true_iff in Hd as [Hb ->].
  destruct (Button e =? input.Button1); [reflexivity|].
  simpl in Hb. by rewrite Hb.
Qed.

Lemma walk_app n c l1 l2 : walk n c (l1 ++ l2) = walk n (walk n c l1) l2.
Proof.
  revert c. induction l1 as [|e l1 IH]; intros c; [reflexivity|]. simpl.
  destruct (_ && _); [apply IH|]. destruct (_ && _); apply IH.
Qed.

Lemma walk_range n c l : c < n -> walk n c l < n.
Proof.
  revert c. induction l as [|e l IH]; intros c Hc; [exact Hc|]. simpl.
  destruct (_ && _); [apply IH; lia|].
  destruct (_ && _); [|by apply IH].
  apply IH. destruct (Nat.ltb_spec (c + 1) n); lia.
Qed.

Lemma ChoiceLayout_loop_undecided evs ctx s :
  Forall (fun e => decides e = false) evs ->
  exists s',
    ChoiceScreen_.Layout_loop evs ctx s =
      (match evs with [] => ctx | _ => set_events ctx [] end, s', (0%Z, false)) /\
    Choices s' = Choices s /\
    choice s' = walk (length (Choices s)) (choice s) evs.
Proof.
  intros Hall. revert ctx s.
  induction Hall as [|e rest He Hrest IH]; intros ctx s; simpl.
  - eauto.
  - destruct (ChoiceHandle_walk e s He) as (s1 & -> & HC1 & Hc1).
    destruct (IH (set_events ctx rest) s1) as (s' & Hl & HC & Hc).
    exists s'. split.
    + rewrite Hl. by destruct rest.
    + split; [congruence|]. rewrite Hc, HC1, Hc1.
      symmetry. apply (walk_app _ _ [e] rest).
Qed.

Lemma ChoiceLayout_loop_decided pre e post ctx s :
  Forall (fun e => decides e = false) pre -> decides e = true ->
  exists s',
    ChoiceScreen_.Layout_loop (pre ++ e :: post) ctx s =
      (set_events ctx post, s',
       (if Button e =? input.Button1 then (-1)%Z else Z.of_nat (choice s'), true)) /\
    Choices s' = Choices s /\
    choice s' = walk (length (Choices s)) (choice s) pre.
Proof.
  intros Hall He. revert ctx s.
  induction Hall as [|x pre Hx _ IH]; intros ctx s; simpl.
  - rewrite (ChoiceHandle_decides e s He). eauto.
  - destruct (ChoiceHandle_walk x s Hx) as (s1 & -> & HC1 & Hc1).
    destruct (IH (set_events ctx (pre ++ e :: post)) s1) as (s' & Hl & HC & Hc).
    exists s'. split; [exact Hl|]. split; [congruence|].
    rewrite Hc, HC1, Hc1. symmetry. apply (walk_app _ _ [x] pre).
Qed.

End Choice.

(** X14.  The choice screen never leaves its list.  An inactive screen
    takes no event and changes nothing.  An active screen goes through
    the queue up to the first click of button 1, button 3 or the center
    button: a press of Down moves the choice one down unless it is the
    last, a press of Up one up unless it is the first, so that a choice
    that is an index of the list stays one.  The deciding click is the
    last event taken; button 1 answers -1 and the two others answer the
    choice, an index of the list.  Without a deciding click the whole
    queue is taken and there is no answer. *)
Theorem ChoiceScreen_Layout_choice (s : ChoiceScreen) (ctx : Context) :
  choice s < length (Choices s) ->
  let n := length (Choices s) in
  ChoiceScreen_.Layout s ctx false = (ctx, s, (0%Z, false)) /\
  (forall pre e post,
     events ctx = pre ++ e :: post ->
     Forall (fun e => decides e = false) pre -> decides e = true ->
     exists s',
       ChoiceScreen_.Layout s ctx true =
         (set_events ctx post, s',
          (if Button e =? input.Button1 then (-1)%Z else Z.of_nat (choice s'), true)) /\
       Choices s' = Choices s /\
       choice s' = walk n (choice s) pre /\ choice s' < n) /\
  (Forall (fun e => decides e = false) (events ctx) ->
   exists ctx' s',
     ChoiceScreen_.Layout s ctx true = (ctx', s', (0%Z, false)) /\
     events ctx' = [] /\
     Choices s' = Choices s /\
     choice s' = walk n (choice s) (events ctx) /\ choice s' < n).
Proof.
  intros Hc n. split; [reflexivity|]. split.
  - intros pre e post Hev Hpre He. unfold ChoiceScreen_.Layout. rewrite Hev.
    destruct (ChoiceLayout_loop_decided pre e post ctx s Hpre He) as (s' & Hl & HC & Hw).
    exists s'. split; [exact Hl|]. split; [exact HC|]. split; [exact Hw|].
    rewrite Hw. by apply walk_range.
  - intros Hall. unfold ChoiceScreen_.Layout.
    destruct (ChoiceLayout_loop_undecided (events ctx) ctx s Hall) as (s' & Hl & HC & Hw).
    eexists _, s'. split; [exact Hl|].
    split; [by destruct (events ctx) eqn:Hev|]. split; [exact HC|]. split; [exact Hw|].
    rewrite Hw. by apply walk_range.
Qed.

Lemma ChoiceScreen_Layout_choice_witness :
  let s := mkChoiceScreen "Input Seed" "Choose number of words" ["12 WORDS"; "24 WORDS"] 0 in
  let ctx := Context_.Events (sampleContext 0%Z)
               (click input.Down ++ click input.Down ++ click input.Button3) in
  choice s < length (Choices s) /\
  exists ctx' s',
    ChoiceScreen_.Layout s ctx true = (ctx', s', (1%Z, true)) /\ events ctx' = [].
Proof.
  split; [vm_compute; lia|].
  destruct (ChoiceScreen_Layout_choice
              (mkChoiceScreen "Input Seed" "Choose number of words"
                 ["12 WORDS"; "24 WORDS"] 0)
              (Context_.Events (sampleContext 0%Z)
                 (click input.Down ++ click input.Down ++ click input.Button3))
              ltac:(vm_compute; lia))
    as (_ & Hdec & _).
  destruct (Hdec
    [mkEvent (press input.Down) false; mkEvent (release input.Down) true;
     mkEvent (press input.Down) false; mkEvent (release input.Down) true;
     mkEvent (press input.Button3) false]
    (mkEvent (release input.Button3) true) [] eq_refl
    ltac:(repeat constructor) eq_refl) as (s' & Hl & _ & Hw & _).
  eexists _, s'. split; [rewrite Hl, Hw; reflexivity | reflexivity].
Defined.

(** ** The cosigners screen *)

Section Cosigners.

Context `{IntSize}.

Local Open Scope Z_scope.

Lemma rem_range a n : 0 <= a -> 0 < n -> 0 <= Z.rem a n < n.
Proof.
  intros Ha Hn. rewrite Z.rem_mod_nonneg by lia. apply Z.mod_pos_bound. lia.
Qed.

Lemma CosignersHandle_page e s :
  let n := length (Keys (co_Descriptor s)) in
  (0 < n)%nat -> Z.of_nat n < 2 ^ 30 -> (page s < n)%nat ->
  exists s' ret,
    CosignersScreen_.handle e s = Ok (s', ret) /\
    co_Descriptor s' = co_Descriptor s /\ (page s' < n)%nat.
Proof.
  intros n Hn Hsmall Hp. unfold CosignersScreen_.handle, int_rem.
  fold n. change (2 ^ 30) with 1073741824 in Hsmall.
  destruct (Button e =? input.Button1)%nat; [eauto|].
  destruct (Z.eqb_spec (Z.of_nat n) 0) as [|_]; [lia|].
  destruct (Button e =? input.Left)%nat.
  { destruct (Pressed e); [|eauto]. cbn [mbind res_bind].
    rewrite (wrap_small (Z.of_nat (page s) - 1))
      by (change (2 ^ 31) with 2147483648; lia).
    rewrite wrap_small by (change (2 ^ 31) with 2147483648; lia).
    eexists _, _. split; [reflexivity|]. split; [reflexivity|]. simpl.
    pose proof (rem_range (Z.of_nat (page s) - 1 + Z.of_nat n) (Z.of_nat n)
                  ltac:(lia) ltac:(lia)). lia. }
  destruct (Button e =? input.Right)%nat.
  { destruct (Pressed e); [|eauto]. cbn [mbind res_bind].
    rewrite wrap_small by (change (2 ^ 31) with 2147483648; lia).
    eexists _, _. split; [reflexivity|]. split; [reflexivity|]. simpl.
    pose proof (rem_range (Z.of_nat (page s) + 1) (Z.of_nat n)
                  ltac:(lia) ltac:(lia)). lia. }
  destruct (Button e =? input.Up)%nat; [destruct (Pressed e); eauto|].
  destruct (Button e =? input.Down)%nat; [destruct (Pressed e); eauto|].
  eauto.
Qed.

Lemma CosignersLayout_loop_page evs ctx s :
  let n := length (Keys (co_Descriptor s)) in
  (0 < n)%nat -> Z.of_nat n < 2 ^ 30 -> (page s < n)%nat ->
  events ctx = evs ->
  exists ctx' s' ret,
    CosignersScreen_.Layout_loop evs ctx s = Ok (ctx', s', ret) /\
    co_Descriptor s' = co_Descriptor s /\ (page s' < n)%nat /\
    (ret = false -> events ctx' = []).
Proof.
  cbv zeta. revert ctx s.
  induction evs as [|e rest IH]; intros ctx s Hn Hsmall Hp Hev; simpl.
  - exists ctx, s, false. auto.
  - destruct (CosignersHandle_page e s Hn Hsmall Hp) as (s1 & ret & -> & Hd & Hp1).
    cbn [mbind res_bind]. destruct ret.
    + eexists _, _, _. split; [reflexivity|]. split; [exact Hd|].
      split; [exact Hp1 | discriminate].
    + destruct (IH (set_events ctx rest) s1) as (ctx' & s' & ret & Hl & Hd' & Hp' & He');
        rewrite ?Hd; auto.
      exists ctx', s', ret. split; [exact Hl|]. split; [congruence|].
      split; [by rewrite <- Hd | exact He'].
Qed.

(** Without a share there is no page to show. *)
Lemma CosignersLayout_loop_empty evs ctx s :
  Keys (co_Descriptor s) = [] ->
  Forall (fun e => isClick input.Button1 e = false) evs ->
  CosignersScreen_.Layout_loop evs ctx s = Panic \/
  exists ctx' s',
    CosignersScreen_.Layout_loop evs ctx s = Ok (ctx', s', false) /\
    Keys (co_Descriptor s') = [].
Proof.
  intros Hk Hall. revert ctx s Hk.
  induction Hall as [|e rest He _ IH]; intros ctx s Hk; simpl.
  - right. eauto.
  - assert (Hh : CosignersScreen_.handle e s = Panic \/
                 exists s1, CosignersScreen_.handle e s = Ok (s1, false) /\
                            Keys (co_Descriptor s1) = []).
    { unfold CosignersScreen_.handle, int_rem. rewrite Hk. simpl.
      unfold isClick in He.
      destruct (Button e =? input.Button1)%nat; [simpl in He; rewrite He; eauto|].
      destruct (Button e =? input.Left)%nat; [destruct (Pressed e); eauto|].
      destruct (Button e =? input.Right)%nat; [destruct (Pressed e); eauto|].
      destruct (Button e =? input.Up)%nat; [destruct (Pressed e); eauto|].
      destruct (Button e =? input.Down)%nat; [destruct (Pressed e); eauto|].
      eauto. }
    destruct Hh as [->|(s1 & -> & Hk1)]; [by left|].
    cbn [mbind res_bind]. by apply IH.
Qed.

End Cosigners.

(** X15.  The cosigners screen stays on a share and on a line.  With a
    descriptor of at least one share (and fewer than 2^30), a page that
    is the index of a share, and a text of at least one line (and fewer
    than 2^30) for each share, [Layout] never panics; the page it leaves
    is again the index of a share; and when it does not return to the
    caller's screen, the queue is used up and the scroll position is
    clamped between 0 and the number of lines less 8, and is the index
    of a line.  A press of Left followed by a press of Right leads back
    to the same page. *)
Theorem CosignersScreen_Layout_bounds `{IntSize} (nlines : KeyDescriptor -> nat)
    (s : CosignersScreen) (ctx : Context) :
  let n := length (Keys (co_Descriptor s)) in
  0 < n ->
  (Z.of_nat n < 2 ^ 30)%Z -> page s < n ->
  (forall k, k ∈ Keys (co_Descriptor s) -> 0 < nlines k /\ (Z.of_nat (nlines k) < 2 ^ 30)%Z) ->
  (exists ctx' s' ret,
     CosignersScreen_.Layout nlines s ctx = Ok (ctx', s', ret) /\
     co_Descriptor s' = co_Descriptor s /\
     exists k, Keys (co_Descriptor s) !! page s' = Some k /\
       (ret = false ->
        events ctx' = [] /\
        (0 <= scroll s' <= Z.max 0 (Z.of_nat (nlines k) - 8))%Z /\
        (scroll s' < Z.of_nat (nlines k))%Z)) /\
  (forall r1 r2,
     exists s1 s2,
       CosignersScreen_.handle (mkEvent (input.mkEvent input.Left true r1) false) s
         = Ok (s1, false) /\
       CosignersScreen_.handle (mkEvent (input.mkEvent input.Right true r2) false) s1
         = Ok (s2, false) /\
       page s2 = page s).
Proof.
  intros n Hn Hsmall Hp Hlines. split.
  - unfold CosignersScreen_.Layout.
    destruct (CosignersLayout_loop_page (events ctx) ctx s Hn Hsmall Hp eq_refl)
      as (ctx' & s' & ret & -> & Hd & Hp' & He').
    cbn [mbind res_bind]. fold n in Hp'.
    assert (Hk : exists k, Keys (co_Descriptor s) !! page s' = Some k)
      by (by apply lookup_lt_is_Some).
    destruct Hk as [k Hk].
    destruct ret.
    + eexists _, _, _. split; [reflexivity|]. split; [exact Hd|].
      exists k. split; [exact Hk | discriminate].
    + rewrite Hd. unfold index. rewrite Hk. cbn [mbind res_bind].
      destruct (Hlines k (list_elem_of_lookup_2 _ _ _ Hk)) as [Hpos Hlt].
      change (2 ^ 30)%Z with 1073741824%Z in Hlt.
      unfold linesPerPage.
      rewrite wrap_small by (change (2 ^ 31)%Z with 2147483648%Z; lia).
      set (sc := if (Z.of_nat (nlines k) - 8 <? scroll s')%Z
                 then (Z.of_nat (nlines k) - 8)%Z else scroll s').
      set (sc' := if (sc <? 0)%Z then 0%Z else sc).
      assert (Hsc : (0 <= sc' <= Z.max 0 (Z.of_nat (nlines k) - 8))%Z).
      { subst sc' sc.
        destruct (Z.ltb_spec (Z.of_nat (nlines k) - 8) (scroll s'));
          match goal with |- context [(?x <? 0)%Z] => destruct (Z.ltb_spec x 0) end;
          lia. }
      destruct (Z.ltb_spec sc' (Z.of_nat (nlines k))) as [Hin|Hout]; [|lia].
      eexists _, _, _. split; [reflexivity|]. split; [exact Hd|].
      exists k. split; [exact Hk|]. intros _. simpl.
      split; [by apply He'|]. split; [exact Hsc | exact Hin].
  - intros r1 r2. unfold CosignersScreen_.handle, int_rem. simpl.
    fold n. change (2 ^ 30)%Z with 1073741824%Z in Hsmall.
    destruct (Z.eqb_spec (Z.of_nat n) 0) as [|_]; [lia|]. cbn [mbind res_bind].
    eexists _, _. split; [reflexivity|]. simpl. fold n.
    destruct (Z.eqb_spec (Z.of_nat n) 0) as [|_]; [lia|]. cbn [mbind res_bind].
    split; [reflexivity|]. simpl.
    rewrite (wrap_small (Z.of_nat (page s) - 1))
      by (change (2 ^ 31)%Z with 2147483648%Z; lia).
    rewrite (wrap_small (Z.of_nat (page s) - 1 + Z.of_nat n))
      by (change (2 ^ 31)%Z with 2147483648%Z; lia).
    pose proof (rem_range (Z.of_nat (page s) - 1 + Z.of_nat n) (Z.of_nat n)
                  ltac:(lia) ltac:(lia)) as Hr.
    rewrite Z2Nat.id by lia.
    rewrite wrap_small by (change (2 ^ 31)%Z with 2147483648%Z; lia).
    rewrite !Z.rem_mod_nonneg by lia.
    rewrite Zplus_mod_idemp_l.
    replace (Z.of_nat (page s) - 1 + Z.of_nat n + 1)%Z
      with (Z.of_nat (page s) + 1 * Z.of_nat n)%Z by lia.
    rewrite Z_mod_plus_full, Z.mod_small by lia. apply Nat2Z.id.
Qed.

Lemma Ok_inj {A} (a b : A) : Ok a = Ok b -> a = b.
Proof. by intros [= ->]. Qed.

(** Right from the second share of two, then Down twice, with a text
    of eleven lines: the first share, scrolled to the last page. *)
Lemma CosignersLayout_sample :
  @CosignersScreen_.Layout Int32 (fun _ => 11) (mkCosignersScreen sampleDescriptor 1 0%Z)
     (Context_.Events (sampleContext 0%Z)
        (click input.Right ++ click input.Down ++ click input.Down))
   = Ok (set_events (Context_.Events (sampleContext 0%Z)
           (click input.Right ++ click input.Down ++ click input.Down)) [],
         mkCosignersScreen sampleDescriptor 0 3%Z, false).
Proof. vm_compute. reflexivity. Qed.

Lemma CosignersScreen_Layout_bounds_witness :
  let s := mkCosignersScreen sampleDescriptor 1 0%Z in
  let ctx := Context_.Events (sampleContext 0%Z)
               (click input.Right ++ click input.Down ++ click input.Down) in
  exists ctx',
    @CosignersScreen_.Layout Int32 (fun _ => 11) s ctx
      = Ok (ctx', mkCosignersScreen sampleDescriptor 0 3%Z, false) /\
    events ctx' = [].
Proof.
  intros s ctx.
  destruct (@CosignersScreen_Layout_bounds Int32 (fun _ => 11)
              (mkCosignersScreen sampleDescriptor 1 0%Z)
              (Context_.Events (sampleContext 0%Z)
                 (click input.Right ++ click input.Down ++ click input.Down))
              ltac:(vm_compute; lia) ltac:(vm_compute; reflexivity)
              ltac:(vm_compute; lia)
              ltac:(intros k _; split; [lia | vm_compute; reflexivity]))
    as [(ctx' & s' & ret & Hl & _ & k & _ & Hf) _].
  pose proof CosignersLayout_sample as Hc. rewrite Hl in Hc.
  apply Ok_inj in Hc. apply pair_equal_spec in Hc as [Hc Hr].
  apply pair_equal_spec in Hc as [Hc Hs].
  exists ctx'. split; [rewrite <- Hs, <- Hr; exact Hl | exact (proj1 (Hf Hr))].
Defined.

(** X16.  A descriptor without shares cannot be shown: [Layout] panics,
    on the division by the number of shares at a press of Left or Right,
    or else at the share [desc.Keys[s.page]], unless a click of button 1
    closes the screen first. *)
Theorem CosignersScreen_Layout_no_keys `{IntSize} (nlines : KeyDescriptor -> nat)
    (s : CosignersScreen) (ctx : Context) :
  Keys (co_Descriptor s) = [] ->
  Forall (fun e => isClick input.Button1 e = false) (events ctx) ->
  CosignersScreen_.Layout nlines s ctx = Panic.
Proof.
  intros Hk Hall. unfold CosignersScreen_.Layout.
  destruct (CosignersLayout_loop_empty (events ctx) ctx s Hk Hall)
    as [->|(ctx' & s' & -> & Hk')]; [reflexivity|].
  cbn [mbind res_bind]. unfold index. by rewrite Hk'.
Qed.

Lemma CosignersScreen_Layout_no_keys_witness :
  let s := mkCosignersScreen (mkOutputDescriptor P2WSH 1 []) 0 0%Z in
  @CosignersScreen_.Layout Int64 (fun _ => 11) s
    (Context_.Events (sampleContext 0%Z) (click input.Down)) = Panic.
Proof.
  apply (@CosignersScreen_Layout_no_keys Int64 (fun _ => 11)
           (mkCosignersScreen (mkOutputDescriptor P2WSH 1 []) 0 0%Z)
           (Context_.Events (sampleContext 0%Z) (click input.Down))
           eq_refl).
  vm_compute. repeat constructor.
Defined.

(** ** The keys of the keyboard *)

Section Keys.

Context `{Bip39} (Hspec : Bip39Spec).

Implicit Types (p w : gostring) (ws : list gostring) (k : Keyboard).

(** The loop of [updateMask] clears no other bit than those of the
    letters that follow [word] in the words it goes through. *)
Lemma maskLoop_exact p ws nv m n m' :
  (forall w c, w ∈ ws -> c ∈ w -> lowerLetter c) ->
  Keyboard_.maskLoop p ws nv m = Ok (n, m') ->
  forall j, N.testbit m' j = false ->
    N.testbit m j = false \/
    exists w c rest, w ∈ run p ws /\ drop (length p) w = c :: rest /\
      j = N.of_nat (nat_of_ascii c - 97).
Proof.
  revert nv m. induction ws as [|w ws IH]; intros nv m Hlow; simpl.
  - intros [= _ <-] j Hj. by left.
  - unfold HasPrefix. destruct (decide (p `prefix_of` w)) as [Hp|Hp].
    + rewrite bool_decide_eq_true_2 by exact Hp. simpl.
      assert (Hlow' : forall w' c, w' ∈ ws -> c ∈ w' -> lowerLetter c)
        by (intros w' c Hw'; apply Hlow; by right).
      destruct (drop (length p) w) as [|c0 s0] eqn:Hsuf; simpl.
      * intros Hloop j Hj.
        destruct (IH _ _ Hlow' Hloop j Hj) as [Hm|(w' & c & rest & Hw' & Hd & Hjc)];
          [by left|].
        right. exists w', c, rest. split; [by right|]. by split.
      * assert (Hc0 : lowerLetter c0).
        { apply (Hlow w c0); [left|].
          apply (elem_of_drop_in _ (length p)). rewrite Hsuf. left. }
        rewrite (idxForRune_letter c0 Hc0). intros Hloop j Hj.
        destruct (IH _ _ Hlow' Hloop j Hj) as [Hm|(w' & c & rest & Hw' & Hd & Hjc)].
        -- rewrite ldiff_bit in Hm.
           destruct (N.eqb_spec (N.of_nat (nat_of_ascii c0 - 97)) j) as [Heq|Hne].
           ++ right. exists w, c0, s0. split; [left|]. by split.
           ++ left. simpl in Hm. by rewrite andb_true_r in Hm.
        -- right. exists w', c, rest. split; [by right|]. by split.
    + rewrite bool_decide_eq_false_2 by exact Hp. simpl.
      intros [= _ <-] j Hj. by left.
Qed.

Lemma idxForRune_Some r idx :
  Keyboard_.idxForRune r = Some idx ->
  (65 <= r < 97)%Z /\ idx = Z.to_nat (r - 65).
Proof.
  unfold Keyboard_.idxForRune.
  destruct (Z.ltb_spec (r - 65) 0); simpl; [discriminate|].
  destruct (Z.leb_spec 32 (r - 65)); [discriminate|].
  intros [= <-]. split; [lia | reflexivity].
Qed.

(** With every bit of the mask set only the backspace key is left. *)
Lemma Valid_allOnes k r :
  mask k = allOnes -> r <> backspace -> Keyboard_.Valid k r = false.
Proof.
  intros Hm Hr. unfold Keyboard_.Valid.
  apply Z.eqb_neq in Hr as ->.
  destruct (Keyboard_.idxForRune r) as [idx|] eqn:Hidx; [|reflexivity].
  apply idxForRune_Some in Hidx as [Hr ->]. rewrite Hm.
  apply N.eqb_neq, land_bit_nonzero, allOnes_bit. lia.
Qed.

Lemma upper1_code c r :
  lowerLetter c -> (r - 65)%Z = Z.of_nat (nat_of_ascii c - 97) ->
  r = Z.of_nat (nat_of_ascii (upper1 c)).
Proof.
  intros Hc Hr. rewrite (upper1_lower c Hc). destruct Hc. lia.
Qed.

Lemma code_not_backspace c : Z.of_nat (nat_of_ascii c) <> backspace.
Proof. pose proof (nat_ascii_bounded c). unfold backspace. lia. Qed.

Lemma updateMask_free p nv m :
  (p = [] \/ exists w, w ∈ Wordlist /\ p `prefix_of` w) ->
  exists k,
    Keyboard_.updateMask (mkKeyboard (ToUpper_ascii p) nv m) = Ok k /\
    kb_Word k = ToUpper_ascii p /\ free_keys k p.
Proof.
  intros Hgood.
  assert (Hlow : forall c, c ∈ p -> lowerLetter c).
  { destruct Hgood as [->|(w & Hw & Hp)].
    - intros c Hc. by apply elem_of_nil in Hc.
    - by apply (prefix_lower Hspec p w). }
  unfold Keyboard_.updateMask. simpl. rewrite (ToLower_ToUpper p Hlow).
  rewrite (ClosestWord_first Hspec).
  destruct (firstCompletion p) as [[i w0]|] eqn:Hfind; simpl.
  - destruct (maskLoop_spec p (drop i Wordlist) 0 allOnes
                (Wordlist_drop_lower Hspec i)) as (m' & Hloop & _ & Hclr).
    pose proof (maskLoop_exact p (drop i Wordlist) 0 allOnes _ m'
                  (Wordlist_drop_lower Hspec i) Hloop) as Hex.
    rewrite Hloop. simpl. rewrite <- (completions_run Hspec p i w0 Hfind) in *.
    eexists. split; [reflexivity|]. split; [reflexivity|].
    intros r. unfold Keyboard_.Valid. simpl.
    destruct (Z.eqb_spec r backspace) as [->|Hr].
    + unfold ToUpper_ascii. rewrite length_map. split.
      * intros Hlen. left. split; [reflexivity|].
        destruct p; [discriminate Hlen | discriminate].
      * intros [[_ Hp]|(_ & c & w & Hc & _)].
        -- destruct p; [done | reflexivity].
        -- exfalso. symmetry in Hc. by apply code_not_backspace in Hc.
    + split.
      * destruct (Keyboard_.idxForRune r) as [idx|] eqn:Hidx; [|discriminate].
        apply idxForRune_Some in Hidx as [Hrange ->].
        destruct (Nat.eqb_spec (length (completions p)) 1) as [Hone|Hne].
        { intros Hv. exfalso. apply N.eqb_eq in Hv. revert Hv.
          apply land_bit_nonzero, allOnes_bit. lia. }
        intros Hv. right. split; [exact Hne|].
        apply N.eqb_eq in Hv.
        assert (Hbit : N.testbit m' (N.of_nat (Z.to_nat (r - 65))) = false).
        { destruct (N.testbit m' (N.of_nat (Z.to_nat (r - 65)))) eqn:Hb; [|reflexivity].
          exfalso. revert Hv. by apply land_bit_nonzero. }
        destruct (Hex _ Hbit) as [Hall|(w & c & rest & Hw & Hd & Hj)].
        { rewrite allOnes_bit in Hall by lia. discriminate. }
        apply list_elem_of_filter in Hw as [Hpw Hw].
        assert (Hweq : w = p ++ c :: rest).
        { rewrite <- Hd. destruct Hpw as [q ->].
          by rewrite drop_app_length. }
        assert (Hc : lowerLetter c).
        { apply (Wordlist_lower Hspec w c Hw). rewrite Hweq.
          apply elem_of_app. right. left. }
        exists c, w. split; [|split; [exact Hw|]].
        -- apply (upper1_code c r Hc). lia.
        -- exists rest. by rewrite Hweq, <- app_assoc.
      * intros [[? _]|(Hne & c & w & -> & Hw & [rest Hpw])]; [done|].
        rewrite <- app_assoc in Hpw. simpl in Hpw.
        assert (Hc : lowerLetter c).
        { apply (Wordlist_lower Hspec w c Hw). rewrite Hpw.
          apply elem_of_app. right. left. }
        rewrite (idxForRune_letter c Hc).
        apply Nat.eqb_neq in Hne as ->.
        apply N.eqb_eq, land_bit_zero.
        apply (Hclr w c rest).
        -- apply list_elem_of_filter. split; [|exact Hw].
           exists (c :: rest). exact Hpw.
        -- by rewrite Hpw, drop_app_length.
  - apply firstCompletion_None in Hfind. rewrite Forall_forall in Hfind.
    assert (Hnil : p = [] /\ forall w, w ∉ Wordlist).
    { destruct Hgood as [->|(w & Hw & Hp)].
      - split; [reflexivity|]. intros w Hw.
        apply (Hfind w Hw). apply prefix_nil.
      - exfalso. by apply (Hfind w Hw). }
    destruct Hnil as [-> Hempty].
    eexists. split; [reflexivity|]. split; [reflexivity|].
    intros r. split.
    + intros Hv. destruct (decide (r = backspace)) as [->|Hr]; [discriminate Hv|].
      by rewrite Valid_allOnes in Hv.
    + intros [[_ ?]|(_ & c & w & _ & Hw & _)]; [done|]. by apply Hempty in Hw.
Qed.

Lemma removelast_prefix {A} (l : list A) : removelast l `prefix_of` l.
Proof.
  induction l as [|a [|b l] IH]; [done | by exists [a] |].
  change (removelast (a :: b :: l)) with (a :: removelast (b :: l)).
  by apply prefix_cons.
Qed.

Lemma removelast_ToUpper p : removelast (ToUpper_ascii p) = ToUpper_ascii (removelast p).
Proof.
  unfold ToUpper_ascii. induction p as [|c [|c' p] IH]; [reflexivity..|].
  change (removelast (map upper1 (c :: c' :: p)))
    with (upper1 c :: removelast (map upper1 (c' :: p))).
  by rewrite IH.
Qed.

(** What a reachable keyboard shows. *)
Lemma reachable_free k :
  kb_reachable k ->
  exists p,
    kb_Word k = ToUpper_ascii p /\
    (p = [] \/ exists w, w ∈ Wordlist /\ p `prefix_of` w) /\
    free_keys k p.
Proof.
  induction 1 as [k Hnew | k k' _ IH Hclear | k r k' _ IH Hrune].
  - unfold Keyboard_.NewKeyboard, Keyboard_.Clear in Hnew. simpl in Hnew.
    destruct (updateMask_free [] 0 0%N (or_introl eq_refl)) as (k1 & Hk1 & Hw & Hf).
    simpl in Hk1. rewrite Hk1 in Hnew. injection Hnew as <-.
    exists []. split; [exact Hw|]. split; [by left | exact Hf].
  - unfold Keyboard_.Clear in Hclear.
    destruct (updateMask_free [] (nvalid k) (mask k) (or_introl eq_refl))
      as (k1 & Hk1 & Hw & Hf).
    simpl in Hk1. rewrite Hk1 in Hclear. injection Hclear as <-.
    exists []. split; [exact Hw|]. split; [by left | exact Hf].
  - destruct IH as (p & Hword & Hgood & Hfree).
    unfold Keyboard_.rune in Hrune.
    destruct (Keyboard_.Valid k r) eqn:Hv; simpl in Hrune;
      [|injection Hrune as <-; eauto].
    destruct (Z.eqb_spec r backspace) as [->|Hr].
    + assert (Hgood' : removelast p = [] \/
                       exists w, w ∈ Wordlist /\ removelast p `prefix_of` w).
      { destruct Hgood as [->|(w & Hw & Hp)]; [by left|].
        right. exists w. split; [exact Hw|].
        etrans; [apply removelast_prefix | exact Hp]. }
      rewrite Hword, removelast_ToUpper in Hrune.
      destruct (updateMask_free (removelast p) (nvalid k) (mask k) Hgood')
        as (k1 & Hk1 & Hw1 & Hf1).
      rewrite Hk1 in Hrune. injection Hrune as <-.
      exists (removelast p). by split.
    + apply Hfree in Hv as [[? _]|(Hne & c & w & -> & Hw & Hp)]; [done|].
      rewrite Nat2Z.id, ascii_nat_embedding, Hword in Hrune.
      replace (ToUpper_ascii p ++ [upper1 c]) with (ToUpper_ascii (p ++ [c])) in Hrune
        by (by rewrite ToUpper_app).
      assert (Hgood' : p ++ [c] = [] \/
                       exists w, w ∈ Wordlist /\ (p ++ [c]) `prefix_of` w)
        by (right; eauto).
      destruct (updateMask_free (p ++ [c]) (nvalid k) (mask k) Hgood')
        as (k1 & Hk1 & Hw1 & Hf1).
      rewrite Hk1 in Hrune. injection Hrune as <-.
      exists (p ++ [c]). by split.
Qed.

(** [updateMask] on what it made makes it again. *)
Lemma updateMask_idem k0 k :
  Keyboard_.updateMask k0 = Ok k -> Keyboard_.updateMask k = Ok k.
Proof.
  unfold Keyboard_.updateMask. simpl.
  destruct (ClosestWord (ToLower_ascii (kb_Word k0))) as [i|] eqn:Hcw.
  - destruct (Keyboard_.maskLoop _ _ 0 allOnes) as [[n m]| |] eqn:Hloop;
      simpl; [|discriminate..].
    intros [= <-]. simpl. rewrite Hcw, Hloop. reflexivity.
  - intros [= <-]. simpl. rewrite Hcw. reflexivity.
Qed.

Lemma reachable_updateMask k : kb_reachable k -> Keyboard_.updateMask k = Ok k.
Proof.
  induction 1 as [k Hnew | k k' _ IH Hclear | k r k' _ IH Hrune].
  - by apply (updateMask_idem _ _ Hnew).
  - by apply (updateMask_idem _ _ Hclear).
  - unfold Keyboard_.rune in Hrune.
    destruct (negb (Keyboard_.Valid k r)); [by injection Hrune as <-|].
    destruct (r =? backspace)%Z; by apply (updateMask_idem _ _ Hrune).
Qed.

(** With a word that starts as typed, the former count and mask do not
    tell on [updateMask]. *)
Lemma updateMask_indep W nv m nv' m' i :
  ClosestWord (ToLower_ascii W) = Some i ->
  Keyboard_.updateMask (mkKeyboard W nv m) = Keyboard_.updateMask (mkKeyboard W nv' m').
Proof. intros Hcw. unfold Keyboard_.updateMask. simpl. by rewrite Hcw. Qed.

Lemma updateMask_None k :
  Keyboard_.updateMask k = Ok k -> ClosestWord (ToLower_ascii (kb_Word k)) = None ->
  mask k = allOnes.
Proof.
  unfold Keyboard_.updateMask. simpl. intros Hk Hcw. rewrite Hcw in Hk.
  injection Hk as Hk. by rewrite <- Hk.
Qed.

End Keys.

(** X17.  What is typed is the beginning of a word.  On a keyboard
    reached from a new one by typing and clearing, over a word list that
    is strictly sorted, lower-case and looked up by first completion, the
    word is the upper case of a text [p] that is empty or the beginning
    of a word of the list, whatever runes were typed.  The keys that can
    be typed are exactly: backspace, when [p] is not empty; and, unless
    [p] has a single completion, the letters that follow [p] in some
    word of the list. *)
Theorem Keyboard_word_prefix `{Bip39} (k : Keyboard) :
  Bip39Spec -> kb_reachable k ->
  exists p,
    kb_Word k = ToUpper_ascii p /\
    (p = [] \/ exists w, w ∈ Wordlist /\ p `prefix_of` w) /\
    forall r, Keyboard_.Valid k r = true <->
      (r = backspace /\ p <> []) \/
      (length (completions p) <> 1 /\
       exists c w, r = Z.of_nat (nat_of_ascii (upper1 c)) /\
         w ∈ Wordlist /\ (p ++ [c]) `prefix_of` w).
Proof.
  intros Hspec Hreach.
  destruct (reachable_free Hspec k Hreach) as (p & Hword & Hgood & Hfree).
  exists p. split; [exact Hword|]. split; [exact Hgood | exact Hfree].
Qed.

(** The keyboard after A and then C were typed on a new one. *)
Lemma sampleKeyboard_reachable :
  @kb_reachable sampleBip39
    (mkKeyboard (list_ascii_of_string "AC") 3 4294443007%N).
Proof.
  eapply kb_rune with (r := 67%Z).
  - eapply kb_rune with (r := 65%Z).
    + apply kb_new. vm_compute. reflexivity.
    + vm_compute. reflexivity.
  - vm_compute. reflexivity.
Qed.

Lemma Keyboard_word_prefix_witness :
  @Bip39Spec sampleBip39 /\
  exists p,
    list_ascii_of_string "AC" = ToUpper_ascii p /\
    (p = [] \/ exists w, w ∈ @Wordlist sampleBip39 /\ p `prefix_of` w).
Proof.
  split; [exact sampleBip39_spec|].
  destruct (Keyboard_word_prefix _ sampleBip39_spec sampleKeyboard_reachable)
    as (p & Hword & Hgood & _).
  exists p. split; [exact Hword | exact Hgood].
Defined.

(** X18.  Typing never fails, and backspace takes a letter back.  On a
    keyboard reached from a new one by typing and clearing, over a word
    list as above, a typed rune never panics; a rune whose key is not
    free leaves the keyboard as it is; and after a letter was taken
    (the word is longer by that letter), backspace gives exactly the
    keyboard from before: word, count and mask. *)
Theorem Keyboard_backspace_undoes `{Bip39} (k : Keyboard) (r : Z) :
  Bip39Spec -> kb_reachable k ->
  exists k1,
    Keyboard_.rune k r = Ok k1 /\
    (Keyboard_.Valid k r = false -> k1 = k) /\
    (Keyboard_.Valid k r = true -> r <> backspace ->
     kb_Word k1 = kb_Word k ++ [ascii_of_nat (Z.to_nat r)] /\
     Keyboard_.rune k1 backspace = Ok k).
Proof.
  intros Hspec Hreach. unfold Keyboard_.rune at 1.
  destruct (Keyboard_.Valid k r) eqn:Hv; simpl.
  2: { exists k. split; [reflexivity|]. split; [reflexivity | discriminate]. }
  destruct (Z.eqb_spec r backspace) as [->|Hr].
  { destruct (updateMask_counted Hspec
                (mkKeyboard (removelast (kb_Word k)) (nvalid k) (mask k)))
      as (k1 & Hk1 & _).
    exists k1. split; [exact Hk1|]. split; [discriminate | done]. }
  destruct (updateMask_counted Hspec
              (mkKeyboard (kb_Word k ++ [ascii_of_nat (Z.to_nat r)]) (nvalid k) (mask k)))
    as (k1 & Hk1 & Hw1 & _).
  simpl in Hw1.
  exists k1. split; [exact Hk1|]. split; [discriminate|].
  intros _ _. split; [exact Hw1|].
  unfold Keyboard_.rune, Keyboard_.Valid. rewrite Z.eqb_refl, Hw1.
  rewrite length_app. simpl.
  replace (0 <? length (kb_Word k) + 1) with true
    by (symmetry; apply Nat.ltb_lt; lia).
  simpl. rewrite removelast_last.
  pose proof (reachable_updateMask k Hreach) as Hfix.
  destruct (ClosestWord (ToLower_ascii (kb_Word k))) as [i|] eqn:Hcw.
  - rewrite (updateMask_indep (kb_Word k) _ _ (nvalid k) (mask k) i Hcw).
    by destruct k.
  - exfalso. rewrite (Valid_allOnes k r) in Hv; [discriminate| |exact Hr].
    by apply updateMask_None.
Qed.

Lemma Keyboard_backspace_undoes_witness :
  let k := mkKeyboard (list_ascii_of_string "AC") 3 4294443007%N in
  @Bip39Spec sampleBip39 /\
  exists k1,
    @Keyboard_.rune sampleBip39 k 84 = Ok k1 /\
    kb_Word k1 = list_ascii_of_string "ACT" /\
    @Keyboard_.rune sampleBip39 k1 backspace = Ok k.
Proof.
  split; [exact sampleBip39_spec|].
  destruct (Keyboard_backspace_undoes _ 84%Z sampleBip39_spec
              sampleKeyboard_reachable) as (k1 & Hk1 & _ & Hundo).
  destruct (Hundo eq_refl ltac:(discriminate)) as [Hw Hback].
  exists k1. split; [exact Hk1|]. split; [exact Hw | exact Hback].
Defined.

(** ** The cursor of the keyboard *)

Lemma forRange_inv {A St} (f : nat -> A -> St -> res St) (P : nat -> St -> Prop) l :
  forall i s,
    P i s ->
    (forall j a s, l !! j = Some a -> P (i + j) s ->
       exists s', f (i + j) a s = Ok s' /\ P (S (i + j)) s') ->
    exists s', forRange f i l s = Ok s' /\ P (i + length l) s'.
Proof.
  induction l as [|a l IH]; intros i s HP Hstep; simpl.
  - exists s. by rewrite Nat.add_0_r.
  - destruct (Hstep 0 a s eq_refl) as (s1 & Hf & HP1); [by rewrite Nat.add_0_r|].
    rewrite Nat.add_0_r in Hf, HP1. rewrite Hf. cbn [mbind res_bind].
    destruct (IH (S i) s1 HP1) as (s' & Hloop & HP').
    { intros j b s2 Hb HP2.
      replace (S i + j) with (i + S j) in * by lia. by apply (Hstep (S j) b s2 Hb). }
    exists s'. split; [exact Hloop|].
    by replace (i + S (length l)) with (S i + length l) by lia.
Qed.

Section CursorLoops.

Context `{IntSize}.

Implicit Types (k : Cursor) (p : Point).

Lemma eligible_skip k allow key :
  negb (Keyboard_.Valid (kbd k) key) || ((key =? backspace)%Z && negb allow)
  = negb (eligible k allow key).
Proof.
  unfold eligible. by destruct (Keyboard_.Valid _ _), (key =? backspace)%Z, allow.
Qed.

Lemma dist2_wrap bx by_ p (c : Point) :
  (Z.abs bx <= 2 ^ 20)%Z -> (Z.abs by_ <= 2 ^ 20)%Z ->
  in_box bx by_ p -> in_box bx by_ c ->
  wrap (wrap (wrap (pX p - pX c) * wrap (pX p - pX c)) +
        wrap (wrap (pY p - pY c) * wrap (pY p - pY c))) = dist2 p c /\
  (0 <= dist2 p c < 1000000)%Z.
Proof.
  intros Hbx Hby [HpX HpY] [HcX HcY]. simpl. unfold dist2.
  change (2 ^ 20)%Z with 1048576%Z in *.
  rewrite (wrap_small (pX p - pX c)) by (change (2 ^ 31)%Z with 2147483648%Z; lia).
  rewrite (wrap_small (pY p - pY c)) by (change (2 ^ 31)%Z with 2147483648%Z; lia).
  set (dx := (pX p - pX c)%Z). set (dy := (pY p - pY c)%Z).
  assert (Hdx : (-950 <= dx <= 950)%Z) by (subst dx; lia).
  assert (Hdy : (-200 <= dy <= 200)%Z) by (subst dy; lia).
  clearbody dx dy.
  assert (Hx2 : (0 <= dx * dx <= 902500)%Z) by nia.
  assert (Hy2 : (0 <= dy * dy <= 40000)%Z) by nia.
  rewrite (wrap_small (dx * dx)) by (change (2 ^ 31)%Z with 2147483648%Z; lia).
  rewrite (wrap_small (dy * dy)) by (change (2 ^ 31)%Z with 2147483648%Z; lia).
  rewrite wrap_small by (change (2 ^ 31)%Z with 2147483648%Z; lia).
  split; [reflexivity | lia].
Qed.

Lemma key_at_bounds i j key : key_at i j key -> i < 3 /\ j < 10.
Proof.
  intros (keys & Hi & Hj).
  destruct i as [|[|[|i]]]; simpl in Hi; [| | |discriminate];
    injection Hi as <-; apply lookup_lt_Some in Hj; simpl in Hj; lia.
Qed.

Lemma placed_pos ps i j key :
  placed ps -> key_at i j key -> exists p, pos_at ps i j p.
Proof.
  intros [Hshape _] (keys & Hi & Hj).
  destruct (Forall2_lookup_r _ _ _ _ _ Hshape Hi) as (prow & Hprow & Hlen).
  destruct (lookup_lt_is_Some_2 prow j) as [p Hp].
  { rewrite Hlen. by eapply lookup_lt_Some. }
  exists p, prow. by split.
Qed.

Lemma pos_at_key ps i j p :
  placed ps -> pos_at ps i j p -> exists key, key_at i j key.
Proof.
  intros [Hshape _] (prow & Hi & Hj).
  destruct (Forall2_lookup_l _ _ _ _ _ Hshape Hi) as (keys & Hkeys & Hlen).
  destruct (lookup_lt_is_Some_2 keys j) as [key Hkey].
  { rewrite <- Hlen. by eapply lookup_lt_Some. }
  exists key, keys. by split.
Qed.

Lemma pos_at_box ps bx by_ i j p :
  (forall prow p, prow ∈ ps -> p ∈ prow -> in_box bx by_ p) ->
  pos_at ps i j p -> in_box bx by_ p.
Proof.
  intros Hbox (prow & Hi & Hj).
  apply (Hbox prow p); by eapply list_elem_of_lookup_2.
Qed.

(** *** [adjust] *)

Lemma AdjInv_ext k allow current r0 c0 (seen seen' : nat -> nat -> Prop) st :
  (forall i j key, key_at i j key -> seen' i j -> seen i j) ->
  AdjInv k allow current r0 c0 seen st -> AdjInv k allow current r0 c0 seen' st.
Proof.
  intros Hsub. destruct st as [[[dist r] c] [|]]; simpl.
  - intros (i & j & key & p & Hr & Hc & Hkey & Hel & Hp & Hd & Hmin).
    exists i, j, key, p. repeat (split; [assumption|]).
    intros i' j' key' p' Hs Hkey'. apply (Hmin i' j' key' p'); [|exact Hkey']. by apply (Hsub _ _ key').
  - intros (Hd & Hr & Hc & Hnone). repeat (split; [assumption|]).
    intros i j key Hs Hkey'. apply (Hnone i j key); [|exact Hkey']. by apply (Hsub _ _ key).
Qed.

Lemma pos_at_fun ps i j p p' : pos_at ps i j p -> pos_at ps i j p' -> p = p'.
Proof.
  intros (prow & Hi & Hj) (prow' & Hi' & Hj'). congruence.
Qed.

Lemma key_at_fun i j key key' : key_at i j key -> key_at i j key' -> key = key'.
Proof.
  intros (keys & Hi & Hj) (keys' & Hi' & Hj'). congruence.
Qed.

Lemma adjustKey_inv k allow current r0 c0 bx by_ i j key seen st :
  placed (positions k) ->
  (Z.abs bx <= 2 ^ 20)%Z -> (Z.abs by_ <= 2 ^ 20)%Z ->
  (forall prow p, prow ∈ positions k -> p ∈ prow -> in_box bx by_ p) ->
  in_box bx by_ current ->
  key_at i j key ->
  AdjInv k allow current r0 c0 seen st ->
  exists st',
    Cursor_.adjustKey k allow current i j key st = Ok st' /\
    AdjInv k allow current r0 c0 (fun i' j' => seen i' j' \/ (i' = i /\ j' = j)) st'.
Proof.
  intros Hplaced Hbx Hby Hbox Hcur Hkey Hinv.
  unfold Cursor_.adjustKey. destruct st as [[[dist r] c] found].
  rewrite eligible_skip.
  destruct (eligible k allow key) eqn:Hel; simpl.
  2: { eexists. split; [reflexivity|]. destruct found; simpl in *.
       - destruct Hinv as (i0 & j0 & key0 & p0 & Hr & Hc & Hkey0 & Hel0 & Hp0 & Hd & Hmin).
         exists i0, j0, key0, p0. repeat (split; [assumption|]).
         intros i' j' key' p' [Hs|[-> ->]] Hkey' Hel' Hp'; [by eapply Hmin|].
         rewrite (key_at_fun _ _ _ _ Hkey' Hkey) in Hel'. congruence.
       - destruct Hinv as (Hd & Hr & Hc & Hnone). repeat (split; [assumption|]).
         intros i' j' key' [Hs|[-> ->]] Hkey'; [by eapply Hnone|].
         by rewrite (key_at_fun _ _ _ _ Hkey' Hkey). }
  destruct (placed_pos _ i j key Hplaced Hkey) as [p Hp].
  pose proof Hp as (prow & Hprow & Hpj).
  unfold index. rewrite Hprow. cbn [mbind res_bind]. rewrite Hpj. cbn [mbind res_bind].
  pose proof (pos_at_box _ bx by_ i j p Hbox Hp) as Hpbox.
  cbv zeta.
  destruct (dist2_wrap bx by_ p current Hbx Hby Hpbox Hcur) as [-> Hrange].
  destruct (Z.ltb_spec (dist2 p current) dist) as [Hlt|Hge].
  - eexists. split; [reflexivity|]. simpl.
    exists i, j, key, p. repeat (split; [done|]).
    intros i' j' key' p' [Hs|[-> ->]] Hkey' Hel' Hp'.
    + destruct found; simpl in Hinv.
      * destruct Hinv as (i0 & j0 & key0 & p0 & _ & _ & _ & _ & _ & Hd & Hmin).
        specialize (Hmin i' j' key' p' Hs Hkey' Hel' Hp'). lia.
      * destruct Hinv as (_ & _ & _ & Hnone).
        rewrite (Hnone i' j' key' Hs Hkey') in Hel'. discriminate.
    + rewrite (pos_at_fun _ _ _ _ _ Hp' Hp). lia.
  - eexists. split; [reflexivity|]. destruct found; simpl in *.
    + destruct Hinv as (i0 & j0 & key0 & p0 & Hr & Hc & Hkey0 & Hel0 & Hp0 & Hd & Hmin).
      exists i0, j0, key0, p0. repeat (split; [assumption|]).
      intros i' j' key' p' [Hs|[-> ->]] Hkey' Hel' Hp'; [by eapply Hmin|].
      by rewrite (pos_at_fun _ _ _ _ _ Hp' Hp).
    + destruct Hinv as (Hd & _). lia.
Qed.

Lemma indexZ_Some {A} (l : list A) (i : nat) a :
  l !! i = Some a -> indexZ l (Z.of_nat i) = Ok a.
Proof.
  intros Hi. unfold indexZ, index.
  destruct (Z.ltb_spec (Z.of_nat i) 0); [lia|]. by rewrite Nat2Z.id, Hi.
Qed.

Lemma indexZ_range {A} (l : list A) (x : Z) :
  (0 <= x < len l)%Z -> exists a, indexZ l x = Ok a /\ l !! Z.to_nat x = Some a.
Proof.
  intros Hx. unfold len in Hx.
  destruct (lookup_lt_is_Some_2 l (Z.to_nat x)) as [a Ha]; [lia|].
  exists a. split; [|exact Ha].
  rewrite <- (Z2Nat.id x) by lia. by apply indexZ_Some.
Qed.

Lemma placed_row ps i keys :
  placed ps -> kbdKeys !! i = Some keys ->
  exists prow, ps !! i = Some prow /\ length prow = length keys.
Proof.
  intros [Hshape _] Hi. by apply (Forall2_lookup_r _ _ _ _ _ Hshape Hi).
Qed.

Lemma adjust_loop k allow current bx by_ :
  placed (positions k) ->
  (Z.abs bx <= 2 ^ 20)%Z -> (Z.abs by_ <= 2 ^ 20)%Z ->
  (forall prow p, prow ∈ positions k -> p ∈ prow -> in_box bx by_ p) ->
  in_box bx by_ current ->
  exists st,
    forRange
      (fun i keys st => forRange (Cursor_.adjustKey k allow current i) 0 keys st)
      0 kbdKeys (1000000%Z, row k, col k, false) = Ok st /\
    AdjInv k allow current (row k) (col k) (fun _ _ => True) st.
Proof.
  intros Hplaced Hbx Hby Hbox Hcur.
  destruct (forRange_inv
              (fun i keys st => forRange (Cursor_.adjustKey k allow current i) 0 keys st)
              (fun i st => AdjInv k allow current (row k) (col k) (fun i' _ => i' < i) st)
              kbdKeys 0 (1000000%Z, row k, col k, false))
    as (st & Hloop & Hinv).
  - simpl. repeat (split; [reflexivity|]). intros i j key Hi. lia.
  - intros i keys st Hi Hinv. simpl in *.
    destruct (forRange_inv (Cursor_.adjustKey k allow current i)
                (fun j st => AdjInv k allow current (row k) (col k)
                               (fun i' j' => i' < i \/ (i' = i /\ j' < j)) st)
                keys 0 st)
      as (st' & Hloop & Hinv').
    + revert Hinv. apply AdjInv_ext. intros i' j' _ _ [Hlt|[_ Hlt]]; [exact Hlt | lia].
    + intros j key st1 Hj Hinv1. simpl in *.
      destruct (adjustKey_inv k allow current (row k) (col k) bx by_ i j key
                  (fun i' j' => i' < i \/ (i' = i /\ j' < j)) st1
                  Hplaced Hbx Hby Hbox Hcur) as (st2 & Hstep & Hinv2); [|exact Hinv1|].
      { exists keys. by split. }
      exists st2. split; [exact Hstep|]. revert Hinv2. apply AdjInv_ext.
      intros i' j' _ _ [Hlt|[-> Hlt]]; [left; by left|].
      destruct (decide (j' = j)) as [->|Hne]; [by right|].
      left. right. split; [reflexivity | lia].
    + exists st'. split; [exact Hloop|]. revert Hinv'. apply AdjInv_ext.
      intros i' j' key' (keys' & Hi' & Hj') Hlt. simpl.
      destruct (decide (i' = i)) as [->|Hne]; [|left; lia].
      right. split; [reflexivity|].
      rewrite Hi in Hi'. injection Hi' as <-. by eapply lookup_lt_Some.
  - exists st. split; [exact Hloop|]. revert Hinv. apply AdjInv_ext.
    intros i j key Hk _. apply key_at_bounds in Hk. simpl. lia.
Qed.

Lemma in_table_pos k :
  in_table k ->
  exists prow p,
    indexZ (positions k) (row k) = Ok prow /\ indexZ prow (col k) = Ok p /\
    pos_at (positions k) (Z.to_nat (row k)) (Z.to_nat (col k)) p.
Proof.
  intros (i & j & p & Hr & Hc & prow & Hi & Hj). exists prow, p.
  rewrite Hr, Hc, !Nat2Z.id. split; [by apply indexZ_Some|].
  split; [by apply indexZ_Some|]. exists prow. by split.
Qed.

(** [adjust]: the cursor goes to the nearest of the keys to choose
    from, or to backspace when there is none. *)
Lemma adjust_spec k allow :
  placed (positions k) -> in_table k ->
  exists k',
    Cursor_.adjust k allow = Ok k' /\
    kbd k' = kbd k /\ positions k' = positions k /\ in_table k' /\
    ((exists i j key p cur,
        row k' = Z.of_nat i /\ col k' = Z.of_nat j /\ key_at i j key /\
        eligible k allow key = true /\ pos_at (positions k) i j p /\
        pos_at (positions k) (Z.to_nat (row k)) (Z.to_nat (col k)) cur /\
        forall i' j' key' p',
          key_at i' j' key' -> eligible k allow key' = true ->
          pos_at (positions k) i' j' p' -> (dist2 p cur <= dist2 p' cur)%Z) \/
     ((forall i j key, key_at i j key -> eligible k allow key = false) /\
      row k' = 2%Z /\ col k' = 7%Z /\ key_at 2 7 backspace)).
Proof.
  intros Hplaced Htab.
  destruct (in_table_pos k Htab) as (prow & cur & Hrow & Hcol & Hcur).
  unfold Cursor_.adjust. rewrite Hrow. cbn [mbind res_bind].
  rewrite Hcol. cbn [mbind res_bind].
  pose proof Hplaced as [_ (bx & by_ & Hbx & Hby & Hbox)].
  assert (Hbox' : forall prow p, prow ∈ positions k -> p ∈ prow -> in_box bx by_ p)
    by exact Hbox.
  destruct (adjust_loop k allow cur bx by_ Hplaced Hbx Hby Hbox'
              (pos_at_box _ bx by_ _ _ cur Hbox' Hcur)) as (st & -> & Hinv).
  cbn [mbind res_bind]. destruct st as [[[dist r] c] [|]]; simpl in Hinv.
  - destruct Hinv as (i & j & key & p & -> & -> & Hkey & Hel & Hp & -> & Hmin).
    eexists. split; [reflexivity|]. simpl. repeat (split; [reflexivity|]).
    split; [by exists i, j, p|].
    left. exists i, j, key, p, cur. repeat (split; [done|]).
    intros i' j' key' p'. by apply Hmin.
  - destruct Hinv as (_ & _ & _ & Hnone).
    destruct (placed_row _ 2 _ Hplaced eq_refl) as (prow2 & Hprow2 & Hlen).
    change (len kbdKeys - 1)%Z with (Z.of_nat 2).
    rewrite (indexZ_Some _ 2 prow2 Hprow2). cbn [mbind res_bind].
    assert (Hcol2 : wrap (len prow2 - 1) = 7%Z).
    { unfold len. rewrite Hlen. simpl.
      apply wrap_small. change (2 ^ 31)%Z with 2147483648%Z. lia. }
    rewrite Hcol2.
    eexists. split; [reflexivity|]. simpl. repeat (split; [reflexivity|]).
    destruct (lookup_lt_is_Some_2 prow2 7) as [p7 Hp7]; [rewrite Hlen; simpl; lia|].
    split; [exists 2, 7, p7; repeat (split; [reflexivity|]); by exists prow2|].
    right. split; [|repeat (split; [reflexivity|]); by eexists].
    intros i j key. by apply Hnone.
Qed.

(** *** [adjustCol] *)

Lemma absd_wrap bx by_ p (c : Point) :
  (Z.abs bx <= 2 ^ 20)%Z ->
  in_box bx by_ p -> in_box bx by_ c ->
  (if (wrap (pX p - pX c) <? 0)%Z then wrap (- wrap (pX p - pX c))
   else wrap (pX p - pX c)) = Z.abs (pX p - pX c) /\
  (0 <= Z.abs (pX p - pX c) < 1000000)%Z.
Proof.
  intros Hbx [HpX _] [HcX _]. change (2 ^ 20)%Z with 1048576%Z in *.
  rewrite (wrap_small (pX p - pX c)) by (change (2 ^ 31)%Z with 2147483648%Z; lia).
  destruct (Z.ltb_spec (pX p - pX c) 0).
  - rewrite wrap_small by (change (2 ^ 31)%Z with 2147483648%Z; lia). lia.
  - lia.
Qed.

Lemma adjustColKey_inv k ri keys cur r0 c0 bx by_ j key st :
  placed (positions k) ->
  (Z.abs bx <= 2 ^ 20)%Z ->
  (forall prow p, prow ∈ positions k -> p ∈ prow -> in_box bx by_ p) ->
  in_box bx by_ cur ->
  kbdKeys !! ri = Some keys -> keys !! j = Some key ->
  ColInv k ri keys (pX cur) r0 c0 j st ->
  exists st',
    Cursor_.adjustColKey k (Z.of_nat ri) (pX cur) j key st = Ok st' /\
    ColInv k ri keys (pX cur) r0 c0 (S j) st'.
Proof.
  intros Hplaced Hbx Hbox Hcur Hri Hj Hinv.
  unfold Cursor_.adjustColKey. destruct st as [[[dist r] c] found].
  destruct (Keyboard_.Valid (kbd k) key) eqn:Hv; simpl.
  2: { eexists. split; [reflexivity|]. destruct found; simpl in *.
       - destruct Hinv as (Hr & j0 & key0 & p0 & Hc & Hj0 & Hv0 & Hp0 & Hd & Hmin).
         split; [exact Hr|]. exists j0, key0, p0. repeat (split; [assumption|]).
         intros j' key' p' Hlt Hj' Hv' Hp'.
         destruct (decide (j' = j)) as [->|Hne]; [congruence|].
         apply (Hmin j' key' p'); [lia | assumption..].
       - destruct Hinv as (Hd & Hr & Hc & Hnone). repeat (split; [assumption|]).
         intros j' key' Hlt Hj'.
         destruct (decide (j' = j)) as [->|Hne]; [congruence|].
         apply (Hnone j' key'); [lia | assumption]. }
  assert (Hkey : key_at ri j key) by (exists keys; by split).
  destruct (placed_pos _ ri j key Hplaced Hkey) as [p Hp].
  pose proof Hp as (prow & Hprow & Hpj).
  rewrite (indexZ_Some _ ri prow Hprow). cbn [mbind res_bind].
  unfold index. rewrite Hpj. cbn [mbind res_bind]. cbv zeta.
  pose proof (pos_at_box _ bx by_ ri j p Hbox Hp) as Hpbox.
  destruct (absd_wrap bx by_ p cur Hbx Hpbox Hcur) as [-> Hrange].
  destruct (Z.ltb_spec (Z.abs (pX p - pX cur)) dist) as [Hlt|Hge].
  - eexists. split; [reflexivity|]. simpl. split; [reflexivity|].
    exists j, key, p. repeat (split; [done|]).
    intros j' key' p' Hlt' Hj' Hv' Hp'.
    destruct (decide (j' = j)) as [->|Hne].
    { rewrite (pos_at_fun _ _ _ _ _ Hp' Hp). lia. }
    destruct found; simpl in Hinv.
    + destruct Hinv as (_ & j0 & key0 & p0 & _ & _ & _ & _ & Hd & Hmin).
      specialize (Hmin j' key' p' ltac:(lia) Hj' Hv' Hp'). lia.
    + destruct Hinv as (_ & _ & _ & Hnone).
      rewrite (Hnone j' key' ltac:(lia) Hj') in Hv'. discriminate.
  - eexists. split; [reflexivity|]. destruct found; simpl in *.
    + destruct Hinv as (Hr & j0 & key0 & p0 & Hc & Hj0 & Hv0 & Hp0 & Hd & Hmin).
      split; [reflexivity|]. exists j0, key0, p0. repeat (split; [assumption|]).
      intros j' key' p' Hlt' Hj' Hv' Hp'.
      destruct (decide (j' = j)) as [->|Hne].
      { rewrite (pos_at_fun _ _ _ _ _ Hp' Hp). lia. }
      apply (Hmin j' key' p'); [lia | assumption..].
    + destruct Hinv as (Hd & _). lia.
Qed.

Lemma set_cursor_same k : Cursor_.set_cursor k (row k) (col k) = k.
Proof. by destruct k. Qed.

(** [adjustCol]: in a row with a valid key the cursor goes to the valid
    key that is nearest in the horizontal; in a row without one nothing
    changes. *)
Lemma adjustCol_spec k ri keys :
  placed (positions k) -> in_table k -> kbdKeys !! ri = Some keys ->
  exists k' (found : bool),
    Cursor_.adjustCol k (Z.of_nat ri) = Ok (k', found) /\
    kbd k' = kbd k /\ positions k' = positions k /\
    if found then
      row k' = Z.of_nat ri /\
      exists j key p cur,
        col k' = Z.of_nat j /\ keys !! j = Some key /\
        Keyboard_.Valid (kbd k) key = true /\ pos_at (positions k) ri j p /\
        pos_at (positions k) (Z.to_nat (row k)) (Z.to_nat (col k)) cur /\
        forall j' key' p',
          keys !! j' = Some key' -> Keyboard_.Valid (kbd k) key' = true ->
          pos_at (positions k) ri j' p' ->
          (Z.abs (pX p - pX cur) <= Z.abs (pX p' - pX cur))%Z
    else
      k' = k /\
      forall j key, keys !! j = Some key -> Keyboard_.Valid (kbd k) key = false.
Proof.
  intros Hplaced Htab Hri.
  destruct (in_table_pos k Htab) as (prow & cur & Hrow & Hcol & Hcur).
  unfold Cursor_.adjustCol. rewrite Hrow. cbn [mbind res_bind].
  rewrite Hcol. cbn [mbind res_bind].
  rewrite (indexZ_Some _ ri keys Hri). cbn [mbind res_bind].
  pose proof Hplaced as [_ (bx & by_ & Hbx & Hby & Hbox)].
  assert (Hbox' : forall prow p, prow ∈ positions k -> p ∈ prow -> in_box bx by_ p)
    by exact Hbox.
  pose proof (pos_at_box _ bx by_ _ _ cur Hbox' Hcur) as Hcurbox.
  destruct (forRange_inv (Cursor_.adjustColKey k (Z.of_nat ri) (pX cur))
              (ColInv k ri keys (pX cur) (row k) (col k))
              keys 0 (1000000%Z, row k, col k, false))
    as (st & -> & Hinv).
  - simpl. repeat (split; [reflexivity|]). intros j key Hlt. lia.
  - intros j key st Hj Hinv. simpl in *.
    by apply (adjustColKey_inv k ri keys cur (row k) (col k) bx by_).
  - cbn [mbind res_bind]. destruct st as [[[dist r] c] [|]]; simpl in Hinv.
    + destruct Hinv as (-> & j & key & p & -> & Hj & Hv & Hp & -> & Hmin).
      eexists _, true. split; [reflexivity|]. simpl. repeat (split; [reflexivity|]).
      exists j, key, p, cur. repeat (split; [done|]).
      intros j' key' p' Hj'. apply Hmin; [by eapply lookup_lt_Some | exact Hj'].
    + destruct Hinv as (_ & -> & -> & Hnone).
      eexists _, false. split; [reflexivity|]. simpl. repeat (split; [reflexivity|]).
      split; [apply set_cursor_same|].
      intros j key Hj. apply (Hnone j key); [|exact Hj]. by eapply lookup_lt_Some.
Qed.

End CursorLoops.

Lemma filter_all {A} (P : A -> Prop) `{!forall x, Decision (P x)} (l : list A) :
  Forall P l -> filter P l = l.
Proof.
  induction 1 as [|x l Hx _ IH]; [reflexivity|].
  by rewrite filter_cons_True, IH.
Qed.

Lemma key_at_elem_of r : r ∈ mjoin kbdKeys -> exists i j, key_at i j r.
Proof.
  intros (keys & Hr & Hkeys)%list_elem_of_join.
  apply list_elem_of_lookup in Hkeys as [i Hi].
  apply list_elem_of_lookup in Hr as [j Hj].
  exists i, j, keys. by split.
Qed.

(** Every letter has a key. *)
Lemma letter_key (c : ascii) :
  lowerLetter c ->
  exists i j, key_at i j (Z.of_nat (nat_of_ascii (upper1 c))).
Proof.
  intros Hc. rewrite (upper1_lower c Hc). destruct Hc as [Hlo Hhi].
  apply key_at_elem_of.
  assert (Hall : Forall (fun m => Z.of_nat (m + 65) ∈ mjoin kbdKeys) (seq 0 26)).
  { apply (bool_decide_unpack _). vm_compute. exact I. }
  rewrite Forall_forall in Hall.
  replace (nat_of_ascii c - 32) with ((nat_of_ascii c - 97) + 65) by lia.
  apply Hall. apply elem_of_seq. lia.
Qed.

(** *** [NewKeyboard] *)

Ltac unwrap :=
  repeat match goal with
         | |- context [wrap ?z] =>
             lazymatch z with
             | context [wrap _] => fail
             | _ => rewrite (wrap_small z) by (change (2 ^ 31)%Z with 2147483648%Z; nia)
             end
         end.

Section Place.

Context `{IntSize}.

(** The keys of a new keyboard are placed, for an image of a key that
    fits. *)
Lemma place_placed (bgbnds : Rectangle) :
  key_fits bgbnds -> placed (Cursor_.place bgbnds).
Proof.
  intros (HX & HY & HminX & HminY). change (2 ^ 20)%Z with 1048576%Z in *. split.
  - unfold Cursor_.place. cbv zeta.
    apply Forall2_same_length_lookup_2; [by rewrite length_imap|].
    intros i prow keys Hprow Hkeys.
    rewrite list_lookup_imap, Hkeys in Hprow. simpl in Hprow.
    injection Hprow as <-. by rewrite length_imap.
  - exists (- pX (Min bgbnds))%Z, (- pY (Min bgbnds))%Z.
    change (2 ^ 20)%Z with 1048576%Z.
    split; [lia|]. split; [lia|].
    intros prow p Hprow Hp. unfold Cursor_.place in Hprow. cbv zeta in Hprow.
    apply elem_of_lookup_imap in Hprow as (i & keys & -> & Hi).
    apply elem_of_lookup_imap in Hp as (j & key & -> & Hj).
    apply lookup_lt_Some in Hj.
    unfold in_box, Point_Sub, Point_Add, Cursor_.margin. cbn [pX pY].
    set (dx := (pX (Max bgbnds) - pX (Min bgbnds))%Z) in *.
    set (dy := (pY (Max bgbnds) - pY (Min bgbnds))%Z) in *.
    set (mx := pX (Min bgbnds)) in *. set (my := pY (Min bgbnds)) in *.
    clearbody dx dy mx my.
    change (fold_left _ kbdKeys 0%Z) with 10%Z.
    destruct i as [|[|[|i]]]; simpl in Hi; [| | |discriminate];
      injection Hi as <-; simpl in Hj; unfold len;
      cbn -[wrap Z.mul Z.add Z.sub Z.quot Z.opp];
      unwrap;
      rewrite Z.quot_div_nonneg by lia;
      match goal with
      | |- context [(?a / 2)%Z] =>
          pose proof (Z.div_mod a 2 ltac:(lia)) as Hq;
          pose proof (Z.mod_pos_bound a 2 ltac:(lia)) as Hr;
          set (q := (a / 2)%Z) in *; set (r := (a mod 2)%Z) in *;
          clearbody q r
      end;
      unwrap; nia.
Qed.

(** The places of the keys of a new keyboard, in exact arithmetic: the
    keys of a row are one key and a margin apart, the rows as well, and
    the second and the third row are shifted by a half and by one and a
    half of that. *)
Lemma place_pos (bgbnds : Rectangle) i j p :
  key_fits bgbnds -> pos_at (Cursor_.place bgbnds) i j p ->
  let sx := (pX (Max bgbnds) - pX (Min bgbnds) + 2)%Z in
  let sy := (pY (Max bgbnds) - pY (Min bgbnds) + 2)%Z in
  i < 3 /\ j < 10 /\
  pX p = (Z.of_nat j * sx + Z.of_nat (match i with O => 0 | S O => 1 | _ => 3 end)%nat * sx / 2
          - pX (Min bgbnds))%Z /\
  pY p = (Z.of_nat i * sy - pY (Min bgbnds))%Z.
Proof.
  intros (HX & HY & HminX & HminY) (prow & Hi & Hj).
  change (2 ^ 20)%Z with 1048576%Z in *.
  unfold Cursor_.place in Hi. cbv zeta in Hi. rewrite list_lookup_imap in Hi.
  destruct (kbdKeys !! i) as [keys|] eqn:Hkeys; [|discriminate Hi].
  simpl in Hi. injection Hi as <-. rewrite list_lookup_imap in Hj.
  destruct (keys !! j) as [key|] eqn:Hkey; [|discriminate Hj].
  simpl in Hj. injection Hj as <-.
  apply lookup_lt_Some in Hkey.
  unfold Point_Sub, Point_Add, Cursor_.margin. cbn [pX pY].
  set (dx := (pX (Max bgbnds) - pX (Min bgbnds))%Z) in *.
  set (dy := (pY (Max bgbnds) - pY (Min bgbnds))%Z) in *.
  set (mx := pX (Min bgbnds)) in *. set (my := pY (Min bgbnds)) in *.
  clearbody dx dy mx my.
  change (fold_left _ kbdKeys 0%Z) with 10%Z.
  destruct i as [|[|[|i]]]; simpl in Hkeys; [| | |discriminate];
    injection Hkeys as <-; simpl in Hkey; unfold len;
    cbn -[wrap Z.mul Z.add Z.sub Z.quot Z.opp Z.div];
    (split; [lia|]); (split; [lia|]);
    unwrap;
    rewrite Z.quot_div_nonneg by lia;
    match goal with
    | |- context [(?a / 2)%Z] =>
        pose proof (Z.div_mod a 2 ltac:(lia)) as Hq;
        pose proof (Z.mod_pos_bound a 2 ltac:(lia)) as Hr;
        set (q := (a / 2)%Z) in *; set (r := (a mod 2)%Z) in *
    end;
    match goal with
    | |- context [(?b * (dx + 2) / 2)%Z] =>
        pose proof (Z.div_mod (b * (dx + 2)) 2 ltac:(lia)) as Hq';
        pose proof (Z.mod_pos_bound (b * (dx + 2)) 2 ltac:(lia)) as Hr';
        set (q' := (b * (dx + 2) / 2)%Z) in *; set (r' := (b * (dx + 2) mod 2)%Z) in *
    end;
    clearbody q r q' r';
    unwrap; split; nia.
Qed.

Lemma place_distinct (bgbnds : Rectangle) :
  key_fits bgbnds -> distinct (Cursor_.place bgbnds).
Proof.
  intros Hfits i j i' j' p Hp Hp'.
  destruct (place_pos bgbnds i j p Hfits Hp) as (Hi & Hj & HX & HY).
  destruct (place_pos bgbnds i' j' p Hfits Hp') as (Hi' & Hj' & HX' & HY').
  destruct Hfits as (HdX & HdY & _).
  assert (Heq : i = i') by nia. subst i'. split; [reflexivity|]. nia.
Qed.

End Place.

Section CursorSteps.

Context `{IntSize}.

Implicit Types (k : Cursor).

Lemma on_key_in_table k : placed (positions k) -> on_key k -> in_table k.
Proof.
  intros Hplaced (keys & key & Hr & Hc & Hi & Hj & _).
  destruct (placed_pos _ (Z.to_nat (row k)) (Z.to_nat (col k)) key Hplaced) as [p Hp];
    [exists keys; by split|].
  exists (Z.to_nat (row k)), (Z.to_nat (col k)), p.
  rewrite !Z2Nat.id by assumption. by split.
Qed.

(** After [adjust] the cursor is on a key that can be typed, as soon as
    there is a key to choose from or backspace can be typed. *)
Lemma adjust_on_key k allow :
  placed (positions k) -> in_table k ->
  (exists i j key, key_at i j key /\ eligible k allow key = true) \/
  Keyboard_.Valid (kbd k) backspace = true ->
  exists k',
    Cursor_.adjust k allow = Ok k' /\
    kbd k' = kbd k /\ positions k' = positions k /\ on_key k'.
Proof.
  intros Hplaced Htab Hsome.
  destruct (adjust_spec k allow Hplaced Htab)
    as (k' & Hadj & Hkbd & Hpos & _ & Hcur).
  exists k'. repeat (split; [assumption|]).
  destruct Hcur as [(i & j & key & p & cur & Hr & Hc & (keys & Hi & Hj) & Hel & _)
                   |(Hnone & Hr & Hc & (keys & Hi & Hj))].
  - exists keys, key. rewrite Hr, Hc, !Nat2Z.id, Hkbd.
    repeat (split; [lia || assumption|]).
    unfold eligible in Hel. by apply andb_true_iff in Hel as [Hv _].
  - exists keys, backspace. rewrite Hr, Hc, Hkbd.
    repeat (split; [lia || assumption|]).
    destruct Hsome as [(i & j & key & Hkey & Hel)|Hv]; [|exact Hv].
    rewrite (Hnone i j key Hkey) in Hel. discriminate.
Qed.

(** *** The loops of [Event] *)

Lemma back_step n x :
  (0 < n <= 10)%Z -> (0 <= x < n)%Z ->
  int_rem (Cursor_.back x n) n = Ok ((x - 1) mod n)%Z.
Proof.
  intros Hn Hx. unfold int_rem, Cursor_.back.
  destruct (Z.eqb_spec n 0); [lia|].
  rewrite (wrap_small (x - 1)) by (change (2 ^ 31)%Z with 2147483648%Z; lia).
  rewrite wrap_small by (change (2 ^ 31)%Z with 2147483648%Z; lia).
  rewrite Z.rem_mod_nonneg by lia. f_equal.
  replace (x - 1 + n)%Z with (x - 1 + 1 * n)%Z by lia. apply Z_mod_plus_full.
Qed.

Lemma forth_step n x :
  (0 < n <= 10)%Z -> (0 <= x < n)%Z ->
  int_rem (Cursor_.forth x n) n = Ok ((x + 1) mod n)%Z.
Proof.
  intros Hn Hx. unfold int_rem, Cursor_.forth.
  destruct (Z.eqb_spec n 0); [lia|].
  rewrite wrap_small by (change (2 ^ 31)%Z with 2147483648%Z; lia).
  by rewrite Z.rem_mod_nonneg by lia.
Qed.

Lemma iter_back n t x :
  (0 < n)%Z -> Nat.iter t (fun x => (x - 1) mod n)%Z x = ((x - Z.of_nat t) mod n)%Z \/ t = 0.
Proof.
  intros Hn. induction t as [|t IH]; [by right|]. left. simpl.
  destruct IH as [->| ->].
  - rewrite Zminus_mod_idemp_l. f_equal. lia.
  - simpl. first [reflexivity | f_equal; lia].
Qed.

Lemma iter_forth n t x :
  (0 < n)%Z -> Nat.iter t (fun x => (x + 1) mod n)%Z x = ((x + Z.of_nat t) mod n)%Z \/ t = 0.
Proof.
  intros Hn. induction t as [|t IH]; [by right|]. left. simpl.
  destruct IH as [->| ->].
  - rewrite Zplus_mod_idemp_l. f_equal. lia.
  - simpl. first [reflexivity | f_equal; lia].
Qed.

(** Going round a row, or round the rows, leads back. *)
Lemma iter_back_round n x :
  (0 < n)%Z -> (0 <= x < n)%Z ->
  Nat.iter (Z.to_nat n) (fun x => (x - 1) mod n)%Z x = x.
Proof.
  intros Hn Hx. destruct (iter_back n (Z.to_nat n) x Hn) as [->|Hz]; [|lia].
  rewrite Z2Nat.id by lia.
  replace (x - n)%Z with (x + (-1) * n)%Z by lia.
  rewrite Z_mod_plus_full. by apply Z.mod_small.
Qed.

Lemma iter_forth_round n x :
  (0 < n)%Z -> (0 <= x < n)%Z ->
  Nat.iter (Z.to_nat n) (fun x => (x + 1) mod n)%Z x = x.
Proof.
  intros Hn Hx. destruct (iter_forth n (Z.to_nat n) x Hn) as [->|Hz]; [|lia].
  rewrite Z2Nat.id by lia.
  replace (x + n)%Z with (x + 1 * n)%Z by lia.
  rewrite Z_mod_plus_full. by apply Z.mod_small.
Qed.

Lemma moveCol_ok k step (f : Z -> Z) ri keys :
  placed (positions k) ->
  row k = Z.of_nat ri -> kbdKeys !! ri = Some keys ->
  (forall x, (0 <= x < len keys)%Z ->
     int_rem (step x (len keys)) (len keys) = Ok (f x) /\ (0 <= f x < len keys)%Z) ->
  forall t fuel next,
    S t <= fuel -> (0 <= next < len keys)%Z ->
    (exists key, keys !! Z.to_nat (Nat.iter (S t) f next) = Some key /\
                 Keyboard_.Valid (kbd k) key = true) ->
    exists k',
      Cursor_.moveCol fuel k step next (len keys) = Ok k' /\
      kbd k' = kbd k /\ positions k' = positions k /\ on_key k'.
Proof.
  intros Hplaced Hrow Hri Hf.
  induction t as [|t IH]; intros fuel next Hfuel Hnext Hvalid;
    (destruct fuel as [|fuel]; [lia|]); simpl;
    destruct (Hf next Hnext) as [-> Hrange]; cbn [mbind res_bind];
    rewrite Hrow, (indexZ_Some _ ri keys Hri); cbn [mbind res_bind];
    destruct (indexZ_range keys (f next) Hrange) as (key & -> & Hkey);
    cbn [mbind res_bind].
  - destruct Hvalid as (key' & Hkey' & Hv). simpl in Hkey'.
    rewrite Hkey in Hkey'. injection Hkey' as <-. rewrite Hv. simpl.
    apply (adjust_on_key (Cursor_.set_cursor k (Z.of_nat ri) (f next)) true Hplaced).
    + destruct (placed_pos _ ri (Z.to_nat (f next)) key Hplaced) as [p Hp];
        [exists keys; by split|].
      exists ri, (Z.to_nat (f next)), p. simpl. rewrite Z2Nat.id by lia. by split.
    + left. exists ri, (Z.to_nat (f next)), key. split; [exists keys; by split|].
      unfold eligible. simpl. rewrite Hv. simpl. by rewrite andb_false_r.
  - destruct (Keyboard_.Valid (kbd k) key) eqn:Hv; simpl.
    + apply (adjust_on_key (Cursor_.set_cursor k (Z.of_nat ri) (f next)) true Hplaced).
      * destruct (placed_pos _ ri (Z.to_nat (f next)) key Hplaced) as [p Hp];
          [exists keys; by split|].
        exists ri, (Z.to_nat (f next)), p. simpl. rewrite Z2Nat.id by lia. by split.
      * left. exists ri, (Z.to_nat (f next)), key. split; [exists keys; by split|].
        unfold eligible. simpl. rewrite Hv. simpl. by rewrite andb_false_r.
    + apply IH; [lia | exact Hrange|].
      by rewrite <- Nat.iter_succ_r.
Qed.

Lemma moveRow_ok k step (f : Z -> Z) :
  placed (positions k) -> in_table k ->
  (forall x, (0 <= x < len kbdKeys)%Z ->
     int_rem (step x (len kbdKeys)) (len kbdKeys) = Ok (f x) /\
     (0 <= f x < len kbdKeys)%Z) ->
  forall t fuel next,
    S t <= fuel -> (0 <= next < len kbdKeys)%Z ->
    (exists j key, key_at (Z.to_nat (Nat.iter (S t) f next)) j key /\
                   Keyboard_.Valid (kbd k) key = true) ->
    exists k',
      Cursor_.moveRow fuel k step next (len kbdKeys) = Ok k' /\
      kbd k' = kbd k /\ positions k' = positions k /\ on_key k'.
Proof.
  intros Hplaced Htab Hf.
  assert (Hfound : forall k1 ri keys j key,
            kbd k1 = kbd k -> positions k1 = positions k ->
            row k1 = Z.of_nat ri -> col k1 = Z.of_nat j ->
            kbdKeys !! ri = Some keys -> keys !! j = Some key ->
            Keyboard_.Valid (kbd k) key = true ->
            exists k',
              Cursor_.adjust k1 true = Ok k' /\
              kbd k' = kbd k /\ positions k' = positions k /\ on_key k').
  { intros k1 ri keys j key Hkbd Hpos Hr Hc Hri Hj Hv.
    destruct (adjust_on_key k1 true) as (k' & Hadj & Hkbd' & Hpos' & Hon).
    - by rewrite Hpos.
    - destruct (placed_pos _ ri j key Hplaced) as [p' Hp']; [exists keys; by split|].
      exists ri, j, p'. rewrite Hpos. by split.
    - left. exists ri, j, key. split; [exists keys; by split|].
      unfold eligible. rewrite Hkbd, Hv. simpl. by rewrite andb_false_r.
    - exists k'. split; [exact Hadj|]. split; [congruence|]. split; [congruence | exact Hon]. }
  induction t as [|t IH]; intros fuel next Hfuel Hnext Hvalid;
    (destruct fuel as [|fuel]; [lia|]); cbn [Cursor_.moveRow];
    destruct (Hf next Hnext) as [-> Hrange]; cbn [mbind res_bind];
    destruct (indexZ_range kbdKeys (f next) Hrange) as (keys & _ & Hri);
    destruct (adjustCol_spec k (Z.to_nat (f next)) keys Hplaced Htab Hri)
      as (k1 & found & Hcol & Hkbd & Hpos & Hres);
    rewrite Z2Nat.id in Hcol by lia; rewrite Hcol; cbn [mbind res_bind];
    destruct found.
  - destruct Hres as (Hr & j & key & p & cur & Hc & Hj & Hv & _).
    by apply (Hfound k1 (Z.to_nat (f next)) keys j key).
  - destruct Hres as [_ Hnone]. destruct Hvalid as (j & key & (keys' & Hri' & Hj) & Hv).
    simpl in Hri'. rewrite Hri in Hri'. injection Hri' as <-.
    rewrite (Hnone j key Hj) in Hv. discriminate.
  - destruct Hres as (Hr & j & key & p & cur & Hc & Hj & Hv & _).
    by apply (Hfound k1 (Z.to_nat (f next)) keys j key).
  - destruct Hres as [-> _]. apply IH; [lia | exact Hrange|].
    by rewrite <- Nat.iter_succ_r.
Qed.

Lemma kbdKeys_len i keys : kbdKeys !! i = Some keys -> (0 < len keys <= 10)%Z.
Proof.
  destruct i as [|[|[|i]]]; simpl; [| | |discriminate];
    intros [= <-]; unfold len; simpl; lia.
Qed.

Lemma eligible_allow k key :
  Keyboard_.Valid (kbd k) key = true -> eligible k true key = true.
Proof. intros Hv. unfold eligible. rewrite Hv. simpl. by rewrite andb_false_r. Qed.

(** More fuel does not change a result. *)
Lemma moveCol_mono k step n fuel :
  forall next k' fuel',
    Cursor_.moveCol fuel k step next n = Ok k' -> fuel <= fuel' ->
    Cursor_.moveCol fuel' k step next n = Ok k'.
Proof.
  induction fuel as [|fuel IH]; intros next k' fuel' Hrun Hle; [discriminate Hrun|].
  destruct fuel' as [|fuel']; [lia|]. simpl in *.
  destruct (int_rem (step next n) n) as [next'| |]; simpl in *; try discriminate.
  destruct (indexZ kbdKeys (row k)) as [keys| |]; simpl in *; try discriminate.
  destruct (indexZ keys next') as [key| |]; simpl in *; try discriminate.
  destruct (negb (Keyboard_.Valid (kbd k) key)); [|exact Hrun].
  apply IH; [exact Hrun | lia].
Qed.

Lemma moveRow_mono step n fuel :
  forall k next k' fuel',
    Cursor_.moveRow fuel k step next n = Ok k' -> fuel <= fuel' ->
    Cursor_.moveRow fuel' k step next n = Ok k'.
Proof.
  induction fuel as [|fuel IH]; intros k next k' fuel' Hrun Hle; [discriminate Hrun|].
  destruct fuel' as [|fuel']; [lia|]. simpl in *.
  destruct (int_rem (step next n) n) as [next'| |]; simpl in *; try discriminate.
  destruct (Cursor_.adjustCol k next') as [[k1 found]| |]; simpl in *; try discriminate.
  destruct found; [exact Hrun|].
  apply IH; [exact Hrun | lia].
Qed.

(** *** Where the cursor goes *)

(** On a key that can be typed the cursor stays where it is. *)
Lemma adjust_same k :
  placed (positions k) -> distinct (positions k) -> on_key k ->
  Cursor_.adjust k true = Ok k.
Proof.
  intros Hplaced Hdist Hon.
  destruct (adjust_spec k true Hplaced (on_key_in_table k Hplaced Hon))
    as (k' & Hadj & Hkbd & Hpos & _ & Hcur).
  rewrite Hadj. f_equal.
  destruct Hon as (keys0 & key0 & Hr0 & Hc0 & Hi0 & Hj0 & Hv0).
  assert (Hkey0 : key_at (Z.to_nat (row k)) (Z.to_nat (col k)) key0)
    by (exists keys0; by split).
  destruct Hcur as [(i & j & key & p & cur & Hr & Hc & Hkey & Hel & Hp & Hcur & Hmin)
                   |(Hnone & _)].
  2: { rewrite (Hnone _ _ key0 Hkey0) in Hv0 || (pose proof (Hnone _ _ key0 Hkey0) as Hn;
         unfold eligible in Hn; rewrite Hv0 in Hn; simpl in Hn;
         rewrite andb_false_r in Hn; discriminate Hn). }
  specialize (Hmin _ _ key0 cur Hkey0 (eligible_allow k key0 Hv0) Hcur).
  assert (Hsame : p = cur).
  { unfold dist2 in Hmin. destruct p as [px py], cur as [cx cy]. simpl in Hmin.
    replace ((cx - cx) * (cx - cx) + (cy - cy) * (cy - cy))%Z with 0%Z in Hmin by ring.
    pose proof (Z.square_nonneg (px - cx)) as Hx.
    pose proof (Z.square_nonneg (py - cy)) as Hy.
    assert (Hx0 : ((px - cx) * (px - cx) = 0)%Z) by lia.
    assert (Hy0 : ((py - cy) * (py - cy) = 0)%Z) by lia.
    apply Z.mul_eq_0 in Hx0, Hy0. f_equal; lia. }
  subst p. destruct (Hdist _ _ _ _ cur Hp Hcur) as [-> ->].
  destruct k as [kb ps r c], k' as [kb' ps' r' c']. simpl in *. subst.
  f_equal; lia.
Qed.

(** The least number with a property, below a number that has it. *)
Lemma least_below (P : nat -> bool) n :
  P n = true -> exists m, m <= n /\ P m = true /\ forall u, u < m -> P u = false.
Proof.
  assert (Hsearch : forall n,
            (exists m, m <= n /\ P m = true /\ forall u, u < m -> P u = false) \/
            (forall u, u <= n -> P u = false)).
  { clear n. induction n as [|n [(m & Hm & HPm & Hleast)|Hnone]].
    - destruct (P 0) eqn:HP0.
      + left. exists 0. split; [lia|]. split; [exact HP0|]. intros u Hu. lia.
      + right. intros u Hu. by replace u with 0 by lia.
    - left. exists m. split; [lia|]. by split.
    - destruct (P (S n)) eqn:HPn.
      + left. exists (S n). split; [lia|]. split; [exact HPn|].
        intros u Hu. apply Hnone. lia.
      + right. intros u Hu. destruct (decide (u = S n)) as [->|Hne]; [exact HPn|].
        apply Hnone. lia. }
  intros Hn. destruct (Hsearch n) as [Hm|Hnone]; [exact Hm|].
  rewrite (Hnone n) in Hn by lia. discriminate.
Qed.

Lemma set_cursor_on_key k ri keys c key :
  kbdKeys !! ri = Some keys -> (0 <= c)%Z -> keys !! Z.to_nat c = Some key ->
  Keyboard_.Valid (kbd k) key = true ->
  on_key (Cursor_.set_cursor k (Z.of_nat ri) c).
Proof.
  intros Hri Hc Hkey Hv. exists keys, key. simpl. rewrite Nat2Z.id.
  repeat (split; [lia || assumption|]). exact Hv.
Qed.

(** The loop for Left and Right stops at the first column, going
    round, whose key can be typed. *)
Lemma moveCol_first k step (f : Z -> Z) ri keys :
  placed (positions k) -> distinct (positions k) ->
  row k = Z.of_nat ri -> kbdKeys !! ri = Some keys ->
  (forall x, (0 <= x < len keys)%Z ->
     int_rem (step x (len keys)) (len keys) = Ok (f x) /\ (0 <= f x < len keys)%Z) ->
  forall t fuel next,
    S t <= fuel -> (0 <= next < len keys)%Z ->
    (forall u key, u < t -> keys !! Z.to_nat (Nat.iter (S u) f next) = Some key ->
       Keyboard_.Valid (kbd k) key = false) ->
    (exists key, keys !! Z.to_nat (Nat.iter (S t) f next) = Some key /\
                 Keyboard_.Valid (kbd k) key = true) ->
    Cursor_.moveCol fuel k step next (len keys) =
      Ok (Cursor_.set_cursor k (row k) (Nat.iter (S t) f next)).
Proof.
  intros Hplaced Hdist Hrow Hri Hf.
  induction t as [|t IH]; intros fuel next Hfuel Hnext Hbefore Hvalid;
    (destruct fuel as [|fuel]; [lia|]); cbn [Cursor_.moveCol];
    destruct (Hf next Hnext) as [-> Hrange]; cbn [mbind res_bind];
    rewrite Hrow, (indexZ_Some _ ri keys Hri); cbn [mbind res_bind];
    destruct (indexZ_range keys (f next) Hrange) as (key & -> & Hkey);
    cbn [mbind res_bind].
  - destruct Hvalid as (key' & Hkey' & Hv). simpl in Hkey'.
    rewrite Hkey in Hkey'. injection Hkey' as <-. rewrite Hv. simpl negb. cbv iota.
    change (Nat.iter 1 f next) with (f next).
    apply adjust_same; [exact Hplaced | exact Hdist|].
    by apply (set_cursor_on_key k ri keys (f next) key); [|lia| |].
  - rewrite (Hbefore 0 key ltac:(lia) Hkey). simpl negb. cbv iota.
    rewrite (Nat.iter_succ_r (S t)), <- Hrow. apply IH; [lia | exact Hrange | |].
    + intros u key' Hu Hkey'. apply (Hbefore (S u) key'); [lia|].
      by rewrite Nat.iter_succ_r.
    + by rewrite <- Nat.iter_succ_r.
Qed.

(** The loop for Up and Down stops at the first row, going round, that
    has a key that can be typed, on the key of that row that is nearest
    in the horizontal. *)
Lemma moveRow_first k step (f : Z -> Z) :
  placed (positions k) -> distinct (positions k) -> in_table k ->
  (forall x, (0 <= x < len kbdKeys)%Z ->
     int_rem (step x (len kbdKeys)) (len kbdKeys) = Ok (f x) /\
     (0 <= f x < len kbdKeys)%Z) ->
  forall t fuel next,
    S t <= fuel -> (0 <= next < len kbdKeys)%Z ->
    (forall u c, u < t -> ~ valid_key k (Nat.iter (S u) f next) c) ->
    (exists c, valid_key k (Nat.iter (S t) f next) c) ->
    exists c,
      Cursor_.moveRow fuel k step next (len kbdKeys) =
        Ok (Cursor_.set_cursor k (Nat.iter (S t) f next) c) /\
      valid_key k (Nat.iter (S t) f next) c /\
      forall c' p p' cur,
        valid_key k (Nat.iter (S t) f next) c' ->
        pos_at (positions k) (Z.to_nat (Nat.iter (S t) f next)) (Z.to_nat c) p ->
        pos_at (positions k) (Z.to_nat (Nat.iter (S t) f next)) (Z.to_nat c') p' ->
        pos_at (positions k) (Z.to_nat (row k)) (Z.to_nat (col k)) cur ->
        (Z.abs (pX p - pX cur) <= Z.abs (pX p' - pX cur))%Z.
Proof.
  intros Hplaced Hdist Htab Hf.
  induction t as [|t IH]; intros fuel next Hfuel Hnext Hbefore Hvalid;
    (destruct fuel as [|fuel]; [lia|]); cbn [Cursor_.moveRow];
    destruct (Hf next Hnext) as [-> Hrange]; cbn [mbind res_bind];
    destruct (indexZ_range kbdKeys (f next) Hrange) as (keys & _ & Hri);
    destruct (adjustCol_spec k (Z.to_nat (f next)) keys Hplaced Htab Hri)
      as (k1 & found & Hcol & Hkbd & Hpos & Hres);
    rewrite Z2Nat.id in Hcol by lia; rewrite Hcol; cbn [mbind res_bind];
    destruct found.
  - destruct Hres as (Hr & j & key & p & cur & Hc & Hj & Hv & Hp & Hcur & Hmin).
    rewrite Z2Nat.id in Hr by lia.
    assert (Hk1 : k1 = Cursor_.set_cursor k (f next) (Z.of_nat j)).
    { destruct k1, k. simpl in *. by subst. }
    subst k1. exists (Z.of_nat j). simpl Nat.iter.
    assert (Hvk : valid_key k (f next) (Z.of_nat j)).
    { exists keys, key. rewrite Nat2Z.id. repeat (split; [lia || assumption|]). exact Hv. }
    split; [|split; [exact Hvk|]].
    + apply adjust_same; [exact Hplaced | exact Hdist|].
      rewrite <- (Z2Nat.id (f next)) by lia.
      apply (set_cursor_on_key k _ keys (Z.of_nat j) key); [exact Hri | lia | |exact Hv].
      by rewrite Nat2Z.id.
    + intros c' p1 p' cur' (keys' & key' & _ & Hc' & Hri' & Hj' & Hv') Hp1 Hp' Hcur'.
      rewrite Hri in Hri'. injection Hri' as <-. rewrite Nat2Z.id in Hp1.
      rewrite (pos_at_fun _ _ _ _ _ Hp1 Hp), (pos_at_fun _ _ _ _ _ Hcur' Hcur).
      by apply (Hmin (Z.to_nat c') key' p').
  - exfalso. destruct Hres as [_ Hnone].
    destruct Hvalid as (c & keys' & key' & _ & Hc' & Hri' & Hj' & Hv').
    simpl in Hri'. rewrite Hri in Hri'. injection Hri' as <-.
    rewrite (Hnone _ key' Hj') in Hv'. discriminate.
  - exfalso. destruct Hres as (_ & j & key & _ & _ & _ & Hj & Hv & _).
    apply (Hbefore 0 (Z.of_nat j)); [lia|]. simpl.
    exists keys, key. rewrite Nat2Z.id. repeat (split; [lia || assumption|]). exact Hv.
  - destruct Hres as [-> _]. rewrite (Nat.iter_succ_r (S t)) in *.
    apply IH; [lia | exact Hrange | | exact Hvalid].
    intros u c Hu. rewrite <- Nat.iter_succ_r. apply Hbefore. lia.
Qed.

Lemma iter_toward_back n t x :
  (0 < n)%Z -> Nat.iter (S t) (fun x => (x - 1) mod n)%Z x = toward (-1) x (S t) n.
Proof.
  intros Hn. destruct (iter_back n (S t) x Hn) as [->|Hz]; [|discriminate Hz].
  unfold toward. f_equal; try lia.
Qed.

Lemma iter_toward_forth n t x :
  (0 < n)%Z -> Nat.iter (S t) (fun x => (x + 1) mod n)%Z x = toward 1 x (S t) n.
Proof.
  intros Hn. destruct (iter_forth n (S t) x Hn) as [->|Hz]; [|discriminate Hz].
  unfold toward. f_equal; try lia.
Qed.

Lemma valid_key_lookup k ri keys c :
  kbdKeys !! ri = Some keys -> (0 <= c)%Z ->
  valid_key k (Z.of_nat ri) c <->
  exists key, keys !! Z.to_nat c = Some key /\ Keyboard_.Valid (kbd k) key = true.
Proof.
  intros Hri Hc. split.
  - intros (keys' & key & _ & _ & Hri' & Hkey & Hv). rewrite Nat2Z.id, Hri in Hri'.
    injection Hri' as <-. by exists key.
  - intros (key & Hkey & Hv). exists keys, key. rewrite Nat2Z.id.
    repeat (split; [lia || assumption|]). exact Hv.
Qed.

(** Left and Right: to the first key of the row, going round in the
    direction [d], that can be typed. *)
Lemma moveCol_least k step (f : Z -> Z) (d : Z) ri keys fuel :
  placed (positions k) -> distinct (positions k) -> on_key k ->
  row k = Z.of_nat ri -> kbdKeys !! ri = Some keys ->
  (forall x, (0 <= x < len keys)%Z ->
     int_rem (step x (len keys)) (len keys) = Ok (f x) /\ (0 <= f x < len keys)%Z) ->
  (forall t x, Nat.iter (S t) f x = toward d x (S t) (len keys)) ->
  Nat.iter (length keys) f (col k) = col k ->
  10 <= fuel ->
  exists t,
    1 <= t <= length keys /\
    Cursor_.moveCol fuel k step (col k) (len keys) =
      Ok (Cursor_.set_cursor k (row k) (toward d (col k) t (len keys))) /\
    valid_key k (row k) (toward d (col k) t (len keys)) /\
    forall u, 1 <= u < t -> ~ valid_key k (row k) (toward d (col k) u (len keys)).
Proof.
  intros Hplaced Hdist Hon Hrow Hri Hf Hiter Hround Hfuel.
  pose proof (kbdKeys_len _ keys Hri) as Hlen.
  destruct Hon as (keys0 & key0 & Hr0 & Hc0 & Hi0 & Hj0 & Hv0).
  rewrite Hrow, Nat2Z.id, Hri in Hi0. injection Hi0 as <-.
  assert (Hcol : (0 <= col k < len keys)%Z).
  { apply lookup_lt_Some in Hj0. unfold len. lia. }
  assert (Hin : forall t, (0 <= Nat.iter (S t) f (col k) < len keys)%Z).
  { intros t. rewrite Hiter. unfold toward. apply Z.mod_pos_bound. lia. }
  set (P := fun u =>
              match keys !! Z.to_nat (Nat.iter (S u) f (col k)) with
              | Some key => Keyboard_.Valid (kbd k) key
              | None => false
              end).
  assert (HP : P (length keys - 1) = true).
  { unfold P. replace (S (length keys - 1)) with (length keys) by (unfold len in Hlen; lia).
    by rewrite Hround, Hj0. }
  destruct (least_below P _ HP) as (t & Ht & HPt & Hleast).
  unfold P in HPt.
  destruct (keys !! Z.to_nat (Nat.iter (S t) f (col k))) as [key|] eqn:Hkey;
    [|discriminate HPt].
  exists (S t). split; [unfold len in Hlen; lia|].
  rewrite <- Hiter, Hrow.
  split; [|split].
  - rewrite <- Hrow.
    apply (moveCol_first k step f ri keys Hplaced Hdist Hrow Hri Hf);
      [unfold len in Hlen; lia | exact Hcol | | by exists key].
    intros u key' Hu Hkey'. specialize (Hleast u Hu). unfold P in Hleast.
    by rewrite Hkey' in Hleast.
  - apply (valid_key_lookup k ri keys); [exact Hri | apply Hin | by exists key].
  - intros u Hu Hvk. destruct u as [|u]; [lia|]. rewrite <- Hiter in Hvk.
    apply (valid_key_lookup k ri keys) in Hvk as (key' & Hkey' & Hv'); [|exact Hri | apply Hin].
    specialize (Hleast u ltac:(lia)). unfold P in Hleast. rewrite Hkey' in Hleast.
    congruence.
Qed.

(** Up and Down: to the first row, going round in the direction [d],
    that has a key that can be typed. *)
Lemma moveRow_least k step (f : Z -> Z) (d : Z) fuel :
  placed (positions k) -> distinct (positions k) -> on_key k ->
  (forall x, (0 <= x < len kbdKeys)%Z ->
     int_rem (step x (len kbdKeys)) (len kbdKeys) = Ok (f x) /\
     (0 <= f x < len kbdKeys)%Z) ->
  (forall t x, Nat.iter (S t) f x = toward d x (S t) (len kbdKeys)) ->
  Nat.iter 3 f (row k) = row k ->
  10 <= fuel ->
  exists t c,
    1 <= t <= 3 /\
    Cursor_.moveRow fuel k step (row k) (len kbdKeys) =
      Ok (Cursor_.set_cursor k (toward d (row k) t (len kbdKeys)) c) /\
    valid_key k (toward d (row k) t (len kbdKeys)) c /\
    (forall u c', 1 <= u < t -> ~ valid_key k (toward d (row k) u (len kbdKeys)) c') /\
    forall c' p p' cur,
      valid_key k (toward d (row k) t (len kbdKeys)) c' ->
      pos_at (positions k) (Z.to_nat (toward d (row k) t (len kbdKeys))) (Z.to_nat c) p ->
      pos_at (positions k) (Z.to_nat (toward d (row k) t (len kbdKeys))) (Z.to_nat c') p' ->
      pos_at (positions k) (Z.to_nat (row k)) (Z.to_nat (col k)) cur ->
      (Z.abs (pX p - pX cur) <= Z.abs (pX p' - pX cur))%Z.
Proof.
  intros Hplaced Hdist Hon Hf Hiter Hround Hfuel.
  pose proof (on_key_in_table k Hplaced Hon) as Htab.
  pose proof Hon as (keys0 & key0 & Hr0 & Hc0 & Hi0 & Hj0 & Hv0).
  assert (Hrow : (0 <= row k < len kbdKeys)%Z).
  { apply lookup_lt_Some in Hi0. unfold len. lia. }
  assert (Hin : forall t, (0 <= Nat.iter (S t) f (row k) < len kbdKeys)%Z).
  { intros t. rewrite Hiter. unfold toward. apply Z.mod_pos_bound. unfold len. simpl. lia. }
  (* the rows that have a key to type *)
  set (P := fun u =>
              match kbdKeys !! Z.to_nat (Nat.iter (S u) f (row k)) with
              | Some keys => existsb (Keyboard_.Valid (kbd k)) keys
              | None => false
              end).
  assert (HPv : forall u, P u = true <-> exists c, valid_key k (Nat.iter (S u) f (row k)) c).
  { intros u. unfold P. split.
    - destruct (kbdKeys !! Z.to_nat (Nat.iter (S u) f (row k))) as [keys|] eqn:Hkeys;
        [|discriminate].
      intros (key & Hkey & Hv)%existsb_exists.
      apply list_elem_of_In, list_elem_of_lookup in Hkey as [j Hj].
      exists (Z.of_nat j), keys, key. rewrite Nat2Z.id.
      specialize (Hin u). repeat (split; [lia || assumption|]). exact Hv.
    - intros (c & keys & key & _ & _ & Hkeys & Hkey & Hv). rewrite Hkeys.
      apply existsb_exists. exists key. split; [|exact Hv].
      apply list_elem_of_In. by eapply list_elem_of_lookup_2. }
  assert (HP : P 2 = true).
  { apply HPv. rewrite Hround. exists (col k), keys0, key0.
    repeat (split; [lia || assumption|]). exact Hv0. }
  destruct (least_below P _ HP) as (t & Ht & HPt & Hleast).
  destruct (moveRow_first k step f Hplaced Hdist Htab Hf t fuel (row k))
    as (c & Hrun & Hvk & Hnear); [lia | exact Hrow | | by apply HPv |].
  { intros u c Hu Hvk. specialize (Hleast u Hu).
    assert (HPu : P u = true) by (apply HPv; by exists c). congruence. }
  exists (S t), c. rewrite <- Hiter. split; [lia|]. split; [exact Hrun|].
  split; [exact Hvk|]. split; [|exact Hnear].
  intros u c' Hu Hvk'. destruct u as [|u]; [lia|]. rewrite <- Hiter in Hvk'.
  specialize (Hleast u ltac:(lia)).
  assert (HPu : P u = true) by (apply HPv; by exists c'). congruence.
Qed.

End CursorSteps.

Section CursorMoves.

Context `{Bip39} `{IntSize} (Hspec : Bip39Spec) (Hwords : 2 <= length Wordlist).

Implicit Types (k : Cursor) (kb : Keyboard).

(** Some key can always be typed: backspace when something is typed,
    and a letter on an empty keyboard. *)
Lemma some_key_valid kb :
  kb_reachable kb ->
  (kb_Word kb <> [] /\ Keyboard_.Valid kb backspace = true) \/
  (kb_Word kb = [] /\
   exists i j key, key_at i j key /\ key <> backspace /\ Keyboard_.Valid kb key = true).
Proof.
  intros Hreach.
  destruct (reachable_free Hspec kb Hreach) as (p & Hword & _ & Hfree).
  destruct p as [|c0 p].
  - right. split; [exact Hword|].
    assert (Hall : completions [] = Wordlist).
    { unfold completions. apply filter_all, Forall_forall.
      intros w _. apply prefix_nil. }
    pose proof (Wordlist_sorted Hspec) as Hsorted.
    destruct Wordlist as [|w0 [|w1 ws]] eqn:Hwl; [simpl in Hwords; lia..|].
    apply StronglySorted_inv in Hsorted as [_ Hlt].
    apply Forall_cons_1 in Hlt as [Hlt _].
    destruct w1 as [|c rest]; [by destruct w0|].
    assert (Hw1 : (c :: rest) ∈ Wordlist) by (rewrite Hwl; right; left).
    assert (Hc : lowerLetter c) by (apply (Wordlist_lower Hspec _ c Hw1); left).
    destruct (letter_key c Hc) as (i & j & Hkey).
    exists i, j, (Z.of_nat (nat_of_ascii (upper1 c))).
    split; [exact Hkey|]. split; [apply code_not_backspace|].
    apply Hfree. right. split.
    + rewrite Hall. simpl. lia.
    + exists c, (c :: rest). split; [reflexivity|]. split; [exact Hw1|].
      by exists rest.
  - left. assert (Hne : kb_Word kb <> []) by (rewrite Hword; discriminate).
    split; [exact Hne|]. apply Hfree. left. split; [reflexivity | discriminate].
Qed.

(** Typing never fails. *)
Lemma rune_total kb r :
  exists kb',
    Keyboard_.rune kb r = Ok kb' /\
    (Keyboard_.Valid kb r = true -> r <> backspace -> kb_Word kb' <> []).
Proof.
  unfold Keyboard_.rune.
  destruct (Keyboard_.Valid kb r); simpl; [|exists kb; split; [reflexivity | discriminate]].
  destruct (Z.eqb_spec r backspace) as [->|Hr];
    match goal with |- context [Keyboard_.updateMask ?k0] =>
      destruct (updateMask_counted Hspec k0) as (kb' & -> & Hw & _) end;
    exists kb'; (split; [reflexivity|]); [done|].
  intros _ _. rewrite Hw. simpl. by destruct (kb_Word kb).
Qed.

(** *** [rune], [Clear] and [Event] *)

Lemma rune_ok k r :
  placed (positions k) -> on_key k -> kb_reachable (kbd k) ->
  exists k',
    Cursor_.rune k r = Ok k' /\ positions k' = positions k /\
    on_key k' /\ kb_reachable (kbd k').
Proof.
  intros Hplaced Hon Hreach. unfold Cursor_.rune.
  destruct (Keyboard_.Valid (kbd k) r) eqn:Hv; simpl; [|by exists k].
  destruct (rune_total (kbd k) r) as (kb' & Hrune & Hword).
  rewrite Hrune. cbn [mbind res_bind].
  assert (Hreach' : kb_reachable kb') by (by apply (kb_rune (kbd k) r)).
  destruct (adjust_on_key (Cursor_.set_kbd k kb') (r =? backspace)%Z)
    as (k' & Hadj & Hkbd & Hpos & Hon').
  - exact Hplaced.
  - destruct (on_key_in_table k Hplaced Hon) as (i & j & p & Hr & Hc & Hp).
    by exists i, j, p.
  - destruct (some_key_valid kb' Hreach')
      as [[_ Hbs]|(Hnil & i & j & key & Hkey & Hne & Hkv)]; [by right|].
    left. exists i, j, key. split; [exact Hkey|].
    destruct (Z.eqb_spec r backspace) as [->|Hr]; [by apply eligible_allow|].
    exfalso. by apply (Hword Hv Hr).
  - exists k'. split; [exact Hadj|]. split; [exact Hpos|]. split; [exact Hon'|].
    by rewrite Hkbd.
Qed.

Lemma Clear_ok k :
  placed (positions k) ->
  (forall kb', Keyboard_.Clear (kbd k) = Ok kb' -> kb_reachable kb') ->
  exists k',
    Cursor_.Clear k = Ok k' /\ positions k' = positions k /\
    on_key k' /\ kb_reachable (kbd k').
Proof.
  intros Hplaced Hreach. unfold Cursor_.Clear.
  destruct (updateMask_counted Hspec (mkKeyboard [] (nvalid (kbd k)) (mask (kbd k))))
    as (kb' & Hclear & Hword & _).
  change (Keyboard_.updateMask _) with (Keyboard_.Clear (kbd k)) in Hclear.
  rewrite Hclear. cbn [mbind res_bind].
  specialize (Hreach kb' Hclear).
  change (Z.quot (len kbdKeys) 2) with (Z.of_nat 1).
  rewrite (indexZ_Some kbdKeys 1 _ eq_refl). cbn [mbind res_bind].
  change (Z.quot (len (runes "ASDFGHJKL")) 2) with (Z.of_nat 4).
  destruct (adjust_on_key (mkCursor kb' (positions k) (Z.of_nat 1) (Z.of_nat 4)) false)
    as (k' & Hadj & Hkbd & Hpos & Hon').
  - exact Hplaced.
  - destruct (placed_pos _ 1 4 71%Z Hplaced) as [p Hp]; [by eexists|].
    by exists 1, 4, p.
  - destruct (some_key_valid kb' Hreach)
      as [[Hne _]|(Hnil & i & j & key & Hkey & Hne & Hkv)]; [done|].
    left. exists i, j, key. split; [exact Hkey|].
    unfold eligible. simpl. rewrite Hkv. apply Z.eqb_neq in Hne. by rewrite Hne.
  - exists k'. split; [exact Hadj|]. split; [exact Hpos|]. split; [exact Hon'|].
    by rewrite Hkbd.
Qed.

Lemma Event_ok k e fuel :
  placed (positions k) -> on_key k -> kb_reachable (kbd k) -> 10 <= fuel ->
  exists k',
    Cursor_.Event fuel e k = Ok k' /\ positions k' = positions k /\
    on_key k' /\ kb_reachable (kbd k').
Proof.
  intros Hplaced Hon Hreach Hfuel. unfold Cursor_.Event.
  destruct (Pressed e); simpl; [|by exists k].
  pose proof Hon as (keys & key & Hr & Hc & Hi & Hj & Hv).
  pose proof (kbdKeys_len _ keys Hi) as Hlen.
  assert (Hcol : (0 <= col k < len keys)%Z).
  { apply lookup_lt_Some in Hj. unfold len. lia. }
  assert (Hrow : (0 <= row k < len kbdKeys)%Z).
  { apply lookup_lt_Some in Hi. unfold len. lia. }
  assert (Hrowi : indexZ kbdKeys (row k) = Ok keys).
  { rewrite <- (Z2Nat.id (row k)) by lia. by apply indexZ_Some. }
  assert (Hcoli : indexZ keys (col k) = Ok key).
  { rewrite <- (Z2Nat.id (col k)) by lia. by apply indexZ_Some. }
  assert (Hrowz : row k = Z.of_nat (Z.to_nat (row k))) by (by rewrite Z2Nat.id).
  assert (Hmove : forall k1,
            kbd k1 = kbd k -> positions k1 = positions k -> on_key k1 ->
            positions k1 = positions k /\ on_key k1 /\ kb_reachable (kbd k1)).
  { intros k1 Hkbd Hpos Hon1. split; [exact Hpos|]. split; [exact Hon1|].
    by rewrite Hkbd. }
  destruct (Button e =? input.Left).
  { rewrite Hrowi. cbn [mbind res_bind].
    assert (Hf : forall x, (0 <= x < len keys)%Z ->
              int_rem (Cursor_.back x (len keys)) (len keys)
                = Ok ((x - 1) mod len keys)%Z /\
              (0 <= (x - 1) mod len keys < len keys)%Z).
    { intros x Hx. split; [by apply back_step | apply Z.mod_pos_bound; lia]. }
    assert (Hval : exists key,
              keys !! Z.to_nat (Nat.iter (S (Z.to_nat (len keys) - 1))
                                  (fun x => (x - 1) mod len keys)%Z (col k)) = Some key /\
              Keyboard_.Valid (kbd k) key = true).
    { exists key. split; [|exact Hv].
      replace (S (Z.to_nat (len keys) - 1)) with (Z.to_nat (len keys)) by lia.
      by rewrite iter_back_round by lia. }
    destruct (moveCol_ok k Cursor_.back (fun x => (x - 1) mod len keys)%Z
                (Z.to_nat (row k)) keys Hplaced Hrowz Hi Hf
                (Z.to_nat (len keys) - 1) fuel (col k) ltac:(lia) Hcol Hval)
      as (k1 & Hk1 & Hkbd & Hpos & Hon1).
    exists k1. split; [exact Hk1|]. by apply Hmove. }
  destruct (Button e =? input.Right).
  { rewrite Hrowi. cbn [mbind res_bind].
    assert (Hf : forall x, (0 <= x < len keys)%Z ->
              int_rem (Cursor_.forth x (len keys)) (len keys)
                = Ok ((x + 1) mod len keys)%Z /\
              (0 <= (x + 1) mod len keys < len keys)%Z).
    { intros x Hx. split; [by apply forth_step | apply Z.mod_pos_bound; lia]. }
    assert (Hval : exists key,
              keys !! Z.to_nat (Nat.iter (S (Z.to_nat (len keys) - 1))
                                  (fun x => (x + 1) mod len keys)%Z (col k)) = Some key /\
              Keyboard_.Valid (kbd k) key = true).
    { exists key. split; [|exact Hv].
      replace (S (Z.to_nat (len keys) - 1)) with (Z.to_nat (len keys)) by lia.
      by rewrite iter_forth_round by lia. }
    destruct (moveCol_ok k Cursor_.forth (fun x => (x + 1) mod len keys)%Z
                (Z.to_nat (row k)) keys Hplaced Hrowz Hi Hf
                (Z.to_nat (len keys) - 1) fuel (col k) ltac:(lia) Hcol Hval)
      as (k1 & Hk1 & Hkbd & Hpos & Hon1).
    exists k1. split; [exact Hk1|]. by apply Hmove. }
  pose proof (on_key_in_table k Hplaced Hon) as Htab.
  assert (Hlen3 : (0 < len kbdKeys <= 10)%Z) by (unfold len; simpl; lia).
  destruct (Button e =? input.Up).
  { assert (Hf : forall x, (0 <= x < len kbdKeys)%Z ->
              int_rem (Cursor_.back x (len kbdKeys)) (len kbdKeys)
                = Ok ((x - 1) mod len kbdKeys)%Z /\
              (0 <= (x - 1) mod len kbdKeys < len kbdKeys)%Z).
    { intros x Hx. split; [by apply back_step | apply Z.mod_pos_bound; lia]. }
    assert (Hval : exists j key,
              key_at (Z.to_nat (Nat.iter (S 2)
                                  (fun x => (x - 1) mod len kbdKeys)%Z (row k))) j key /\
              Keyboard_.Valid (kbd k) key = true).
    { exists (Z.to_nat (col k)), key. split; [|exact Hv].
      change (S 2) with (Z.to_nat (len kbdKeys)).
      rewrite iter_back_round by lia. exists keys. by split. }
    destruct (moveRow_ok k Cursor_.back (fun x => (x - 1) mod len kbdKeys)%Z
                Hplaced Htab Hf 2 fuel (row k) ltac:(lia) Hrow Hval)
      as (k1 & Hk1 & Hkbd & Hpos & Hon1).
    exists k1. split; [exact Hk1|]. by apply Hmove. }
  destruct (Button e =? input.Down).
  { assert (Hf : forall x, (0 <= x < len kbdKeys)%Z ->
              int_rem (Cursor_.forth x (len kbdKeys)) (len kbdKeys)
                = Ok ((x + 1) mod len kbdKeys)%Z /\
              (0 <= (x + 1) mod len kbdKeys < len kbdKeys)%Z).
    { intros x Hx. split; [by apply forth_step | apply Z.mod_pos_bound; lia]. }
    assert (Hval : exists j key,
              key_at (Z.to_nat (Nat.iter (S 2)
                                  (fun x => (x + 1) mod len kbdKeys)%Z (row k))) j key /\
              Keyboard_.Valid (kbd k) key = true).
    { exists (Z.to_nat (col k)), key. split; [|exact Hv].
      change (S 2) with (Z.to_nat (len kbdKeys)).
      rewrite iter_forth_round by lia. exists keys. by split. }
    destruct (moveRow_ok k Cursor_.forth (fun x => (x + 1) mod len kbdKeys)%Z
                Hplaced Htab Hf 2 fuel (row k) ltac:(lia) Hrow Hval)
      as (k1 & Hk1 & Hkbd & Hpos & Hon1).
    exists k1. split; [exact Hk1|]. by apply Hmove. }
  destruct (Button e =? input.Rune); [by apply rune_ok|].
  destruct ((Button e =? input.Center) || (Button e =? input.Button3)); [|by exists k].
  rewrite Hrowi. cbn [mbind res_bind]. rewrite Hcoli. cbn [mbind res_bind].
  by apply rune_ok.
Qed.

Lemma Event_mono k e fuel fuel' k' :
  Cursor_.Event fuel e k = Ok k' -> fuel <= fuel' ->
  Cursor_.Event fuel' e k = Ok k'.
Proof.
  unfold Cursor_.Event. intros Hrun Hle.
  destruct (negb (Pressed e)); [exact Hrun|].
  destruct (Button e =? input.Left).
  { destruct (indexZ kbdKeys (row k)) as [keys| |]; simpl in *; try discriminate.
    by apply (moveCol_mono _ _ _ fuel). }
  destruct (Button e =? input.Right).
  { destruct (indexZ kbdKeys (row k)) as [keys| |]; simpl in *; try discriminate.
    by apply (moveCol_mono _ _ _ fuel). }
  destruct (Button e =? input.Up); [by apply (moveRow_mono _ _ fuel)|].
  destruct (Button e =? input.Down); [by apply (moveRow_mono _ _ fuel)|].
  exact Hrun.
Qed.

(** What holds of every keyboard that can be met. *)
Lemma cur_reachable_inv (bgbnds : Rectangle) k :
  placed (Cursor_.place bgbnds) ->
  cur_reachable bgbnds k ->
  positions k = Cursor_.place bgbnds /\ on_key k /\ kb_reachable (kbd k).
Proof.
  intros Hplaced.
  induction 1 as [k Hnew | k k' _ IH Hclear | k fuel e k' _ IH Hev].
  - unfold Cursor_.NewKeyboard in Hnew.
    destruct (Clear_ok (mkCursor (mkKeyboard [] 0 0%N) (Cursor_.place bgbnds) 0 0))
      as (k1 & Hk1 & Hpos & Hon & Hreach); [exact Hplaced | |].
    { intros kb' Hkb'. by apply kb_new. }
    rewrite Hk1 in Hnew. injection Hnew as <-. by split.
  - destruct IH as (Hpos & Hon & Hreach).
    destruct (Clear_ok k) as (k1 & Hk1 & Hpos1 & Hon1 & Hreach1).
    { by rewrite Hpos. }
    { intros kb' Hkb'. by apply (kb_clear (kbd k)). }
    rewrite Hk1 in Hclear. injection Hclear as <-.
    split; [congruence|]. by split.
  - destruct IH as (Hpos & Hon & Hreach).
    destruct (Event_ok k e (Nat.max fuel 10)) as (k1 & Hk1 & Hpos1 & Hon1 & Hreach1);
      [by rewrite Hpos | assumption.. | lia |].
    rewrite (Event_mono k e fuel (Nat.max fuel 10) k' Hev) in Hk1 by lia.
    injection Hk1 as <-. split; [congruence|]. by split.
Qed.

End CursorMoves.

(** X19.  The cursor of the keyboard is always on a key that can be
    typed, and the keyboard neither hangs nor panics.  For a word list
    of at least two words that is strictly sorted, lower-case and looked
    up by first completion, and an image of a key that is at most 98
    wide and high and lies within 2^20 of the origin: [NewKeyboard]
    returns; and on every keyboard reached from a new one by clears and
    events, the row and the column of the cursor are those of a key of
    the table for which [Valid] holds, [Clear] returns, and [Event]
    returns for every event, each of its loops ending within ten
    rounds. *)
Theorem Keyboard_cursor_on_key `{Bip39} `{IntSize} (bgbnds : Rectangle) :
  Bip39Spec -> 2 <= length Wordlist -> key_fits bgbnds ->
  (exists k0, Cursor_.NewKeyboard bgbnds = Ok k0) /\
  forall k, cur_reachable bgbnds k ->
    on_key k /\
    (exists k', Cursor_.Clear k = Ok k') /\
    forall e fuel, 10 <= fuel -> exists k', Cursor_.Event fuel e k = Ok k'.
Proof.
  intros Hspec Hwords Hfits.
  pose proof (place_placed bgbnds Hfits) as Hplaced.
  split.
  - unfold Cursor_.NewKeyboard.
    destruct (Clear_ok Hspec Hwords
                (mkCursor (mkKeyboard [] 0 0%N) (Cursor_.place bgbnds) 0 0))
      as (k1 & Hk1 & _); [exact Hplaced | |by exists k1].
    intros kb' Hkb'. by apply kb_new.
  - intros k Hreach.
    destruct (cur_reachable_inv Hspec Hwords bgbnds k Hplaced Hreach)
      as (Hpos & Hon & Hkb).
    rewrite <- Hpos in Hplaced.
    split; [exact Hon|]. split.
    + destruct (Clear_ok Hspec Hwords k Hplaced) as (k1 & Hk1 & _); [|by exists k1].
      intros kb' Hkb'. by apply (kb_clear (kbd k)).
    + intros e fuel Hfuel.
      destruct (Event_ok Hspec Hwords k e fuel Hplaced Hon Hkb Hfuel) as (k1 & Hk1 & _).
      by exists k1.
Qed.

Lemma Keyboard_cursor_on_key_witness :
  let bgbnds := mkRectangle (mkPoint 0 0) (mkPoint 20 20) in
  @Bip39Spec sampleBip39 /\
  exists k0,
    @Cursor_.NewKeyboard sampleBip39 Int32 bgbnds = Ok k0 /\ on_key k0 /\
    exists k1,
      @Cursor_.Event sampleBip39 Int32 10
        (mkEvent (input.mkEvent input.Left true 0) false) k0 = Ok k1.
Proof.
  split; [exact sampleBip39_spec|].
  destruct (@Keyboard_cursor_on_key sampleBip39 Int32
              (mkRectangle (mkPoint 0 0) (mkPoint 20 20))
              sampleBip39_spec ltac:(vm_compute; lia)
              ltac:(repeat split; vm_compute; discriminate))
    as [[k0 Hnew] Hall].
  exists k0. split; [exact Hnew|].
  destruct (Hall k0 (cur_new _ k0 Hnew)) as (Hon & _ & Hev).
  split; [exact Hon|]. apply Hev. lia.
Defined.

(** X23.  Where the arrows take the cursor.  On a keyboard reached from
    a new one by clears and events (word list and key image as above),
    a press of Left or Right leaves the cursor in its row and takes it
    to the first key to the left or to the right, going round the row,
    that can be typed (which is the key it is on when there is no
    other).  A press of Up or Down takes it to the first row above or
    below, going round, that has a key that can be typed, and there to
    a key that can be typed and is nearest in the horizontal to the key
    it came from.  The word, the mask and the places of the keys stay
    as they are. *)
Theorem Keyboard_moves `{Bip39} `{IntSize} (bgbnds : Rectangle) (k : Cursor)
    (e : Event) (fuel : nat) :
  Bip39Spec -> 2 <= length Wordlist -> key_fits bgbnds ->
  cur_reachable bgbnds k -> 10 <= fuel -> Pressed e = true ->
  let d := direction (Button e) in
  (Button e = input.Left \/ Button e = input.Right ->
   exists keys t,
     kbdKeys !! Z.to_nat (row k) = Some keys /\ 1 <= t <= length keys /\
     Cursor_.Event fuel e k =
       Ok (Cursor_.set_cursor k (row k) (toward d (col k) t (len keys))) /\
     valid_key k (row k) (toward d (col k) t (len keys)) /\
     forall u, 1 <= u < t -> ~ valid_key k (row k) (toward d (col k) u (len keys))) /\
  (Button e = input.Up \/ Button e = input.Down ->
   exists t c,
     1 <= t <= 3 /\
     Cursor_.Event fuel e k = Ok (Cursor_.set_cursor k (toward d (row k) t 3) c) /\
     valid_key k (toward d (row k) t 3) c /\
     (forall u c', 1 <= u < t -> ~ valid_key k (toward d (row k) u 3) c') /\
     forall c' p p' cur,
       valid_key k (toward d (row k) t 3) c' ->
       pos_at (positions k) (Z.to_nat (toward d (row k) t 3)) (Z.to_nat c) p ->
       pos_at (positions k) (Z.to_nat (toward d (row k) t 3)) (Z.to_nat c') p' ->
       pos_at (positions k) (Z.to_nat (row k)) (Z.to_nat (col k)) cur ->
       (Z.abs (pX p - pX cur) <= Z.abs (pX p' - pX cur))%Z).
Proof.
  intros Hspec Hwords Hfits Hreach Hfuel Hpressed d.
  pose proof (place_placed bgbnds Hfits) as Hplaced.
  pose proof (place_distinct bgbnds Hfits) as Hdist.
  destruct (cur_reachable_inv Hspec Hwords bgbnds k Hplaced Hreach) as (Hpos & Hon & _).
  rewrite <- Hpos in Hplaced, Hdist.
  pose proof Hon as (keys & key & Hr & Hc & Hi & Hj & Hv).
  pose proof (kbdKeys_len _ keys Hi) as Hlen.
  assert (Hrowz : row k = Z.of_nat (Z.to_nat (row k))) by (by rewrite Z2Nat.id).
  assert (Hcol : (0 <= col k < len keys)%Z).
  { apply lookup_lt_Some in Hj. unfold len. lia. }
  assert (Hrow : (0 <= row k < 3)%Z).
  { apply lookup_lt_Some in Hi. simpl in Hi. lia. }
  assert (Hrowi : indexZ kbdKeys (row k) = Ok keys).
  { rewrite Hrowz. by apply indexZ_Some. }
  split.
  - intros Hb. exists keys.
    assert (Hmove : exists t,
              1 <= t <= length keys /\
              Cursor_.Event fuel e k =
                Ok (Cursor_.set_cursor k (row k) (toward d (col k) t (len keys))) /\
              valid_key k (row k) (toward d (col k) t (len keys)) /\
              forall u, 1 <= u < t ->
                ~ valid_key k (row k) (toward d (col k) u (len keys))).
    { unfold Cursor_.Event. rewrite Hpressed. subst d. destruct Hb as [Hb|Hb]; rewrite Hb.
      - change (direction input.Left) with (-1)%Z. simpl negb. cbv iota.
        change (input.Left =? input.Left) with true. cbv iota.
        rewrite Hrowi. cbn [mbind res_bind].
        apply (moveCol_least k Cursor_.back
                 (fun x => (x - 1) mod len keys)%Z (-1) (Z.to_nat (row k)) keys fuel);
          try assumption.
        + intros x Hx. split; [by apply back_step | apply Z.mod_pos_bound; lia].
        + intros t x. apply iter_toward_back. lia.
        + replace (length keys) with (Z.to_nat (len keys)) by (unfold len; lia).
          apply iter_back_round; lia.
      - change (direction input.Right) with 1%Z. simpl negb. cbv iota.
        change (input.Right =? input.Left) with false.
        change (input.Right =? input.Right) with true. cbv iota.
        rewrite Hrowi. cbn [mbind res_bind].
        apply (moveCol_least k Cursor_.forth
                 (fun x => (x + 1) mod len keys)%Z 1 (Z.to_nat (row k)) keys fuel);
          try assumption.
        + intros x Hx. split; [by apply forth_step | apply Z.mod_pos_bound; lia].
        + intros t x. apply iter_toward_forth. lia.
        + replace (length keys) with (Z.to_nat (len keys)) by (unfold len; lia).
          apply iter_forth_round; lia. }
    destruct Hmove as (t & Ht & Hev & Hvk & Hleast).
    exists t. split; [exact Hi|]. by split.
  - intros Hb. change 3%Z with (len kbdKeys).
    unfold Cursor_.Event. rewrite Hpressed. subst d. destruct Hb as [Hb|Hb]; rewrite Hb.
    + change (direction input.Up) with (-1)%Z. simpl negb. cbv iota.
      change (input.Up =? input.Left) with false.
      change (input.Up =? input.Right) with false.
      change (input.Up =? input.Up) with true. cbv iota.
      apply (moveRow_least k Cursor_.back
               (fun x => (x - 1) mod len kbdKeys)%Z (-1) fuel); try assumption.
      * intros x Hx. split; [apply back_step; [done | exact Hx]
                            | apply Z.mod_pos_bound; done].
      * intros t x. by apply iter_toward_back.
      * change 3 with (Z.to_nat (len kbdKeys)). by apply iter_back_round.
    + change (direction input.Down) with 1%Z. simpl negb. cbv iota.
      change (input.Down =? input.Left) with false.
      change (input.Down =? input.Right) with false.
      change (input.Down =? input.Up) with false.
      change (input.Down =? input.Down) with true. cbv iota.
      apply (moveRow_least k Cursor_.forth
               (fun x => (x + 1) mod len kbdKeys)%Z 1 fuel); try assumption.
      * intros x Hx. split; [apply forth_step; [done | exact Hx]
                            | apply Z.mod_pos_bound; done].
      * intros t x. by apply iter_toward_forth.
      * change 3 with (Z.to_nat (len kbdKeys)). by apply iter_forth_round.
Qed.

Lemma Keyboard_moves_witness :
  let bgbnds := mkRectangle (mkPoint 0 0) (mkPoint 20 20) in
  let e := mkEvent (input.mkEvent input.Left true 0) false in
  @Bip39Spec sampleBip39 /\
  exists k0,
    @Cursor_.NewKeyboard sampleBip39 Int32 bgbnds = Ok k0 /\
    exists keys t,
      kbdKeys !! Z.to_nat (row k0) = Some keys /\
      @Cursor_.Event sampleBip39 Int32 10 e k0 =
        Ok (Cursor_.set_cursor k0 (row k0) (toward (-1) (col k0) t (len keys))).
Proof.
  intros bgbnds e. split; [exact sampleBip39_spec|].
  destruct (@Cursor_.NewKeyboard sampleBip39 Int32 bgbnds) as [k0| |] eqn:Hnew;
    [|vm_compute in Hnew; discriminate..].
  exists k0. split; [reflexivity|].
  destruct (@Keyboard_moves sampleBip39 Int32 bgbnds k0 e 10
              sampleBip39_spec ltac:(vm_compute; lia)
              ltac:(repeat split; vm_compute; discriminate)
              (cur_new bgbnds k0 Hnew) ltac:(lia) eq_refl)
    as [Hcol _].
  destruct (Hcol (or_introl eq_refl)) as (keys & t & Hkeys & _ & Hev & _).
  exists keys, t. split; [exact Hkeys | exact Hev].
Defined.

(** ** The word keyboard screen *)

Section WordScreen.

Context `{Bip39} `{IntSize} (Hspec : Bip39Spec) (Hwords : 2 <= length Wordlist).
Context (bgbnds : Rectangle) (Hfits : key_fits bgbnds).

Implicit Types (s : WordKeyboardScreen) (k : Cursor) (m : Mnemonic).

(** The loop that looks for the next empty slot ends at the first slot
    after [sel] that holds [-1], or at the end of the mnemonic. *)
Lemma nextSlot_spec m :
  (len m < 2 ^ 31)%Z ->
  forall fuel sel,
    (0 <= sel < len m)%Z -> Z.to_nat (len m - sel) <= fuel ->
    exists sel' (ret : bool),
      WordKeyboardScreen_.nextSlot fuel m sel = Ok (sel', ret) /\
      (sel < sel' <= len m)%Z /\
      (if ret then sel' = len m
       else (sel' < len m)%Z /\ m !! Z.to_nat sel' = Some (-1)%Z) /\
      forall j, (sel < j < sel')%Z -> m !! Z.to_nat j <> Some (-1)%Z.
Proof.
  intros Hsmall. change (2 ^ 31)%Z with 2147483648%Z in Hsmall.
  induction fuel as [|fuel IH]; intros sel Hsel Hfuel; [lia|].
  simpl. rewrite wrap_small by (change (2 ^ 31)%Z with 2147483648%Z; lia).
  destruct (Z.eqb_spec (sel + 1) (len m)) as [Hend|Hmore].
  - exists (sel + 1)%Z, true. split; [reflexivity|]. split; [lia|].
    split; [exact Hend|]. intros j Hj. lia.
  - destruct (indexZ_range m (sel + 1)) as (w & -> & Hw); [lia|].
    cbn [mbind res_bind].
    destruct (Z.eqb_spec w (-1)) as [->|Hw1].
    + exists (sel + 1)%Z, false. split; [reflexivity|]. split; [lia|].
      split; [split; [lia | exact Hw]|]. intros j Hj. lia.
    + destruct (IH (sel + 1)%Z) as (sel' & ret & Hloop & Hrange & Hret & Hbetween);
        [lia..|].
      exists sel', ret. split; [exact Hloop|]. split; [lia|]. split; [exact Hret|].
      intros j Hj. destruct (Z.eq_dec j (sel + 1)%Z) as [->|Hne].
      * intros Hj'. pose proof (eq_trans (eq_sym Hw) Hj') as Heq. congruence.
      * apply Hbetween. lia.
Qed.

(** A completed word is a word of the list. *)
Lemma Complete_index (kb : Keyboard) w :
  Keyboard_.Complete kb = (w, true) -> (0 <= w < len Wordlist)%Z.
Proof.
  unfold Keyboard_.Complete. rewrite (ClosestWord_first Hspec).
  destruct (firstCompletion (ToLower_ascii (kb_Word kb))) as [[i v]|] eqn:Hfind;
    simpl; [|discriminate].
  intros [= <- _]. apply firstCompletion_Some in Hfind as (Hi & _).
  apply lookup_lt_Some in Hi. unfold len. lia.
Qed.

Lemma words_stored_refl m : words_stored m m.
Proof. split; [reflexivity|]. intros i w Hi. by left. Qed.

Lemma words_stored_trans m1 m2 m3 :
  words_stored m1 m2 -> words_stored m2 m3 -> words_stored m1 m3.
Proof.
  intros [Hl12 H12] [Hl23 H23]. split; [congruence|].
  intros i w Hi. destruct (H23 i w Hi) as [Hi2|Hw]; [|by right]. by apply H12.
Qed.

Lemma storeZ_spec m sel w :
  (0 <= sel < len m)%Z ->
  storeZ m sel w = Ok (<[Z.to_nat sel := w]> m).
Proof.
  intros Hsel. unfold storeZ.
  destruct (Z.ltb_spec sel 0); [lia|]. destruct (Z.leb_spec (len m) sel); [lia|].
  reflexivity.
Qed.

Lemma words_stored_insert m i w :
  (0 <= w < len Wordlist)%Z -> words_stored m (<[i := w]> m).
Proof.
  intros Hw. unfold words_stored, Mnemonic, Word in *. split; [apply length_insert|].
  intros j v Hj. destruct (decide (i = j)) as [->|Hne].
  - apply list_lookup_insert_Some in Hj as [(_ & <- & _)|[Hne _]]; [by right | done].
  - rewrite list_lookup_insert_ne in Hj by exact Hne. by left.
Qed.

(** What the loop of [Layout] keeps: a keyboard that can be met, and a
    selected slot of the mnemonic. *)
Definition WKInv s : Prop :=
  (exists k, wk_kbd s = Some k /\ cur_reachable bgbnds k) /\
  (0 <= wk_selected s < len (wk_Mnemonic s))%Z.

Lemma handle_ok fuel e s :
  10 <= fuel -> length (wk_Mnemonic s) <= fuel ->
  (len (wk_Mnemonic s) < 2 ^ 31)%Z ->
  WKInv s ->
  exists s' (ret : bool),
    WordKeyboardScreen_.handle fuel e s = Ok (s', ret) /\
    words_stored (wk_Mnemonic s) (wk_Mnemonic s') /\
    (exists k, wk_kbd s' = Some k /\ cur_reachable bgbnds k) /\
    (ret = false -> (0 <= wk_selected s' < len (wk_Mnemonic s'))%Z).
Proof.
  intros Hfuel Hfuel' Hsmall [(k & Hk & Hreach) Hsel].
  pose proof (place_placed bgbnds Hfits) as Hplaced.
  destruct (cur_reachable_inv Hspec Hwords bgbnds k Hplaced Hreach)
    as (Hpos & Hon & Hkb).
  rewrite <- Hpos in Hplaced.
  unfold WordKeyboardScreen_.handle, WordKeyboardScreen_.the_kbd. rewrite Hk.
  destruct (Button e =? input.Button1).
  { exists s, (Click e). split; [reflexivity|]. split; [apply words_stored_refl|].
    split; [by exists k|]. done. }
  destruct (Button e =? input.Button2).
  { destruct (Click e); simpl.
    2: { exists s, false. split; [reflexivity|]. split; [apply words_stored_refl|].
         split; [by exists k|]. done. }
    destruct (Keyboard_.Complete (kbd k)) as [w [|]] eqn:Hcomplete; simpl.
    2: { exists s, false. split; [reflexivity|]. split; [apply words_stored_refl|].
         split; [by exists k|]. done. }
    destruct (Clear_ok Hspec Hwords k Hplaced) as (k1 & Hk1 & _).
    { intros kb' Hkb'. by apply (kb_clear (kbd k)). }
    rewrite Hk1. cbn [mbind res_bind].
    rewrite (storeZ_spec _ _ w Hsel). cbn [mbind res_bind].
    match goal with
    | |- context [WordKeyboardScreen_.nextSlot fuel ?m0 _] => set (m' := m0)
    end.
    assert (Hlen : len m' = len (wk_Mnemonic s))
      by (unfold len, m', Mnemonic, Word; f_equal; apply length_insert).
    destruct (nextSlot_spec m' ltac:(lia) fuel (wk_selected s))
      as (sel' & ret & Hnext & Hrange & Hret & _); [lia | unfold len in *; lia|].
    rewrite Hnext. cbn [mbind res_bind].
    eexists _, ret. split; [reflexivity|]. simpl.
    split; [apply words_stored_insert; by apply (Complete_index (kbd k))|].
    split; [exists k1; split; [reflexivity|]; by apply (cur_clear bgbnds k)|].
    intros ->. lia. }
  simpl.
  destruct (Event_ok Hspec Hwords k e fuel Hplaced Hon Hkb Hfuel) as (k1 & Hk1 & _).
  rewrite Hk1. cbn [mbind res_bind].
  eexists _, false. split; [reflexivity|]. simpl.
  split; [apply words_stored_refl|].
  split; [exists k1; split; [reflexivity|]; by apply (cur_event bgbnds k fuel e)|].
  done.
Qed.

Lemma Layout_loop_ok fuel evs :
  10 <= fuel ->
  forall ctx s,
    length (wk_Mnemonic s) <= fuel -> (len (wk_Mnemonic s) < 2 ^ 31)%Z ->
    WKInv s ->
    exists ctx' s' (ret : bool),
      WordKeyboardScreen_.Layout_loop fuel evs ctx s = Ok (ctx', s', ret) /\
      words_stored (wk_Mnemonic s) (wk_Mnemonic s') /\
      (exists k, wk_kbd s' = Some k /\ cur_reachable bgbnds k) /\
      (ret = false ->
       ctx' = match evs with [] => ctx | _ => set_events ctx [] end /\
       (0 <= wk_selected s' < len (wk_Mnemonic s'))%Z).
Proof.
  intros Hfuel. induction evs as [|e rest IH]; intros ctx s Hfuel' Hsmall Hinv; simpl.
  - exists ctx, s, false. split; [reflexivity|]. split; [apply words_stored_refl|].
    split; [apply Hinv|]. intros _. split; [reflexivity | apply Hinv].
  - destruct (handle_ok fuel e s Hfuel Hfuel' Hsmall Hinv)
      as (s1 & ret & -> & Hst & Hk1 & Hsel1).
    cbn [mbind res_bind]. destruct ret.
    + eexists _, s1, true. split; [reflexivity|]. split; [exact Hst|].
      split; [exact Hk1 | discriminate].
    + pose proof Hst as [Hlen _].
      destruct (IH (set_events ctx rest) s1) as (ctx' & s' & ret & Hloop & Hst' & Hk' & Hret).
      { by rewrite Hlen. }
      { unfold len in *. by rewrite Hlen. }
      { split; [exact Hk1 | by apply Hsel1]. }
      exists ctx', s', ret. split; [exact Hloop|].
      split; [by apply (words_stored_trans _ (wk_Mnemonic s1))|].
      split; [exact Hk'|]. intros Hr. destruct (Hret Hr) as [-> Hsel']. split; [|exact Hsel'].
      by destruct rest.
Qed.

(** *** Typing a word *)

Lemma adjust_kbd k allow k' :
  Cursor_.adjust k allow = Ok k' -> kbd k' = kbd k.
Proof.
  unfold Cursor_.adjust.
  destruct (indexZ (positions k) (row k)) as [prow| |];
    cbn [mbind res_bind]; try discriminate.
  destruct (indexZ prow (col k)) as [cur| |]; cbn [mbind res_bind]; try discriminate.
  match goal with
  | |- context [forRange ?f 0 kbdKeys ?st] =>
      destruct (forRange f 0 kbdKeys st) as [[[[dist r] c] found]| |]
  end; cbn [mbind res_bind]; try discriminate.
  destruct found; [by intros [= <-]|].
  destruct (indexZ (positions k) (len kbdKeys - 1)) as [prow2| |];
    cbn [mbind res_bind]; try discriminate.
  by intros [= <-].
Qed.

(** On the word, the count and the mask, the keyboard with a cursor
    does what the keyboard does. *)
Lemma Cursor_rune_kbd k r k' :
  Cursor_.rune k r = Ok k' -> Keyboard_.rune (kbd k) r = Ok (kbd k').
Proof.
  unfold Cursor_.rune.
  destruct (Keyboard_.Valid (kbd k) r) eqn:Hv; simpl.
  - destruct (Keyboard_.rune (kbd k) r) as [kb'| |]; simpl; try discriminate.
    intros Hadj. apply adjust_kbd in Hadj. simpl in Hadj. by rewrite Hadj.
  - intros [= <-]. unfold Keyboard_.rune. by rewrite Hv.
Qed.

Lemma Cursor_Clear_kbd k k' :
  Cursor_.Clear k = Ok k' -> Keyboard_.Clear (kbd k) = Ok (kbd k').
Proof.
  unfold Cursor_.Clear.
  destruct (Keyboard_.Clear (kbd k)) as [kb'| |]; cbn [mbind res_bind]; try discriminate.
  destruct (indexZ kbdKeys (Z.quot (len kbdKeys) 2)) as [keys| |];
    cbn [mbind res_bind]; try discriminate.
  intros Hadj. apply adjust_kbd in Hadj. simpl in Hadj. by rewrite Hadj.
Qed.

Lemma runeEvent_handle fuel c s k :
  wk_kbd s = Some k ->
  WordKeyboardScreen_.handle fuel (runeEvent c) s =
    k' ← Cursor_.rune k (Z.of_nat (nat_of_ascii c));
    Ok (mkWordKeyboardScreen (wk_Mnemonic s) (wk_selected s) (Some k'), false).
Proof.
  intros Hk. unfold WordKeyboardScreen_.handle, WordKeyboardScreen_.the_kbd.
  rewrite Hk. simpl. unfold Cursor_.Event. simpl. unfold Rune. simpl.
  by rewrite nat_N_Z.
Qed.

(** The loop of [Layout] over the typed runes [cs]. *)
Lemma Layout_loop_runes fuel (cs : gostring) rest :
  10 <= fuel ->
  forall ctx s k,
    wk_kbd s = Some k -> cur_reachable bgbnds k ->
    exists ctx' k',
      WordKeyboardScreen_.Layout_loop fuel (map runeEvent cs ++ rest) ctx s =
        WordKeyboardScreen_.Layout_loop fuel rest ctx'
          (mkWordKeyboardScreen (wk_Mnemonic s) (wk_selected s) (Some k')) /\
      Keyboard_.enter (kbd k) cs = Ok (kbd k') /\
      cur_reachable bgbnds k' /\
      (rest <> [] -> set_events ctx' [] = set_events ctx []).
Proof.
  intros Hfuel. pose proof (place_placed bgbnds Hfits) as Hplaced.
  induction cs as [|c cs IH]; intros ctx s k Hk Hreach.
  - exists ctx, k. simpl. split; [|by split]. destruct s. simpl in Hk. by rewrite Hk.
  - change (map runeEvent (c :: cs) ++ rest)
      with (runeEvent c :: (map runeEvent cs ++ rest)).
    cbn [WordKeyboardScreen_.Layout_loop]. rewrite (runeEvent_handle fuel c s k Hk).
    destruct (cur_reachable_inv Hspec Hwords bgbnds k Hplaced Hreach)
      as (Hpos & Hon & Hkb).
    destruct (rune_ok Hspec Hwords k (Z.of_nat (nat_of_ascii c))) as (k1 & Hk1 & _);
      [by rewrite Hpos | assumption..|].
    rewrite Hk1. cbn [mbind res_bind].
    assert (Hreach1 : cur_reachable bgbnds k1).
    { apply (cur_event bgbnds k 1 (runeEvent c)); [exact Hreach|].
      unfold Cursor_.Event. simpl. unfold Rune. simpl. by rewrite nat_N_Z. }
    destruct (IH (set_events ctx (map runeEvent cs ++ rest))
                (mkWordKeyboardScreen (wk_Mnemonic s) (wk_selected s) (Some k1)) k1
                eq_refl Hreach1) as (ctx' & k' & Hloop & Henter & Hreach' & Hctx).
    exists ctx', k'. split; [exact Hloop|]. split; [|by split].
    rewrite enter_cons, (Cursor_rune_kbd _ _ _ Hk1). exact Henter.
Qed.

Lemma set_events_set (ctx : Context) a b :
  set_events (set_events ctx a) b = set_events ctx b.
Proof. by destruct ctx. Qed.

Lemma Clear_word (kb kb' : Keyboard) :
  Keyboard_.Clear kb = Ok kb' -> kb_Word kb' = [].
Proof.
  unfold Keyboard_.Clear. intros Hclear.
  destruct (updateMask_counted Hspec (mkKeyboard [] (nvalid kb) (mask kb)))
    as (kb1 & Hkb1 & Hword & _).
  rewrite Hkb1 in Hclear. by injection Hclear as <-.
Qed.

(** An empty keyboard that can be met is ready for any word. *)
Lemma reachable_empty_synced (kb : Keyboard) w :
  kb_reachable kb -> kb_Word kb = [] -> w ∈ Wordlist -> synced kb [].
Proof.
  intros Hreach Hword Hw.
  pose proof (reachable_updateMask kb Hreach) as Hfix.
  destruct kb as [W nv m]. simpl in Hword. subst W.
  destruct (updateMask_synced Hspec [] w nv m Hw (prefix_nil w)) as (k' & Hk' & Hsync).
  change (ToUpper_ascii []) with (@nil ascii) in Hk'.
  rewrite Hfix in Hk'. by injection Hk' as <-.
Qed.

Lemma handle_ignored fuel e s :
  Button e = input.Button2 -> Click e = false ->
  WordKeyboardScreen_.handle fuel e s = Ok (s, false).
Proof.
  intros Hb Hc. unfold WordKeyboardScreen_.handle. by rewrite Hb, Hc.
Qed.

Lemma handle_store fuel e s k w :
  Button e = input.Button2 -> Click e = true ->
  wk_kbd s = Some k -> Keyboard_.Complete (kbd k) = (w, true) ->
  WordKeyboardScreen_.handle fuel e s =
    k ← Cursor_.Clear k;
    m ← storeZ (wk_Mnemonic s) (wk_selected s) w;
    '(sel, ret) ← WordKeyboardScreen_.nextSlot fuel m (wk_selected s);
    Ok (mkWordKeyboardScreen m sel (Some k), ret).
Proof.
  intros Hb Hc Hk Hcomplete.
  unfold WordKeyboardScreen_.handle, WordKeyboardScreen_.the_kbd.
  rewrite Hb, Hc, Hk. cbn [Nat.eqb negb mbind res_bind].
  change (input.Button2 =? input.Button1) with false.
  change (input.Button2 =? input.Button2) with true. cbn iota.
  cbn [mbind res_bind]. by rewrite Hcomplete.
Qed.

Lemma enter_word_screen fuel s k ctx i w e1 e2 :
  10 <= fuel -> length (wk_Mnemonic s) <= fuel ->
  (len (wk_Mnemonic s) < 2 ^ 31)%Z ->
  (0 <= wk_selected s < len (wk_Mnemonic s))%Z ->
  wk_kbd s = Some k -> cur_reachable bgbnds k -> kb_Word (kbd k) = [] ->
  Wordlist !! i = Some w ->
  Button e1 = input.Button2 -> Click e1 = false ->
  Button e2 = input.Button2 -> Click e2 = true ->
  exists s' (ret : bool),
    WordKeyboardScreen_.Layout_loop fuel (map runeEvent (ToUpper_ascii w) ++ [e1; e2]) ctx s
      = Ok (set_events ctx [], s', ret) /\
    wk_Mnemonic s' = <[Z.to_nat (wk_selected s) := Z.of_nat i]> (wk_Mnemonic s) /\
    (exists k', wk_kbd s' = Some k' /\ kb_Word (kbd k') = []) /\
    (wk_selected s < wk_selected s')%Z /\
    (if ret then wk_selected s' = len (wk_Mnemonic s)
     else (wk_selected s' < len (wk_Mnemonic s))%Z /\
          wk_Mnemonic s !! Z.to_nat (wk_selected s') = Some (-1)%Z) /\
    forall j, (wk_selected s < j < wk_selected s')%Z ->
      wk_Mnemonic s !! Z.to_nat j <> Some (-1)%Z.
Proof.
  intros Hfuel Hfuel' Hsmall Hsel Hk Hreach Hword Hi Hb1 Hc1 Hb2 Hc2.
  pose proof (place_placed bgbnds Hfits) as Hplaced.
  assert (Hw : w ∈ Wordlist) by (by eapply list_elem_of_lookup_2).
  destruct (cur_reachable_inv Hspec Hwords bgbnds k Hplaced Hreach) as (_ & _ & Hkb).
  pose proof (reachable_empty_synced (kbd k) w Hkb Hword Hw) as Hsync.
  destruct (Layout_loop_runes fuel (ToUpper_ascii w) [e1; e2] Hfuel ctx s k Hk Hreach)
    as (ctx1 & k1 & -> & Henter & Hreach1 & Hctx).
  destruct (enter_word Hspec w i Hi w [] (kbd k) eq_refl Hsync)
    as (kb1 & Henter' & Hcomplete).
  rewrite Henter in Henter'. injection Henter' as <-.
  destruct (cur_reachable_inv Hspec Hwords bgbnds k1 Hplaced Hreach1)
    as (Hpos1 & _ & Hkb1).
  cbn [WordKeyboardScreen_.Layout_loop].
  rewrite (handle_ignored fuel e1 _ Hb1 Hc1). cbn [mbind res_bind].
  rewrite (handle_store fuel e2
             (mkWordKeyboardScreen (wk_Mnemonic s) (wk_selected s) (Some k1))
             k1 (Z.of_nat i) Hb2 Hc2 eq_refl Hcomplete).
  cbn [wk_kbd wk_Mnemonic wk_selected].
  destruct (Clear_ok Hspec Hwords k1) as (k2 & Hk2 & _); [by rewrite Hpos1 | |].
  { intros kb' Hkb'. by apply (kb_clear (kbd k1)). }
  rewrite Hk2. cbn [mbind res_bind].
  rewrite (storeZ_spec _ _ (Z.of_nat i) Hsel). cbn [mbind res_bind].
  match goal with
  | |- context [WordKeyboardScreen_.nextSlot fuel ?m0 _] => set (m' := m0)
  end.
  assert (Hlen : len m' = len (wk_Mnemonic s))
    by (unfold len, m', Mnemonic, Word; f_equal; apply length_insert).
  destruct (nextSlot_spec m' ltac:(lia) fuel (wk_selected s))
    as (sel' & ret & Hnext & Hrange & Hret & Hbetween); [lia | unfold len in *; lia|].
  rewrite Hnext. cbn [mbind res_bind].
  assert (Hother : forall j, (wk_selected s < j)%Z ->
            m' !! Z.to_nat j = wk_Mnemonic s !! Z.to_nat j).
  { intros j Hj. unfold m', Mnemonic, Word. apply list_lookup_insert_ne. lia. }
  assert (Hfinal : set_events (set_events ctx1 [e2]) [] = set_events ctx [])
    by (rewrite set_events_set; by apply Hctx).
  exists (mkWordKeyboardScreen m' sel' (Some k2)), ret.
  split; [destruct ret; cbn [WordKeyboardScreen_.Layout_loop]; by rewrite Hfinal|].
  cbn [wk_Mnemonic wk_selected wk_kbd].
  split; [reflexivity|].
  split; [exists k2; split; [reflexivity|];
          by apply (Clear_word (kbd k1)), Cursor_Clear_kbd|].
  split; [lia|]. split.
  - destruct ret; [lia|]. destruct Hret as [Hlt Hempty]. split; [lia|].
    rewrite <- Hother by lia. exact Hempty.
  - intros j Hj. rewrite <- Hother by lia. by apply Hbetween.
Qed.

End WordScreen.

(** X20.  The word keyboard screen stores words of the list only, and
    never hangs or panics.  For a word list of at least two words that
    is strictly sorted, lower-case and looked up by first completion, a
    key image that fits, a selected slot that is a slot of the mnemonic,
    no keyboard yet or one that can be met, and fuel for ten rounds and
    for one round for each slot: [Layout] returns, whatever events are
    queued; the mnemonic keeps its length, and a slot that changed holds
    the index of a word of the list; the keyboard is one that can be
    met; and when [Layout] returns false the queue is used up and the
    selected slot is a slot of the mnemonic. *)
Theorem WordKeyboardScreen_Layout_safe `{Bip39} `{IntSize} (bgbnds : Rectangle)
    (fuel : nat) (s : WordKeyboardScreen) (ctx : Context) :
  Bip39Spec -> 2 <= length Wordlist -> key_fits bgbnds ->
  10 <= fuel -> length (wk_Mnemonic s) <= fuel ->
  (len (wk_Mnemonic s) < 2 ^ 31)%Z ->
  (0 <= wk_selected s < len (wk_Mnemonic s))%Z ->
  (forall k, wk_kbd s = Some k -> cur_reachable bgbnds k) ->
  exists ctx' s' (ret : bool),
    WordKeyboardScreen_.Layout fuel bgbnds s ctx = Ok (ctx', s', ret) /\
    length (wk_Mnemonic s') = length (wk_Mnemonic s) /\
    (forall i w, wk_Mnemonic s' !! i = Some w ->
       wk_Mnemonic s !! i = Some w \/ (0 <= w < len Wordlist)%Z) /\
    (exists k, wk_kbd s' = Some k /\ cur_reachable bgbnds k) /\
    (ret = false ->
     events ctx' = [] /\ (0 <= wk_selected s' < len (wk_Mnemonic s'))%Z).
Proof.
  intros Hspec Hwords Hfits Hfuel Hfuel' Hsmall Hsel Hkbd.
  unfold WordKeyboardScreen_.Layout.
  assert (Hk : exists k,
            match wk_kbd s with
            | Some k => Ok k
            | None => Cursor_.NewKeyboard bgbnds
            end = Ok k /\ cur_reachable bgbnds k).
  { destruct (wk_kbd s) as [k|] eqn:Hs; [exists k; split; [reflexivity | by apply Hkbd]|].
    pose proof (place_placed bgbnds Hfits) as Hplaced.
    destruct (Clear_ok Hspec Hwords
                (mkCursor (mkKeyboard [] 0 0%N) (Cursor_.place bgbnds) 0 0))
      as (k1 & Hk1 & _); [exact Hplaced | |].
    { intros kb' Hkb'. by apply kb_new. }
    exists k1. split; [exact Hk1 | by apply cur_new]. }
  destruct Hk as (k & -> & Hreach). cbn [mbind res_bind].
  destruct (Layout_loop_ok Hspec Hwords bgbnds Hfits fuel (events ctx) Hfuel ctx
              (mkWordKeyboardScreen (wk_Mnemonic s) (wk_selected s) (Some k)))
    as (ctx' & s' & ret & Hloop & [Hlen Hst] & Hk' & Hret); simpl; [assumption..| |].
  { split; [by exists k | exact Hsel]. }
  exists ctx', s', ret. split; [exact Hloop|]. split; [exact Hlen|].
  split; [exact Hst|]. split; [exact Hk'|].
  intros Hr. destruct (Hret Hr) as [-> Hsel']. split; [|exact Hsel'].
  by destruct (events ctx) eqn:Hev.
Qed.

Lemma WordKeyboardScreen_Layout_safe_witness :
  let bgbnds := mkRectangle (mkPoint 0 0) (mkPoint 20 20) in
  let s := mkWordKeyboardScreen [(-1)%Z; (-1)%Z] 0 None in
  let ctx := set_events (sampleContext 0%Z) (clickEvents input.Button3) in
  @Bip39Spec sampleBip39 /\
  exists ctx' s' (ret : bool),
    @WordKeyboardScreen_.Layout sampleBip39 Int32 10 bgbnds s ctx = Ok (ctx', s', ret) /\
    length (wk_Mnemonic s') = 2.
Proof.
  split; [exact sampleBip39_spec|].
  destruct (@WordKeyboardScreen_Layout_safe sampleBip39 Int32
              (mkRectangle (mkPoint 0 0) (mkPoint 20 20)) 10
              (mkWordKeyboardScreen [(-1)%Z; (-1)%Z] 0 None)
              (set_events (sampleContext 0%Z) (clickEvents input.Button3))
              sampleBip39_spec ltac:(vm_compute; lia)
              ltac:(repeat split; vm_compute; discriminate)
              ltac:(lia) ltac:(simpl; lia) ltac:(vm_compute; reflexivity)
              ltac:(vm_compute; split; [discriminate | reflexivity])
              ltac:(intros k Hk; discriminate Hk))
    as (ctx' & s' & ret & Hlayout & Hlen & _).
  exists ctx', s', ret. split; [exact Hlayout | exact Hlen].
Defined.

(** X21.  A word that is typed and confirmed is stored.  On a screen
    with no keyboard yet, or with an empty one that can be met, and with
    a selected slot of the mnemonic, let the queue hold the letters of a
    word of the list, in upper case, and then a click of button 2.
    Then [Layout] uses up the queue, stores the index of the word in
    the selected slot and changes no other slot, and clears the
    keyboard; the selected slot moves on to the next slot that holds
    [-1], and [Layout] returns false; or there is no such slot, and
    [Layout] returns true. *)
Theorem WordKeyboardScreen_enter_word `{Bip39} `{IntSize} (bgbnds : Rectangle)
    (fuel : nat) (s : WordKeyboardScreen) (ctx : Context) (i : nat) (w : gostring) :
  Bip39Spec -> 2 <= length Wordlist -> key_fits bgbnds ->
  10 <= fuel -> length (wk_Mnemonic s) <= fuel ->
  (len (wk_Mnemonic s) < 2 ^ 31)%Z ->
  (0 <= wk_selected s < len (wk_Mnemonic s))%Z ->
  (forall k, wk_kbd s = Some k -> cur_reachable bgbnds k /\ kb_Word (kbd k) = []) ->
  Wordlist !! i = Some w ->
  events ctx = map runeEvent (ToUpper_ascii w) ++ clickEvents input.Button2 ->
  exists ctx' s' (ret : bool),
    WordKeyboardScreen_.Layout fuel bgbnds s ctx = Ok (ctx', s', ret) /\
    events ctx' = [] /\
    wk_Mnemonic s' = <[Z.to_nat (wk_selected s) := Z.of_nat i]> (wk_Mnemonic s) /\
    (exists k', wk_kbd s' = Some k' /\ kb_Word (kbd k') = []) /\
    (wk_selected s < wk_selected s')%Z /\
    (if ret then wk_selected s' = len (wk_Mnemonic s)
     else (wk_selected s' < len (wk_Mnemonic s))%Z /\
          wk_Mnemonic s !! Z.to_nat (wk_selected s') = Some (-1)%Z) /\
    forall j, (wk_selected s < j < wk_selected s')%Z ->
      wk_Mnemonic s !! Z.to_nat j <> Some (-1)%Z.
Proof.
  intros Hspec Hwords Hfits Hfuel Hfuel' Hsmall Hsel Hkbd Hi Hev.
  unfold WordKeyboardScreen_.Layout.
  assert (Hk : exists k,
            match wk_kbd s with
            | Some k => Ok k
            | None => Cursor_.NewKeyboard bgbnds
            end = Ok k /\ cur_reachable bgbnds k /\ kb_Word (kbd k) = []).
  { destruct (wk_kbd s) as [k|] eqn:Hs;
      [exists k; split; [reflexivity | by apply Hkbd]|].
    pose proof (place_placed bgbnds Hfits) as Hplaced.
    destruct (Clear_ok Hspec Hwords
                (mkCursor (mkKeyboard [] 0 0%N) (Cursor_.place bgbnds) 0 0))
      as (k1 & Hk1 & _); [exact Hplaced | |].
    { intros kb' Hkb'. by apply kb_new. }
    exists k1. split; [exact Hk1|]. split; [by apply cur_new|].
    apply (Clear_word Hspec (mkKeyboard [] 0 0%N)).
    exact (Cursor_Clear_kbd _ k1 Hk1). }
  destruct Hk as (k & -> & Hreach & Hword). cbn [mbind res_bind]. rewrite Hev.
  destruct (enter_word_screen Hspec Hwords bgbnds Hfits fuel
              (mkWordKeyboardScreen (wk_Mnemonic s) (wk_selected s) (Some k)) k ctx i w
              (mkEvent (input.mkEvent input.Button2 true 0) false)
              (mkEvent (input.mkEvent input.Button2 false 0) true)
              Hfuel Hfuel' Hsmall Hsel eq_refl Hreach Hword Hi
              eq_refl eq_refl eq_refl eq_refl)
    as (s' & ret & Hloop & Hrest).
  exists (set_events ctx []), s', ret. split; [exact Hloop|]. split; [reflexivity|].
  exact Hrest.
Qed.

Lemma WordKeyboardScreen_enter_word_witness :
  let bgbnds := mkRectangle (mkPoint 0 0) (mkPoint 20 20) in
  let s := mkWordKeyboardScreen [(-1)%Z; 4%Z; (-1)%Z] 0 None in
  let ctx := set_events (sampleContext 0%Z)
               (map runeEvent (list_ascii_of_string "ACTION")
                ++ clickEvents input.Button2) in
  @Bip39Spec sampleBip39 /\
  exists ctx' s' (ret : bool),
    @WordKeyboardScreen_.Layout sampleBip39 Int32 10 bgbnds s ctx = Ok (ctx', s', ret) /\
    wk_Mnemonic s' = [1%Z; 4%Z; (-1)%Z].
Proof.
  split; [exact sampleBip39_spec|].
  destruct (@WordKeyboardScreen_enter_word sampleBip39 Int32
              (mkRectangle (mkPoint 0 0) (mkPoint 20 20)) 10
              (mkWordKeyboardScreen [(-1)%Z; 4%Z; (-1)%Z] 0 None)
              (set_events (sampleContext 0%Z)
                 (map runeEvent (list_ascii_of_string "ACTION")
                  ++ clickEvents input.Button2))
              1 (list_ascii_of_string "action")
              sampleBip39_spec ltac:(vm_compute; lia)
              ltac:(repeat split; vm_compute; discriminate)
              ltac:(lia) ltac:(simpl; lia) ltac:(vm_compute; reflexivity)
              ltac:(vm_compute; split; [discriminate | reflexivity])
              ltac:(intros k Hk; discriminate Hk)
              eq_refl eq_refl)
    as (ctx' & s' & ret & Hlayout & _ & Hm & _).
  exists ctx', s', ret. split; [exact Hlayout | exact Hm].
Defined.

(** ** Runs of frames *)

Section Frames.

Context `{RootScreen}.

Lemma dumped_app (l1 l2 : list FrameEffect) : dumped (l1 ++ l2) = dumped l1 ++ dumped l2.
Proof. apply omap_app. Qed.

Lemma drawn_app (l1 l2 : list FrameEffect) : drawn (l1 ++ l2) = drawn l1 + drawn l2.
Proof. unfold drawn. by rewrite omap_app, length_app. Qed.

Lemma pump_requested btns ctx (eat : bool) :
  (App_.pump btns ctx eat false).2 = requested btns.
Proof.
  assert (Hgen : forall shot, (App_.pump btns ctx eat shot).2 = shot || requested btns).
  { revert ctx eat. induction btns as [|e rest IH]; intros ctx eat shot; simpl.
    - by rewrite orb_false_r.
    - destruct (input.Button_ e =? input.Screenshot); simpl.
      + rewrite IH. by rewrite orb_true_r.
      + destruct eat; by rewrite IH. }
  apply Hgen.
Qed.

(** Up to the call of the screen a frame neither draws nor dumps. *)
Lemma prepare_effects w btns (a a1 : App) (shot : bool) :
  App_.prepare_ w btns a = Some (a1, shot) ->
  shot = requested btns /\ Debug a1 = Debug a /\
  screenshotCounter a1 = screenshotCounter a /\
  exists pre, effects a1 = effects a ++ pre /\ drawn pre = 0 /\ dumped pre = [].
Proof.
  unfold App_.prepare_. intros Hprep.
  destruct w as [inserted| |]; [| |destruct (idle_timeout a); [|discriminate Hprep]];
    match type of Hprep with
    | context [App_.pump ?b ?c ?e false] =>
        pose proof (pump_requested b c e) as Hshot;
        destruct (App_.pump b c e false) as [[ctx1 eat1] shot1]
    end;
    simpl in Hshot; cbv zeta in Hprep; injection Hprep as <- <-; simpl;
    (split; [exact Hshot|]); (split; [reflexivity|]); (split; [reflexivity|]);
    destruct (negb _);
    first [ exists [NewIdleTimer idleTimeout]; split; [reflexivity | by split]
          | exists []; split; [by rewrite app_nil_r | by split]
          | exists [SaveScreen; NewIdleTimer idleTimeout];
            split; [by rewrite <- app_assoc | by split]
          | exists [SaveScreen]; split; [reflexivity | by split] ].
Qed.

(** One frame: what it adds to the effects. *)
Lemma Frame_effects w btns (a a' : App) :
  App_.Frame w btns a = Some a' ->
  let shot := Debug a && requested btns in
  Debug a' = Debug a /\
  screenshotCounter a' = screenshotCounter a + (if shot then 1 else 0) /\
  exists new,
    effects a' = effects a ++ new /\
    drawn new = 1 /\
    dumped new = (if shot then [screenshotCounter a + 1] else []).
Proof.
  unfold App_.Frame. intros Hframe.
  destruct (App_.prepare_ w btns a) as [[a1 shot1]|] eqn:Hprep; [|discriminate].
  apply prepare_effects in Hprep as (-> & Hdebug & Hcount & pre & Heff & Hdr & Hdu).
  destruct (MainScreen_Layout (scr a1) (ctx_ a1) (err_ a1)) as [ctx2 s2].
  rewrite Hdebug, Hcount, Heff in Hframe. cbv zeta.
  destruct (Debug a && requested btns); injection Hframe as <-; simpl;
    (split; [reflexivity|]); (split; [lia|]).
  - exists (pre ++ [Draw] ++ [DumpImage (screenshotCounter a + 1)]).
    rewrite <- !app_assoc. split; [reflexivity|].
    rewrite !drawn_app, !dumped_app, Hdr, Hdu. by split.
  - exists (pre ++ [Draw]). rewrite <- !app_assoc. split; [reflexivity|].
    rewrite !drawn_app, !dumped_app, Hdr, Hdu. by split.
Qed.

End Frames.



(** ** The seed screen *)

Lemma empty_spec (m : Mnemonic) :
  SeedScreen_.empty m = true <-> forall w, w ∈ m -> w = (-1)%Z.
Proof.
  induction m as [|w m IH]; simpl.
  - split; [|reflexivity]. intros _ w Hw. by apply elem_of_nil in Hw.
  - destruct (Z.eqb_spec w (-1)) as [->|Hw]; simpl.
    + rewrite IH. split.
      * intros Hall v [->|Hv]%elem_of_cons; [reflexivity | by apply Hall].
      * intros Hall v Hv. apply Hall. by right.
    + split; [discriminate|]. intros Hall. exfalso. apply Hw, Hall. by left.
Qed.

Lemma empty_false (m : Mnemonic) :
  SeedScreen_.empty m = false -> exists w, w ∈ m /\ w <> (-1)%Z.
Proof.
  induction m as [|w m IH]; simpl; [discriminate|].
  destruct (Z.eqb_spec w (-1)) as [->|Hw]; simpl.
  - intros (v & Hv & Hne)%IH. exists v. split; [by right | exact Hne].
  - intros _. exists w. split; [by left | exact Hw].
Qed.

Lemma completeLoop_spec (m : Mnemonic) (c : bool) :
  SeedScreen_.completeLoop m c = true <-> c = true /\ forall w, w ∈ m -> w <> (-1)%Z.
Proof.
  induction m as [|w m IH]; simpl.
  - split; [|by intros [-> _]]. intros ->. split; [reflexivity|].
    intros w Hw. by apply elem_of_nil in Hw.
  - destruct (Z.eqb_spec w (-1)) as [->|Hw].
    + split; [discriminate|]. intros [_ Hall]. exfalso. apply (Hall (-1)%Z); [by left | reflexivity].
    + rewrite IH. split; intros [Hc Hall]; (split; [exact Hc|]).
      * intros v [->|Hv]%elem_of_cons; [exact Hw | by apply Hall].
      * intros v Hv. apply Hall. by right.
Qed.

Lemma complete_spec (m : Mnemonic) :
  SeedScreen_.complete m = true <-> m <> [] /\ forall w, w ∈ m -> w <> (-1)%Z.
Proof.
  unfold SeedScreen_.complete. rewrite completeLoop_spec.
  assert (Hlen : (0 <? len m)%Z = true <-> m <> []).
  { unfold len. destruct m; simpl; [split; [discriminate | done]|].
    split; [discriminate|]. intros _. apply Z.ltb_lt. lia. }
  by rewrite Hlen.
Qed.

(** The loop of [emptyMnemonic] over the slots of [m]. *)
Lemma fill_slots {A} (a : A) (m : list A) k :
  k <= length m ->
  foldl (fun m i => <[i := a]> m) m (seq 0 k) = replicate k a ++ drop k m.
Proof.
  induction k as [|k IH]; intros Hk; [reflexivity|].
  rewrite seq_S, foldl_app, IH by lia. cbn [foldl Nat.add].
  destruct (lookup_lt_is_Some_2 m k) as [x Hx]; [lia|].
  rewrite (drop_S m x k Hx).
  rewrite insert_app_r_alt by (rewrite length_replicate; lia).
  rewrite length_replicate, Nat.sub_diag.
  rewrite replicate_S_end, <- app_assoc. reflexivity.
Qed.

Lemma emptyMnemonic_spec (n : Z) :
  (0 <= n)%Z ->
  SeedScreen_.emptyMnemonic n = Ok (replicate (Z.to_nat n) (-1)%Z).
Proof.
  intros Hn. unfold SeedScreen_.emptyMnemonic.
  destruct (Z.ltb_spec n 0); [lia|]. f_equal.
  rewrite fill_slots by reflexivity.
  rewrite length_replicate, drop_ge by (rewrite length_replicate; lia).
  apply app_nil_r.
Qed.

(** X24.  The event switch of the seed screen.  With the selected word
    a word of the mnemonic (of fewer than 2^31 words), an event leaves
    the mnemonic as it is and the selection on a word of the mnemonic,
    at most one word away.  The switch returns the mnemonic only at a
    click of button 3, and only when the mnemonic has a word in every
    slot and is valid; a mnemonic with an empty slot or an invalid one
    is never returned.  It returns without a mnemonic only at a click
    of button 1 when no slot holds a word; with a word in some slot such
    a click opens the dialog that asks before discarding.  The word
    keyboard that a click of button 2 or of the center button opens
    works on the mnemonic of the screen at the selected slot. *)
Theorem SeedScreen_switch `{IntSize} (valid : Mnemonic -> bool) (e : Event)
    (s s' : SeedWords) (r : SeedExit) :
  let m := sw_Mnemonic s in
  (len m < 2 ^ 31)%Z ->
  (0 <= sw_selected s <= Z.max 0 (len m - 1))%Z ->
  SeedScreen_.handle valid (SeedScreen_.complete m) e s = (s', r) ->
  sw_Mnemonic s' = m /\
  (0 <= sw_selected s' <= Z.max 0 (len m - 1))%Z /\
  (Z.abs (sw_selected s' - sw_selected s) <= 1)%Z /\
  match r with
  | SeedReturn (Some m') =>
      m' = m /\ s' = s /\ isClick input.Button3 e = true /\
      m <> [] /\ (forall w, w ∈ m -> w <> (-1)%Z) /\ valid m = true
  | SeedReturn None =>
      s' = s /\ isClick input.Button1 e = true /\ forall w, w ∈ m -> w = (-1)%Z
  | SeedContinue =>
      (sw_cancel s' <> sw_cancel s ->
       isClick input.Button1 e = true /\ exists w, w ∈ m /\ w <> (-1)%Z) /\
      (sw_warning s' <> sw_warning s ->
       isClick input.Button3 e = true /\ SeedScreen_.complete m = true /\
       valid m = false) /\
      (sw_input s' <> sw_input s ->
       (isClick input.Button2 e = true \/ isClick input.Center e = true) /\
       sw_input s' = Some (mkWordKeyboardScreen m (sw_selected s) None))
  end.
Proof.
  intros m Hsmall Hsel Hhandle. change (2 ^ 31)%Z with 2147483648%Z in Hsmall.
  assert (Hlen0 : (0 <= len m)%Z) by (unfold len; lia).
  assert (Hsame : (Z.abs (sw_selected s - sw_selected s) <= 1)%Z) by lia.
  (* an event that leaves the dialogs alone *)
  assert (Hkeep : forall s0 : SeedWords,
            sw_Mnemonic s0 = m -> sw_input s0 = sw_input s ->
            sw_cancel s0 = sw_cancel s -> sw_warning s0 = sw_warning s ->
            (0 <= sw_selected s0 <= Z.max 0 (len m - 1))%Z ->
            (Z.abs (sw_selected s0 - sw_selected s) <= 1)%Z ->
            forall P1 P2 P3 : Prop,
            sw_Mnemonic s0 = m /\
            (0 <= sw_selected s0 <= Z.max 0 (len m - 1))%Z /\
            (Z.abs (sw_selected s0 - sw_selected s) <= 1)%Z /\
            (sw_cancel s0 <> sw_cancel s -> P1) /\
            (sw_warning s0 <> sw_warning s -> P2) /\
            (sw_input s0 <> sw_input s -> P3)).
  { intros s0 Hm Hi Hc Hw Hs1 Hs2 P1 P2 P3.
    repeat split; try done; try lia. }
  assert (Hstay : forall P1 P2 P3 : Prop,
            sw_Mnemonic s = m /\
            (0 <= sw_selected s <= Z.max 0 (len m - 1))%Z /\
            (Z.abs (sw_selected s - sw_selected s) <= 1)%Z /\
            (sw_cancel s <> sw_cancel s -> P1) /\
            (sw_warning s <> sw_warning s -> P2) /\
            (sw_input s <> sw_input s -> P3)).
  { by apply Hkeep. }
  unfold SeedScreen_.handle in Hhandle. fold m in Hhandle. unfold isClick.
  destruct (Button e =? input.Button1) eqn:Hb1.
  { destruct (Click e); cbn [negb andb] in Hhandle.
    2: { injection Hhandle as <- <-. apply Hstay. }
    destruct (SeedScreen_.empty m) eqn:Hem; injection Hhandle as <- <-;
      cbn [sw_Mnemonic sw_selected sw_input sw_cancel sw_warning].
    - split; [reflexivity|]. split; [exact Hsel|]. split; [exact Hsame|].
      split; [reflexivity|]. split; [reflexivity|]. by apply empty_spec.
    - split; [reflexivity|]. split; [exact Hsel|]. split; [exact Hsame|].
      split; [|split; intros Hne; by destruct Hne].
      intros _. split; [reflexivity|]. by apply empty_false. }
  destruct ((Button e =? input.Button2) || (Button e =? input.Center)) eqn:Hb2.
  { destruct (Click e); cbn [negb andb] in Hhandle; injection Hhandle as <- <-.
    2: apply Hstay.
    cbn [sw_Mnemonic sw_selected sw_input sw_cancel sw_warning].
    split; [reflexivity|]. split; [exact Hsel|]. split; [exact Hsame|].
    split; [intros Hne; by destruct Hne|]. split; [intros Hne; by destruct Hne|].
    intros _. split; [|reflexivity].
    rewrite !andb_true_r. by apply orb_true_iff. }
  destruct (Button e =? input.Button3) eqn:Hb3.
  { destruct (Click e); cbn [negb andb orb] in Hhandle.
    2: { injection Hhandle as <- <-. apply Hstay. }
    destruct (SeedScreen_.complete m) eqn:Hcomplete; cbn [negb] in Hhandle.
    2: { injection Hhandle as <- <-. apply Hstay. }
    destruct (valid m) eqn:Hvalid; cbn [negb] in Hhandle; injection Hhandle as <- <-;
      cbn [sw_Mnemonic sw_selected sw_input sw_cancel sw_warning].
    - apply complete_spec in Hcomplete as [Hne Hall].
      split; [reflexivity|]. split; [exact Hsel|]. split; [exact Hsame|].
      by repeat split.
    - split; [reflexivity|]. split; [exact Hsel|]. split; [exact Hsame|].
      split; [intros Hne; by destruct Hne|].
      split; [|intros Hne; by destruct Hne].
      intros _. by repeat split. }
  destruct (Button e =? input.Down) eqn:Hbd.
  { rewrite (wrap_small (len m - 1)) in Hhandle
      by (change (2 ^ 31)%Z with 2147483648%Z; lia).
    destruct (Pressed e); cbn [andb] in Hhandle.
    2: { injection Hhandle as <- <-. apply Hstay. }
    destruct (Z.ltb_spec (sw_selected s) (len m - 1)); injection Hhandle as <- <-.
    2: apply Hstay.
    apply Hkeep; try reflexivity;
      cbn [sw_selected]; rewrite wrap_small
        by (change (2 ^ 31)%Z with 2147483648%Z; lia); lia. }
  destruct (Button e =? input.Up) eqn:Hbu.
  { destruct (Pressed e); cbn [andb] in Hhandle.
    2: { injection Hhandle as <- <-. apply Hstay. }
    destruct (Z.ltb_spec 0 (sw_selected s)); injection Hhandle as <- <-.
    2: apply Hstay.
    apply Hkeep; try reflexivity;
      cbn [sw_selected]; rewrite wrap_small
        by (change (2 ^ 31)%Z with 2147483648%Z; lia); lia. }
  injection Hhandle as <- <-. apply Hstay.
Qed.

Lemma SeedScreen_switch_witness :
  let s := mkSeedWords [3; -1]%Z 0 None None None in
  let s' := mkSeedWords [3; -1]%Z 1 None None None in
  let e := mkEvent (press input.Down) false in
  (len (sw_Mnemonic s) < 2 ^ 31)%Z /\
  (0 <= sw_selected s <= Z.max 0 (len (sw_Mnemonic s) - 1))%Z /\
  @SeedScreen_.handle Int32 (fun _ => true)
    (SeedScreen_.complete (sw_Mnemonic s)) e s = (s', SeedContinue) /\
  sw_Mnemonic s' = sw_Mnemonic s /\
  (0 <= sw_selected s' <= Z.max 0 (len (sw_Mnemonic s) - 1))%Z.
Proof.
  split; [vm_compute; reflexivity|]. split; [vm_compute; split; discriminate|].
  split; [reflexivity|].
  destruct (@SeedScreen_switch Int32 (fun _ => true)
              (mkEvent (press input.Down) false)
              (mkSeedWords [3; -1]%Z 0 None None None)
              (mkSeedWords [3; -1]%Z 1 None None None) SeedContinue
              ltac:(vm_compute; reflexivity)
              ltac:(vm_compute; split; discriminate)
              eq_refl) as (Hm & Hsel & _).
  split; [exact Hm | exact Hsel].
Defined.

(** X25.  [emptyMnemonic] gives a mnemonic of as many slots as asked
    for, none of which holds a word: the seed screen takes it for empty
    and, whatever its length, not for complete. *)
Theorem emptyMnemonic_empty (n : Z) :
  (0 <= n)%Z ->
  exists m, SeedScreen_.emptyMnemonic n = Ok m /\ len m = n /\
    (forall w, w ∈ m -> w = (-1)%Z) /\
    SeedScreen_.empty m = true /\ SeedScreen_.complete m = false.
Proof.
  intros Hn. exists (replicate (Z.to_nat n) (-1)%Z).
  assert (Hall : forall w, w ∈ replicate (Z.to_nat n) (-1)%Z -> w = (-1)%Z)
    by (intros w Hw; by apply elem_of_replicate in Hw as [-> _]).
  split; [by apply emptyMnemonic_spec|].
  split; [unfold len; rewrite length_replicate; lia|].
  split; [exact Hall|]. split; [by apply empty_spec|].
  destruct (SeedScreen_.complete _) eqn:Hc; [|reflexivity].
  apply complete_spec in Hc as [Hne Hfull]. exfalso.
  destruct (Z.to_nat n) as [|k]; [by apply Hne|].
  apply (Hfull (-1)%Z); [by left | reflexivity].
Qed.

Lemma emptyMnemonic_empty_witness :
  exists m, SeedScreen_.emptyMnemonic 12 = Ok m /\ len m = 12%Z /\
    SeedScreen_.empty m = true /\ SeedScreen_.complete m = false.
Proof.
  destruct (emptyMnemonic_empty 12 ltac:(lia)) as (m & Hm & Hl & _ & He & Hc).
  exists m. by repeat split.
Defined.
